(** * Goroutine lowering and heap-to-stack promotion in TinyGo

    A shallow embedding of [compiler/goroutine-lowering.go] and
    [transform/allocs.go]: the LLVM module the passes mutate is a record of
    functions, blocks and instructions; each loop of the passes is a
    function over that record; the properties the specification states
    about the passes are theorems about those functions. *)

From Stdlib Require Import String Ascii ZArith Bool Arith Lia List.
Import ListNotations.
Local Open Scope string_scope.
Local Open Scope nat_scope.
Local Open Scope list_scope.

Set Implicit Arguments.

(** ** The intermediate representation *)

Inductive ty : Type :=
| TVoid
| TInt (bits : nat)
| TPtr (elem : ty)
| TToken
| TArray (len : Z) (elem : ty)
| TNamed (name : string).

Inductive opcode : Type :=
| Call | Ret | Br | Switch
| Alloca | Load | Store | GetElementPtr
| BitCast | IntToPtr | PtrToInt | Trunc | ZExt
| ICmp | PHI
| OtherOp (n : nat).

(** An [llvm.Value].  [Nil] is the zero [llvm.Value{}] that
    [NamedFunction] returns for an absent name; [Reg] is the result of the
    instruction with that id, [Param] a parameter of the enclosing function
    by position, [BB] a basic block used as an operand, [ConstExpr] a
    constant expression with one operand. *)
Inductive value : Type :=
| Nil
| Fn (name : string)
| Reg (id : nat)
| Param (idx : nat)
| BB (id : nat)
| Undef (t : ty)
| ConstNull (t : ty)
| ConstInt (t : ty) (n : Z)
| ConstExpr (op : opcode) (arg : value) (t : ty).

Definition ty_eq_dec (a b : ty) : {a = b} + {a <> b}.
Proof. decide equality; auto using Nat.eq_dec, Z.eq_dec, string_dec. Defined.

Definition opcode_eq_dec (a b : opcode) : {a = b} + {a <> b}.
Proof. decide equality; auto using Nat.eq_dec. Defined.

Definition value_eq_dec (a b : value) : {a = b} + {a <> b}.
Proof.
  decide equality;
    auto using Nat.eq_dec, Z.eq_dec, string_dec, ty_eq_dec, opcode_eq_dec.
Defined.

Definition ty_eqb (a b : ty) : bool := if ty_eq_dec a b then true else false.
Definition opcode_eqb (a b : opcode) : bool :=
  if opcode_eq_dec a b then true else false.
Definition value_eqb (a b : value) : bool :=
  if value_eq_dec a b then true else false.

(** An instruction.  The operands of a call are its arguments followed by
    the called value, as in LLVM: [OperandsCount()-1] arguments, the last
    argument at index [OperandsCount()-2]. *)
Record instr : Type := mkInstr {
  iid : nat;
  iname : string;
  iop : opcode;
  ity : ty;
  iops : list value
}.

Definition values_eq_dec (a b : list value) : {a = b} + {a <> b} :=
  list_eq_dec value_eq_dec a b.

Definition instr_eq_dec (a b : instr) : {a = b} + {a <> b}.
Proof.
  decide equality;
    auto using Nat.eq_dec, string_dec, ty_eq_dec, opcode_eq_dec, values_eq_dec.
Defined.

Definition instr_eqb (a b : instr) : bool :=
  if instr_eq_dec a b then true else false.

Record block : Type := mkBlock {
  bid : nat;
  bname : string;
  binsts : list instr
}.

Record param : Type := mkParam {
  pname : string;
  pty : ty;
  pattrs : list string
}.

(** A function; a declaration has no blocks.  [fnext] is the supply of
    fresh ids for the instructions and blocks the builder creates. *)
Record func : Type := mkFunc {
  fname : string;
  fret : ty;
  fretattrs : list string;
  fparams : list param;
  fblocks : list block;
  fnext : nat
}.

(** A module: its functions, and the constant expressions of the context
    that no instruction refers to. *)
Record module : Type := mkModule {
  mfuncs : list func;
  mconsts : list value
}.

Definition i8ptrType : ty := TPtr (TInt 8).

(** ** Accessors of the LLVM binding *)

Definition Operand (i : instr) (n : nat) : value := nth n (iops i) Nil.
Definition OperandsCount (i : instr) : nat := length (iops i).
Definition CalledValue (i : instr) : value := last (iops i) Nil.

Definition IsACallInst (i : instr) : bool := opcode_eqb (iop i) Call.
Definition IsAReturnInst (i : instr) : bool := opcode_eqb (iop i) Ret.
Definition IsABitCastInst (i : instr) : bool := opcode_eqb (iop i) BitCast.
Definition IsAIntToPtrInst (i : instr) : bool := opcode_eqb (iop i) IntToPtr.

Definition IsNil (v : value) : bool :=
  match v with Nil => true | _ => false end.

Definition IsVoid (t : ty) : bool :=
  match t with TVoid => true | _ => false end.

Definition IsConstant (v : value) : bool :=
  match v with
  | Fn _ | Undef _ | ConstNull _ | ConstInt _ _ | ConstExpr _ _ _ => true
  | Nil | Reg _ | Param _ | BB _ => false
  end.

(** [inst.IsACallInst() && inst.CalledValue() == g]. *)
Definition calls (g : value) (i : instr) : bool :=
  IsACallInst i && value_eqb (CalledValue i) g.

Definition finsts (f : func) : list instr := flat_map binsts (fblocks f).

Definition NamedFunction (m : module) (name : string) : value :=
  if existsb (fun f => String.eqb (fname f) name) (mfuncs m)
  then Fn name else Nil.

Definition lookup_func (m : module) (name : string) : option func :=
  find (fun f => String.eqb (fname f) name) (mfuncs m).

(** Rewriting one function of the module in place. *)
Definition update_func (m : module) (name : string) (g : func -> func) : module :=
  mkModule
    (map (fun f => if String.eqb (fname f) name then g f else f) (mfuncs m))
    (mconsts m).

Definition replace_func (m : module) (f' : func) : module :=
  update_func m (fname f') (fun _ => f').

Definition find_instr (f : func) (id : nat) : option instr :=
  find (fun i => iid i =? id) (finsts f).

(** A function body as one sequence: the header of each block followed by
    its instructions.  Splitting a block is the insertion of a header. *)
Inductive item : Type :=
| Hdr (id : nat) (name : string)
| Ins (i : instr).

Definition flatten (bs : list block) : list item :=
  flat_map (fun b => Hdr (bid b) (bname b) :: map Ins (binsts b)) bs.

(** The instructions up to the next header, and what follows them. *)
Fixpoint take_insts (l : list item) : list instr :=
  match l with
  | Ins i :: r => i :: take_insts r
  | _ => []
  end.

Fixpoint drop_insts (l : list item) : list item :=
  match l with
  | Ins _ :: r => drop_insts r
  | _ => l
  end.

Fixpoint unflatten (l : list item) : list block :=
  match l with
  | [] => []
  | Hdr id name :: r => mkBlock id name (take_insts r) :: unflatten r
  | Ins _ :: r => unflatten r
  end.

Definition imap (g : instr -> instr) (l : list item) : list item :=
  map (fun it => match it with Ins i => Ins (g i) | h => h end) l.

Fixpoint items_insts (l : list item) : list instr :=
  match l with
  | [] => []
  | Ins i :: r => i :: items_insts r
  | Hdr _ _ :: r => items_insts r
  end.

(** The instruction after the current one in its block,
    [llvm.NextInstruction(inst)]; none at the end of the block. *)
Definition next_inst (rest : list item) : option instr :=
  match rest with
  | Ins i :: _ => Some i
  | _ => None
  end.

(** Insertion at the start of the entry block of a flat body. *)
Definition insert_entry_items (new : list instr) (l : list item) : list item :=
  match l with
  | Hdr id name :: r => Hdr id name :: map Ins new ++ r
  | _ => l
  end.

(** A flat body that starts with a block header (or is empty). *)
Definition headed (l : list item) : Prop :=
  match l with
  | Ins _ :: _ => False
  | _ => True
  end.

(** ** Def-use chains *)

Definition count_occ_value (v : value) (l : list value) : nat :=
  length (filter (value_eqb v) l).

(** The users of [v] among the instructions [l]: one entry for each
    operand that is [v] (a user appears once per use). *)
Fixpoint users_in (v : value) (l : list instr) : list instr :=
  match l with
  | [] => []
  | i :: r => repeat i (count_occ_value v (iops i)) ++ users_in v r
  end.

(** [getUses] of a value local to [f] (an instruction or a parameter). *)
Definition getUses (f : func) (v : value) : list instr :=
  users_in v (finsts f).

Definition uses (v : value) (i : instr) : bool :=
  existsb (value_eqb v) (iops i).

(** Substitution of a value for another in operands:
    [old.ReplaceAllUsesWith(new)]. *)
Definition subst_value (old new v : value) : value :=
  if value_eqb v old then new else v.

Definition subst_instr (old new : value) (i : instr) : instr :=
  mkInstr (iid i) (iname i) (iop i) (ity i) (map (subst_value old new) (iops i)).

Definition map_insts (g : instr -> instr) (f : func) : func :=
  mkFunc (fname f) (fret f) (fretattrs f) (fparams f)
         (map (fun b => mkBlock (bid b) (bname b) (map g (binsts b))) (fblocks f))
         (fnext f).

Definition ReplaceAllUsesWith (old new : value) (f : func) : func :=
  map_insts (subst_instr old new) f.

Definition set_blocks (f : func) (bs : list block) : func :=
  mkFunc (fname f) (fret f) (fretattrs f) (fparams f) bs (fnext f).

Definition set_next (f : func) (n : nat) : func :=
  mkFunc (fname f) (fret f) (fretattrs f) (fparams f) (fblocks f) n.

Definition set_insts (b : block) (l : list instr) : block :=
  mkBlock (bid b) (bname b) l.

Definition set_ops (i : instr) (ops : list value) : instr :=
  mkInstr (iid i) (iname i) (iop i) (ity i) ops.

(** [inst.SetOperand(n, v)]. *)
Fixpoint replace_nth (n : nat) (v : value) (l : list value) : list value :=
  match l, n with
  | [], _ => []
  | _ :: r, O => v :: r
  | a :: r, S k => a :: replace_nth k v r
  end.

Definition SetOperand (i : instr) (n : nat) (v : value) : instr :=
  set_ops i (replace_nth n v (iops i)).

(** The trailing argument of a call, [inst.SetOperand(inst.OperandsCount()-2, v)];
    a call without arguments has none. *)
Definition SetLastArg (i : instr) (v : value) : instr :=
  if 2 <=? OperandsCount i then SetOperand i (OperandsCount i - 2) v else i.

(** [inst.EraseFromParentAsInstruction()], the instruction named by its id. *)
Definition erase_id (id : nat) (l : list instr) : list instr :=
  filter (fun i => negb (iid i =? id)) l.

Definition erase_instr (id : nat) (f : func) : func :=
  set_blocks f (map (fun b => set_insts b (erase_id id (binsts b))) (fblocks f)).

Definition filter_insts (keep : instr -> bool) (f : func) : func :=
  set_blocks f (map (fun b => set_insts b (filter keep (binsts b))) (fblocks f)).

(** The ids of the instructions of [f] are below its supply of fresh ids. *)
Definition ids_below (f : func) : Prop :=
  Forall (fun i => iid i < fnext f) (finsts f).

(** Insertion at the start of the entry block,
    [SetInsertPointBefore(f.EntryBasicBlock().FirstInstruction())]. *)
Definition insert_entry (new : list instr) (bs : list block) : list block :=
  match bs with
  | [] => []
  | b :: r => set_insts b (new ++ binsts b) :: r
  end.

(** Outcome of a pass: a result, an [error] returned to the caller, or a
    [panic]. *)
Inductive result (A : Type) : Type :=
| Ok (a : A)
| Err (msg : string)
| Panic (msg : string).
Arguments Err {A} msg.
Arguments Panic {A} msg.

Definition bind {A B} (r : result A) (k : A -> result B) : result B :=
  match r with
  | Ok a => k a
  | Err e => Err e
  | Panic e => Panic e
  end.

Notation "x <- r ;; k" := (bind r (fun x => k))
  (at level 61, r at next level, right associativity).

(** ** Heap-to-stack promotion ([transform/allocs.go]) *)

Module Allocs.

Definition maxStackAlloc : Z := 256.

(** [ZExtValue] of a constant integer: its bits, zero-extended.  It has no
    value on other constants. *)
Definition ZExtValue (v : value) : option Z :=
  match v with
  | ConstInt (TInt w) n => Some (n mod 2 ^ Z.of_nat w)%Z
  | _ => None
  end.

Definition id_bound (f : func) : nat := S (list_max (map iid (finsts f))).

Section WithTarget.

(** [hasFlag(call, param, kind)] is defined elsewhere in the package: whether
    every parameter position at which [call] passes [param] carries the
    attribute [kind]. *)
Variable hasFlag : instr -> value -> string -> bool.

(** [targetData.ABITypeAlignment(i8ptrType)]. *)
Variable alignment : Z.

(** The loop of [mayEscape] over the uses of [v]; [rec] is the recursive
    call. *)
Fixpoint escape_loop (rec : value -> option bool) (v : value)
         (us : list instr) : option bool :=
  match us with
  | [] => Some false
  | use :: r =>
      match iop use with
      | GetElementPtr | BitCast =>
          match rec (Reg (iid use)) with
          | None => None
          | Some true => Some true
          | Some false => escape_loop rec v r
          end
      | Load => escape_loop rec v r
      | Store =>
          if value_eqb (Operand use 0) v then Some true
          else escape_loop rec v r
      | Call =>
          if negb (hasFlag use v "nocapture") then Some true
          else escape_loop rec v r
      | ICmp => escape_loop rec v r
      | _ => Some true
      end
  end.

(** [mayEscape]: [None] when the recursion through the uses is deeper than
    [fuel]. *)
Fixpoint mayEscape (fuel : nat) (f : func) (v : value) : option bool :=
  match fuel with
  | O => None
  | S n => escape_loop (mayEscape n f) v (getUses f v)
  end.

(** The instructions [OptimizeAllocs] builds in the entry block. *)
Definition stack_alloca (f : func) (size : Z) (bitcast : instr) : list instr :=
  let sizeInWords := ((size + alignment - 1) / alignment)%Z in
  let allocaType := TArray sizeInWords (TInt (Z.to_nat (alignment * 8))) in
  let alloca := mkInstr (fnext f) "stackalloc.alloca" Alloca (TPtr allocaType) [] in
  let store := mkInstr (S (fnext f)) "" Store TVoid
                       [ConstNull allocaType; Reg (iid alloca)] in
  let stackalloc := mkInstr (S (S (fnext f))) "stackalloc" BitCast (ity bitcast)
                            [Reg (iid alloca)] in
  [alloca; store; stackalloc].

(** The value [OptimizeAllocs] analyses: the only use of the allocation when
    that is a bitcast, else the allocation itself. *)
Definition the_bitcast (f : func) (heapalloc : instr) : instr :=
  match getUses f (Reg (iid heapalloc)) with
  | [u] => if IsABitCastInst u then u else heapalloc
  | _ => heapalloc
  end.

Definition stack_replace (f : func) (heapalloc : instr) (size : Z) : func :=
  let bitcast := the_bitcast f heapalloc in
  let f1 := set_next (set_blocks f (insert_entry (stack_alloca f size bitcast)
                                                 (fblocks f)))
                     (3 + fnext f) in
  let f2 := ReplaceAllUsesWith (Reg (iid bitcast)) (Reg (S (S (fnext f)))) f1 in
  let f3 := if iid heapalloc =? iid bitcast then f2
            else erase_instr (iid bitcast) f2 in
  erase_instr (iid heapalloc) f3.

(** The body of the loop of [OptimizeAllocs] for one use of the allocator:
    [Ok None] where the source says [continue], [Ok (Some f')] with the
    rewritten function otherwise. *)
Definition optimize_alloc (fuel : nat) (f : func) (heapalloc : instr)
  : option (result (option func)) :=
  if negb (IsConstant (Operand heapalloc 0)) then Some (Ok None)
  else match ZExtValue (Operand heapalloc 0) with
       | None => Some (Panic "ZExtValue of a constant that is no integer")
       | Some size =>
           if (size >? maxStackAlloc)%Z then Some (Ok None)
           else match mayEscape fuel f (Reg (iid (the_bitcast f heapalloc))) with
                | None => None
                | Some true => Some (Ok None)
                | Some false => Some (Ok (Some (stack_replace f heapalloc size)))
                end
       end.

(** The uses of the allocator in the module, each with its function. *)
Definition module_users (m : module) (v : value) : list (string * nat) :=
  flat_map (fun f => map (fun u => (fname f, iid u)) (getUses f v)) (mfuncs m).

Fixpoint optimize_loop (m : module) (us : list (string * nat))
  : option (result module) :=
  match us with
  | [] => Some (Ok m)
  | (fn, id) :: r =>
      match lookup_func m fn with
      | None => optimize_loop m r
      | Some f =>
          match find_instr f id with
          | None => optimize_loop m r
          | Some heapalloc =>
              match optimize_alloc (S (id_bound f)) f heapalloc with
              | None => None
              | Some (Ok None) => optimize_loop m r
              | Some (Ok (Some f')) => optimize_loop (replace_func m f') r
              | Some (Err e) => Some (Err e)
              | Some (Panic e) => Some (Panic e)
              end
          end
      end
  end.

Definition OptimizeAllocs (m : module) : option (result module) :=
  let allocator := NamedFunction m "runtime.alloc" in
  if IsNil allocator then Some (Ok m)
  else optimize_loop m (module_users m allocator).

(** The claim's notion of a pointer that does not escape: every use is a
    getelementptr or a bitcast whose result does not escape either, a load,
    a store of another value, a call with the pointer at [nocapture]
    positions, or a comparison. *)
Inductive NoEscape (f : func) : value -> Prop :=
| NoEscape_uses v :
    (forall u, In u (getUses f v) ->
       iop u = GetElementPtr \/ iop u = BitCast -> NoEscape f (Reg (iid u))) ->
    (forall u, In u (getUses f v) ->
       match iop u with
       | GetElementPtr | BitCast | Load | ICmp => True
       | Store => Operand u 0 <> v
       | Call => hasFlag u v "nocapture" = true
       | _ => False
       end) ->
    NoEscape f v.

Definition use_ok (f : func) (v : value) (u : instr) : Prop :=
  (iop u = GetElementPtr \/ iop u = BitCast -> NoEscape f (Reg (iid u))) /\
  match iop u with
  | GetElementPtr | BitCast | Load | ICmp => True
  | Store => Operand u 0 <> v
  | Call => hasFlag u v "nocapture" = true
  | _ => False
  end.

(** The chains of getelementptr and bitcast instructions have no cycle:
    [rank] grows from the operand registers of such an instruction to its
    result.  (In SSA form a cycle of uses passes through a phi; the other
    instructions are not constrained.) *)
Definition cast_acyclic (f : func) : Prop :=
  exists rank : nat -> nat,
    forall u k, In u (finsts f) ->
      iop u = GetElementPtr \/ iop u = BitCast ->
      In (Reg k) (iops u) -> rank k < rank (iid u).

(** The functions [OptimizeAllocs] is run on. *)
Definition numbered (f : func) : Prop := cast_acyclic f /\ ids_below f.

(** The pointer the function uses for the allocation [h]: the only use of
    [h] when that is a bitcast, else [h] itself. *)
Definition pointer_of (f : func) (h p : instr) : Prop :=
  (getUses f (Reg (iid h)) = [p] /\ iop p = BitCast) \/
  (p = h /\ forall u, getUses f (Reg (iid h)) = [u] -> iop u <> BitCast).

(** The claim's notion of a function [f'] that has the allocation [h] of
    [f] on the stack: the entry block starts with an alloca of an array of
    words that covers [size] bytes, a store of the zero value of the array
    to it and a cast of it to the type of the pointer [p] the function
    used; the allocation and [p] are gone, and the other instructions are
    those of [f], in their blocks and in their order, with the cast in the
    place of [p]. *)
Definition moved_to_stack (f : func) (h : instr) (size : Z) (f' : func) : Prop :=
  exists p, pointer_of f h p /\
  let n := fnext f in
  let words := ((size + alignment - 1) / alignment)%Z in
  let array := TArray words (TInt (Z.to_nat (alignment * 8))) in
  let alloca := mkInstr n "stackalloc.alloca" Alloca (TPtr array) [] in
  let store := mkInstr (S n) "" Store TVoid [ConstNull array; Reg n] in
  let cast := mkInstr (S (S n)) "stackalloc" BitCast (ity p) [Reg n] in
  let others := fun l =>
    map (subst_instr (Reg (iid p)) (Reg (iid cast)))
        (filter (fun i => negb (iid i =? iid h) && negb (iid i =? iid p)) l) in
  (size <= words * alignment)%Z /\
  fname f' = fname f /\ fret f' = fret f /\ fretattrs f' = fretattrs f /\
  fparams f' = fparams f /\ fnext f' = 3 + n /\
  (exists b bs,
     fblocks f = b :: bs /\
     fblocks f' =
       mkBlock (bid b) (bname b) (alloca :: store :: cast :: others (binsts b))
       :: map (fun b => mkBlock (bid b) (bname b) (others (binsts b))) bs) /\
  (forall i, In i (finsts f') -> iid i <> iid h) /\
  (forall i, In i (finsts f') -> ~ In (Reg (iid p)) (iops i)).

(** The claim's notion of a run of the pass over the uses of the allocator:
    a use that is no instruction of the module any more is passed; an
    allocation whose size is no constant, or is above 256, or whose pointer
    escapes, is left as it is; an allocation of a constant size of at most
    256 whose pointer does not escape is moved to the stack; a constant
    size that is no integer stops the run. *)
Inductive alloc_run : module -> list (string * nat) -> result module -> Prop :=
| run_done m : alloc_run m [] (Ok m)
| run_gone m fn id us r :
    (forall f, lookup_func m fn = Some f -> find_instr f id = None) ->
    alloc_run m us r ->
    alloc_run m ((fn, id) :: us) r
| run_heap m fn id us r f h :
    lookup_func m fn = Some f -> find_instr f id = Some h ->
    IsConstant (Operand h 0) = false \/
    (exists size, ZExtValue (Operand h 0) = Some size /\ (256 < size)%Z) \/
    ~ NoEscape f (Reg (iid h)) ->
    alloc_run m us r ->
    alloc_run m ((fn, id) :: us) r
| run_stack m fn id us r f h size f' :
    lookup_func m fn = Some f -> find_instr f id = Some h ->
    IsConstant (Operand h 0) = true ->
    ZExtValue (Operand h 0) = Some size -> (size <= 256)%Z ->
    NoEscape f (Reg (iid h)) ->
    moved_to_stack f h size f' ->
    alloc_run (replace_func m f') us r ->
    alloc_run m ((fn, id) :: us) r
| run_panic m fn id us f h msg :
    lookup_func m fn = Some f -> find_instr f id = Some h ->
    IsConstant (Operand h 0) = true ->
    ZExtValue (Operand h 0) = None ->
    alloc_run m ((fn, id) :: us) (Panic msg).

End WithTarget.
End Allocs.

(** ** Goroutine lowering ([compiler/goroutine-lowering.go]) *)

Module Lowering.

(** The fields of the [Compiler] the pass reads. *)
Record config : Type := mkConfig {
  GOOS : string;
  GOARCH : string;
  Triple : string;
  mainPath : string;            (* c.ir.MainPkg().Pkg.Path() *)
  needsStackObjects : bool;
  uintptrSize : nat             (* TypeAllocSize(c.uintptrType), in bytes *)
}.

(** *** The builder *)

(** Result types of the runtime functions the pass calls, as the input
    contract of the specification lists them. *)
Definition runtime_ret (fnName : string) : ty :=
  if existsb (String.eqb fnName)
       ["getCoroutine"; "getParentHandle"; "getTaskStatePtr";
        "getFakeCoroutine"; "alloc"; "makeGoroutine"]
  then i8ptrType else TVoid.

Definition runtime_fn (fnName : string) : value := Fn ("runtime." ++ fnName).

(** Modelled from the spec: [createRuntimeCall] is not among the sources; it
    creates a call to the runtime function of that name with the given
    arguments at the insertion point.  [id] is the fresh id of the call. *)
Definition createRuntimeCall (id : nat) (fnName : string) (args : list value)
           (name : string) : instr :=
  mkInstr id name Call (runtime_ret fnName) (args ++ [runtime_fn fnName]).

Definition CreateCall (id : nat) (t : ty) (fn : value) (args : list value)
           (name : string) : instr :=
  mkInstr id name Call t (args ++ [fn]).

Definition CreateRetVoid (id : nat) : instr := mkInstr id "" Ret TVoid [].
Definition CreateRet (id : nat) (v : value) : instr := mkInstr id "" Ret TVoid [v].

(** [CreateRetVoid] for a function returning void, else [CreateRet] of
    undef of the return type. *)
Definition CreateRetUndef (id : nat) (returnType : ty) : instr :=
  if IsVoid returnType then CreateRetVoid id
  else CreateRet id (Undef returnType).

Definition CreateBitCast (id : nat) (v : value) (t : ty) (name : string) : instr :=
  mkInstr id name BitCast t [v].
Definition CreateAlloca (id : nat) (t : ty) (name : string) : instr :=
  mkInstr id name Alloca (TPtr t) [].
Definition CreateLoad (id : nat) (t : ty) (p : value) (name : string) : instr :=
  mkInstr id name Load t [p].
Definition CreateStore (id : nat) (v p : value) : instr :=
  mkInstr id "" Store TVoid [v; p].
Definition CreateBr (id : nat) (dest : nat) : instr :=
  mkInstr id "" Br TVoid [BB dest].

(** *** Uses of a global value *)

(** A user of a function: an instruction, with the name of the function it
    is in, or a constant expression. *)
Inductive user : Type :=
| UInst (parent : string) (i : instr)
| UConst (c : value).

(** The constant expressions below a value, the value included. *)
Fixpoint subconsts (v : value) : list value :=
  match v with
  | ConstExpr _ a _ => v :: subconsts a
  | _ => []
  end.

(** The constant expressions of the module, each once. *)
Definition module_consts (m : module) : list value :=
  nodup value_eq_dec
    (flat_map (fun f => flat_map (fun i => flat_map subconsts (iops i)) (finsts f))
              (mfuncs m)
     ++ flat_map subconsts (mconsts m)).

Definition const_users (m : module) (v : value) : list value :=
  filter (fun c => match c with
                   | ConstExpr _ a _ => value_eqb a v
                   | _ => false
                   end) (module_consts m).

Definition inst_users (m : module) (v : value) : list (string * instr) :=
  flat_map (fun f => map (fun u => (fname f, u)) (getUses f v)) (mfuncs m).

(** [getUses] of a global value: the instructions in program order, then the
    constant expressions; none for the nil value.  (The order of an LLVM use
    list is not fixed by the module; no property below depends on it.) *)
Definition getUsesM (m : module) (v : value) : list user :=
  if IsNil v then []
  else map (fun pu => UInst (fst pu) (snd pu)) (inst_users m v) ++
       map UConst (const_users m v).

Definition Name (v : value) : string :=
  match v with Fn n => n | _ => "" end.

(** *** Finding the async functions *)

(** [asyncFuncs], the keys of the map: the names in [asyncList]. *)
Definition is_async (asyncList : list string) (v : value) : bool :=
  match v with
  | Fn n => existsb (String.eqb n) asyncList
  | _ => false
  end.

Definition is_makeGoroutine_call (u : user) : bool :=
  match u with
  | UInst _ call =>
      IsACallInst call && String.eqb (Name (CalledValue call)) "runtime.makeGoroutine"
  | UConst _ => false
  end.

(** The loop over the uses of the async function [f]: the worklist with the
    parents pushed (its top is the head of the list), or the error. *)
Fixpoint push_parents (m : module) (f : string) (us : list user)
         (worklist : list string) : result (list string) :=
  match us with
  | [] => Ok worklist
  | use :: r =>
      match use with
      | UConst (ConstExpr PtrToInt _ _ as c) =>
          if forallb is_makeGoroutine_call (getUsesM m c)
          then push_parents m f r worklist
          else Err ("async function " ++ f ++
                    " incorrectly used in ptrtoint, expected runtime.makeGoroutine")
      | UConst (ConstExpr BitCast _ _ as c) =>
          match getUsesM m c with
          | [] => push_parents m f r worklist
          | _ => Err ("async function " ++ f ++ " used as function pointer")
          end
      | UConst _ => Err ("async function " ++ f ++ " used as function pointer")
      | UInst parent i =>
          if negb (IsACallInst i)
          then Err ("async function " ++ f ++ " used as function pointer")
          else if existsb (value_eqb (Fn f)) (firstn (OperandsCount i - 1) (iops i))
          then Err ("async function " ++ f ++ " used as function pointer in " ++ parent)
          else push_parents m f r (parent :: worklist)
      end
  end.

(** The worklist loop; [None] when [fuel] iterations do not empty the
    worklist. *)
Fixpoint worklist_loop (fuel : nat) (m : module) (worklist asyncList : list string)
  : option (result (list string)) :=
  match fuel with
  | O => None
  | S n =>
      match worklist with
      | [] => Some (Ok asyncList)
      | f :: worklist' =>
          if existsb (String.eqb f) asyncList then worklist_loop n m worklist' asyncList
          else if String.eqb f "resume" then worklist_loop n m worklist' asyncList
          else match push_parents m f (getUsesM m (Fn f)) worklist' with
               | Ok worklist'' => worklist_loop n m worklist'' (asyncList ++ [f])
               | Err e => Some (Err e)
               | Panic e => Some (Panic e)
               end
      end
  end.

(** Every iteration pops one function, and uses are pushed once per
    function: so many iterations suffice. *)
Definition worklist_fuel (m : module) : nat :=
  2 + list_sum (map (fun f => length (getUsesM m (Fn (fname f)))) (mfuncs m)).

Definition yieldName : string := "runtime.yield".

Definition find_async (m : module) : option (result (list string)) :=
  worklist_loop (worklist_fuel m) m [yieldName] [].

(** The specification's set [A]: the least set that holds [yield] and every
    function, not named [resume], that contains a call to a member. *)
Definition contains_call (m : module) (f g : string) : Prop :=
  exists fn i, In fn (mfuncs m) /\ fname fn = f /\ In i (finsts fn) /\
               calls (Fn g) i = true.

Inductive Async (m : module) : string -> Prop :=
| Async_yield : Async m yieldName
| Async_caller f g :
    Async m g -> contains_call m f g -> f <> "resume" -> Async m f.

(** The loops [for _, f := range asyncList { if f == yield { continue } ... }]:
    [step] rewrites the function; it may read the module. *)
Definition for_async (yield : value) (asyncList : list string)
           (step : module -> func -> func) (m : module) : module :=
  fold_left
    (fun m f =>
       if value_eqb (Fn f) yield then m
       else match lookup_func m f with
            | Some fn => replace_func m (step m fn)
            | None => m
            end)
    asyncList m.

(** *** Indefinitely blocking functions *)

Record call_scan : Type := mkScan {
  callsYield : bool;
  getsCoroutine : bool;
  callsAsyncNotYield : bool
}.

(** The scan of the calls of a function. *)
Fixpoint scan_calls (yield getCoroutine : value) (asyncList : list string)
         (l : list instr) (s : call_scan) : call_scan :=
  match l with
  | [] => s
  | inst :: r =>
      scan_calls yield getCoroutine asyncList r
        (if IsACallInst inst then
           let callee := CalledValue inst in
           if value_eqb callee yield
           then mkScan true (getsCoroutine s) (callsAsyncNotYield s)
           else if value_eqb callee getCoroutine
           then mkScan (callsYield s) true (callsAsyncNotYield s)
           else if is_async asyncList callee
           then mkScan (callsYield s) (getsCoroutine s) true
           else s
         else s)
  end.

Definition is_nonReturning (yield getCoroutine : value) (asyncList : list string)
           (f : func) : bool :=
  let s := scan_calls yield getCoroutine asyncList (finsts f)
                      (mkScan false false false) in
  callsYield s && negb (getsCoroutine s) && negb (callsAsyncNotYield s).

(** One block of a non-returning function: the instructions kept, with the
    [noret] call and the return in front of the first [yield]; the
    instructions queued for deletion; the next fresh id. *)
Fixpoint break_block (yield : value) (returnType : ty) (n : nat) (l : list instr)
  : list instr * list instr * nat :=
  match l with
  | [] => ([], [], n)
  | inst :: r =>
      if calls yield inst
      then ([createRuntimeCall n "noret" [] ""; CreateRetUndef (S n) returnType],
            inst :: r, 2 + n)
      else let '(kept, del, n') := break_block yield returnType n r in
           (inst :: kept, del, n')
  end.

Fixpoint break_blocks (yield : value) (returnType : ty) (n : nat) (bs : list block)
  : list block * list instr * nat :=
  match bs with
  | [] => ([], [], n)
  | b :: r =>
      let '(kept, del, n1) := break_block yield returnType n (binsts b) in
      let '(r', del', n2) := break_blocks yield returnType n1 r in
      (set_insts b kept :: r', del ++ del', n2)
  end.

(** [inst.ReplaceAllUsesWith(llvm.Undef(inst.Type()))] for the deleted
    instructions that have a value. *)
Definition undef_deleted (del : list instr) (f : func) : func :=
  fold_left (fun f inst =>
               if IsVoid (ity inst) then f
               else ReplaceAllUsesWith (Reg (iid inst)) (Undef (ity inst)) f)
            del f.

Definition inject_noret (yield : value) (f : func) : func :=
  let '(bs, del, n) := break_blocks yield (fret f) (fnext f) (fblocks f) in
  undef_deleted del (set_next (set_blocks f bs) n).

(** The loop "replace indefinitely blocking yields": the module and the
    [nonReturning] set. *)
Definition mark_nonReturning (yield getCoroutine : value) (asyncList : list string)
           (m : module) : module * list string :=
  fold_left
    (fun (st : module * list string) f =>
       let (m, nonReturning) := st in
       if value_eqb (Fn f) yield then st
       else match lookup_func m f with
            | Some fn =>
                if is_nonReturning yield getCoroutine asyncList fn
                then (replace_func m (inject_noret yield fn), f :: nonReturning)
                else st
            | None => st
            end)
    asyncList (m, []).

(** The specification's wording: [f] calls [yield], does not call
    [getCoroutine], and calls no other member of [A]. *)
Definition spec_nonReturning (yield getCoroutine : value) (asyncList : list string)
           (f : func) : Prop :=
  (exists i, In i (finsts f) /\ calls yield i = true) /\
  (forall i, In i (finsts f) -> calls getCoroutine i = false) /\
  (forall i, In i (finsts f) -> IsACallInst i = true ->
             is_async asyncList (CalledValue i) = true -> CalledValue i = yield).

(** The replacement of the deleted values by undef, on one instruction. *)
Definition undef_uses (del : list instr) (i : instr) : instr :=
  fold_left (fun i inst =>
               if IsVoid (ity inst) then i
               else subst_instr (Reg (iid inst)) (Undef (ity inst)) i)
            del i.

(** *** Call sites *)

(** [callee.Type().ElementType().ReturnType()]. *)
Definition return_type (m : module) (callee : value) : ty :=
  match lookup_func m (Name callee) with
  | Some fn => fret fn
  | None => TVoid
  end.

Inductive site_kind : Type := BlockingCall | TailCall | RegularCall.

(** The [switch] at a call of the async function [callee] from [f]; [next]
    is the instruction after the call. *)
Definition classify_site (m : module) (nonReturning : list string) (f : func)
           (inst : instr) (next : option instr) : site_kind :=
  let callee := CalledValue inst in
  if is_async nonReturning callee then BlockingCall
  else match next with
       | None => RegularCall
       | Some nx =>
           if negb (IsAReturnInst nx) then RegularCall
           else if negb (ty_eqb (return_type m callee) (fret f)) then RegularCall
           else if IsVoid (return_type m callee) then TailCall
           else if value_eqb (Operand nx 0) (Reg (iid inst)) then TailCall
           else RegularCall
       end.

(** The specification's condition for the async tail call: the next
    instruction is a return, the return is void or returns the value of the
    call, and the return types of caller and callee match. *)
Definition spec_tail_call (m : module) (f : func) (inst : instr)
           (next : option instr) : Prop :=
  exists nx, next = Some nx /\ IsAReturnInst nx = true /\
             (fret f = TVoid \/ Operand nx 0 = Reg (iid inst)) /\
             return_type m (CalledValue inst) = fret f.

(** The state of the rewriting of the calls of one function: the items
    already passed, the return-value buffer [retAlloc] with the type it was
    allocated for, and the next fresh id. *)
Record site_state : Type := mkSite {
  s_done : list item;
  s_retAlloc : value;
  s_retTy : ty;
  s_next : nat
}.

Definition ins (l : list instr) : list item := map Ins l.

(** A call of a function that blocks forever. *)
Definition rewrite_blocking (f : func) (st : site_state) (inst : instr)
           (rest : list item) : site_state * list item :=
  let n := s_next st in
  let inst' := SetLastArg inst (Undef i8ptrType) in
  let noret := createRuntimeCall n "noret" [] "" in
  let retInst := CreateRetUndef (S n) (fret f) in
  let sigma := fun i : instr =>
                 fold_left (fun i next =>
                              subst_instr (Reg (iid next)) (Undef (ity retInst)) i)
                           (take_insts rest) i in
  (mkSite (imap sigma (s_done st ++ ins [inst'; noret; retInst]))
          (s_retAlloc st) (s_retTy st) (2 + n),
   imap sigma (drop_insts rest)).

(** The async tail call.  In SSA form the return that follows is the only
    user of the call, the [uses[0]] whose operand is cleared. *)
Definition rewrite_tail (st : site_state) (inst next : instr)
           (rest : list item) : site_state * list item :=
  let n := s_next st in
  let parentHandle := createRuntimeCall n "getParentHandle" [] "" in
  let inst' := SetLastArg inst (Reg (iid parentHandle)) in
  let next' := if IsVoid (ity inst) then next
               else SetOperand next 0 (Undef (ity inst)) in
  let yield := createRuntimeCall (S n) "yield" [] "" in
  let noret := createRuntimeCall (S (S n)) "noret" [] "" in
  (mkSite (s_done st ++ ins [parentHandle; inst'; yield; noret])
          (s_retAlloc st) (s_retTy st) (3 + n),
   Ins next' :: tl rest).

(** The regular call: pass the coroutine, publish the return-value buffer,
    yield, reload the result. *)
Definition rewrite_regular (st : site_state) (inst : instr)
           (rest : list item) : site_state * list item :=
  let n := s_next st in
  let coro := createRuntimeCall n "getCoroutine" [] "" in
  let inst' := SetLastArg inst (Reg (iid coro)) in
  if IsVoid (ity inst) then
    let yieldCall := createRuntimeCall (S n) "yield" [] "" in
    (mkSite (s_done st ++ ins [coro; inst'; yieldCall])
            (s_retAlloc st) (s_retTy st) (2 + n),
     rest)
  else
    let fresh := IsNil (s_retAlloc st) in
    let n1 := if fresh then S n else n in
    let retAlloc := if fresh then Reg (S n) else s_retAlloc st in
    let retTy := if fresh then ity inst else s_retTy st in
    let done := if fresh
                then insert_entry_items
                       [CreateAlloca (S n) (ity inst) "coro.retvalAlloca"] (s_done st)
                else s_done st in
    let data := CreateBitCast (S n1) retAlloc i8ptrType "" in
    let setPtr := createRuntimeCall (S (S n1)) "setTaskStatePtr"
                                    [Reg (iid coro); Reg (iid data)] "" in
    let yieldCall := createRuntimeCall (3 + n1) "yield" [] "" in
    let before := [coro; data; setPtr; inst'; yieldCall] in
    if existsb (uses (Reg (iid inst))) (items_insts (done ++ rest)) then
      let retval := CreateLoad (4 + n1) retTy retAlloc "coro.retval" in
      let sigma := subst_instr (Reg (iid inst)) (Reg (iid retval)) in
      (mkSite (imap sigma (done ++ ins (before ++ [retval])))
              retAlloc retTy (5 + n1),
       imap sigma rest)
    else
      (mkSite (done ++ ins before) retAlloc retTy (4 + n1), rest).

Definition rewrite_site (m : module) (nonReturning : list string) (f : func)
           (st : site_state) (inst : instr) (rest : list item)
  : site_state * list item :=
  match classify_site m nonReturning f inst (next_inst rest), next_inst rest with
  | BlockingCall, _ => rewrite_blocking f st inst rest
  | TailCall, Some next => rewrite_tail st inst next rest
  | _, _ => rewrite_regular st inst rest
  end.

(** Whether the loop rewrites this instruction: a call of an async function
    other than [yield]. *)
Definition is_async_call (yield : value) (asyncList : list string) (inst : instr)
  : bool :=
  IsACallInst inst && is_async asyncList (CalledValue inst)
  && negb (value_eqb (CalledValue inst) yield).

Definition push (st : site_state) (it : item) : site_state :=
  mkSite (s_done st ++ [it]) (s_retAlloc st) (s_retTy st) (s_next st).

(** The walk over the body.  The instructions the rewriting of a site puts
    after the call (calls of [yield] and [noret], a return, a load) are
    passed over when the loop reaches them: they are no calls of an async
    function, [runtime.noret] being a declaration.  [fuel] bounds the length
    of [rest], which no step makes longer. *)
Fixpoint rewrite_calls (fuel : nat) (m : module) (yield : value)
         (asyncList nonReturning : list string) (f : func)
         (st : site_state) (rest : list item) : site_state :=
  match fuel, rest with
  | S k, it :: r =>
      match it with
      | Ins inst =>
          if is_async_call yield asyncList inst
          then let (st', rest') := rewrite_site m nonReturning f st inst r in
               rewrite_calls k m yield asyncList nonReturning f st' rest'
          else rewrite_calls k m yield asyncList nonReturning f (push st it) r
      | Hdr _ _ =>
          rewrite_calls k m yield asyncList nonReturning f (push st it) r
      end
  | _, _ => mkSite (s_done st ++ rest) (s_retAlloc st) (s_retTy st) (s_next st)
  end.

Definition rewrite_async_calls (yield : value) (asyncList nonReturning : list string)
           (m : module) (f : func) : func :=
  let body := flatten (fblocks f) in
  let st := rewrite_calls (length body) m yield asyncList nonReturning f
                          (mkSite [] Nil TVoid (fnext f)) body in
  set_next (set_blocks f (unflatten (s_done st))) (s_next st).

(** *** Tail yields *)

(** Whether the [yield] before [next] can be dropped. *)
Definition ditchable (noret : value) (returnType : ty) (next : option instr) : bool :=
  match next with
  | None => false
  | Some nx =>
      if calls noret nx then true
      else if IsAReturnInst nx && IsVoid returnType then true
      else false
  end.

(** The scan of one block: [canDitch] after it, and whether the scan was
    left by [break scanYields]. *)
Fixpoint scan_yields_block (yield noret : value) (returnType : ty)
         (l : list instr) (canDitch : bool) : bool * bool :=
  match l with
  | [] => (canDitch, false)
  | inst :: r =>
      if negb (calls yield inst)
      then scan_yields_block yield noret returnType r canDitch
      else if negb (ditchable noret returnType (hd_error r))
      then (false, true)
      else scan_yields_block yield noret returnType r true
  end.

Fixpoint scan_yields (yield noret : value) (returnType : ty)
         (bs : list block) (canDitch : bool) : bool :=
  match bs with
  | [] => canDitch
  | b :: r =>
      let (c, broke) := scan_yields_block yield noret returnType (binsts b) canDitch in
      if broke then c else scan_yields yield noret returnType r c
  end.

(** Dropping the yields of a block: a [noret] call takes the place of a
    yield that stands before a return. *)
Fixpoint ditch_block (yield : value) (n : nat) (l : list instr) : list instr * nat :=
  match l with
  | [] => ([], n)
  | inst :: r =>
      if calls yield inst then
        match hd_error r with
        | Some next =>
            if IsAReturnInst next
            then let (r', n') := ditch_block yield (S n) r in
                 (createRuntimeCall n "noret" [] "" :: r', n')
            else ditch_block yield n r
        | None => ditch_block yield n r
        end
      else let (r', n') := ditch_block yield n r in (inst :: r', n')
  end.

Fixpoint ditch_blocks (yield : value) (n : nat) (bs : list block) : list block * nat :=
  match bs with
  | [] => ([], n)
  | b :: r =>
      let (l, n1) := ditch_block yield n (binsts b) in
      let (r', n2) := ditch_blocks yield n1 r in
      (set_insts b l :: r', n2)
  end.

Definition ditch_tail_yields (yield noret : value) (f : func) : func :=
  if scan_yields yield noret (fret f) (fblocks f) false
  then let (bs, n) := ditch_blocks yield (fnext f) (fblocks f) in
       set_next (set_blocks f bs) n
  else f.

(** The specification's wording of the rule.  A yield is ditchable when the
    instruction after it is a [noret] call or a return of a void function. *)
Definition spec_ditchable (noret : value) (f : func) (next : option instr) : Prop :=
  exists nx, next = Some nx /\
             (calls noret nx = true \/ (IsAReturnInst nx = true /\ fret f = TVoid)).

(** [y] is a call of [yield] in [f], followed in its block by [next]. *)
Definition yield_at (yield : value) (f : func) (y : instr) (next : option instr)
  : Prop :=
  exists b pre post, In b (fblocks f) /\ binsts b = pre ++ y :: post /\
                     calls yield y = true /\ next = hd_error post.

(** A block with its yields removed: a [noret] call stands in place of a
    yield that preceded a return, nothing in place of another yield. *)
Inductive ditched (yield : value) : list instr -> list instr -> Prop :=
| ditched_nil : ditched yield [] []
| ditched_keep i r r' :
    calls yield i = false -> ditched yield r r' ->
    ditched yield (i :: r) (i :: r')
| ditched_ret y nx r r' n :
    calls yield y = true -> IsAReturnInst nx = true ->
    ditched yield (nx :: r) r' ->
    ditched yield (y :: nx :: r) (createRuntimeCall n "noret" [] "" :: r')
| ditched_drop y r r' :
    calls yield y = true ->
    (forall nx, hd_error r = Some nx -> IsAReturnInst nx = false) ->
    ditched yield r r' ->
    ditched yield (y :: r) r'.

(** Every yield of the block is ditchable. *)
Fixpoint all_ditchable (yield noret : value) (returnType : ty) (l : list instr)
  : bool :=
  match l with
  | [] => true
  | i :: r => (if calls yield i then ditchable noret returnType (hd_error r) else true)
              && all_ditchable yield noret returnType r
  end.

(** *** Return reactivation *)

(** The state of the loop: the return pointer [retPtr], the instructions
    that obtain it (put at the start of the entry block), the next id. *)
Record react_state : Type := mkReact {
  r_retPtr : value;
  r_entry : list instr;
  r_next : nat
}.

(** The rewriting of the return [inst] of [f]. *)
Definition reactivate_return (f : func) (st : react_state) (inst : instr)
  : list instr * react_state :=
  let n := r_next st in
  if negb (IsVoid (fret f)) then
    let fresh := IsNil (r_retPtr st) in
    let parentHandle0 := createRuntimeCall n "getParentHandle" [] "" in
    let ptr := createRuntimeCall (S n) "getTaskStatePtr" [Reg (iid parentHandle0)] "" in
    let cast := CreateBitCast (S (S n)) (Reg (iid ptr)) (TPtr (fret f)) "retPtr" in
    let n1 := if fresh then 3 + n else n in
    let retPtr := if fresh then Reg (iid cast) else r_retPtr st in
    let entry := if fresh then [parentHandle0; ptr; cast] else r_entry st in
    let store := CreateStore n1 (Operand inst 0) retPtr in
    let inst' := SetOperand inst 0 (Undef (ity inst)) in
    let parentHandle := createRuntimeCall (S n1) "getParentHandle" [] "" in
    let activate := createRuntimeCall (S (S n1)) "activateTask"
                                      [Reg (iid parentHandle)] "" in
    let noret := createRuntimeCall (3 + n1) "noret" [] "" in
    ([store; parentHandle; activate; noret; inst'], mkReact retPtr entry (4 + n1))
  else
    let parentHandle := createRuntimeCall n "getParentHandle" [] "" in
    let activate := createRuntimeCall (S n) "activateTask"
                                      [Reg (iid parentHandle)] "" in
    let noret := createRuntimeCall (S (S n)) "noret" [] "" in
    ([parentHandle; activate; noret; inst], mkReact (r_retPtr st) (r_entry st) (3 + n)).

(** One block: up to the first [noret] call or return. *)
Fixpoint reactivate_block (noret : value) (f : func) (st : react_state)
         (l : list instr) : list instr * react_state :=
  match l with
  | [] => ([], st)
  | inst :: r =>
      if calls noret inst then (inst :: r, st)
      else if IsAReturnInst inst
      then let (new, st') := reactivate_return f st inst in (new ++ r, st')
      else let (r', st') := reactivate_block noret f st r in (inst :: r', st')
  end.

Fixpoint reactivate_blocks (noret : value) (f : func) (st : react_state)
         (bs : list block) : list block * react_state :=
  match bs with
  | [] => ([], st)
  | b :: r =>
      let (l, st1) := reactivate_block noret f st (binsts b) in
      let (r', st2) := reactivate_blocks noret f st1 r in
      (set_insts b l :: r', st2)
  end.

Definition reactivate_returns (noret : value) (f : func) : func :=
  let (bs, st) := reactivate_blocks noret f (mkReact Nil [] (fnext f)) (fblocks f) in
  set_next (set_blocks f (insert_entry (r_entry st) bs)) (r_next st).

(** The reactivation of the parent, [activateTask(getParentHandle())], and
    the [noret] marker after it. *)
Definition activation (n : nat) : list instr :=
  [createRuntimeCall n "getParentHandle" [] "";
   createRuntimeCall (S n) "activateTask" [Reg n] "";
   createRuntimeCall (S (S n)) "noret" [] ""].

(** The instructions that obtain the pointer to the return value in the
    parent: [getTaskStatePtr(getParentHandle())], cast to a pointer to the
    return type. *)
Definition return_pointer (f : func) (n : nat) : list instr :=
  [createRuntimeCall n "getParentHandle" [] "";
   createRuntimeCall (S n) "getTaskStatePtr" [Reg n] "";
   CreateBitCast (S (S n)) (Reg (S n)) (TPtr (fret f)) "retPtr"].

(** The state of the loop is sound: no return pointer yet, or the
    instructions queued for the entry block define it. *)
Definition st_ok (f : func) (st : react_state) : Prop :=
  (r_retPtr st = Nil /\ r_entry st = []) \/
  (exists n0, r_entry st = return_pointer f n0 /\ r_retPtr st = Reg (S (S n0))).

(** Once the return pointer exists, it stays. *)
Definition keeps (st st' : react_state) : Prop :=
  r_retPtr st <> Nil -> r_retPtr st' = r_retPtr st /\ r_entry st' = r_entry st.

(** *** Instructions through the stages *)

(** The values the pass puts in place of operands: no function and no
    constant expression. *)
Definition benign (v : value) : Prop :=
  match v with
  | Nil | Fn _ | ConstExpr _ _ _ => False
  | _ => True
  end.

(** An instruction as the builder creates it: its operands are benign or
    functions of the list [allowed]; it is no [inttoptr]. *)
Definition fresh_like (allowed : list string) (i : instr) : Prop :=
  iop i <> IntToPtr /\
  Forall (fun v => benign v \/ exists s, v = Fn s /\ In s allowed) (iops i).

(** A property of instructions that the rewriting steps of the pass keep:
    the replacement of the uses of an instruction, of the trailing argument
    of a call site, of the operand of a return; the store of the operand of
    a return; the creation of an instruction. *)
Record stable (allowed : list string) (site : instr -> bool)
       (P : instr -> Prop) : Prop := mkStable {
  st_subst : forall k new i, benign new -> P i -> P (subst_instr (Reg k) new i);
  st_lastarg : forall i v, benign v -> site i = true -> P i -> P (SetLastArg i v);
  st_retop : forall i v, benign v -> IsAReturnInst i = true -> P i ->
                         P (SetOperand i 0 v);
  st_store : forall n i p, benign p -> IsAReturnInst i = true -> P i ->
                           P (CreateStore n (Operand i 0) p);
  st_new : forall i, fresh_like allowed i -> P i
}.

(** The runtime functions the stages before the frame installation call. *)
Definition pass_calls : list string :=
  map (String.append "runtime.")
      ["noret"; "getParentHandle"; "yield"; "getCoroutine"; "setTaskStatePtr";
       "getTaskStatePtr"; "activateTask"].

(** Properties of an instruction that the stages keep: it is no call of
    [g]; it does not use [g]. *)
Definition no_call (g : value) (i : instr) : Prop := calls g i = false.
Definition no_use (g : value) (i : instr) : Prop := uses g i = false.

(** The start of a goroutine as the pass expects it from the front end: a
    user of [runtime.makeGoroutine] is a call of it, and its operand is the
    constant [ptrtoint] of a function that is not among [bad]. *)
Definition spawn_ok (bad : list string) (i : instr) : Prop :=
  uses (Fn "runtime.makeGoroutine") i = true ->
  calls (Fn "runtime.makeGoroutine") i = true /\
  exists s t, Operand i 0 = ConstExpr PtrToInt (Fn s) t /\ ~ In s bad.

(** A replacement of a register by [new], as the frame installation
    queues them. *)
Definition handle_sub (new : value) (s : value * value) : Prop :=
  (exists k, fst s = Reg k) /\ snd s = new.

(** The functions the frame installation creates calls of. *)
Definition frame_calls : list string :=
  ["runtime.getParentHandle"; "runtime.alloc"; "runtime.free";
   "runtime.trackPointer";
   "llvm.coro.id"; "llvm.coro.size.i32"; "llvm.coro.begin";
   "llvm.coro.suspend"; "llvm.coro.end"; "llvm.coro.free"].

(** *** Coroutine frames *)

(** The intrinsics [llvm.AddFunction] adds to the module. *)
Definition coroIdFunc : value := Fn "llvm.coro.id".
Definition coroSizeFunc : value := Fn "llvm.coro.size.i32".
Definition coroBeginFunc : value := Fn "llvm.coro.begin".
Definition coroSuspendFunc : value := Fn "llvm.coro.suspend".
Definition coroEndFunc : value := Fn "llvm.coro.end".
Definition coroFreeFunc : value := Fn "llvm.coro.free".

Definition declare (name : string) (ret : ty) (params : list ty) : func :=
  mkFunc name ret [] (map (fun t => mkParam "" t []) params) [] 0.

Definition add_coro_intrinsics (m : module) : module :=
  mkModule
    (mfuncs m ++
     [declare "llvm.coro.id" TToken [TInt 32; i8ptrType; i8ptrType; i8ptrType];
      declare "llvm.coro.size.i32" (TInt 32) [];
      declare "llvm.coro.begin" i8ptrType [TToken; i8ptrType];
      declare "llvm.coro.suspend" (TInt 8) [TToken; TInt 1];
      declare "llvm.coro.end" (TInt 1) [i8ptrType; TInt 1];
      declare "llvm.coro.free" i8ptrType [TToken; i8ptrType]])
    (mconsts m).

(** A function without [yield]: every [getCoroutine] call gives way to a
    [getParentHandle] call.  Returns the new body, the replaced values with
    their replacements, the next id.  (The loop is rendered over the
    sequence of instructions it walks.) *)
Fixpoint use_parent_handle (getCoroutine : value) (n : nat) (l : list item)
  : list item * list (value * value) * nat :=
  match l with
  | [] => ([], [], n)
  | Ins inst :: r =>
      if calls getCoroutine inst then
        let '(r', subs, n') := use_parent_handle getCoroutine (S n) r in
        (Ins (createRuntimeCall n "getParentHandle" [] "") :: r',
         (Reg (iid inst), Reg n) :: subs, n')
      else
        let '(r', subs, n') := use_parent_handle getCoroutine n r in
        (Ins inst :: r', subs, n')
  | h :: r =>
      let '(r', subs, n') := use_parent_handle getCoroutine n r in
      (h :: r', subs, n')
  end.

Definition replace_all (subs : list (value * value)) (l : list item) : list item :=
  fold_left (fun l s => imap (subst_instr (fst s) (snd s)) l) subs l.

(** [asyncFunc], the frame of a coroutine. *)
Record asyncFunc : Type := mkFrame {
  taskHandle : value;
  cleanupBlock : nat;
  suspendBlock : nat
}.

(** Modelled from the spec: [splitBasicBlock] is not among the sources; it
    moves the instructions after the given one to a new block of the given
    name, here [rest] under the header [id]. *)
Definition splitBasicBlock (id : nat) (name : string) (rest : list item)
  : list item :=
  Hdr id name :: rest.

(** Each [yield] call becomes a suspension: [llvm.coro.suspend], the rest of
    the block split off as [task.wakeup], and the switch on the result. *)
Fixpoint suspend_yields (yield : value) (frame : asyncFunc) (n : nat)
         (l : list item) : list item * nat :=
  match l with
  | [] => ([], n)
  | Ins inst :: r =>
      if calls yield inst then
        let continuePoint :=
          CreateCall n (TInt 8) coroSuspendFunc
                     [ConstNull TToken; ConstInt (TInt 1) 0] "" in
        let wakeup := S n in
        let sw := mkInstr (S (S n)) "" Switch TVoid
                          [Reg (iid continuePoint); BB (suspendBlock frame);
                           ConstInt (TInt 8) 0; BB wakeup;
                           ConstInt (TInt 8) 1; BB (cleanupBlock frame)] in
        let (r', n') := suspend_yields yield frame (3 + n) r in
        (Ins continuePoint :: Ins sw :: splitBasicBlock wakeup "task.wakeup" r',
         n')
      else
        let (r', n') := suspend_yields yield frame n r in (Ins inst :: r', n')
  | h :: r =>
      let (r', n') := suspend_yields yield frame n r in (h :: r', n')
  end.

(** The last loop of the frame installation.  A [getCoroutine] call is
    queued for deletion (its uses become the task handle); a [noret] call
    gets a branch to the cleanup block in front and is queued with the
    instruction after it.  [queued] tells that the instruction at hand was
    queued by the [noret] before it. *)
Fixpoint ditch_norets (getCoroutine noret : value) (frame : asyncFunc)
         (n : nat) (queued : bool) (l : list item)
  : list item * list (value * value) * nat :=
  match l with
  | [] => ([], [], n)
  | Ins inst :: r =>
      let gc := calls getCoroutine inst in
      let nr := calls noret inst in
      let '(r', subs, n') :=
        ditch_norets getCoroutine noret frame (if nr then S n else n) nr r in
      ((if nr then [Ins (CreateBr n (cleanupBlock frame))] else []) ++
       (if queued || gc || nr then [] else [Ins inst]) ++ r',
       (if gc then [(Reg (iid inst), taskHandle frame)] else []) ++ subs,
       n')
  | h :: r =>
      let '(r', subs, n') := ditch_norets getCoroutine noret frame n false r in
      (h :: r', subs, n')
  end.

(** Modelled from the spec: [trackPointer] is not among the sources; where
    the target needs stack objects it registers the frame pointer with the
    garbage collector. *)
Definition trackPointer (id : nat) (v : value) : instr :=
  createRuntimeCall id "trackPointer" [v] "".

(** The instructions at the start of the entry block and the frame. *)
Definition frame_prelude (cfg : config) (n : nat) : list instr * asyncFunc :=
  let taskState := CreateAlloca (2 + n) (TNamed "runtime.taskState") "task.state" in
  let stateI8 := CreateBitCast (3 + n) (Reg (iid taskState)) i8ptrType "task.state.i8" in
  let id := CreateCall (4 + n) TToken coroIdFunc
                       [ConstInt (TInt 32) 0; Reg (iid stateI8);
                        ConstNull i8ptrType; ConstNull i8ptrType] "task.token" in
  let size := CreateCall (5 + n) (TInt 32) coroSizeFunc [] "task.size" in
  let uintptrType := TInt (8 * uintptrSize cfg) in
  let conv :=
    if uintptrSize cfg <? 4
    then [mkInstr (6 + n) "task.size.uintptr" Trunc uintptrType [Reg (iid size)]]
    else if 4 <? uintptrSize cfg
    then [mkInstr (6 + n) "task.size.uintptr" ZExt uintptrType [Reg (iid size)]]
    else [] in
  let size' := match conv with [] => Reg (iid size) | _ => Reg (6 + n) end in
  let data := createRuntimeCall (7 + n) "alloc" [size'] "task.data" in
  let track := if needsStackObjects cfg then [trackPointer (8 + n) (Reg (iid data))]
               else [] in
  let handle := CreateCall (9 + n) i8ptrType coroBeginFunc
                           [Reg (iid id); Reg (iid data)] "task.handle" in
  ([taskState; stateI8; id; size] ++ conv ++ [data] ++ track ++ [handle],
   mkFrame (Reg (iid handle)) n (S n)).

(** The cleanup and the suspend block. *)
Definition frame_blocks (f : func) (n : nat) (frame : asyncFunc) : list item :=
  let mem := CreateCall (10 + n) i8ptrType coroFreeFunc
                        [Reg (4 + n); taskHandle frame] "task.data.free" in
  [Hdr (cleanupBlock frame) "task.cleanup";
   Ins mem;
   Ins (createRuntimeCall (11 + n) "free" [Reg (iid mem)] "");
   Ins (CreateBr (12 + n) (suspendBlock frame));
   Hdr (suspendBlock frame) "task.suspend";
   Ins (CreateCall (13 + n) (TInt 1) coroEndFunc
                   [taskHandle frame; ConstInt (TInt 1) 0] "unused");
   Ins (CreateRetUndef (14 + n) (fret f))].

(** The body of the loop "split blocks and add LLVM coroutine intrinsics". *)
Definition install_frame (cfg : config) (yield getCoroutine noret : value)
           (f : func) : func :=
  let body := flatten (fblocks f) in
  if negb (existsb (calls yield) (finsts f)) then
    let '(body', subs, n) := use_parent_handle getCoroutine (fnext f) body in
    set_next (set_blocks f (unflatten (replace_all subs body'))) n
  else
    let n := fnext f in
    let (prelude, frame) := frame_prelude cfg n in
    let (body1, n1) := suspend_yields yield frame (15 + n) body in
    let body2 := insert_entry_items prelude body1 ++ frame_blocks f n frame in
    let '(body3, subs, n2) := ditch_norets getCoroutine noret frame n1 false body2 in
    set_next (set_blocks f (unflatten (replace_all subs body3))) n2.

(** *** Fix-ups over the module *)

Definition user_name (u : user) : string :=
  match u with UInst parent _ => parent | UConst _ => "" end.

(** The users of a global value in a function; none for the nil value. *)
Definition users_of (v : value) (f : func) : list instr :=
  if IsNil v then [] else filter (uses v) (finsts f).

Fixpoint mapM {A B} (g : A -> result B) (l : list A) : result (list B) :=
  match l with
  | [] => Ok []
  | a :: r => b <- g a ;; r' <- mapM g r ;; Ok (b :: r')
  end.

Definition LastParam (f : func) : option (nat * param) :=
  match rev (fparams f) with
  | [] => None
  | p :: r => Some (length r, p)
  end.

Definition exported_panic {A} (f : func) : result A :=
  Panic ("trying to make exported function async: " ++ fname f).

(** "rewrite calls to getParentHandle", for the users in one function. *)
Definition rewrite_parent_handle (gph : value) (f : func) : result func :=
  match users_of gph f with
  | [] => Ok f
  | us =>
      match LastParam f with
      | None => exported_panic f
      | Some (idx, p) =>
          if negb (String.eqb (pname p) "parentHandle") then exported_panic f
          else Ok (fold_left
                     (fun f inst => ReplaceAllUsesWith (Reg (iid inst)) (Param idx) f)
                     us
                     (filter_insts (fun i => negb (uses gph i)) f))
      end
  end.

Definition not_an_instruction {A} (what : string) : result A :=
  Panic (what ++ ": use by a constant, not an instruction").

Definition rewrite_parent_handles (gph : value) (m : module) : result module :=
  match const_users m gph with
  | _ :: _ => if IsNil gph then Ok m else not_an_instruction "getParentHandle"
  | [] =>
      fs <- mapM (rewrite_parent_handle gph) (mfuncs m) ;;
      Ok (mkModule fs (mconsts m))
  end.

(** "mark functions that do not require a parent handle". *)
Fixpoint parent_not_required (m : module) (yield activate : value)
         (asyncList : list string) : result (list string) :=
  match asyncList with
  | [] => Ok []
  | f :: r =>
      if value_eqb (Fn f) yield then parent_not_required m yield activate r
      else match lookup_func m f with
           | None => parent_not_required m yield activate r
           | Some fn =>
               match LastParam fn with
               | None => exported_panic fn
               | Some (idx, p) =>
                   if negb (String.eqb (pname p) "parentHandle") then exported_panic fn
                   else
                     let usesNonActivate :=
                       existsb (fun v => negb (calls activate v))
                               (getUses fn (Param idx)) in
                     r' <- parent_not_required m yield activate r ;;
                     Ok (if usesNonActivate then r' else f :: r')
               end
           end
  end.

(** "ditch invalid function attributes". *)
Definition strip_attrs (f : func) : func :=
  let bad := fun a => negb (String.eqb a "nocapture" || String.eqb a "readnone") in
  mkFunc (fname f) (fret f) (filter bad (fretattrs f))
         (map (fun p => mkParam (pname p) (pty p) (filter bad (pattrs p))) (fparams f))
         (fblocks f) (fnext f).

Definition ditch_attrs (asyncList : list string) (m : module) : module :=
  fold_left (fun m f => update_func m f strip_attrs)
            ("runtime.setTaskStatePtr" :: asyncList) m.

(** "eliminate noret". *)
Definition eliminate_noret (noret : value) (m : module) : result module :=
  if IsNil noret then Ok m
  else match const_users m noret with
       | _ :: _ => not_an_instruction "noret"
       | [] => Ok (mkModule (map (filter_insts (fun i => negb (uses noret i))) (mfuncs m))
                            (mconsts m))
       end.

(** *** Lowering of the goroutine starts *)

(** [v.Operand(0)] of a constant expression or of an instruction. *)
Definition value_operand0 (f : func) (v : value) : value :=
  match v with
  | ConstExpr _ a _ => a
  | Reg id => match find_instr f id with
              | Some i => Operand i 0
              | None => Nil
              end
  | _ => Nil
  end.

(** [SetInsertPointBefore(inst)] followed by the creation of [new]. *)
Fixpoint insert_before_inst (inst : instr) (new : list instr) (l : list instr)
  : list instr :=
  match l with
  | [] => []
  | i :: r => if instr_eqb i inst then new ++ i :: r
              else i :: insert_before_inst inst new r
  end.

Definition insert_before (inst : instr) (new : list instr) (f : func) : func :=
  set_blocks f (map (fun b => set_insts b (insert_before_inst inst new (binsts b)))
                    (fblocks f)).

(** [inst.EraseFromParentAsInstruction()]. *)
Definition erase (inst : instr) (f : func) : func :=
  filter_insts (fun i => negb (instr_eqb i inst)) f.

(** [parentNotRequired[origFunc]], the map holding [runtime.fakeCoroutine]
    besides the functions passed in. *)
Definition parent_not_required_for (parentNotRequired : list string)
           (fakeCoroutine origFunc : value) : bool :=
  value_eqb origFunc fakeCoroutine || is_async parentNotRequired origFunc.

(** The instructions created for the start of a goroutine: the call of
    [getFakeCoroutine] when a parent is required, and the direct call. *)
Definition spawn_call (m : module) (parentNotRequired : list string)
           (fakeCoroutine : value) (n : nat) (origFunc : value)
           (params : list value) : list instr * nat :=
  if parent_not_required_for parentNotRequired fakeCoroutine origFunc
  then ([CreateCall n (return_type m origFunc) origFunc
                    (replace_nth (length params - 1) (ConstNull i8ptrType) params) ""],
        S n)
  else let fake := createRuntimeCall n "getFakeCoroutine" [] "" in
       ([fake;
         CreateCall (S n) (return_type m origFunc) origFunc
                    (replace_nth (length params - 1) (Reg (iid fake)) params) ""],
        2 + n).

(** The body of the loop of [lowerMakeGoroutineCalls] for the use
    [goroutine] of [runtime.makeGoroutine] in [f]. *)
Definition lower_goroutine (m : module) (parentNotRequired : list string)
           (fakeCoroutine : value) (f : func) (goroutine : instr) : result func :=
  let ptrtointIn := Operand goroutine 0 in
  let origFunc := value_operand0 f ptrtointIn in
  match getUses f (Reg (iid goroutine)) with
  | [inttoptrOut] =>
      if negb (IsAIntToPtrInst inttoptrOut)
      then Err "expected exactly 1 inttoptr use of runtime.makeGoroutine"
      else match getUses f (Reg (iid inttoptrOut)) with
           | [realCall] =>
               if negb (IsACallInst realCall)
               then Err "expected exactly 1 call use of runtime.makeGoroutine bitcast"
               else
                 let params := firstn (OperandsCount realCall - 1) (iops realCall) in
                 match params with
                 | [] => Panic "index out of range"
                 | _ =>
                     let (new, n) := spawn_call m parentNotRequired fakeCoroutine
                                                (fnext f) origFunc params in
                     Ok (erase goroutine
                           (erase inttoptrOut
                              (erase realCall
                                 (insert_before realCall new (set_next f n)))))
                 end
           | _ => Err "expected exactly 1 call use of runtime.makeGoroutine bitcast"
           end
  | _ => Err "expected exactly 1 inttoptr use of runtime.makeGoroutine"
  end.

Fixpoint lower_goroutines (parentNotRequired : list string) (fakeCoroutine : value)
         (m : module) (us : list (string * instr)) : result module :=
  match us with
  | [] => Ok m
  | (parent, goroutine) :: r =>
      match lookup_func m parent with
      | None => lower_goroutines parentNotRequired fakeCoroutine m r
      | Some f =>
          f' <- lower_goroutine m parentNotRequired fakeCoroutine f goroutine ;;
          lower_goroutines parentNotRequired fakeCoroutine (replace_func m f') r
      end
  end.

Definition lowerMakeGoroutineCalls (parentNotRequired : list string) (m : module)
  : result module :=
  let fakeCoroutine := NamedFunction m "runtime.fakeCoroutine" in
  let makeGoroutine := NamedFunction m "runtime.makeGoroutine" in
  if IsNil makeGoroutine then Ok m
  else match const_users m makeGoroutine with
       | _ :: _ => not_an_instruction "makeGoroutine"
       | [] => lower_goroutines parentNotRequired fakeCoroutine m
                                (inst_users m makeGoroutine)
       end.

(** *** The need for a scheduler *)

Definition is_js_wasm (cfg : config) : bool :=
  String.eqb (GOOS cfg) "js" && prefix "wasm" (Triple cfg).

Definition is_avr (cfg : config) : bool := String.eqb (GOARCH cfg) "avr".

Definition user_operand0 (u : user) : value :=
  match u with
  | UInst _ i => Operand i 0
  | UConst (ConstExpr _ a _) => a
  | UConst _ => Nil
  end.

(** The function a use of [runtime.makeGoroutine] starts, when its operand
    is a constant [ptrtoint]. *)
Definition spawned (u : user) : option value :=
  match user_operand0 u with
  | ConstExpr PtrToInt goroutine _ => Some goroutine
  | _ => None
  end.

(** The loop over the uses of [runtime.makeGoroutine]: whether one of them
    starts an async function. *)
Fixpoint starts_async (asyncList : list string) (us : list user) : result bool :=
  match us with
  | [] => Ok false
  | use :: r =>
      match spawned use with
      | None => Panic "expected const ptrtoint operand of runtime.makeGoroutine"
      | Some goroutine =>
          if is_async asyncList goroutine then Ok true
          else starts_async asyncList r
      end
  end.

(** The replacement of [time.Sleep] on AVR. *)
Fixpoint avr_sleep (sleep : value) (n : nat) (l : list item) : list item * nat :=
  match l with
  | [] => ([], n)
  | Ins inst :: r =>
      if uses sleep inst then
        let (r', n') := avr_sleep sleep (S n) r in
        (Ins (createRuntimeCall n "avrSleep" [Operand inst 0] "") :: r', n')
      else let (r', n') := avr_sleep sleep n r in (Ins inst :: r', n')
  | h :: r => let (r', n') := avr_sleep sleep n r in (h :: r', n')
  end.

(** The first two loops of the AVR branch, in one function of the module:
    the uses of the [getCoroutine] calls become undef and the calls are
    erased; the [yield] calls are erased. *)
Definition avr_erase (getCoroutine yield : value) (f : func) : func :=
  let f1 := fold_left
              (fun f inst => ReplaceAllUsesWith (Reg (iid inst)) (Undef (ity inst)) f)
              (users_of getCoroutine f)
              (if IsNil getCoroutine then f
               else filter_insts (fun i => negb (uses getCoroutine i)) f) in
  filter_insts (fun i => negb (uses yield i)) f1.

(** The third loop: every use of [time.Sleep] becomes a call of
    [avrSleep]. *)
Definition avr_sleep_calls (sleep : value) (f : func) : func :=
  if IsNil sleep then f
  else let (body, n) := avr_sleep sleep (fnext f) (flatten (fblocks f)) in
       set_next (set_blocks f (unflatten body)) n.

Definition avr_function (getCoroutine yield sleep : value) (f : func) : func :=
  avr_sleep_calls sleep (avr_erase getCoroutine yield f).

Definition has_const_users (m : module) (v : value) : bool :=
  negb (IsNil v) && match const_users m v with [] => false | _ => true end.

Definition avr_short_circuit (yield : value) (m : module) : result module :=
  let getCoroutine := NamedFunction m "runtime.getCoroutine" in
  let sleep := NamedFunction m "time.Sleep" in
  if has_const_users m getCoroutine then not_an_instruction "getCoroutine"
  else if has_const_users m yield then not_an_instruction "yield"
  else if has_const_users m sleep then not_an_instruction "time.Sleep"
  else Ok (mkModule (map (avr_function getCoroutine yield sleep) (mfuncs m))
                    (mconsts m)).

(** "Check whether a scheduler is needed." *)
Definition check_scheduler (cfg : config) (yield : value) (asyncList : list string)
           (m : module) : result (bool * module) :=
  let makeGoroutine := NamedFunction m "runtime.makeGoroutine" in
  if is_js_wasm cfg then Ok (true, m)
  else if is_avr cfg then m' <- avr_short_circuit yield m ;; Ok (false, m')
  else needsScheduler <- starts_async asyncList (getUsesM m makeGoroutine) ;;
       Ok (needsScheduler, m).



(** *** The pass *)

(** The transformation of the async functions, once a scheduler is known
    to be needed.  The named functions are looked up once: the pass adds
    the coroutine intrinsics and renames nothing. *)
Section Stages.

Variables (cfg : config) (yield : value) (asyncList : list string) (m : module).

Let getCoroutine := NamedFunction m "runtime.getCoroutine".
Let noret := NamedFunction m "runtime.noret".

(** The module after "convert direct calls into an async call followed by
    a yield operation". *)
Definition calls_rewritten : module :=
  let (m1, nonReturning) := mark_nonReturning yield getCoroutine asyncList m in
  for_async yield asyncList (rewrite_async_calls yield asyncList nonReturning) m1.

(** After "ditch unnecessary tail yields". *)
Definition tail_yields_ditched : module :=
  for_async yield asyncList (fun _ => ditch_tail_yields yield noret) calls_rewritten.

(** After "generate return reactivations": the module at the time the
    frames are installed. *)
Definition reactivations_generated : module :=
  for_async yield asyncList (fun _ => reactivate_returns noret) tail_yields_ditched.

(** After "split blocks and add LLVM coroutine intrinsics". *)
Definition frames_installed : module :=
  for_async yield asyncList
            (fun _ => install_frame cfg yield getCoroutine noret)
            (add_coro_intrinsics reactivations_generated).

Definition transform_async : result module :=
  let m5 := frames_installed in
  match getUsesM m5 getCoroutine with
  | (_ :: _) as us =>
      Panic ("bad use of getCoroutine: " ++ String.concat "," (map user_name us))
  | [] =>
      m6 <- rewrite_parent_handles (NamedFunction m "runtime.getParentHandle") m5 ;;
      parentNotRequired <-
        parent_not_required m6 yield (NamedFunction m "runtime.activateTask")
                            asyncList ;;
      m8 <- eliminate_noret noret (ditch_attrs asyncList m6) ;;
      lowerMakeGoroutineCalls parentNotRequired m8
  end.

End Stages.

Definition lower_async (cfg : config) (yield : value) (asyncList : list string)
           (m : module) : result (bool * module) :=
  p <- check_scheduler cfg yield asyncList m ;;
  let (needsScheduler, m0) := p in
  if negb needsScheduler
  then m' <- lowerMakeGoroutineCalls [] m0 ;; Ok (false, m')
  else m' <- transform_async cfg yield asyncList m0 ;; Ok (true, m').

(** [markAsyncFunctions]: whether a scheduler is needed, and the module. *)
Definition markAsyncFunctions (cfg : config) (m : module)
  : option (result (bool * module)) :=
  let yield := NamedFunction m yieldName in
  if IsNil yield
  then Some (m' <- lowerMakeGoroutineCalls [] m ;; Ok (false, m'))
  else match find_async m with
       | None => None
       | Some r => Some (asyncList <- r ;; lower_async cfg yield asyncList m)
       end.

(** *** The input and the result of the pass *)

(** The pseudo-functions the pass consumes. *)
Definition pseudo_functions : list string :=
  [yieldName; "runtime.getCoroutine"; "runtime.getParentHandle"; "runtime.noret"].

(** The module as the front end hands it to the pass: the runtime declares
    the pseudo-functions; [runtime.makeGoroutine] is a declaration; a user of
    [runtime.makeGoroutine] is a call of it with the constant [ptrtoint] of a
    function, none of [bad], as its operand. *)
Record pass_input (bad : list string) (m : module) : Prop := mkInput {
  in_getCoroutine : NamedFunction m "runtime.getCoroutine" <> Nil;
  in_getParentHandle : NamedFunction m "runtime.getParentHandle" <> Nil;
  in_noret : NamedFunction m "runtime.noret" <> Nil;
  in_makeGoroutine :
    forall f, In f (mfuncs m) -> fname f = "runtime.makeGoroutine" -> finsts f = [];
  in_spawns : Forall (fun f => Forall (spawn_ok bad) (finsts f)) (mfuncs m)
}.

(** An instruction after the results of the [getParentHandle] calls [us]
    have been replaced by the parameter [idx]. *)
Definition with_parent_param (idx : nat) (us : list instr) (i : instr) : instr :=
  fold_left (fun i u => subst_instr (Reg (iid u)) (Param idx) i) us i.

(** The coroutine intrinsics, and the number of calls of a function in a
    body. *)
Definition coro_intrinsics : list string :=
  ["llvm.coro.id"; "llvm.coro.size.i32"; "llvm.coro.begin";
   "llvm.coro.suspend"; "llvm.coro.end"; "llvm.coro.free"].

Definition is_coro_call (i : instr) : bool :=
  existsb (fun s => calls (Fn s) i) coro_intrinsics.

Definition count_calls (g : value) (f : func) : nat :=
  length (filter (calls g) (finsts f)).

(** The blocks of a function, by id and name. *)
Definition headers (f : func) : list (nat * string) :=
  map (fun b => (bid b, bname b)) (fblocks f).

(** In a flat body no instruction with [bad] stands directly after a
    [noret] call in its block.  [prev] tells whether the instruction before
    is a [noret] call. *)
Fixpoint guarded (bad : instr -> bool) (noret : value) (prev : bool)
         (l : list item) : bool :=
  match l with
  | [] => true
  | Hdr _ _ :: r => guarded bad noret false r
  | Ins i :: r => negb (prev && bad i) && guarded bad noret (calls noret i) r
  end.

(** Whether the last instruction of the last block is a [noret] call. *)
Fixpoint end_state (noret : value) (prev : bool) (l : list item) : bool :=
  match l with
  | [] => prev
  | Hdr _ _ :: r => end_state noret false r
  | Ins i :: r => end_state noret (calls noret i) r
  end.

(** The headers of a flat body. *)
Fixpoint item_headers (l : list item) : list (nat * string) :=
  match l with
  | [] => []
  | Hdr id name :: r => (id, name) :: item_headers r
  | Ins _ :: r => item_headers r
  end.

Definition guarded_func (f : func) : bool :=
  guarded (calls (Fn yieldName)) (Fn "runtime.noret") false (flatten (fblocks f)).

(** The values inttoptr instructions define lie below [n]. *)
Definition inttoptr_below (n : nat) (i : instr) : Prop :=
  iop i = IntToPtr -> iid i < n.

(** An operand of a call created by the frame installation: a register
    from [n] on, a function the installation calls, or a constant. *)
Definition frame_value (n : nat) (v : value) : Prop :=
  match v with
  | Reg k => n <= k
  | Fn s => In s ["runtime.alloc"; "runtime.free"; "runtime.trackPointer"] \/
            In s coro_intrinsics
  | Nil | ConstExpr _ _ _ => False
  | _ => True
  end.

Definition coro_fresh (n : nat) (i : instr) : Prop :=
  is_coro_call i = true -> Forall (frame_value n) (iops i).

(** A function after the frame installation, [n] being the supply of fresh
    ids at its time. *)
Definition framed (n : nat) (f : func) : Prop :=
  Forall (inttoptr_below n) (finsts f) /\ Forall (coro_fresh n) (finsts f).

(** [f'] has the blocks of [f] and as many calls of each intrinsic. *)
Definition same_frame (f f' : func) : Prop :=
  headers f' = headers f /\
  forall s, In s coro_intrinsics -> count_calls (Fn s) f' = count_calls (Fn s) f.

(** The input of the frame installation, besides [pass_input]: the runtime
    declares [noret] without a body; the module does not mention the
    coroutine intrinsics, which the pass adds; no [yield] call stands
    directly after a [noret] call; the inttoptr instructions have ids below
    the supply of fresh ids. *)
Record frame_input (m : module) : Prop := mkFrameInput {
  fi_pass : pass_input (pseudo_functions ++ coro_intrinsics) m;
  fi_noret :
    forall f, In f (mfuncs m) -> fname f = "runtime.noret" -> finsts f = [];
  fi_no_coro :
    forall s, In s coro_intrinsics ->
              Forall (fun f => Forall (no_use (Fn s)) (finsts f)) (mfuncs m);
  fi_guarded : Forall (fun f => guarded_func f = true) (mfuncs m);
  fi_ids :
    Forall (fun f => Forall (inttoptr_below (fnext f)) (finsts f)) (mfuncs m)
}.

(** A function without [yield] after the frame installation: a
    [getCoroutine] call has become a [getParentHandle] call, whose result
    stands for the result of the former in the other instructions. *)
Definition replace_regs (subs : list (value * value)) (i : instr) : instr :=
  fold_left (fun i s => subst_instr (fst s) (snd s) i) subs i.

Definition handle_replaced (getCoroutine : value) (subs : list (value * value))
           (i i' : instr) : Prop :=
  if calls getCoroutine i
  then exists n, i' = createRuntimeCall n "getParentHandle" [] "" /\
                 In (Reg (iid i), Reg n) subs
  else i' = replace_regs subs i.

(** *** The walk over the call sites *)

(** The states of the walk of [rewrite_async_calls] over the body of [f],
    each with the items still to visit: the state the walk starts in, the
    state after a block header or an instruction that is passed over, and
    the state after the rewriting of a call site. *)
Inductive walk (m : module) (yield : value) (asyncList nonReturning : list string)
          (f : func) : site_state -> list item -> Prop :=
| walk_start :
    walk m yield asyncList nonReturning f
         (mkSite [] Nil TVoid (fnext f)) (flatten (fblocks f))
| walk_header st id name r :
    walk m yield asyncList nonReturning f st (Hdr id name :: r) ->
    walk m yield asyncList nonReturning f (push st (Hdr id name)) r
| walk_pass st inst r :
    walk m yield asyncList nonReturning f st (Ins inst :: r) ->
    is_async_call yield asyncList inst = false ->
    walk m yield asyncList nonReturning f (push st (Ins inst)) r
| walk_site st inst r :
    walk m yield asyncList nonReturning f st (Ins inst :: r) ->
    is_async_call yield asyncList inst = true ->
    walk m yield asyncList nonReturning f
         (fst (rewrite_site m nonReturning f st inst r))
         (snd (rewrite_site m nonReturning f st inst r)).

(** A rewriting of instructions that replaces registers below [bound]
    only: it keeps the id, the name, the opcode and the type of an
    instruction, and every operand that is no register below [bound]. *)
Definition keeps_above (bound : nat) (g : instr -> instr) : Prop :=
  forall i,
    iid (g i) = iid i /\ iname (g i) = iname i /\ iop (g i) = iop i /\
    ity (g i) = ity i /\
    Forall2 (fun v v' => v' = v \/ exists k, v = Reg k /\ k < bound)
            (iops i) (iops (g i)).

(** *** Uses of the async functions *)

(** A use of the async function [f] that the worklist loop passes over
    without an error: a call with [f] at the called position only, a
    constant [ptrtoint] all of whose users are calls of
    [runtime.makeGoroutine], a constant [bitcast] without users. *)
Definition accepted_use (m : module) (f : string) (u : user) : Prop :=
  match u with
  | UInst _ i =>
      IsACallInst i = true /\
      ~ In (Fn f) (firstn (OperandsCount i - 1) (iops i))
  | UConst (ConstExpr PtrToInt _ _ as c) =>
      forall u', In u' (getUsesM m c) -> is_makeGoroutine_call u' = true
  | UConst (ConstExpr BitCast _ _ as c) => getUsesM m c = []
  | UConst _ => False
  end.

(** The parent handle of [fn], its last parameter, is passed to
    [runtime.activateTask] only. *)
Definition activates_only (activate : value) (fn : func) : Prop :=
  exists idx p, LastParam fn = Some (idx, p) /\
    forall v, In v (getUses fn (Param idx)) -> calls activate v = true.

(** The attributes the pass removes. *)
Definition invalid_attr (a : string) : Prop := a = "nocapture" \/ a = "readnone".

(** [l'] holds the attributes of [l] that are not removed. *)
Definition attrs_kept (l l' : list string) : Prop :=
  forall a, In a l' <-> In a l /\ ~ invalid_attr a.

(** [f'] is [f] with the removed attributes gone from its return value and
    from each of its parameters, and nothing else changed. *)
Definition attrs_ditched (f f' : func) : Prop :=
  fname f' = fname f /\ fret f' = fret f /\ fblocks f' = fblocks f /\
  fnext f' = fnext f /\
  attrs_kept (fretattrs f) (fretattrs f') /\
  Forall2 (fun p p' => pname p' = pname p /\ pty p' = pty p /\
                       attrs_kept (pattrs p) (pattrs p'))
          (fparams f) (fparams f').

(** The starts of goroutines as the front end writes them:
    [runtime.makeGoroutine] is used by calls of it only, at the called
    position only, and the function started is not [runtime.makeGoroutine]
    itself. *)
Definition start_ok (i : instr) : Prop :=
  spawn_ok ["runtime.makeGoroutine"] i /\
  ~ In (Fn "runtime.makeGoroutine") (firstn (OperandsCount i - 1) (iops i)).

(** *** The entry points *)

Definition callMain_panic {A} : result A :=
  Panic "expected exactly 1 call of runtime.callMain, check the entry point".

(** The one use of [runtime.callMain], a call instruction, with the name
    of the function it is in. *)
Definition find_mainCall (m : module) : result (string * instr) :=
  match getUsesM m (NamedFunction m "runtime.callMain") with
  | [UInst parent mainCall] =>
      if negb (IsACallInst mainCall) then callMain_panic
      else Ok (parent, mainCall)
  | _ => callMain_panic
  end.

(** [SetInsertPointBefore(mainCall)], the creation of the instructions
    [new n] from the fresh id [n] on, and
    [mainCall.EraseFromParentAsInstruction()]. *)
Definition replace_mainCall (m : module) (parent : string) (mainCall : instr)
           (new : nat -> list instr) : result module :=
  match lookup_func m parent with
  | None => callMain_panic
  | Some f =>
      let l := new (fnext f) in
      Ok (replace_func m
            (erase mainCall
               (insert_before mainCall l (set_next f (length l + fnext f)))))
  end.

(** The instructions [lowerCoroutines] creates in place of the call of
    [runtime.callMain]. *)
Definition coroutines_main (m : module) (realMain : value) (needsScheduler : bool)
           (n : nat) : list instr :=
  let fake := createRuntimeCall n "getFakeCoroutine" [] "" in
  [fake;
   CreateCall (S n) (return_type m realMain) realMain
              [Undef i8ptrType; Reg (iid fake)] ""]
  ++ (if needsScheduler then [createRuntimeCall (2 + n) "scheduler" [] ""] else []).

(** [lowerCoroutines]: the call of [runtime.callMain] becomes a call of
    [main.main], followed by a call of the scheduler when it is needed.
    The linkage of a function is not part of [func]: beside the module, the
    pass returns the functions it sets to [llvm.InternalLinkage]. *)
Definition lowerCoroutines (cfg : config) (m : module)
  : option (result (module * list value)) :=
  match markAsyncFunctions cfg m with
  | None => None
  | Some r =>
      Some (p <- r ;;
            let (needsScheduler, m1) := p : bool * module in
            pm <- find_mainCall m1 ;;
            let (parent, mainCall) := pm : string * instr in
            let realMain := NamedFunction m1 (mainPath cfg ++ ".main") in
            m2 <- replace_mainCall m1 parent mainCall
                                   (coroutines_main m1 realMain needsScheduler) ;;
            let go_scheduler := NamedFunction m2 "go_scheduler" in
            Ok (m2,
                (if negb needsScheduler && negb (IsNil go_scheduler)
                 then [go_scheduler] else [])
                ++ [realMain]))
  end.

Section Tasks.

(** [createGoroutineStartWrapper] is defined elsewhere in the package: it
    adds to the module the wrapper through which a goroutine is started
    with the function, and returns the wrapper. *)
Variable createGoroutineStartWrapper : module -> value -> module * value.

(** The instructions [lowerTasks] creates in place of the call of
    [runtime.callMain] when the program starts goroutines, and when it
    does not.  ([createCall] is [CreateCall] for arguments that are no
    aggregates.) *)
Definition tasks_scheduled (cfg : config) (realMainWrapper : value) (n : nat)
  : list instr :=
  let zero := ConstInt (TInt (8 * uintptrSize cfg)) 0 in
  [createRuntimeCall n "startGoroutine" [realMainWrapper; zero] "";
   createRuntimeCall (S n) "scheduler" [] ""].

Definition tasks_direct (m : module) (realMain : value) (n : nat) : list instr :=
  [CreateCall n (return_type m realMain) realMain
              [Undef i8ptrType; Undef i8ptrType] ""].

(** [lowerTasks]. *)
Definition lowerTasks (cfg : config) (m : module) : result (module * list value) :=
  pm <- find_mainCall m ;;
  let (parent, mainCall) := pm : string * instr in
  let realMain := NamedFunction m (mainPath cfg ++ ".main") in
  m' <- match getUsesM m (NamedFunction m "runtime.startGoroutine") with
        | _ :: _ =>
            let (mw, realMainWrapper) := createGoroutineStartWrapper m realMain in
            replace_mainCall mw parent mainCall (tasks_scheduled cfg realMainWrapper)
        | [] => replace_mainCall m parent mainCall (tasks_direct m realMain)
        end ;;
  Ok (m', [realMain]).

End Tasks.

(** The instructions of a function in which [new] stands in place of
    [inst]. *)
Definition in_place_of (inst : instr) (new : list instr) (l : list instr)
  : list instr :=
  flat_map (fun i => if instr_eqb i inst then new else [i]) l.

End Lowering.

(** ** Example inputs *)

Module Examples.

(** A function that allocates eight bytes, casts the pointer and loads
    through it. *)
Definition alloc_fn : func :=
  mkFunc "main.f" TVoid [] [] 
    [mkBlock 0 "entry"
       [mkInstr 1 "" Call i8ptrType [ConstInt (TInt 32) 8; Fn "runtime.alloc"];
        mkInstr 2 "" BitCast (TPtr (TInt 32)) [Reg 1];
        mkInstr 3 "" Load (TInt 32) [Reg 2];
        mkInstr 4 "" Ret TVoid []]]
    5.

Definition alloc_call : instr :=
  mkInstr 1 "" Call i8ptrType [ConstInt (TInt 32) 8; Fn "runtime.alloc"].

Definition no_flags : instr -> value -> string -> bool := fun _ _ _ => false.

(** A loop that fills a buffer of eight bytes: the first allocation is used
    through a bitcast and a getelementptr, the second is loaded from, the
    third is returned, the fourth has the size of the counter. *)
Definition fill_fn : func :=
  mkFunc "main.fill" i8ptrType [] []
    [mkBlock 0 "entry"
       [mkInstr 1 "" Call i8ptrType [ConstInt (TInt 32) 8; Fn "runtime.alloc"];
        mkInstr 2 "" BitCast (TPtr (TInt 32)) [Reg 1];
        mkInstr 3 "" Call i8ptrType [ConstInt (TInt 32) 1; Fn "runtime.alloc"];
        mkInstr 4 "" Br TVoid [BB 5]];
     mkBlock 5 "loop"
       [mkInstr 6 "" PHI (TInt 32) [ConstInt (TInt 32) 0; Reg 9];
        mkInstr 7 "" GetElementPtr (TPtr (TInt 32)) [Reg 2; Reg 6];
        mkInstr 8 "" Store TVoid [Reg 6; Reg 7];
        mkInstr 9 "" (OtherOp 0) (TInt 32) [Reg 6; ConstInt (TInt 32) 1];
        mkInstr 10 "" Load (TInt 8) [Reg 3];
        mkInstr 11 "" ICmp (TInt 1) [Reg 9; ConstInt (TInt 32) 2];
        mkInstr 12 "" Br TVoid [Reg 11; BB 5; BB 13]];
     mkBlock 13 "exit"
       [mkInstr 14 "" Call i8ptrType [ConstInt (TInt 32) 4; Fn "runtime.alloc"];
        mkInstr 15 "" Call i8ptrType [Reg 9; Fn "runtime.alloc"];
        mkInstr 16 "" Call i8ptrType [ConstInt (TInt 32) 1024; Fn "runtime.alloc"];
        mkInstr 17 "" Ret TVoid [Reg 14]]]
    18.

Definition alloc_module : module :=
  mkModule [mkFunc "runtime.alloc" i8ptrType [] [mkParam "size" (TInt 32) []] [] 0;
            alloc_fn; fill_fn] [].

Definition decl (name : string) (ret : ty) (params : list string) : func :=
  mkFunc name ret [] (map (fun p => mkParam p i8ptrType []) params) [] 0.

Definition call (id : nat) (t : ty) (fn : string) (args : list value) : instr :=
  mkInstr id "" Call t (args ++ [Fn fn]).

Definition goParams : list param :=
  [mkParam "context" i8ptrType []; mkParam "parentHandle" i8ptrType []].

Definition retVoid (id : nat) : instr := mkInstr id "" Ret TVoid [].

(** [func work() {}], a goroutine that computes and returns. *)
Definition workFn : func :=
  mkFunc "main.work" TVoid [] goParams [mkBlock 0 "entry" [retVoid 1]] 2.

(** [func main() { go work() }]. *)
Definition spawnMainFn : func :=
  mkFunc "main.main" TVoid [] goParams
    [mkBlock 0 "entry"
       [call 1 i8ptrType "runtime.makeGoroutine"
             [ConstExpr PtrToInt (Fn "main.work") (TInt 32)];
        mkInstr 2 "" IntToPtr (TPtr (TNamed "func")) [Reg 1];
        mkInstr 3 "" Call TVoid [Undef i8ptrType; Undef i8ptrType; Reg 2];
        retVoid 4]]
    5.

Definition startFn : func :=
  mkFunc "main" TVoid [] []
    [mkBlock 0 "entry" [call 1 TVoid "runtime.callMain" []; retVoid 2]] 3.

(** A program without blocking operations that starts one goroutine. *)
Definition spawn_module : module :=
  mkModule [decl "runtime.makeGoroutine" i8ptrType ["fn"];
            decl "runtime.callMain" TVoid [];
            decl "runtime.getFakeCoroutine" i8ptrType [];
            workFn; spawnMainFn; startFn] [].

(** [time.Sleep]: register the wakeup, then yield. *)
Definition sleepFn : func :=
  mkFunc "time.Sleep" TVoid []
    (mkParam "d" (TInt 64) [] :: goParams)
    [mkBlock 0 "entry"
       [call 1 i8ptrType "runtime.getCoroutine" [];
        call 2 TVoid "runtime.sleepTask" [Reg 1; Param 0];
        call 3 TVoid "runtime.yield" [];
        retVoid 4]]
    5.

(** [func bar() *int { time.Sleep(1); return new(int) }]. *)
Definition barFn : func :=
  mkFunc "main.bar" (TPtr (TInt 32)) [] goParams
    [mkBlock 0 "entry"
       [call 1 TVoid "time.Sleep"
             [ConstInt (TInt 64) 1; Undef i8ptrType; Undef i8ptrType];
        call 2 i8ptrType "runtime.alloc" [ConstInt (TInt 32) 4];
        mkInstr 3 "" BitCast (TPtr (TInt 32)) [Reg 2];
        mkInstr 4 "" Ret TVoid [Reg 3]]]
    5.

(** [func foo() { for { time.Sleep(1) } }]. *)
Definition fooFn : func :=
  mkFunc "main.foo" TVoid [] goParams
    [mkBlock 0 "entry" [mkInstr 1 "" Br TVoid [BB 2]];
     mkBlock 2 "loop"
       [call 3 TVoid "time.Sleep"
             [ConstInt (TInt 64) 1; Undef i8ptrType; Undef i8ptrType];
        mkInstr 4 "" Br TVoid [BB 2]]]
    5.

(** [func baz() *int { return bar() }]. *)
Definition bazFn : func :=
  mkFunc "main.baz" (TPtr (TInt 32)) [] goParams
    [mkBlock 0 "entry"
       [call 1 (TPtr (TInt 32)) "main.bar" [Undef i8ptrType; Undef i8ptrType];
        mkInstr 2 "" Ret TVoid [Reg 1]]]
    3.

(** [func main() { go foo(); time.Sleep(2); i := baz(); _ = *i }]. *)
Definition asyncMainFn : func :=
  mkFunc "main.main" TVoid [] goParams
    [mkBlock 0 "entry"
       [call 1 i8ptrType "runtime.makeGoroutine"
             [ConstExpr PtrToInt (Fn "main.foo") (TInt 32)];
        mkInstr 2 "" IntToPtr (TPtr (TNamed "func")) [Reg 1];
        mkInstr 3 "" Call TVoid [Undef i8ptrType; Undef i8ptrType; Reg 2];
        call 4 TVoid "time.Sleep"
             [ConstInt (TInt 64) 2; Undef i8ptrType; Undef i8ptrType];
        call 5 (TPtr (TInt 32)) "main.baz" [Undef i8ptrType; Undef i8ptrType];
        mkInstr 6 "" Load (TInt 32) [Reg 5];
        retVoid 7]]
    8.

(** The program of the introduction of [goroutine-lowering.go]. *)
Definition async_module : module :=
  mkModule [decl "runtime.yield" TVoid [];
            decl "runtime.getCoroutine" i8ptrType [];
            decl "runtime.noret" TVoid [];
            decl "runtime.getParentHandle" i8ptrType [];
            decl "runtime.activateTask" TVoid ["t"];
            decl "runtime.makeGoroutine" i8ptrType ["fn"];
            decl "runtime.getFakeCoroutine" i8ptrType [];
            decl "runtime.callMain" TVoid [];
            sleepFn; barFn; fooFn; bazFn; asyncMainFn; startFn] [].

(** [func main() { time.Sleep(2) }]. *)
Definition blockingMainFn : func :=
  mkFunc "main.main" TVoid [] goParams
    [mkBlock 0 "entry"
       [call 1 TVoid "time.Sleep"
             [ConstInt (TInt 64) 2; Undef i8ptrType; Undef i8ptrType];
        retVoid 2]]
    3.

(** A program that blocks and starts no goroutine. *)
Definition blocking_module : module :=
  mkModule [decl "runtime.yield" TVoid [];
            decl "runtime.getCoroutine" i8ptrType [];
            decl "runtime.noret" TVoid [];
            decl "runtime.getParentHandle" i8ptrType [];
            decl "runtime.activateTask" TVoid ["t"];
            decl "runtime.makeGoroutine" i8ptrType ["fn"];
            decl "runtime.getFakeCoroutine" i8ptrType [];
            decl "runtime.callMain" TVoid [];
            sleepFn; blockingMainFn; startFn] [].

(** [func deadlock() { yield() }], a function that blocks for ever. *)
Definition deadlockFn : func :=
  mkFunc "runtime.deadlock" TVoid [] goParams
    [mkBlock 0 "entry"
       [call 1 TVoid "runtime.yield" [];
        retVoid 2]]
    3.

(** [func main() { deadlock() }]. *)
Definition deadlockMainFn : func :=
  mkFunc "main.main" TVoid [] goParams
    [mkBlock 0 "entry"
       [call 1 TVoid "runtime.deadlock" [Undef i8ptrType; Undef i8ptrType];
        retVoid 2]]
    3.

(** A program that blocks for ever. *)
Definition deadlock_module : module :=
  mkModule [decl "runtime.yield" TVoid [];
            decl "runtime.getCoroutine" i8ptrType [];
            decl "runtime.noret" TVoid [];
            decl "runtime.getParentHandle" i8ptrType [];
            decl "runtime.activateTask" TVoid ["t"];
            decl "runtime.makeGoroutine" i8ptrType ["fn"];
            decl "runtime.getFakeCoroutine" i8ptrType [];
            decl "runtime.callMain" TVoid [];
            deadlockFn; deadlockMainFn; startFn] [].

Definition arm_cfg : Lowering.config :=
  Lowering.mkConfig "linux" "arm" "armv7m-none-eabi" "main" false 4.


Definition avr_cfg : Lowering.config :=
  Lowering.mkConfig "linux" "avr" "avr-atmel-none" "main" false 2.

(** The module after [markAsyncFunctions], where the pass succeeds. *)
Definition lowered (cfg : Lowering.config) (m : module) : module :=
  match Lowering.markAsyncFunctions cfg m with
  | Some (Ok (_, m')) => m'
  | _ => m
  end.

End Examples.

(** * Properties *)

Unset Implicit Arguments.

(** ** Basic facts about values and uses *)

Lemma value_eqb_eq a b : value_eqb a b = true <-> a = b.
Proof. unfold value_eqb; destruct (value_eq_dec a b); split; congruence. Qed.

Lemma value_eqb_refl a : value_eqb a a = true.
Proof. apply value_eqb_eq; reflexivity. Qed.

Lemma value_eqb_neq a b : value_eqb a b = false <-> a <> b.
Proof. unfold value_eqb; destruct (value_eq_dec a b); split; congruence. Qed.

Lemma ty_eqb_eq a b : ty_eqb a b = true <-> a = b.
Proof. unfold ty_eqb; destruct (ty_eq_dec a b); split; congruence. Qed.

Lemma opcode_eqb_eq a b : opcode_eqb a b = true <-> a = b.
Proof. unfold opcode_eqb; destruct (opcode_eq_dec a b); split; congruence. Qed.

Lemma count_occ_value_pos v l :
  0 < count_occ_value v l <-> existsb (value_eqb v) l = true.
Proof.
  unfold count_occ_value. induction l as [|a l IH]; simpl.
  - split; [lia | discriminate].
  - destruct (value_eqb v a); simpl; [split; auto; lia | exact IH].
Qed.

Lemma In_users_in v l u :
  In u (users_in v l) <-> In u l /\ uses v u = true.
Proof.
  induction l as [|i r IH]; simpl.
  - tauto.
  - rewrite in_app_iff, IH. split.
    + intros [H | H].
      * pose proof (repeat_spec _ _ _ H) as ->. split; [now left|].
        apply count_occ_value_pos.
        destruct (count_occ_value v (iops i)); [destruct H | lia].
      * tauto.
    + intros [[<- | H] Hu].
      * left. apply count_occ_value_pos in Hu.
        destruct (count_occ_value v (iops i)); [lia | now left].
      * right. tauto.
Qed.

Lemma Forall2_In_r {A B} (R : A -> B -> Prop) l l' b :
  Forall2 R l l' -> In b l' -> exists a, In a l /\ R a b.
Proof.
  induction 1; simpl; intros Hb; [destruct Hb|].
  destruct Hb as [<- | Hb]; eauto.
  destruct (IHForall2 Hb) as [a [? ?]]; eauto.
Qed.

Lemma Forall2_In_l {A B} (R : A -> B -> Prop) l l' a :
  Forall2 R l l' -> In a l -> exists b, In b l' /\ R a b.
Proof.
  induction 1; simpl; intros Ha; [destruct Ha|].
  destruct Ha as [<- | Ha]; eauto.
  destruct (IHForall2 Ha) as [b [? ?]]; eauto.
Qed.

(** ** Flat bodies *)

Lemma block_eta b : mkBlock (bid b) (bname b) (binsts b) = b.
Proof. destruct b; reflexivity. Qed.

Lemma take_insts_app l r :
  headed r -> take_insts (map Ins l ++ r) = l.
Proof.
  intros Hr. induction l as [|i l IH]; simpl.
  - destruct r as [|[|] r]; simpl in *; auto; contradiction.
  - rewrite IH. reflexivity.
Qed.

Lemma unflatten_app_insts l r :
  unflatten (map Ins l ++ r) = unflatten r.
Proof. induction l; simpl; auto. Qed.

Lemma flatten_headed bs : headed (flatten bs).
Proof. destruct bs; simpl; auto. Qed.

Lemma unflatten_flatten bs : unflatten (flatten bs) = bs.
Proof.
  induction bs as [|b r IH]; simpl; auto.
  rewrite take_insts_app by apply flatten_headed.
  rewrite unflatten_app_insts, IH, block_eta. reflexivity.
Qed.

Lemma items_insts_app l r : items_insts (l ++ r) = items_insts l ++ items_insts r.
Proof.
  induction l as [|[|] l IH]; simpl; auto. rewrite IH. reflexivity.
Qed.

Lemma items_insts_ins l : items_insts (map Ins l) = l.
Proof. induction l; simpl; congruence. Qed.

Lemma items_insts_flatten bs : items_insts (flatten bs) = flat_map binsts bs.
Proof.
  induction bs as [|b r IH]; simpl; auto.
  rewrite items_insts_app, items_insts_ins, IH. reflexivity.
Qed.

Lemma items_take_drop l :
  items_insts l = take_insts l ++ items_insts (drop_insts l).
Proof.
  induction l as [|[|] l IH]; simpl; auto. rewrite IH. reflexivity.
Qed.

Lemma unflatten_drop_insts l : unflatten (drop_insts l) = unflatten l.
Proof. induction l as [|[|] l IH]; simpl; auto. Qed.

Lemma insts_unflatten_drop l :
  flat_map binsts (unflatten l) = items_insts (drop_insts l).
Proof.
  induction l as [|[id name|i] l IH]; simpl; auto.
  rewrite IH. symmetry. apply items_take_drop.
Qed.

Lemma insts_unflatten l :
  headed l -> flat_map binsts (unflatten l) = items_insts l.
Proof.
  intros H. rewrite insts_unflatten_drop.
  destruct l as [|[|] l]; simpl in *; auto; contradiction.
Qed.

Lemma finsts_unflatten f l n :
  headed l -> finsts (set_next (set_blocks f (unflatten l)) n) = items_insts l.
Proof. intros H. unfold finsts. simpl. apply insts_unflatten; auto. Qed.

(** ** Rewriting the instructions of a function *)

Lemma finsts_filter_insts k f : finsts (filter_insts k f) = filter k (finsts f).
Proof.
  unfold finsts, filter_insts. simpl.
  induction (fblocks f) as [|b r IH]; simpl; auto.
  rewrite filter_app, IH. reflexivity.
Qed.

Lemma finsts_map_insts g f : finsts (map_insts g f) = map g (finsts f).
Proof.
  unfold finsts, map_insts. simpl.
  induction (fblocks f) as [|b r IH]; simpl; auto.
  rewrite map_app, IH. reflexivity.
Qed.

(** The effect of a sequence of replacements on one instruction. *)
Lemma finsts_fold_RAUW (new : instr -> value) us : forall f,
  finsts (fold_left (fun f inst => ReplaceAllUsesWith (Reg (iid inst)) (new inst) f)
                    us f) =
  map (fun i => fold_left (fun i inst => subst_instr (Reg (iid inst)) (new inst) i)
                          us i)
      (finsts f).
Proof.
  induction us as [|u us IH]; intros f; simpl.
  - rewrite map_id. reflexivity.
  - rewrite IH. unfold ReplaceAllUsesWith. rewrite finsts_map_insts, map_map.
    reflexivity.
Qed.

Lemma uses_subst g old new i :
  g <> new -> uses g (subst_instr old new i) = true -> uses g i = true.
Proof.
  unfold uses, subst_instr. simpl. intros Hn H.
  apply existsb_exists in H. destruct H as [x [Hx E]].
  apply value_eqb_eq in E. subst x. apply in_map_iff in Hx.
  destruct Hx as [v [E Hv]]. unfold subst_value in E.
  destruct (value_eqb v old); [congruence|]. subst v.
  apply existsb_exists. exists g. split; auto. apply value_eqb_refl.
Qed.

Lemma uses_fold_subst g (new : instr -> value) us : forall i,
  (forall u, In u us -> g <> new u) ->
  uses g (fold_left (fun i inst => subst_instr (Reg (iid inst)) (new inst) i) us i)
  = true ->
  uses g i = true.
Proof.
  induction us as [|u us IH]; intros i Hn H; simpl in *; auto.
  apply IH in H; [|intros; apply Hn; auto].
  eapply uses_subst; eauto.
Qed.


Lemma calls_iff g i :
  calls g i = true <-> IsACallInst i = true /\ CalledValue i = g.
Proof.
  unfold calls. rewrite andb_true_iff, value_eqb_eq. tauto.
Qed.

Lemma finsts_erase_instr id f :
  finsts (erase_instr id f) = filter (fun i => negb (iid i =? id)) (finsts f).
Proof.
  unfold finsts, erase_instr, erase_id. simpl.
  induction (fblocks f) as [|b r IH]; simpl; auto.
  rewrite filter_app, IH. reflexivity.
Qed.

Lemma In_erase_instr id f i :
  In i (finsts (erase_instr id f)) <-> In i (finsts f) /\ iid i <> id.
Proof.
  rewrite finsts_erase_instr, filter_In, negb_true_iff, Nat.eqb_neq. tauto.
Qed.

Lemma In_getUses f v u : In u (getUses f v) <-> In u (finsts f) /\ uses v u = true.
Proof. apply In_users_in. Qed.

Lemma instr_eqb_eq a b : instr_eqb a b = true <-> a = b.
Proof. unfold instr_eqb; destruct (instr_eq_dec a b); split; congruence. Qed.

Lemma instr_eqb_refl a : instr_eqb a a = true.
Proof. apply instr_eqb_eq; reflexivity. Qed.

Lemma items_insts_imap g l : items_insts (imap g l) = map g (items_insts l).
Proof.
  induction l as [|[|] l IH]; simpl; auto. rewrite IH. reflexivity.
Qed.

Lemma imap_app g l r : imap g (l ++ r) = imap g l ++ imap g r.
Proof. unfold imap. apply map_app. Qed.

Lemma headed_app l r : headed l -> l <> [] -> headed (l ++ r).
Proof. destruct l as [|[|] l]; simpl; auto; congruence. Qed.

Lemma headed_imap g l : headed l -> headed (imap g l).
Proof. destruct l as [|[|] l]; simpl; auto. Qed.

Lemma items_insts_insert_entry new l :
  headed l -> l <> [] ->
  items_insts (insert_entry_items new l) = new ++ items_insts l.
Proof.
  destruct l as [|[id nm|i] l]; simpl; intros H Hn; try congruence; try contradiction.
  rewrite items_insts_app, items_insts_ins. reflexivity.
Qed.

Lemma In_items_insert_entry new l x :
  In x (items_insts (insert_entry_items new l)) -> In x new \/ In x (items_insts l).
Proof.
  destruct l as [|[id nm|i] l]; simpl; auto.
  rewrite items_insts_app, items_insts_ins, in_app_iff. auto.
Qed.

Lemma Forall_flat_map {A B} (P : B -> Prop) (g : A -> list B) l :
  Forall P (flat_map g l) <-> Forall (fun a => Forall P (g a)) l.
Proof.
  induction l as [|a l IH]; simpl.
  - split; constructor.
  - rewrite Forall_app, IH. split.
    + intros [? ?]. constructor; auto.
    + intros H. inversion H; subst. auto.
Qed.

Lemma In_insts_unflatten l x :
  In x (flat_map binsts (unflatten l)) -> In x (items_insts l).
Proof.
  rewrite insts_unflatten_drop.
  induction l as [|[|] l IH]; simpl; auto.
Qed.

Lemma Forall_insts_unflatten (P : instr -> Prop) l :
  Forall P (items_insts l) -> Forall P (flat_map binsts (unflatten l)).
Proof.
  rewrite !Forall_forall. intros H x Hx. apply H. apply In_insts_unflatten; auto.
Qed.

Lemma In_flat_insert_entry (e : list instr) bs x :
  In x (flat_map binsts (insert_entry e bs)) -> In x e \/ In x (flat_map binsts bs).
Proof.
  destruct bs as [|b r]; simpl; auto.
  rewrite !in_app_iff. tauto.
Qed.

Lemma Forall_take_insts (P : instr -> Prop) l :
  Forall P (items_insts l) -> Forall P (take_insts l).
Proof.
  rewrite (items_take_drop l), Forall_app. tauto.
Qed.

Lemma Forall_drop_insts (P : instr -> Prop) l :
  Forall P (items_insts l) -> Forall P (items_insts (drop_insts l)).
Proof.
  rewrite (items_take_drop l), Forall_app. tauto.
Qed.

(** Operands after a replacement. *)

Lemma last_map_d {A B} (g : A -> B) l d : last (map g l) (g d) = g (last l d).
Proof.
  induction l as [|a l IH]; simpl; auto.
  destruct l; simpl in *; auto.
Qed.

Lemma subst_value_other old new v : v <> old -> subst_value old new v = v.
Proof.
  unfold subst_value. intros H. destruct (value_eqb v old) eqn:E; auto.
  apply value_eqb_eq in E. contradiction.
Qed.

Lemma CalledValue_subst k new i :
  CalledValue (subst_instr (Reg k) new i) = subst_value (Reg k) new (CalledValue i).
Proof.
  unfold CalledValue, subst_instr. simpl.
  transitivity (last (map (subst_value (Reg k) new) (iops i))
                     (subst_value (Reg k) new Nil)).
  - reflexivity.
  - apply last_map_d.
Qed.

Lemma Operand_subst k new i n :
  Operand (subst_instr (Reg k) new i) n = subst_value (Reg k) new (Operand i n).
Proof.
  unfold Operand, subst_instr. simpl.
  transitivity (nth n (map (subst_value (Reg k) new) (iops i))
                    (subst_value (Reg k) new Nil)).
  - reflexivity.
  - apply map_nth.
Qed.

Lemma calls_subst s k new i :
  new <> Fn s ->
  calls (Fn s) (subst_instr (Reg k) new i) = true -> calls (Fn s) i = true.
Proof.
  intros Hn H. apply calls_iff in H. destruct H as [Hc Hv]. apply calls_iff.
  split; [exact Hc|]. rewrite CalledValue_subst in Hv. unfold subst_value in Hv.
  destruct (value_eqb (CalledValue i) (Reg k)); congruence.
Qed.

Lemma uses_replace_nth g v l : forall n,
  existsb (value_eqb g) (replace_nth n v l) = true ->
  g = v \/ existsb (value_eqb g) l = true.
Proof.
  induction l as [|a l IH]; intros [|n]; simpl; auto.
  - rewrite orb_true_iff. intros [H | H]; [apply value_eqb_eq in H; auto|].
    right. rewrite H. apply orb_true_r.
  - rewrite !orb_true_iff. intros [H | H]; auto.
    apply IH in H. tauto.
Qed.

Lemma uses_SetOperand g i n v :
  uses g (SetOperand i n v) = true -> g = v \/ uses g i = true.
Proof. unfold uses, SetOperand. simpl. apply uses_replace_nth. Qed.

Lemma uses_SetLastArg g i v :
  uses g (SetLastArg i v) = true -> g = v \/ uses g i = true.
Proof.
  unfold SetLastArg. destruct (2 <=? OperandsCount i); auto.
  apply uses_SetOperand.
Qed.

Lemma uses_Operand s i n : Operand i n = Fn s -> uses (Fn s) i = true.
Proof.
  unfold Operand, uses. intros H. apply existsb_exists. exists (Fn s).
  split; [|apply value_eqb_refl].
  destruct (Nat.lt_ge_cases n (length (iops i))) as [Hl | Hl].
  - rewrite <- H. apply nth_In. exact Hl.
  - rewrite nth_overflow in H by exact Hl. discriminate.
Qed.

Lemma call_not_return i : IsACallInst i = true -> IsAReturnInst i = true -> False.
Proof.
  unfold IsACallInst, IsAReturnInst. rewrite !opcode_eqb_eq. congruence.
Qed.


Lemma calls_subst_eq s k new i :
  new <> Fn s -> calls (Fn s) (subst_instr (Reg k) new i) = calls (Fn s) i.
Proof.
  intros Hn. unfold calls. rewrite CalledValue_subst.
  change (IsACallInst (subst_instr (Reg k) new i)) with (IsACallInst i).
  f_equal. unfold subst_value.
  destruct (value_eqb (CalledValue i) (Reg k)) eqn:E; auto.
  apply value_eqb_eq in E. rewrite E.
  transitivity false; [|symmetry]; apply value_eqb_neq; congruence.
Qed.

Lemma calls_fold_subst_eq s (new : instr -> value) us : forall i,
  (forall u, new u <> Fn s) ->
  calls (Fn s) (fold_left (fun i u => subst_instr (Reg (iid u)) (new u) i) us i)
  = calls (Fn s) i.
Proof.
  induction us as [|u us IH]; intros i Hn; simpl; auto.
  rewrite IH by auto. apply calls_subst_eq. auto.
Qed.

Lemma calls_SetLastArg g i v : calls g (SetLastArg i v) = calls g i.
Proof.
  unfold SetLastArg. destruct (2 <=? OperandsCount i) eqn:E; auto.
  apply Nat.leb_le in E. unfold calls, IsACallInst, CalledValue, SetOperand.
  simpl. unfold OperandsCount in *.
  f_equal. f_equal.
  revert E. generalize (iops i). intros l E.
  assert (G : forall n l, S n < length l ->
                          last (replace_nth n v l) Nil = last l Nil).
  { clear. induction n as [|n IH]; intros [|a [|b l]] H; simpl in *; try lia; auto.
    specialize (IH (b :: l)). simpl in IH.
    destruct (replace_nth n v (b :: l)) eqn:Er.
    - destruct n; simpl in Er; discriminate.
    - rewrite <- IH by lia. reflexivity. }
  apply G. lia.
Qed.

(** ** The set of async functions *)

Module WorklistFacts.
Import Lowering.

Lemma existsb_eqb_In s l : existsb (String.eqb s) l = true <-> In s l.
Proof.
  rewrite existsb_exists. split.
  - intros [x [H E]]. apply String.eqb_eq in E. subst; auto.
  - intros H. exists s. split; auto. apply String.eqb_refl.
Qed.

Lemma existsb_eqb_not_In s l : existsb (String.eqb s) l = false <-> ~ In s l.
Proof.
  rewrite <- existsb_eqb_In. destruct (existsb (String.eqb s) l); split; congruence.
Qed.

Lemma callee_of_user g i :
  uses (Fn g) i = true ->
  existsb (value_eqb (Fn g)) (firstn (OperandsCount i - 1) (iops i)) = false ->
  CalledValue i = Fn g.
Proof.
  unfold uses, OperandsCount, CalledValue. intros Hu Ha.
  destruct (iops i) as [|a l] eqn:Hops; [discriminate|].
  rewrite <- Hops in *.
  assert (Hne : iops i <> []) by (rewrite Hops; discriminate).
  rewrite (app_removelast_last Nil Hne) in Hu.
  rewrite removelast_firstn_len in Hu.
  replace (pred (length (iops i))) with (length (iops i) - 1) in Hu by lia.
  rewrite existsb_app, Ha in Hu. simpl in Hu.
  rewrite orb_false_r in Hu. apply value_eqb_eq in Hu. auto.
Qed.

Lemma last_In (l : list value) d : l <> [] -> In (last l d) l.
Proof.
  induction l as [|a l IH]; [congruence|]. intros _.
  destruct l as [|b l]; [simpl; auto|].
  right. apply IH. discriminate.
Qed.

Lemma calls_uses g i : calls g i = true -> IsNil g = false -> uses g i = true.
Proof.
  unfold calls, uses, CalledValue. intros H Hg.
  apply andb_true_iff in H. destruct H as [_ H]. apply value_eqb_eq in H.
  destruct (iops i) as [|a l] eqn:Hops.
  - simpl in H. subst g. discriminate.
  - apply existsb_exists. exists g. split; [|apply value_eqb_refl].
    rewrite <- H. apply last_In. discriminate.
Qed.

Lemma In_inst_users m v p i :
  In (p, i) (inst_users m v) <->
  exists fn, In fn (mfuncs m) /\ fname fn = p /\ In i (finsts fn) /\ uses v i = true.
Proof.
  unfold inst_users. rewrite in_flat_map. split.
  - intros [fn [Hfn H]]. apply in_map_iff in H. destruct H as [u [E Hu]].
    inversion E; subst. apply In_users_in in Hu. exists fn. tauto.
  - intros [fn [Hfn [E [Hi Hu]]]]. exists fn. split; auto.
    apply in_map_iff. exists i. subst. split; auto.
    apply In_users_in. auto.
Qed.

Lemma In_UInst_getUsesM m g p i :
  In (UInst p i) (getUsesM m (Fn g)) <-> In (p, i) (inst_users m (Fn g)).
Proof.
  unfold getUsesM. simpl. rewrite in_app_iff, !in_map_iff. split.
  - intros [[[p' i'] [E H]] | [c [E _]]]; [|discriminate].
    simpl in E. inversion E; subst. auto.
  - intros H. left. exists (p, i). auto.
Qed.

Lemma push_parents_ok m f us : forall wl wl',
  push_parents m f us wl = Ok wl' ->
  (forall p, In p wl' <-> In p wl \/ exists i, In (UInst p i) us) /\
  (forall p i, In (UInst p i) us ->
     IsACallInst i = true /\
     existsb (value_eqb (Fn f)) (firstn (OperandsCount i - 1) (iops i)) = false) /\
  length wl' <= length wl + length us.
Proof.
  induction us as [|u r IH]; simpl; intros wl wl' H.
  - inversion H; subst. split; [|split].
    + intros p; split; [auto | intros [? | [? []]]; auto].
    + intros p i [].
    + lia.
  - assert (Hskip : forall c, u = UConst c -> push_parents m f r wl = Ok wl' ->
       (forall p, In p wl' <-> In p wl \/ exists i, u = UInst p i \/ In (UInst p i) r) /\
       (forall p i, u = UInst p i \/ In (UInst p i) r ->
          IsACallInst i = true /\
          existsb (value_eqb (Fn f)) (firstn (OperandsCount i - 1) (iops i)) = false) /\
       length wl' <= length wl + S (length r)).
    { intros c -> H'. destruct (IH _ _ H') as [A [B C]]. repeat split.
      - intros Hp. apply A in Hp. destruct Hp as [? | [i ?]]; eauto.
      - intros [? | [i [? | ?]]]; try discriminate; apply A; eauto.
      - destruct H0 as [? | ?]; [discriminate | eapply B; eauto].
      - destruct H0 as [? | ?]; [discriminate | eapply B; eauto].
      - lia. }
    destruct u as [parent i | c].
    + destruct (IsACallInst i) eqn:Hc; simpl in H; [|discriminate].
      destruct (existsb _ _) eqn:Ha; [discriminate|].
      destruct (IH _ _ H) as [A [B C]]. repeat split.
      * intros Hp. apply A in Hp. destruct Hp as [[<- | ?] | [j ?]]; eauto.
      * intros [? | [j [E | ?]]]; apply A; simpl; eauto.
        inversion E; subst. auto.
      * destruct H0 as [E | ?]; [inversion E; subst; auto | eapply B; eauto].
      * destruct H0 as [E | ?]; [inversion E; subst; auto | eapply B; eauto].
      * simpl in C. lia.
    + destruct c as [| | | | | | | |op a t]; try discriminate.
      destruct op; try discriminate.
      * destruct (getUsesM m _); [|discriminate]. eapply Hskip; eauto.
      * destruct (forallb _ _); [|discriminate]. eapply Hskip; eauto.
Qed.

Lemma push_parents_no_panic m f us : forall wl e,
  push_parents m f us wl <> Panic e.
Proof.
  induction us as [|u r IH]; simpl; intros wl e; [discriminate|].
  destruct u as [parent i | c].
  - destruct (negb _); [discriminate|]. destruct (existsb _ _); [discriminate|]. apply IH.
  - destruct c; try discriminate. destruct op; try discriminate.
    + destruct (getUsesM m _); [apply IH | discriminate].
    + destruct (forallb _ _); [apply IH | discriminate].
Qed.

(** The measure of the worklist loop. *)
Definition pending (m : module) (A : list string) (l : list func) : nat :=
  list_sum (map (fun fn => if existsb (String.eqb (fname fn)) A then 0
                           else length (getUsesM m (Fn (fname fn)))) l).

Lemma pending_le_all m A l :
  pending m A l <= list_sum (map (fun f => length (getUsesM m (Fn (fname f)))) l).
Proof.
  unfold pending. induction l as [|a l IH]; simpl; auto.
  destruct (existsb _ A); lia.
Qed.

Lemma pending_add_le m A f l : pending m (A ++ [f]) l <= pending m A l.
Proof.
  unfold pending. induction l as [|a l IH]; simpl; auto.
  rewrite existsb_app. destruct (existsb _ A); simpl; [lia|].
  destruct (_ || false); lia.
Qed.

Lemma pending_add m A f l :
  In f (map fname l) -> ~ In f A ->
  pending m (A ++ [f]) l + length (getUsesM m (Fn f)) <= pending m A l.
Proof.
  intros Hin HA. induction l as [|a l IH]; simpl in *; [tauto|].
  unfold pending in *. simpl. rewrite existsb_app. simpl.
  destruct Hin as [E | Hin].
  - subst f. apply existsb_eqb_not_In in HA. rewrite HA, String.eqb_refl. simpl.
    pose proof (pending_add_le m A (fname a) l) as Hle. unfold pending in Hle. lia.
  - specialize (IH Hin). destruct (existsb _ A); simpl; [lia|].
    destruct (_ || false); lia.
Qed.

Lemma Async_not_resume m f : Async m f -> f <> "resume".
Proof. intros H; inversion H; subst; auto. discriminate. Qed.

Record inv (m : module) (wl A : list string) : Prop := mkInv {
  inv_nodup : NoDup A;
  inv_sound : forall f, In f A -> Async m f;
  inv_wl : forall p, In p wl -> p <> "resume" -> Async m p;
  inv_closed : forall g f, In g A -> contains_call m f g -> f <> "resume" ->
                           In f A \/ In f wl;
  inv_yield : In yieldName A \/ In yieldName wl;
  inv_names : forall p, In p wl -> In p (map fname (mfuncs m))
}.

Lemma worklist_loop_correct m : forall fuel wl A,
  inv m wl A ->
  length wl + pending m A (mfuncs m) < fuel ->
  exists r, worklist_loop fuel m wl A = Some r /\
    match r with
    | Ok L => NoDup L /\ forall f, In f L <-> Async m f
    | Err _ => True
    | Panic _ => False
    end.
Proof.
  induction fuel as [|n IH]; intros wl A HI Hm; [lia|]. simpl.
  destruct wl as [|f wl].
  - eexists; split; [reflexivity|]. destruct HI. split; auto.
    intros f; split; auto. intros Hf. induction Hf.
    + destruct inv_yield0 as [? | []]; auto.
    + destruct (inv_closed0 g f IHHf H H0) as [? | []]; auto.
  - destruct (existsb (String.eqb f) A) eqn:HA.
    { apply existsb_eqb_In in HA. apply IH; [|simpl in Hm; lia].
      destruct HI. constructor; auto.
      - intros; apply inv_wl0; simpl; auto.
      - intros g f' Hg Hc Hr. destruct (inv_closed0 g f' Hg Hc Hr) as [? | [<- | ?]]; auto.
      - destruct inv_yield0 as [? | [<- | ?]]; auto.
      - intros; apply inv_names0; simpl; auto. }
    destruct (String.eqb f "resume") eqn:Hr.
    { apply String.eqb_eq in Hr. subst f. apply IH; [|simpl in Hm; lia].
      destruct HI. constructor; auto.
      - intros; apply inv_wl0; simpl; auto.
      - intros g f' Hg Hc Hr. destruct (inv_closed0 g f' Hg Hc Hr) as [? | [<- | ?]]; auto.
        congruence.
      - destruct inv_yield0 as [? | [E | ?]]; auto. discriminate.
      - intros; apply inv_names0; simpl; auto. }
    apply String.eqb_neq in Hr. apply existsb_eqb_not_In in HA.
    destruct (push_parents m f (getUsesM m (Fn f)) wl) as [wl'|e|e] eqn:Hp.
    + destruct (push_parents_ok _ _ _ _ _ Hp) as [Hin [Hcall Hlen]].
      assert (Hf : Async m f) by (destruct HI; apply inv_wl0; simpl; auto).
      apply IH.
      * destruct HI. constructor.
        -- apply NoDup_app; [auto | repeat constructor; simpl; tauto |].
           intros x Hx [<- | []]; auto.
        -- intros g Hg. apply in_app_iff in Hg. destruct Hg as [? | [<- | []]]; auto.
        -- intros p Hp' Hpr. apply Hin in Hp'. destruct Hp' as [? | [i Hi]].
           ++ apply inv_wl0; simpl; auto.
           ++ destruct (Hcall _ _ Hi) as [Hc Ha].
              apply In_UInst_getUsesM, In_inst_users in Hi.
              destruct Hi as [fn [Hfn [E [Hi Hu]]]].
              apply Async_caller with (g := f); auto.
              exists fn, i. repeat split; auto.
              unfold calls. rewrite Hc. simpl. apply value_eqb_eq.
              apply callee_of_user; auto.
        -- intros g f' Hg Hc Hr'. apply in_app_iff in Hg.
           destruct Hg as [Hg | [<- | []]].
           ++ destruct (inv_closed0 g f' Hg Hc Hr') as [? | [<- | ?]].
              ** left; apply in_app_iff; auto.
              ** left; apply in_app_iff; simpl; auto.
              ** right; apply Hin; auto.
           ++ right. apply Hin. right.
              destruct Hc as [fn [i [Hfn [E [Hi Hc]]]]]. exists i.
              apply In_UInst_getUsesM, In_inst_users. exists fn.
              repeat split; auto. apply calls_uses; auto.
        -- destruct inv_yield0 as [? | [<- | ?]].
           ++ left; apply in_app_iff; auto.
           ++ left; apply in_app_iff; simpl; auto.
           ++ right; apply Hin; auto.
        -- intros p Hp'. apply Hin in Hp'. destruct Hp' as [? | [i Hi]].
           ++ apply inv_names0; simpl; auto.
           ++ apply In_UInst_getUsesM, In_inst_users in Hi.
              destruct Hi as [fn [Hfn [E _]]]. subst p. apply in_map; auto.
      * assert (Hn : In f (map fname (mfuncs m)))
          by (destruct HI; apply inv_names0; simpl; auto).
        pose proof (pending_add m A f (mfuncs m) Hn HA). simpl in Hm. lia.
    + eexists; split; [reflexivity|]. exact I.
    + exfalso. eapply push_parents_no_panic; eauto.
Qed.

Lemma NamedFunction_In m name :
  NamedFunction m name <> Nil -> In name (map fname (mfuncs m)).
Proof.
  unfold NamedFunction. destruct (existsb _ _) eqn:H; [|congruence].
  intros _. apply existsb_exists in H. destruct H as [f [Hf E]].
  apply String.eqb_eq in E. subst. apply in_map; auto.
Qed.


End WorklistFacts.

(** ** Tail-yield elimination *)

Module TailYieldFacts.
Import Lowering.

Section Ditch.

Variables (yield noret : value).

Local Abbreviation all_ditchable := (all_ditchable yield noret).

Lemma scan_yields_block_spec t l : forall c,
  scan_yields_block yield noret t l c =
  if all_ditchable t l then (c || existsb (calls yield) l, false) else (false, true).
Proof.
  induction l as [|i r IH]; intros c; simpl.
  - rewrite orb_false_r. reflexivity.
  - destruct (calls yield i); simpl.
    + destruct (ditchable noret t (hd_error r)); simpl; auto.
      rewrite IH. destruct (all_ditchable t r); auto.
      rewrite orb_true_r. reflexivity.
    + apply IH.
Qed.

Lemma scan_yields_spec t bs : forall c,
  scan_yields yield noret t bs c =
  forallb (fun b => all_ditchable t (binsts b)) bs &&
  (c || existsb (fun b => existsb (calls yield) (binsts b)) bs).
Proof.
  induction bs as [|b r IH]; intros c; simpl.
  - rewrite orb_false_r. reflexivity.
  - rewrite scan_yields_block_spec.
    destruct (all_ditchable t (binsts b)); simpl; auto.
    rewrite IH, orb_assoc. reflexivity.
Qed.

Lemma ditchable_spec f next :
  ditchable noret (fret f) next = true <-> spec_ditchable noret f next.
Proof.
  unfold ditchable, spec_ditchable. destruct next as [nx|].
  - destruct (calls noret nx) eqn:Hn.
    + split; auto. intros _. exists nx. auto.
    + destruct (IsAReturnInst nx) eqn:Hr; simpl.
      * destruct (fret f) eqn:Ht; simpl; split; try discriminate; auto;
          try (intros _; exists nx; auto);
          intros [x [E [? | [_ ?]]]]; inversion E; subst; congruence.
      * split; [discriminate|].
        intros [x [E [? | [? _]]]]; inversion E; subst; congruence.
  - split; [discriminate|]. intros [x [E _]]. discriminate.
Qed.

Lemma all_ditchable_iff t l :
  all_ditchable t l = true <->
  forall pre y post, l = pre ++ y :: post -> calls yield y = true ->
                     ditchable noret t (hd_error post) = true.
Proof.
  induction l as [|i r IH]; simpl.
  - split; auto. intros _ [|? ?] ? ? E; discriminate.
  - rewrite andb_true_iff, IH. split.
    + intros [H1 H2] [|a pre] y post E Hy; simpl in E; inversion E; subst.
      * rewrite Hy in H1. auto.
      * eapply H2; eauto.
    + intros H. split.
      * destruct (calls yield i) eqn:Hy; auto. apply (H [] i r); auto.
      * intros pre y post E Hy. apply (H (i :: pre) y post); auto.
        simpl. congruence.
Qed.

Lemma ditch_block_cons i r n :
  ditch_block yield n (i :: r) =
  if calls yield i then
    match hd_error r with
    | Some next =>
        if IsAReturnInst next
        then let (r', n') := ditch_block yield (S n) r in
             (createRuntimeCall n "noret" [] "" :: r', n')
        else ditch_block yield n r
    | None => ditch_block yield n r
    end
  else let (r', n') := ditch_block yield n r in (i :: r', n').
Proof. reflexivity. Qed.

Lemma ditch_block_ditched l : forall n,
  ditched yield l (fst (ditch_block yield n l)).
Proof.
  induction l as [|i r IH]; intros n.
  - constructor.
  - rewrite ditch_block_cons. destruct (calls yield i) eqn:Hy.
    + destruct r as [|nx r0]; cbn [hd_error].
      * apply ditched_drop; auto. discriminate.
      * destruct (IsAReturnInst nx) eqn:Hr.
        -- specialize (IH (S n)). destruct (ditch_block yield (S n) (nx :: r0)).
           apply ditched_ret; auto.
        -- apply ditched_drop; auto. simpl. intros ? E. inversion E; subst; auto.
    + specialize (IH n). destruct (ditch_block yield n r).
      apply ditched_keep; auto.
Qed.

Lemma ditch_blocks_ditched bs : forall n,
  Forall2 (fun b b' => bid b' = bid b /\ bname b' = bname b /\
                       ditched yield (binsts b) (binsts b'))
          bs (fst (ditch_blocks yield n bs)).
Proof.
  induction bs as [|b r IH]; intros n; simpl.
  - constructor.
  - pose proof (ditch_block_ditched (binsts b) n) as Hb.
    destruct (ditch_block yield n (binsts b)) as [l n1].
    specialize (IH n1). destruct (ditch_blocks yield n1 r) as [r' n2].
    simpl in *. constructor; auto.
Qed.

Lemma ditched_same l :
  (forall i, In i l -> calls yield i = false) -> ditched yield l l.
Proof.
  induction l as [|i r IH]; intros H; constructor.
  - apply H; simpl; auto.
  - apply IH. intros; apply H; simpl; auto.
Qed.

Lemma ditched_no_yield l l' :
  yield <> runtime_fn "noret" ->
  ditched yield l l' -> forall i, In i l' -> calls yield i = false.
Proof.
  intros Hne H. induction H; simpl; intros j Hj.
  - destruct Hj.
  - destruct Hj as [<- | Hj]; auto.
  - destruct Hj as [<- | Hj]; auto.
    unfold calls, createRuntimeCall, CalledValue. simpl.
    apply value_eqb_neq. congruence.
  - auto.
Qed.

End Ditch.

(** Tail-yield elimination in one function is all or nothing.  The
    test of the code is the rule of the specification: a yield is ditchable
    exactly when a [noret] call or a return of a void function follows it.
    If every yield of the function is ditchable, the blocks of the result are
    the blocks of the function with every yield removed, a [noret] call in
    place of each yield that preceded a return, and no call of [yield] is
    left; if some yield is not ditchable, the function is unchanged. *)
Lemma ditch_tail_yields_all_or_nothing (yield noret : value) (f : func) :
  yield <> runtime_fn "noret" ->
  let f' := ditch_tail_yields yield noret f in
  (forall next, ditchable noret (fret f) next = true <-> spec_ditchable noret f next) /\
  ((forall y next, yield_at yield f y next -> spec_ditchable noret f next) ->
   Forall2 (fun b b' => bid b' = bid b /\ bname b' = bname b /\
                        ditched yield (binsts b) (binsts b'))
           (fblocks f) (fblocks f') /\
   forall i, In i (finsts f') -> calls yield i = false) /\
  ((exists y next, yield_at yield f y next /\ ~ spec_ditchable noret f next) ->
   f' = f).
Proof.
  intros Hne f'. split; [apply ditchable_spec|]. subst f'.
  unfold ditch_tail_yields. rewrite scan_yields_spec. simpl.
  split.
  - intros Hall.
    assert (HF : Forall2 (fun b b' => bid b' = bid b /\ bname b' = bname b /\
                            ditched yield (binsts b) (binsts b'))
                   (fblocks f)
                   (fblocks (if forallb (fun b => Lowering.all_ditchable yield noret (fret f) (binsts b))
                                        (fblocks f) &&
                                existsb (fun b => existsb (calls yield) (binsts b)) (fblocks f)
                             then let (bs, n) := ditch_blocks yield (fnext f) (fblocks f) in
                                  set_next (set_blocks f bs) n
                             else f))).
    { destruct (forallb _ _ && existsb _ _) eqn:Hc.
      - pose proof (ditch_blocks_ditched yield (fblocks f) (fnext f)) as H.
        destruct (ditch_blocks yield (fnext f) (fblocks f)). exact H.
      - apply andb_false_iff in Hc. destruct Hc as [Hc | Hc].
        + exfalso. apply not_true_iff_false in Hc. apply Hc.
          apply forallb_forall. intros b Hb. apply all_ditchable_iff.
          intros pre y post E Hy. apply ditchable_spec.
          apply (Hall y). exists b, pre, post. auto.
        + assert (Hno : forall b, In b (fblocks f) -> forall i, In i (binsts b) ->
                                  calls yield i = false).
          { intros b Hb i Hi. destruct (calls yield i) eqn:Hy; auto.
            apply not_true_iff_false in Hc. destruct Hc.
            apply existsb_exists. exists b. split; auto.
            apply existsb_exists. exists i. auto. }
          clear Hall Hc. induction (fblocks f) as [|b r IH]; constructor.
          * repeat split; auto. apply ditched_same. apply Hno. simpl; auto.
          * apply IH. intros; eapply Hno; eauto. simpl; eauto. }
    split; [exact HF|].
    intros i Hi. unfold finsts in Hi. apply in_flat_map in Hi.
    destruct Hi as [b' [Hb' Hi]].
    destruct (@Forall2_In_r _ _ _ _ _ _ HF Hb') as [b [_ [_ [_ Hd]]]].
    eapply ditched_no_yield; eauto.
  - intros [y [next [[b [pre [post [Hb [E [Hy Hn]]]]]] Hnot]]].
    assert (Hc : forallb (fun b => Lowering.all_ditchable yield noret (fret f) (binsts b))
                         (fblocks f) = false).
    { apply not_true_iff_false. intros Hc. rewrite forallb_forall in Hc.
      specialize (Hc b Hb). rewrite all_ditchable_iff in Hc.
      apply Hnot. apply ditchable_spec. subst next. eapply Hc; eauto. }
    rewrite Hc. reflexivity.
Qed.

End TailYieldFacts.

(** ** Indefinitely blocking functions *)

Module NonReturningFacts.
Import Lowering.

Section Scan.

Variables (yield getCoroutine : value) (asyncList : list string).

Lemma scan_calls_spec l : forall s,
  let s' := scan_calls yield getCoroutine asyncList l s in
  callsYield s' = callsYield s || existsb (calls yield) l /\
  getsCoroutine s' =
    getsCoroutine s ||
    existsb (fun i => IsACallInst i && negb (value_eqb (CalledValue i) yield)
                      && value_eqb (CalledValue i) getCoroutine) l /\
  callsAsyncNotYield s' =
    callsAsyncNotYield s ||
    existsb (fun i => IsACallInst i && negb (value_eqb (CalledValue i) yield)
                      && negb (value_eqb (CalledValue i) getCoroutine)
                      && is_async asyncList (CalledValue i)) l.
Proof.
  induction l as [|i r IH]; intros s; simpl.
  - rewrite !orb_false_r. auto.
  - destruct (IH (if IsACallInst i
                  then if value_eqb (CalledValue i) yield
                       then mkScan true (getsCoroutine s) (callsAsyncNotYield s)
                       else if value_eqb (CalledValue i) getCoroutine
                            then mkScan (callsYield s) true (callsAsyncNotYield s)
                            else if is_async asyncList (CalledValue i)
                                 then mkScan (callsYield s) (getsCoroutine s) true
                                 else s
                  else s)) as [H1 [H2 H3]].
    rewrite H1, H2, H3. unfold calls.
    destruct (IsACallInst i); simpl; auto.
    destruct (value_eqb (CalledValue i) yield); simpl.
    { rewrite !orb_true_r. simpl. auto. }
    destruct (value_eqb (CalledValue i) getCoroutine); simpl.
    { rewrite !orb_true_r. simpl. auto. }
    destruct (is_async asyncList (CalledValue i)); simpl; auto.
    rewrite !orb_true_r. simpl. auto.
Qed.

Lemma is_nonReturning_spec f :
  getCoroutine <> yield ->
  is_nonReturning yield getCoroutine asyncList f = true <->
  spec_nonReturning yield getCoroutine asyncList f.
Proof.
  intros Hne. unfold is_nonReturning, spec_nonReturning.
  destruct (scan_calls_spec (finsts f) (mkScan false false false)) as [H1 [H2 H3]].
  simpl in *. rewrite H1, H2, H3. clear H1 H2 H3.
  rewrite !andb_true_iff, !negb_true_iff. split.
  - intros [[Hy Hg] Ha]. split; [|split].
    + apply existsb_exists in Hy. exact Hy.
    + intros i Hi. destruct (calls getCoroutine i) eqn:Hc; auto.
      rewrite <- Hg. symmetry. apply existsb_exists. exists i. split; auto.
      unfold calls in Hc. apply andb_true_iff in Hc. destruct Hc as [Hc He].
      rewrite Hc, He. simpl. apply value_eqb_eq in He. rewrite He.
      apply andb_true_iff. split; auto. apply negb_true_iff, value_eqb_neq. auto.
    + intros i Hi Hc Has.
      destruct (value_eqb (CalledValue i) yield) eqn:Ey; [apply value_eqb_eq; auto|].
      exfalso. destruct (value_eqb (CalledValue i) getCoroutine) eqn:Eg.
      * apply not_true_iff_false in Hg. apply Hg.
        apply existsb_exists. exists i. split; auto. rewrite Hc, Ey, Eg.
        reflexivity.
      * apply not_true_iff_false in Ha. apply Ha.
        apply existsb_exists. exists i. split; auto. rewrite Hc, Ey, Eg, Has. auto.
  - intros [Hy [Hg Ha]]. split; [split|].
    + apply existsb_exists. exact Hy.
    + apply not_true_iff_false. intros He. apply existsb_exists in He.
      destruct He as [i [Hi He]]. rewrite !andb_true_iff in He.
      destruct He as [[Hc _] Eg]. specialize (Hg i Hi). unfold calls in Hg.
      rewrite Hc, Eg in Hg. discriminate.
    + apply not_true_iff_false. intros He. apply existsb_exists in He.
      destruct He as [i [Hi He]]. rewrite !andb_true_iff, !negb_true_iff in He.
      destruct He as [[[Hc Ey] _] Has]. apply value_eqb_neq in Ey. auto.
Qed.

End Scan.

Lemma break_block_first_yield yield t pre y post : forall n,
  calls yield y = true -> (forall i, In i pre -> calls yield i = false) ->
  break_block yield t n (pre ++ y :: post) =
  (pre ++ [createRuntimeCall n "noret" [] ""; CreateRetUndef (S n) t],
   y :: post, 2 + n).
Proof.
  intros n Hy. induction pre as [|a pre IH]; intros Hpre; simpl.
  - rewrite Hy. reflexivity.
  - rewrite (Hpre a) by (simpl; auto).
    rewrite IH by (intros; apply Hpre; simpl; auto). reflexivity.
Qed.

Lemma break_block_no_yield yield t l : forall n,
  (forall i, In i l -> calls yield i = false) ->
  break_block yield t n l = (l, [], n).
Proof.
  intros n. induction l as [|a l IH]; intros H; simpl; auto.
  rewrite (H a) by (simpl; auto).
  rewrite IH by (intros; apply H; simpl; auto). reflexivity.
Qed.

Lemma break_blocks_In yield t bs : forall n b,
  In b bs ->
  exists k, In (set_insts b (fst (fst (break_block yield t k (binsts b)))))
               (fst (fst (break_blocks yield t n bs))).
Proof.
  induction bs as [|a r IH]; intros n b Hb; [destruct Hb|]. simpl.
  destruct (break_block yield t n (binsts a)) as [[kept del] n1] eqn:Ha.
  destruct Hb as [<- | Hb].
  - exists n. rewrite Ha.
    destruct (break_blocks yield t n1 r) as [[r' del'] n2]. simpl. auto.
  - destruct (IH n1 b Hb) as [k Hk]. exists k.
    destruct (break_blocks yield t n1 r) as [[r' del'] n2]. simpl in *. auto.
Qed.

Lemma undef_deleted_map del : forall f,
  undef_deleted del f = map_insts (undef_uses del) f.
Proof.
  unfold undef_deleted, undef_uses.
  induction del as [|d del IH]; intros f; simpl.
  - destruct f. unfold map_insts. simpl. f_equal.
    induction fblocks0 as [|b bs IHb]; simpl; auto. rewrite <- IHb.
    f_equal. destruct b. simpl. f_equal. rewrite map_id. reflexivity.
  - rewrite IH. destruct (IsVoid (ity d)); auto.
    unfold ReplaceAllUsesWith, map_insts. simpl. f_equal.
    rewrite map_map. apply map_ext. intros b. simpl. f_equal.
    rewrite map_map. reflexivity.
Qed.

Lemma undef_uses_shape del : forall i,
  iid (undef_uses del i) = iid i /\ iop (undef_uses del i) = iop i /\
  ity (undef_uses del i) = ity i.
Proof.
  unfold undef_uses. induction del as [|d del IH]; intros i; simpl; auto.
  destruct (IsVoid (ity d)); auto.
  destruct (IH (subst_instr (Reg (iid d)) (Undef (ity d)) i)) as [H1 [H2 H3]].
  rewrite H1, H2, H3. auto.
Qed.

Lemma undef_uses_no_reg del : forall i,
  (forall k, ~ In (Reg k) (iops i)) -> undef_uses del i = i.
Proof.
  unfold undef_uses. induction del as [|d del IH]; intros i Hi; simpl; auto.
  assert (E : subst_instr (Reg (iid d)) (Undef (ity d)) i = i).
  { destruct i as [id nm op t ops]. unfold subst_instr. simpl in *. f_equal.
    induction ops as [|a ops IHo]; simpl; auto.
    rewrite IHo by (intros k Hk; apply (Hi k); simpl; auto). f_equal.
    unfold subst_value. destruct (value_eqb a (Reg (iid d))) eqn:E; auto.
    apply value_eqb_eq in E. subst a. exfalso. apply (Hi (iid d)). simpl; auto. }
  destruct (IsVoid (ity d)); [apply IH; auto|]. rewrite E. apply IH; auto.
Qed.

(** A function is classified as non-returning exactly when it calls
    [yield], does not call [getCoroutine] and calls no other member of [A].
    In a function so classified, a block with a [yield] call becomes the
    instructions before its first [yield] (their uses of deleted values made
    undef), a [noret] call and a return, of void or of undef of the return
    type; what followed in the block is deleted. *)
Lemma nonReturning_function
        (yield getCoroutine : value) (asyncList : list string) (f : func) :
  getCoroutine <> yield ->
  (is_nonReturning yield getCoroutine asyncList f = true <->
   spec_nonReturning yield getCoroutine asyncList f) /\
  (forall b pre y post,
     In b (fblocks f) -> binsts b = pre ++ y :: post ->
     calls yield y = true -> (forall i, In i pre -> calls yield i = false) ->
     exists b' sigma n,
       In b' (fblocks (inject_noret yield f)) /\ bid b' = bid b /\
       (forall i, iid (sigma i) = iid i /\ iop (sigma i) = iop i /\
                  ity (sigma i) = ity i) /\
       binsts b' = map sigma pre ++
                   [createRuntimeCall n "noret" [] "";
                    if IsVoid (fret f) then CreateRetVoid (S n)
                    else CreateRet (S n) (Undef (fret f))]).
Proof.
  intros Hne. split; [apply is_nonReturning_spec; auto|].
  intros b pre y post Hb E Hy Hpre. unfold inject_noret.
  destruct (break_blocks_In yield (fret f) (fblocks f) (fnext f) b Hb) as [k Hk].
  destruct (break_blocks yield (fret f) (fnext f) (fblocks f)) as [[bs del] n].
  simpl in Hk. rewrite E, break_block_first_yield in Hk by auto. simpl in Hk.
  rewrite undef_deleted_map.
  exists (set_insts (set_insts b (pre ++ [createRuntimeCall k "noret" [] "";
                                      CreateRetUndef (S k) (fret f)]))
                    (map (undef_uses del)
                         (pre ++ [createRuntimeCall k "noret" [] "";
                                  CreateRetUndef (S k) (fret f)]))),
         (undef_uses del), k.
  split; [|split; [reflexivity|split; [apply undef_uses_shape|]]].
  - unfold map_insts. simpl. apply in_map_iff.
    eexists; split; [|exact Hk]. reflexivity.
  - simpl. rewrite map_app. simpl. f_equal.
    rewrite !undef_uses_no_reg; auto.
    + unfold CreateRetUndef, CreateRet, CreateRetVoid.
      destruct (IsVoid (fret f)); simpl; intros j Hj; intuition discriminate.
    + simpl. intros j Hj; intuition discriminate.
Qed.

End NonReturningFacts.

(** ** Return reactivation *)

Module ReactivationFacts.
Import Lowering.

Section React.

Variables (noret : value) (f : func).

Local Abbreviation st_ok := (st_ok f).

Lemma keeps_refl st : keeps st st.
Proof. intros _. auto. Qed.

Lemma keeps_trans a b c : st_ok b -> keeps a b -> keeps b c -> keeps a c.
Proof.
  intros Hb H1 H2 Ha. destruct (H1 Ha) as [E1 E2].
  assert (r_retPtr b <> Nil) by congruence.
  destruct (H2 H) as [E3 E4]. split; congruence.
Qed.

Lemma reactivate_return_spec st r :
  st_ok st ->
  let res := reactivate_return f st r in
  st_ok (snd res) /\ keeps st (snd res) /\
  exists n,
    if IsVoid (fret f) then fst res = activation n ++ [r]
    else exists n0, r_entry (snd res) = return_pointer f n0 /\
                    fst res = CreateStore n (Operand r 0) (Reg (S (S n0)))
                              :: activation (S n)
                              ++ [SetOperand r 0 (Undef (ity r))].
Proof.
  intros Hok. unfold reactivate_return.
  destruct (IsVoid (fret f)) eqn:Hv; simpl.
  - split; [exact Hok|]. split; [intros _; auto|]. exists (r_next st). reflexivity.
  - destruct Hok as [[E1 E2] | [n0 [E1 E2]]].
    + rewrite E1. simpl. split; [right; eexists; split; reflexivity|].
      split; [intros H; simpl in H; congruence|].
      exists (3 + r_next st). exists (r_next st). split; reflexivity.
    + rewrite E2. simpl. split; [right; exists n0; auto|].
      split; [intros _; auto|].
      exists (r_next st). exists n0. split; auto.
Qed.

Lemma reactivate_block_noret pre r post st :
  (forall i, In i pre -> IsAReturnInst i = false) ->
  existsb (calls noret) pre = true ->
  reactivate_block noret f st (pre ++ r :: post) = (pre ++ r :: post, st).
Proof.
  induction pre as [|a pre IH]; simpl; intros Hpre Hn; [discriminate|].
  destruct (calls noret a) eqn:Ha; auto.
  rewrite (Hpre a) by auto. simpl in Hn.
  rewrite IH; auto.
Qed.

Lemma reactivate_block_ret pre r post st :
  (forall i, In i pre -> IsAReturnInst i = false) ->
  existsb (calls noret) pre = false ->
  IsAReturnInst r = true ->
  calls noret r = false ->
  reactivate_block noret f st (pre ++ r :: post) =
  (pre ++ fst (reactivate_return f st r) ++ post, snd (reactivate_return f st r)).
Proof.
  induction pre as [|a pre IH]; simpl; intros Hpre Hn Hr Hc.
  - rewrite Hc, Hr. destruct (reactivate_return f st r). reflexivity.
  - apply orb_false_iff in Hn. destruct Hn as [Ha Hn].
    rewrite Ha, (Hpre a) by auto. rewrite IH; auto.
Qed.

Lemma ret_not_call i g : IsAReturnInst i = true -> calls g i = false.
Proof.
  unfold IsAReturnInst, calls, IsACallInst. intros H.
  apply opcode_eqb_eq in H. rewrite H. reflexivity.
Qed.

Lemma reactivate_block_ok st l :
  st_ok st ->
  st_ok (snd (reactivate_block noret f st l)) /\
  keeps st (snd (reactivate_block noret f st l)).
Proof.
  intros Hok. induction l as [|a l IH]; simpl.
  - split; auto. apply keeps_refl.
  - destruct (calls noret a); simpl; [split; auto; apply keeps_refl|].
    destruct (IsAReturnInst a).
    + destruct (reactivate_return_spec st a Hok) as [H1 [H2 _]].
      destruct (reactivate_return f st a). simpl in *. auto.
    + destruct (reactivate_block noret f st l). simpl in *. auto.
Qed.

Lemma reactivate_blocks_ok bs : forall st,
  st_ok st ->
  st_ok (snd (reactivate_blocks noret f st bs)) /\
  keeps st (snd (reactivate_blocks noret f st bs)).
Proof.
  induction bs as [|b r IH]; intros st Hok; simpl.
  - split; auto. apply keeps_refl.
  - destruct (reactivate_block_ok st (binsts b) Hok) as [H1 H2].
    destruct (reactivate_block noret f st (binsts b)) as [l st1]. simpl in *.
    destruct (IH st1 H1) as [H3 H4].
    destruct (reactivate_blocks noret f st1 r) as [r' st2]. simpl in *.
    split; [exact H3|]. apply keeps_trans with (b := st1); auto.
Qed.

Lemma reactivate_blocks_In bs : forall st b,
  st_ok st -> In b bs ->
  exists st_b,
    st_ok st_b /\
    keeps (snd (reactivate_block noret f st_b (binsts b)))
          (snd (reactivate_blocks noret f st bs)) /\
    In (set_insts b (fst (reactivate_block noret f st_b (binsts b))))
       (fst (reactivate_blocks noret f st bs)).
Proof.
  induction bs as [|a r IH]; intros st b Hok Hb; [destruct Hb|]. simpl.
  destruct (reactivate_block_ok st (binsts a) Hok) as [H1 H2].
  destruct (reactivate_block noret f st (binsts a)) as [l st1] eqn:Ha.
  simpl in H1, H2.
  destruct (reactivate_blocks_ok r st1 H1) as [H3 H4].
  destruct Hb as [<- | Hb].
  - exists st. rewrite Ha. simpl.
    destruct (reactivate_blocks noret f st1 r) as [r' st2]. simpl in *. auto.
  - destruct (IH st1 b H1 Hb) as [st_b [Hs [Hk Hin]]]. exists st_b.
    destruct (reactivate_blocks noret f st1 r) as [r' st2]. simpl in *. auto.
Qed.

Lemma In_insert_entry (entry : list instr) bs b :
  In b bs ->
  exists b' pfx, In b' (insert_entry entry bs) /\ bid b' = bid b /\
                 binsts b' = pfx ++ binsts b.
Proof.
  destruct bs as [|a r]; simpl; [intros [] | intros [<- | Hb]].
  - exists (set_insts a (entry ++ binsts a)), entry. simpl. auto.
  - exists b, []. simpl. auto.
Qed.

Lemma filter_ret_return st r :
  IsAReturnInst r = true ->
  map iid (filter IsAReturnInst (fst (reactivate_return f st r))) = [iid r].
Proof.
  intros Hr. unfold reactivate_return.
  destruct (negb (IsVoid (fret f))); simpl.
  - unfold IsAReturnInst in *. simpl. rewrite Hr. reflexivity.
  - rewrite Hr. reflexivity.
Qed.

Lemma filter_ret_block l : forall st,
  map iid (filter IsAReturnInst (fst (reactivate_block noret f st l))) =
  map iid (filter IsAReturnInst l).
Proof.
  induction l as [|a l IH]; intros st; simpl; auto.
  destruct (calls noret a); simpl; auto.
  destruct (IsAReturnInst a) eqn:Hr.
  - pose proof (filter_ret_return st a Hr) as H.
    destruct (reactivate_return f st a) as [new st']. simpl in *.
    rewrite filter_app, map_app, H. reflexivity.
  - specialize (IH st). destruct (reactivate_block noret f st l).
    simpl in *. rewrite Hr. auto.
Qed.

Lemma filter_ret_blocks bs : forall st,
  map iid (filter IsAReturnInst
             (flat_map binsts (fst (reactivate_blocks noret f st bs)))) =
  map iid (filter IsAReturnInst (flat_map binsts bs)).
Proof.
  induction bs as [|b r IH]; intros st; simpl; auto.
  pose proof (filter_ret_block (binsts b) st) as Hb.
  destruct (reactivate_block noret f st (binsts b)) as [l st1].
  specialize (IH st1).
  destruct (reactivate_blocks noret f st1 r) as [r' st2]. simpl in *.
  rewrite !filter_app, !map_app, Hb, IH. reflexivity.
Qed.

Lemma filter_ret_entry entry bs :
  st_ok (mkReact Nil entry 0) \/ (exists n0, entry = return_pointer f n0) ->
  filter IsAReturnInst (flat_map binsts (insert_entry entry bs)) =
  filter IsAReturnInst (flat_map binsts bs).
Proof.
  intros H. destruct bs as [|b r]; simpl; auto.
  rewrite !filter_app. f_equal. f_equal.
  destruct H as [[[_ E] | [n0 [E _]]] | [n0 E]]; simpl in E; subst; reflexivity.
Qed.

End React.

(** C7. Return reactivation keeps every return instruction.  The first
    return of a block stays as it is when a [noret] call stands before it in
    the block; otherwise [activateTask(getParentHandle())] and a [noret]
    call are put right before it, and in a function that returns a value
    the returned value is first stored through the pointer obtained in the
    entry block from [getTaskStatePtr(getParentHandle())], the operand of the
    return becoming undef. *)
Theorem returns_reactivated (noret : value) (f : func) :
  let f' := reactivate_returns noret f in
  map iid (filter IsAReturnInst (finsts f')) =
  map iid (filter IsAReturnInst (finsts f)) /\
  exists entry,
    (entry = [] \/ exists n0, entry = return_pointer f n0) /\
    (forall b', hd_error (fblocks f') = Some b' -> exists l, binsts b' = entry ++ l) /\
    forall b pre r post,
      In b (fblocks f) -> binsts b = pre ++ r :: post ->
      IsAReturnInst r = true -> (forall i, In i pre -> IsAReturnInst i = false) ->
      exists b' pfx,
        In b' (fblocks f') /\ bid b' = bid b /\
        if existsb (calls noret) pre
        then binsts b' = pfx ++ pre ++ r :: post
        else exists n,
            if IsVoid (fret f)
            then binsts b' = pfx ++ pre ++ activation n ++ r :: post
            else exists n0,
                entry = return_pointer f n0 /\
                binsts b' = pfx ++ pre
                            ++ CreateStore n (Operand r 0) (Reg (S (S n0)))
                            :: activation (S n)
                            ++ SetOperand r 0 (Undef (ity r)) :: post.
Proof.
  intros f'. subst f'. unfold reactivate_returns.
  assert (Hok0 : Lowering.st_ok f (mkReact Nil [] (fnext f))) by (left; auto).
  destruct (reactivate_blocks_ok noret f (fblocks f) _ Hok0) as [Hok _].
  pose proof (filter_ret_blocks noret f (fblocks f) (mkReact Nil [] (fnext f))) as Hret.
  pose proof (fun b => @reactivate_blocks_In noret f (fblocks f)
                         (mkReact Nil [] (fnext f)) b Hok0) as Hin.
  destruct (reactivate_blocks noret f (mkReact Nil [] (fnext f)) (fblocks f))
    as [bs st]. simpl in *.
  split.
  { unfold finsts. simpl. rewrite filter_ret_entry with (f := f); auto.
    destruct Hok as [[_ E] | [n0 [E _]]]; [left; left; auto | right; eauto]. }
  exists (r_entry st). split; [|split].
  - destruct Hok as [[_ E] | [n0 [E _]]]; eauto.
  - intros b' Hb'. destruct bs as [|a r]; simpl in Hb'; inversion Hb'; subst.
    simpl. eauto.
  - intros b pre r post Hb E Hr Hpre.
    destruct (Hin b Hb) as [st_b [Hsb [Hk Hb']]].
    destruct (In_insert_entry (r_entry st) _ _ Hb') as [b' [pfx [H1 [H2 H3]]]].
    exists b', pfx. split; [exact H1|]. split; [exact H2|].
    rewrite E in Hk, H3. rewrite H3. clear H3.
    destruct (existsb (calls noret) pre) eqn:Hn.
    + rewrite reactivate_block_noret; auto.
    + rewrite reactivate_block_ret in Hk |- * by (auto using ret_not_call).
      simpl in Hk |- *.
      destruct (reactivate_return_spec f st_b r Hsb) as [Hs' [_ [n Hshape]]].
      exists n. destruct (IsVoid (fret f)).
      * rewrite Hshape. simpl. reflexivity.
      * destruct Hshape as [n0 [He Hshape]]. exists n0. split.
        -- assert (Hnn : r_retPtr (snd (reactivate_return f st_b r)) <> Nil).
           { destruct Hs' as [[_ E'] | [k [E1 E2]]]; [|congruence].
             rewrite He in E'. discriminate. }
           destruct (Hk Hnn) as [_ Ee]. congruence.
        -- rewrite Hshape. simpl. reflexivity.
Qed.

End ReactivationFacts.

(** ** Call sites *)

Module CallSiteFacts.
Import Lowering.

Lemma replace_nth_length n v l : length (replace_nth n v l) = length l.
Proof.
  revert n. induction l as [|a l IH]; intros [|n]; simpl; auto.
Qed.

Lemma nth_replace_nth n v l d :
  n < length l -> nth n (replace_nth n v l) d = v.
Proof.
  revert n. induction l as [|a l IH]; intros [|n]; simpl; intros H; try lia; auto.
  apply IH. lia.
Qed.

Lemma last_replace_nth n v l d :
  S n < length l -> last (replace_nth n v l) d = last l d.
Proof.
  revert n. induction l as [|a l IH]; intros n H; simpl in H; [lia|].
  destruct n as [|n].
  - destruct l; simpl in *; [lia | reflexivity].
  - simpl replace_nth. destruct l as [|b l]; [simpl in H; lia|].
    specialize (IH n ltac:(simpl in *; lia)).
    change (last (a :: replace_nth n v (b :: l)) d = last (a :: b :: l) d).
    destruct (replace_nth n v (b :: l)) eqn:E.
    + apply (f_equal (@length _)) in E. rewrite replace_nth_length in E. discriminate.
    + simpl in *. exact IH.
Qed.

Lemma SetLastArg_spec inst v :
  2 <= OperandsCount inst ->
  Operand (SetLastArg inst v) (OperandsCount inst - 2) = v /\
  CalledValue (SetLastArg inst v) = CalledValue inst /\
  OperandsCount (SetLastArg inst v) = OperandsCount inst /\
  iid (SetLastArg inst v) = iid inst /\ IsACallInst (SetLastArg inst v) = IsACallInst inst.
Proof.
  unfold SetLastArg, SetOperand, Operand, CalledValue, OperandsCount, IsACallInst.
  intros H. apply Nat.leb_le in H as Hb. rewrite Hb. simpl.
  rewrite nth_replace_nth, last_replace_nth, replace_nth_length by lia. auto.
Qed.

(** At a call of an async function that is not non-returning, the
    async tail call is chosen exactly when the next instruction is a return,
    the return is void or returns the value of the call, and the return
    types of the caller and of the callee are the same.  The rewriting then
    puts a [getParentHandle] call before the call and passes its result as
    the trailing argument, clears the operand of the return, puts a [yield]
    call and a [noret] call after the call, and leaves the return-value
    buffer of the function as it was. *)
Lemma tail_call_site
        (m : module) (nonReturning : list string) (f : func)
        (st : site_state) (inst : instr) (rest : list item) :
  is_async nonReturning (CalledValue inst) = false ->
  (classify_site m nonReturning f inst (next_inst rest) = TailCall <->
   spec_tail_call m f inst (next_inst rest)) /\
  (classify_site m nonReturning f inst (next_inst rest) = TailCall ->
   exists nx,
     next_inst rest = Some nx /\
     let n := s_next st in
     let parentHandle := createRuntimeCall n "getParentHandle" [] "" in
     let inst' := SetLastArg inst (Reg n) in
     let nx' := if IsVoid (ity inst) then nx
                else SetOperand nx 0 (Undef (ity inst)) in
     rewrite_site m nonReturning f st inst rest =
       (mkSite (s_done st ++
                [Ins parentHandle; Ins inst';
                 Ins (createRuntimeCall (S n) "yield" [] "");
                 Ins (createRuntimeCall (S (S n)) "noret" [] "")])
               (s_retAlloc st) (s_retTy st) (3 + n),
        Ins nx' :: tl rest) /\
     (2 <= OperandsCount inst ->
      Operand inst' (OperandsCount inst - 2) = Reg (iid parentHandle) /\
      CalledValue inst' = CalledValue inst) /\
     (IsVoid (ity inst) = false -> 1 <= OperandsCount nx ->
      Operand nx' 0 = Undef (ity inst))).
Proof.
  intros Hnr. unfold classify_site, spec_tail_call. rewrite Hnr.
  split.
  - destruct (next_inst rest) as [nx|].
    2:{ split; [discriminate|]. intros [x [E _]]. discriminate. }
    destruct (IsAReturnInst nx) eqn:Hr; simpl.
    2:{ split; [discriminate|]. intros [x [E [Hx _]]]. inversion E; subst. congruence. }
    destruct (ty_eqb (return_type m (CalledValue inst)) (fret f)) eqn:Ht; simpl.
    2:{ split; [discriminate|]. intros [x [E [_ [_ Hx]]]].
        apply ty_eqb_eq in Hx. congruence. }
    apply ty_eqb_eq in Ht. rewrite Ht.
    destruct (IsVoid (fret f)) eqn:Hv.
    { split; auto. intros _. exists nx. repeat split; auto. left.
      destruct (fret f); try discriminate; auto. }
    destruct (value_eqb (Operand nx 0) (Reg (iid inst))) eqn:Ho.
    { apply value_eqb_eq in Ho. split; auto. intros _. exists nx. auto. }
    split; [discriminate|]. intros [x [E [_ [[Hx | Hx] _]]]]; inversion E; subst.
    + rewrite Hx in Hv. discriminate.
    + apply value_eqb_neq in Ho. contradiction.
  - intros Hc. unfold rewrite_site, classify_site. rewrite Hnr.
    destruct (next_inst rest) as [nx|] eqn:Hnx; [|discriminate].
    exists nx. split; auto. rewrite Hc. split; [reflexivity|]. split.
    + intros H2. destruct (SetLastArg_spec inst (Reg (s_next st)) H2) as [A [B _]].
      auto.
    + intros Hv H1. rewrite Hv. unfold SetOperand, Operand, OperandsCount in *.
      simpl. destruct (iops nx); simpl in *; [lia | reflexivity].
Qed.

End CallSiteFacts.

(** ** The need for a scheduler *)

Module SchedulerFacts.
Import Lowering.


Section Avr.

Variables (getCoroutine yield sleep : value).
Hypothesis yield_fn : yield = Fn yieldName.
Hypothesis getCoroutine_fn :
  getCoroutine = Nil \/ getCoroutine = Fn "runtime.getCoroutine".
Hypothesis sleep_fn : sleep = Nil \/ sleep = Fn "time.Sleep".






End Avr.

Lemma NamedFunction_cases m name :
  NamedFunction m name = Nil \/ NamedFunction m name = Fn name.
Proof. unfold NamedFunction. destruct (existsb _ _); auto. Qed.



End SchedulerFacts.

(** ** Lowering of the goroutine starts *)

Module SpawnFacts.
Import Lowering.



Lemma In_erase x f i : In i (finsts (erase x f)) <-> In i (finsts f) /\ i <> x.
Proof.
  unfold erase. rewrite finsts_filter_insts, filter_In, negb_true_iff.
  unfold instr_eqb. destruct (instr_eq_dec i x); split; intros [? ?]; split;
    auto; congruence.
Qed.

Lemma firstn_pred_length (l : list value) :
  l <> [] -> length (firstn (length l - 1) l) = length l - 1.
Proof. intros _. rewrite length_firstn. lia. Qed.



End SpawnFacts.

(** ** Properties kept by the stages *)

Module StageFacts.
Import Lowering.

(** Plumbing: functions of a module by name. *)

Lemma benign_not_Fn v s : benign v -> v <> Fn s.
Proof. intros H ->. exact H. Qed.

Lemma fresh_like_no_use allowed s i :
  ~ In s allowed -> fresh_like allowed i -> uses (Fn s) i = false.
Proof.
  intros Hs [_ H]. apply not_true_iff_false. intros Hu.
  apply existsb_exists in Hu. destruct Hu as [x [Hx E]].
  apply value_eqb_eq in E. subst x. rewrite Forall_forall in H.
  destruct (H _ Hx) as [Hb | [s' [E Hin]]]; [exact Hb|].
  inversion E; subst. contradiction.
Qed.

Lemma lookup_func_In m name f :
  lookup_func m name = Some f -> In f (mfuncs m) /\ fname f = name.
Proof.
  unfold lookup_func. intros H. apply find_some in H.
  destruct H as [H E]. apply String.eqb_eq in E. auto.
Qed.

Lemma lookup_update_same m name g f :
  (forall x, fname x = name -> fname (g x) = name) ->
  lookup_func m name = Some f ->
  lookup_func (update_func m name g) name = Some (g f).
Proof.
  unfold lookup_func, update_func. simpl. intros Hg.
  induction (mfuncs m) as [|a l IH]; simpl; [discriminate|].
  destruct (String.eqb (fname a) name) eqn:E.
  - intros H. inversion H; subst. apply String.eqb_eq in E.
    rewrite (Hg _ E), String.eqb_refl. reflexivity.
  - rewrite E. exact IH.
Qed.

Lemma lookup_update_none m name g :
  lookup_func m name = None -> update_func m name g = m.
Proof.
  unfold lookup_func, update_func. destruct m as [fs cs]. simpl. intros H.
  f_equal. induction fs as [|a l IH]; simpl in *; auto.
  destruct (String.eqb (fname a) name); [discriminate|]. rewrite IH; auto.
Qed.

Lemma lookup_update_other m name name' g :
  (forall x, fname x = name -> fname (g x) = name) -> name' <> name ->
  lookup_func (update_func m name g) name' = lookup_func m name'.
Proof.
  unfold lookup_func, update_func. simpl. intros Hg Hn.
  induction (mfuncs m) as [|a l IH]; simpl; auto.
  destruct (String.eqb (fname a) name) eqn:E.
  - apply String.eqb_eq in E. rewrite (Hg _ E).
    destruct (String.eqb name name') eqn:E1.
    + apply String.eqb_eq in E1. congruence.
    + rewrite <- E in E1. rewrite E1. exact IH.
  - destruct (String.eqb (fname a) name'); auto.
Qed.

Lemma Forall_update_func (Q : func -> Prop) m name g :
  (forall x, Q x -> Q (g x)) ->
  Forall Q (mfuncs m) -> Forall Q (mfuncs (update_func m name g)).
Proof.
  intros Hg H. unfold update_func. simpl. rewrite Forall_forall in *.
  intros x Hx. apply in_map_iff in Hx. destruct Hx as [a [<- Ha]].
  destruct (String.eqb (fname a) name); auto.
Qed.

(** A property of all functions kept by the step of a loop over the async
    functions is kept by the loop. *)
Lemma for_async_Forall (Q : func -> Prop) yield L step : forall m,
  (forall m f, Q f -> Q (step m f)) ->
  Forall Q (mfuncs m) -> Forall Q (mfuncs (for_async yield L step m)).
Proof.
  unfold for_async. induction L as [|a L IH]; intros m Hs H; simpl; auto.
  apply IH; auto. destruct (value_eqb (Fn a) yield); auto.
  destruct (lookup_func m a) as [fn|] eqn:E; auto.
  unfold replace_func. apply Forall_update_func; auto.
  intros x _. apply Hs. rewrite Forall_forall in H. apply H.
  apply lookup_func_In in E. tauto.
Qed.

(** A property that the step establishes holds, after the loop, for every
    async function other than [yield]. *)
Lemma for_async_establishes (Q : func -> Prop) yield L step name :
  (forall m f, fname (step m f) = fname f) ->
  (forall m f, Q (step m f)) ->
  forall m f',
    In name L \/ (forall f, lookup_func m name = Some f -> Q f) ->
    Fn name <> yield ->
    lookup_func (for_async yield L step m) name = Some f' -> Q f'.
Proof.
  intros Hn Hq. unfold for_async. induction L as [|a L IH]; intros m f' H Hy Hl.
  - simpl in Hl. destruct H as [[] | H]. auto.
  - simpl in Hl. eapply IH; [|exact Hy|exact Hl].
    destruct (string_dec a name) as [-> | Hne].
    + right. destruct (value_eqb (Fn name) yield) eqn:Ey.
      { apply value_eqb_eq in Ey. contradiction. }
      destruct (lookup_func m name) as [fn|] eqn:E.
      * intros f Hf. unfold replace_func in Hf.
        pose proof (lookup_func_In _ _ _ E) as [_ En].
        rewrite (Hn m fn), En in Hf.
        rewrite (lookup_update_same m name (fun _ => step m fn) fn) in Hf; auto.
        -- inversion Hf; subst. apply Hq.
        -- intros. rewrite Hn. exact En.
      * intros f Hf. congruence.
    + destruct H as [[E | H] | H]; [contradiction | auto |].
      right. destruct (value_eqb (Fn a) yield); auto.
      destruct (lookup_func m a) as [fn|] eqn:E; auto.
      intros f Hf. apply H. rewrite <- Hf. symmetry.
      pose proof (lookup_func_In _ _ _ E) as [_ En].
      unfold replace_func. rewrite (Hn m fn), En.
      apply lookup_update_other; auto. intros. rewrite Hn. exact En.
Qed.


Section Stable.

Variables (allowed : list string) (site : instr -> bool) (P : instr -> Prop).
Hypothesis HP : stable allowed site P.

Lemma P_runtime n name args nm :
  In (String.append "runtime." name) allowed -> Forall benign args ->
  P (createRuntimeCall n name args nm).
Proof.
  intros Hin Ha. apply (st_new HP). split; [discriminate|].
  unfold createRuntimeCall. simpl. apply Forall_app. split.
  - eapply Forall_impl; [|exact Ha]. auto.
  - constructor; [|constructor]. right. eexists. split; [reflexivity|]. exact Hin.
Qed.

Lemma P_ret n t : P (CreateRetUndef n t).
Proof.
  apply (st_new HP). unfold fresh_like, CreateRetUndef, CreateRetVoid, CreateRet.
  destruct (IsVoid t); split; simpl; try discriminate.
  - constructor.
  - constructor; [left; exact I | constructor].
Qed.

Lemma P_alloca n t nm : P (CreateAlloca n t nm).
Proof. apply (st_new HP). split; [discriminate | constructor]. Qed.

Lemma P_bitcast n v t nm : benign v -> P (CreateBitCast n v t nm).
Proof.
  intros Hv. apply (st_new HP). split; [discriminate|].
  constructor; [left; exact Hv | constructor].
Qed.

Lemma P_load n t p nm : benign p -> P (CreateLoad n t p nm).
Proof.
  intros Hv. apply (st_new HP). split; [discriminate|].
  constructor; [left; exact Hv | constructor].
Qed.

Lemma P_br n d : P (CreateBr n d).
Proof.
  apply (st_new HP). split; [discriminate|].
  constructor; [left; exact I | constructor].
Qed.

Lemma P_fold_subst (new : instr -> value) us : forall i,
  (forall u, benign (new u)) -> P i ->
  P (fold_left (fun i inst => subst_instr (Reg (iid inst)) (new inst) i) us i).
Proof.
  induction us as [|u us IH]; intros i Hn Hi; simpl; auto.
  apply IH; auto. apply (st_subst HP); auto.
Qed.

(** Stage 1. *)

Lemma undef_uses_P del : forall i, P i -> P (undef_uses del i).
Proof.
  unfold undef_uses. induction del as [|d del IH]; intros i Hi; simpl; auto.
  destruct (IsVoid (ity d)); apply IH; auto.
  apply (st_subst HP); simpl; auto.
Qed.

Hypothesis noret_allowed : In "runtime.noret" allowed.

Lemma break_block_Forall yield t l : forall n,
  Forall P l -> Forall P (fst (fst (break_block yield t n l))).
Proof.
  induction l as [|a l IH]; intros n H; simpl; auto.
  inversion H; subst. destruct (calls yield a).
  - simpl. repeat constructor.
    + apply P_runtime; auto.
    + apply P_ret.
  - specialize (IH n H3). destruct (break_block yield t n l) as [[k d] n'].
    simpl in *. constructor; auto.
Qed.

Lemma break_blocks_Forall yield t bs : forall n,
  Forall P (flat_map binsts bs) ->
  Forall P (flat_map binsts (fst (fst (break_blocks yield t n bs)))).
Proof.
  induction bs as [|b r IH]; intros n H; simpl; auto.
  simpl in H. apply Forall_app in H. destruct H as [Hb Hr].
  pose proof (break_block_Forall yield t (binsts b) n Hb) as H1.
  destruct (break_block yield t n (binsts b)) as [[k d] n1].
  specialize (IH n1 Hr).
  destruct (break_blocks yield t n1 r) as [[r' d'] n2]. simpl in *.
  apply Forall_app. auto.
Qed.

Lemma inject_noret_Forall yield f :
  Forall P (finsts f) -> Forall P (finsts (inject_noret yield f)).
Proof.
  intros H. unfold inject_noret.
  pose proof (break_blocks_Forall yield (fret f) (fblocks f) (fnext f) H) as H1.
  destruct (break_blocks yield (fret f) (fnext f) (fblocks f)) as [[bs del] n].
  rewrite NonReturningFacts.undef_deleted_map, finsts_map_insts.
  apply Forall_map. simpl in H1.
  eapply Forall_impl; [|exact H1]. intros a Ha. apply undef_uses_P; auto.
Qed.

(** Stage 3. *)

Lemma ditch_block_Forall yield l : forall n,
  Forall P l -> Forall P (fst (ditch_block yield n l)).
Proof.
  induction l as [|a l IH]; intros n H; [simpl; auto|].
  rewrite TailYieldFacts.ditch_block_cons. inversion H; subst.
  destruct (calls yield a).
  - destruct (hd_error l) as [nx|]; [|apply IH; auto].
    destruct (IsAReturnInst nx); [|apply IH; auto].
    specialize (IH (S n) H3). destruct (ditch_block yield (S n) l). simpl in *.
    constructor; auto. apply P_runtime; auto.
  - specialize (IH n H3). destruct (ditch_block yield n l). simpl in *.
    constructor; auto.
Qed.

Lemma ditch_blocks_Forall yield bs : forall n,
  Forall P (flat_map binsts bs) ->
  Forall P (flat_map binsts (fst (ditch_blocks yield n bs))).
Proof.
  induction bs as [|b r IH]; intros n H; simpl; auto.
  simpl in H. apply Forall_app in H. destruct H as [Hb Hr].
  pose proof (ditch_block_Forall yield (binsts b) n Hb) as H1.
  destruct (ditch_block yield n (binsts b)) as [k n1].
  specialize (IH n1 Hr).
  destruct (ditch_blocks yield n1 r) as [r' n2]. simpl in *.
  apply Forall_app. auto.
Qed.

Lemma ditch_tail_yields_Forall yield noret f :
  Forall P (finsts f) -> Forall P (finsts (ditch_tail_yields yield noret f)).
Proof.
  intros H. unfold ditch_tail_yields.
  destruct (scan_yields yield noret (fret f) (fblocks f) false); auto.
  pose proof (ditch_blocks_Forall yield (fblocks f) (fnext f) H) as H1.
  destruct (ditch_blocks yield (fnext f) (fblocks f)). exact H1.
Qed.

(** Stage 4. *)

Hypothesis pass_allowed : incl pass_calls allowed.

Ltac allowed_call := apply pass_allowed; simpl; auto 10.

Lemma st_ok_benign f st : st_ok f st -> IsNil (r_retPtr st) = false -> benign (r_retPtr st).
Proof.
  intros [[E _] | [n0 [_ E]]] H; rewrite E in *; simpl in *; auto; discriminate.
Qed.

Lemma reactivate_return_Forall f st inst :
  st_ok f st -> IsAReturnInst inst = true -> P inst -> Forall P (r_entry st) ->
  Forall P (fst (reactivate_return f st inst)) /\
  Forall P (r_entry (snd (reactivate_return f st inst))).
Proof.
  intros Hok Hr Hi He. unfold reactivate_return.
  destruct (negb (IsVoid (fret f))); simpl.
  - split.
    + repeat constructor.
      * apply (st_store HP); auto.
        destruct (IsNil (r_retPtr st)) eqn:E; simpl; auto.
        apply (st_ok_benign f); auto.
      * apply P_runtime; [allowed_call | constructor].
      * apply P_runtime; [allowed_call | repeat constructor].
      * apply P_runtime; [allowed_call | constructor].
      * apply (st_retop HP); simpl; auto.
    + destruct (IsNil (r_retPtr st)); auto. repeat constructor.
      * apply P_runtime; [allowed_call | constructor].
      * apply P_runtime; [allowed_call | repeat constructor].
      * apply P_bitcast. simpl. auto.
  - split; auto. repeat constructor; auto.
    + apply P_runtime; [allowed_call | constructor].
    + apply P_runtime; [allowed_call | repeat constructor].
    + apply P_runtime; [allowed_call | constructor].
Qed.

Lemma reactivate_block_Forall noret f l : forall st,
  st_ok f st -> Forall P l -> Forall P (r_entry st) ->
  Forall P (fst (reactivate_block noret f st l)) /\
  Forall P (r_entry (snd (reactivate_block noret f st l))).
Proof.
  induction l as [|a l IH]; intros st Hok Hl He; simpl; auto.
  inversion Hl; subst. destruct (calls noret a); simpl; auto.
  destruct (IsAReturnInst a) eqn:Hr.
  - destruct (reactivate_return_Forall f st a Hok Hr H1 He) as [A B].
    destruct (reactivate_return f st a). simpl in *. split; auto.
    apply Forall_app. auto.
  - destruct (IH st Hok H2 He) as [A B].
    destruct (reactivate_block noret f st l). simpl in *. auto.
Qed.

Lemma reactivate_blocks_Forall noret f bs : forall st,
  st_ok f st -> Forall P (flat_map binsts bs) -> Forall P (r_entry st) ->
  Forall P (flat_map binsts (fst (reactivate_blocks noret f st bs))) /\
  Forall P (r_entry (snd (reactivate_blocks noret f st bs))).
Proof.
  induction bs as [|b r IH]; intros st Hok Hl He; simpl; auto.
  simpl in Hl. apply Forall_app in Hl. destruct Hl as [Hb Hr].
  destruct (reactivate_block_Forall noret f (binsts b) st Hok Hb He) as [A B].
  destruct (ReactivationFacts.reactivate_block_ok noret f st (binsts b) Hok) as [Hok1 _].
  destruct (reactivate_block noret f st (binsts b)) as [l st1]. simpl in *.
  destruct (IH st1 Hok1 Hr B) as [C D].
  destruct (reactivate_blocks noret f st1 r) as [r' st2]. simpl in *.
  split; auto. apply Forall_app. auto.
Qed.

Lemma reactivate_returns_Forall noret f :
  Forall P (finsts f) -> Forall P (finsts (reactivate_returns noret f)).
Proof.
  intros H. unfold reactivate_returns.
  destruct (reactivate_blocks_Forall noret f (fblocks f) (mkReact Nil [] (fnext f)))
    as [A B]; auto.
  { left. auto. }
  destruct (reactivate_blocks noret f (mkReact Nil [] (fnext f)) (fblocks f))
    as [bs st]. simpl in *.
  unfold finsts. simpl. rewrite Forall_forall in *. intros x Hx.
  apply In_flat_insert_entry in Hx. destruct Hx; auto.
Qed.

(** Stage 2. *)

Variables (yield : value) (asyncList : list string).
Hypothesis site_async : forall i, is_async_call yield asyncList i = true -> site i = true.

Definition site_inv (st : site_state) : Prop :=
  Forall P (items_insts (s_done st)) /\
  (IsNil (s_retAlloc st) = false -> benign (s_retAlloc st)).

Lemma classify_tail_ret m nr f inst nx :
  classify_site m nr f inst (Some nx) = TailCall -> IsAReturnInst nx = true.
Proof.
  unfold classify_site. destruct (is_async nr (CalledValue inst)); [discriminate|].
  destruct (IsAReturnInst nx); auto. discriminate.
Qed.

Lemma rewrite_site_Forall m nr f st inst rest :
  site_inv st -> is_async_call yield asyncList inst = true ->
  P inst -> Forall P (items_insts rest) ->
  site_inv (fst (rewrite_site m nr f st inst rest)) /\
  Forall P (items_insts (snd (rewrite_site m nr f st inst rest))).
Proof.
  intros [Hd Hra] Hs Hi Hr. apply site_async in Hs.
  assert (Hnoret : forall n, P (createRuntimeCall n "noret" [] ""))
    by (intros; apply P_runtime; [allowed_call | constructor]).
  assert (Hyield : forall n, P (createRuntimeCall n "yield" [] ""))
    by (intros; apply P_runtime; [allowed_call | constructor]).
  unfold rewrite_site.
  destruct (classify_site m nr f inst (next_inst rest)) eqn:Hc.
  - (* blocking *)
    unfold rewrite_blocking, site_inv. simpl. split; [split; auto|].
    + rewrite items_insts_imap. apply Forall_map.
      rewrite items_insts_app, Forall_app. split.
      * eapply Forall_impl; [|exact Hd]. intros a Ha.
        apply P_fold_subst with (new := fun _ => Undef (ity (CreateRetUndef (S (s_next st)) (fret f)))); simpl; auto.
      * simpl. repeat constructor;
          apply P_fold_subst with (new := fun _ => Undef (ity (CreateRetUndef (S (s_next st)) (fret f))));
          simpl; auto.
        -- apply (st_lastarg HP); simpl; auto.
        -- apply P_ret.
    + rewrite items_insts_imap. apply Forall_map.
      eapply Forall_impl; [|apply Forall_drop_insts; exact Hr]. intros a Ha.
      apply P_fold_subst with (new := fun _ => Undef (ity (CreateRetUndef (S (s_next st)) (fret f)))); simpl; auto.
  - (* tail call *)
    destruct (next_inst rest) as [nx|] eqn:Hn.
    + apply classify_tail_ret in Hc.
      destruct rest as [|[|x] rest]; simpl in Hn; try discriminate.
      inversion Hn; subst x. simpl in Hr. inversion Hr; subst.
      unfold rewrite_tail, site_inv. simpl. split; [split; auto|].
      * rewrite items_insts_app, Forall_app. split; auto.
        simpl. repeat constructor; auto.
        -- apply P_runtime; [allowed_call | constructor].
        -- apply (st_lastarg HP); simpl; auto.
      * constructor; auto. destruct (IsVoid (ity inst)); auto.
        apply (st_retop HP); simpl; auto.
    + unfold classify_site in Hc.
      destruct (is_async nr (CalledValue inst)); discriminate.
  - (* regular *)
    assert (Hreg : site_inv (fst (rewrite_regular st inst rest)) /\
                   Forall P (items_insts (snd (rewrite_regular st inst rest)))).
    { clear Hc. unfold rewrite_regular.
      assert (Hcoro : P (createRuntimeCall (s_next st) "getCoroutine" [] ""))
        by (apply P_runtime; [allowed_call | constructor]).
      assert (Hinst : P (SetLastArg inst (Reg (s_next st))))
        by (apply (st_lastarg HP); simpl; auto).
      destruct (IsVoid (ity inst)).
      { unfold site_inv. simpl. split; auto. split; auto.
        rewrite items_insts_app, Forall_app. split; auto.
        simpl. repeat constructor; auto. }
      set (fresh := IsNil (s_retAlloc st)).
      set (n1 := if fresh then S (s_next st) else s_next st).
      set (retAlloc := if fresh then Reg (S (s_next st)) else s_retAlloc st).
      set (done := if fresh
                   then insert_entry_items
                          [CreateAlloca (S (s_next st)) (ity inst) "coro.retvalAlloca"]
                          (s_done st)
                   else s_done st).
      assert (Hb : benign retAlloc).
      { subst retAlloc fresh. destruct (IsNil (s_retAlloc st)) eqn:E; simpl; auto. }
      assert (Hdone : Forall P (items_insts done)).
      { subst done. destruct fresh; auto. rewrite Forall_forall in *.
        intros x Hx. apply In_items_insert_entry in Hx.
        destruct Hx as [[<- | []] | Hx]; auto. apply P_alloca. }
      assert (Hdata : P (CreateBitCast (S n1) retAlloc i8ptrType ""))
        by (apply P_bitcast; auto).
      assert (Hset : P (createRuntimeCall (S (S n1)) "setTaskStatePtr"
                          [Reg (s_next st); Reg (S n1)] ""))
        by (apply P_runtime; [allowed_call | repeat constructor]).
      assert (Hload : P (CreateLoad (4 + n1) (if fresh then ity inst else s_retTy st)
                           retAlloc "coro.retval"))
        by (apply P_load; auto).
      simpl iid.
      destruct (existsb (uses (Reg (iid inst))) (items_insts (done ++ rest))).
      - unfold site_inv. cbn [fst snd s_done s_retAlloc]. split; [split|].
        + rewrite items_insts_imap. apply Forall_map.
          rewrite items_insts_app. apply Forall_app. split.
          * eapply Forall_impl; [|exact Hdone]. intros a Ha.
            apply (st_subst HP); simpl; auto.
          * unfold ins. rewrite items_insts_ins.
            repeat constructor; apply (st_subst HP); simpl; auto.
        + intros _. exact Hb.
        + rewrite items_insts_imap. apply Forall_map.
          eapply Forall_impl; [|exact Hr]. intros a Ha.
          apply (st_subst HP); simpl; auto.
      - unfold site_inv. cbn [fst snd s_done s_retAlloc]. split; [split|]; auto.
        rewrite items_insts_app. unfold ins. rewrite items_insts_ins.
        apply Forall_app. split; auto. repeat constructor; auto. }
    destruct (next_inst rest); exact Hreg.
Qed.

Lemma rewrite_calls_Forall m nr f : forall fuel st rest,
  site_inv st -> Forall P (items_insts rest) ->
  site_inv (rewrite_calls fuel m yield asyncList nr f st rest).
Proof.
  induction fuel as [|k IH]; intros st rest [Hd Hra] Hr.
  - simpl. split; simpl; auto.
    rewrite items_insts_app, Forall_app. auto.
  - destruct rest as [|it r]; simpl.
    + split; simpl; auto. rewrite app_nil_r. auto.
    + destruct it as [id nm | inst].
      * apply IH; auto. split; simpl; auto.
        rewrite items_insts_app. simpl. rewrite app_nil_r. auto.
      * simpl in Hr. inversion Hr; subst.
        destruct (is_async_call yield asyncList inst) eqn:Hs.
        -- destruct (rewrite_site_Forall m nr f st inst r) as [A B]; auto.
           { split; auto. }
           destruct (rewrite_site m nr f st inst r) as [st' rest'].
           apply IH; auto.
        -- apply IH; auto. split; simpl; auto.
           rewrite items_insts_app, Forall_app. simpl. auto.
Qed.

Lemma rewrite_async_calls_Forall nr m f :
  Forall P (finsts f) ->
  Forall P (finsts (rewrite_async_calls yield asyncList nr m f)).
Proof.
  intros H. unfold rewrite_async_calls, finsts. simpl.
  apply Forall_insts_unflatten.
  apply rewrite_calls_Forall.
  - split; simpl; auto. discriminate.
  - rewrite items_insts_flatten. exact H.
Qed.

(** Stage 5. *)

Hypothesis frame_allowed : incl frame_calls allowed.

Ltac frame_call := apply frame_allowed; simpl; auto 12.

Lemma P_call n t s args nm :
  In s allowed -> Forall benign args -> P (CreateCall n t (Fn s) args nm).
Proof.
  intros Hin Ha. apply (st_new HP). split; [discriminate|].
  unfold CreateCall. simpl. apply Forall_app. split.
  - eapply Forall_impl; [|exact Ha]. auto.
  - constructor; [|constructor]. right. eexists. split; [reflexivity|]. exact Hin.
Qed.

Lemma suspend_yields_Forall frame l : forall n,
  (forall i, In i (items_insts l) -> calls yield i = false -> P i) ->
  Forall P (items_insts (fst (suspend_yields yield frame n l))).
Proof.
  induction l as [|[id nm|inst] l IH]; intros n H; simpl.
  - constructor.
  - specialize (IH n H). destruct (suspend_yields yield frame n l). exact IH.
  - destruct (calls yield inst) eqn:E.
    + specialize (IH (S (S (S n))) (fun i Hi => H i (or_intror Hi))).
      destruct (suspend_yields yield frame (S (S (S n))) l). simpl in *.
      constructor; [|constructor; auto].
      * apply P_call; [frame_call | repeat constructor].
      * apply (st_new HP). split; [discriminate|].
        repeat (constructor; [left; exact I|]). constructor.
    + specialize (IH n (fun i Hi => H i (or_intror Hi))).
      destruct (suspend_yields yield frame n l). simpl in *.
      constructor; [apply H; simpl; auto | exact IH].
Qed.

Lemma frame_prelude_Forall cfg n :
  Forall P (fst (frame_prelude cfg n)) /\
  taskHandle (snd (frame_prelude cfg n)) = Reg (9 + n).
Proof.
  unfold frame_prelude. simpl. split; auto.
  constructor; [apply P_alloca|].
  constructor; [apply P_bitcast; exact I|].
  constructor; [apply P_call; [frame_call | repeat constructor]|].
  constructor; [apply P_call; [frame_call | constructor]|].
  apply Forall_app. split.
  { destruct (uintptrSize cfg <? 4); [|destruct (4 <? uintptrSize cfg)];
      repeat constructor; apply (st_new HP); (split; [discriminate|]);
      (constructor; [left; exact I | constructor]). }
  constructor.
  { apply P_runtime; [frame_call|]. constructor; [|constructor].
    destruct (uintptrSize cfg <? 4); [|destruct (4 <? uintptrSize cfg)]; exact I. }
  apply Forall_app. split.
  { destruct (needsStackObjects cfg); constructor; [|constructor].
    apply P_runtime; [frame_call | repeat constructor]. }
  constructor; [|constructor].
  apply P_call; [frame_call | repeat constructor].
Qed.

Lemma frame_blocks_Forall f n frame :
  benign (taskHandle frame) -> Forall P (items_insts (frame_blocks f n frame)).
Proof.
  intros Hb. unfold frame_blocks. simpl.
  constructor; [apply P_call; [frame_call | repeat constructor; auto]|].
  constructor; [apply P_runtime; [frame_call | repeat constructor]|].
  constructor; [apply P_br|].
  constructor; [apply P_call; [frame_call | repeat constructor; auto]|].
  constructor; [apply P_ret | constructor].
Qed.

Lemma ditch_norets_Forall gc noret frame l : forall n queued,
  Forall P (items_insts l) ->
  Forall P (items_insts (fst (fst (ditch_norets gc noret frame n queued l)))) /\
  Forall (handle_sub (taskHandle frame))
         (snd (fst (ditch_norets gc noret frame n queued l))).
Proof.
  induction l as [|[id nm|inst] l IH]; intros n queued H; simpl.
  - split; constructor.
  - specialize (IH n false H).
    destruct (ditch_norets gc noret frame n false l) as [[r' subs] n']. exact IH.
  - simpl in H. inversion H; subst.
    specialize (IH (if calls noret inst then S n else n) (calls noret inst) H3).
    destruct (ditch_norets gc noret frame (if calls noret inst then S n else n)
                (calls noret inst) l) as [[r' subs] n'].
    simpl in *. destruct IH as [A B]. split.
    + rewrite !items_insts_app. apply Forall_app. split.
      { destruct (calls noret inst); simpl; constructor; [apply P_br | constructor]. }
      apply Forall_app. split; auto.
      destruct (queued || calls gc inst || calls noret inst); simpl; constructor; auto.
    + apply Forall_app. split; auto.
      destruct (calls gc inst); constructor; [|constructor].
      split; simpl; eauto.
Qed.

Lemma replace_all_Forall new subs : forall l,
  benign new -> Forall (handle_sub new) subs ->
  Forall P (items_insts l) -> Forall P (items_insts (replace_all subs l)).
Proof.
  unfold replace_all. induction subs as [|s subs IH]; intros l Hb Hs H; simpl; auto.
  inversion Hs; subst. apply IH; auto.
  rewrite items_insts_imap. apply Forall_map.
  eapply Forall_impl; [|exact H]. intros a Ha.
  destruct H2 as [[k ->] ->]. apply (st_subst HP); auto.
Qed.

Lemma use_parent_handle_Forall gc l : forall n,
  Forall P (items_insts l) ->
  Forall P (items_insts
              (replace_all (snd (fst (use_parent_handle gc n l)))
                           (fst (fst (use_parent_handle gc n l))))).
Proof.
  intros n H.
  assert (G : forall n,
    Forall P (items_insts (fst (fst (use_parent_handle gc n l)))) /\
    Forall (fun s => (exists k, fst s = Reg k) /\ exists k, snd s = Reg k)
           (snd (fst (use_parent_handle gc n l)))).
  { clear n. induction l as [|[id nm|inst] l IH]; intros n; simpl.
    - split; constructor.
    - specialize (IH H n).
      destruct (use_parent_handle gc n l) as [[r' subs] n']. exact IH.
    - simpl in H. inversion H; subst. destruct (calls gc inst).
      + specialize (IH H3 (S n)).
        destruct (use_parent_handle gc (S n) l) as [[r' subs] n'].
        simpl in *. destruct IH as [A B]. split; constructor; auto.
        * apply P_runtime; [frame_call | constructor].
        * simpl. eauto.
      + specialize (IH H3 n).
        destruct (use_parent_handle gc n l) as [[r' subs] n'].
        simpl in *. destruct IH as [A B]. split; auto. }
  destruct (G n) as [A B]. clear G.
  destruct (use_parent_handle gc n l) as [[r' subs] n']. simpl in *.
  clear H. revert r' A. unfold replace_all.
  induction subs as [|s subs IH]; intros r' A; simpl; auto.
  inversion B; subst. apply IH; auto.
  rewrite items_insts_imap. apply Forall_map.
  eapply Forall_impl; [|exact A]. intros a Ha.
  destruct H1 as [[k Hk] [k' Hk']]. rewrite Hk, Hk'. apply (st_subst HP); simpl; auto.
Qed.

(** The frame installation keeps [P], given it of the instructions that
    are not calls of [yield]. *)
Lemma install_frame_Forall cfg gc noret f :
  (forall i, In i (finsts f) -> calls yield i = false -> P i) ->
  Forall P (finsts (install_frame cfg yield gc noret f)).
Proof.
  intros H. unfold install_frame.
  destruct (negb (existsb (calls yield) (finsts f))) eqn:E.
  - apply negb_true_iff in E.
    pose proof (use_parent_handle_Forall gc (flatten (fblocks f)) (fnext f)) as G.
    destruct (use_parent_handle gc (fnext f) (flatten (fblocks f))) as [[b s] n].
    simpl in *. unfold finsts. simpl. apply Forall_insts_unflatten. apply G.
    rewrite items_insts_flatten. rewrite Forall_forall. intros x Hx.
    apply H; auto. destruct (calls yield x) eqn:Ex; auto.
    rewrite <- E. symmetry. apply existsb_exists. eauto.
  - destruct (frame_prelude_Forall cfg (fnext f)) as [Hpre Hth].
    destruct (frame_prelude cfg (fnext f)) as [prelude frame]. cbn [fst snd] in *.
    pose proof (suspend_yields_Forall frame (flatten (fblocks f)) (15 + fnext f)) as Hs.
    destruct (suspend_yields yield frame (15 + fnext f) (flatten (fblocks f)))
      as [body1 n1]. cbn [fst snd] in Hs.
    assert (Hb : benign (taskHandle frame)) by (rewrite Hth; exact I).
    pose proof (ditch_norets_Forall gc noret frame
                  (insert_entry_items prelude body1 ++ frame_blocks f (fnext f) frame)
                  n1 false) as Hd.
    destruct (ditch_norets gc noret frame n1 false
                (insert_entry_items prelude body1 ++ frame_blocks f (fnext f) frame))
      as [[body3 subs] n2]. cbn [fst snd] in *.
    destruct Hd as [A B].
    + rewrite items_insts_app. apply Forall_app. split.
      * rewrite Forall_forall. intros x Hx.
        apply In_items_insert_entry in Hx. rewrite Forall_forall in Hpre.
        destruct Hx as [Hx | Hx]; auto.
        assert (Hs' : Forall P (items_insts body1)).
        { apply Hs. rewrite items_insts_flatten. exact H. }
        rewrite Forall_forall in Hs'. auto.
      * apply frame_blocks_Forall; auto.
    + unfold finsts. cbn [fblocks set_next set_blocks].
      apply Forall_insts_unflatten.
      apply replace_all_Forall with (new := taskHandle frame); auto.
Qed.

(** The fix-ups after the frame installation. *)

Lemma filter_insts_Forall keep f :
  Forall P (finsts f) -> Forall P (finsts (filter_insts keep f)).
Proof.
  rewrite finsts_filter_insts, !Forall_forall. intros H x Hx.
  apply filter_In in Hx. apply H. tauto.
Qed.

Lemma fold_RAUW_Forall (new : instr -> value) us f :
  (forall u, benign (new u)) -> Forall P (finsts f) ->
  Forall P (finsts (fold_left
                      (fun f inst => ReplaceAllUsesWith (Reg (iid inst)) (new inst) f)
                      us f)).
Proof.
  intros Hn H. rewrite finsts_fold_RAUW. apply Forall_map.
  eapply Forall_impl; [|exact H]. intros a Ha. apply P_fold_subst; auto.
Qed.

Lemma rewrite_parent_handle_Forall gph f f' :
  rewrite_parent_handle gph f = Ok f' ->
  Forall P (finsts f) -> Forall P (finsts f').
Proof.
  unfold rewrite_parent_handle. intros H HP0.
  destruct (users_of gph f) as [|u us]; [inversion H; subst; auto|].
  destruct (LastParam f) as [[idx p]|]; [|discriminate].
  destruct (negb (String.eqb (pname p) "parentHandle")); [discriminate|].
  injection H as <-.
  apply (fold_RAUW_Forall (fun _ => Param idx) (u :: us)).
  - intros; exact I.
  - apply filter_insts_Forall; auto.
Qed.

End Stable.

(** Stable properties: no use, no call, the shape of a goroutine start. *)

Lemma stable_no_use s allowed site :
  ~ In s allowed -> stable allowed site (no_use (Fn s)).
Proof.
  intros Hs. unfold no_use. constructor.
  - intros k new i Hb H. apply not_true_iff_false. intros Hu.
    apply uses_subst in Hu; [congruence|].
    intros E. symmetry in E. revert E. apply benign_not_Fn; auto.
  - intros i v Hb _ H. apply not_true_iff_false. intros Hu.
    apply uses_SetLastArg in Hu. destruct Hu as [E | Hu]; [|congruence].
    symmetry in E. revert E. apply benign_not_Fn; auto.
  - intros i v Hb _ H. apply not_true_iff_false. intros Hu.
    apply uses_SetOperand in Hu. destruct Hu as [E | Hu]; [|congruence].
    symmetry in E. revert E. apply benign_not_Fn; auto.
  - intros n i p Hb _ H. apply not_true_iff_false. intros Hu.
    unfold uses, CreateStore in Hu. simpl in Hu.
    rewrite !orb_true_iff, !value_eqb_eq in Hu.
    destruct Hu as [E | [E | E]]; [| |discriminate].
    + symmetry in E. apply uses_Operand in E. congruence.
    + symmetry in E. revert E. apply benign_not_Fn; auto.
  - intros i Hf. apply fresh_like_no_use with (allowed := allowed); auto.
Qed.

Lemma stable_no_call s allowed site :
  ~ In s allowed -> stable allowed site (no_call (Fn s)).
Proof.
  intros Hs. unfold no_call. constructor.
  - intros k new i Hb H. apply not_true_iff_false. intros Hu.
    apply calls_subst in Hu; [congruence|]. apply benign_not_Fn; auto.
  - intros i v Hb _ H. unfold SetLastArg.
    destruct (2 <=? OperandsCount i) eqn:E; auto.
    apply Nat.leb_le in E.
    destruct (CallSiteFacts.SetLastArg_spec i v E) as [_ [Hc [_ [_ Hk]]]].
    unfold SetLastArg in Hc, Hk. apply Nat.leb_le in E. rewrite E in Hc, Hk.
    unfold calls in *. rewrite Hc, Hk. exact H.
  - intros i v Hb Hr H. apply not_true_iff_false. intros Hu.
    apply calls_iff in Hu. destruct Hu as [Hc _].
    apply (call_not_return i); auto.
  - intros n i p Hb Hr H. reflexivity.
  - intros i Hf. apply not_true_iff_false. intros Hu.
    assert (Hu' : uses (Fn s) i = true)
      by (apply WorklistFacts.calls_uses; auto).
    rewrite (fresh_like_no_use allowed s i) in Hu'; auto. discriminate.
Qed.

Lemma is_async_In A s : is_async A (Fn s) = true -> In s A.
Proof.
  simpl. intros H. apply existsb_exists in H. destruct H as [x [Hx E]].
  apply String.eqb_eq in E. subst. exact Hx.
Qed.

Lemma stable_spawn_ok bad allowed yield A :
  ~ In "runtime.makeGoroutine" allowed -> ~ In "runtime.makeGoroutine" A ->
  stable allowed (is_async_call yield A) (spawn_ok bad).
Proof.
  intros Hs HA. unfold spawn_ok. constructor.
  - intros k new i Hb H Hu.
    apply uses_subst in Hu;
      [|intros E; symmetry in E; revert E; apply benign_not_Fn; auto].
    destruct (H Hu) as [Hc [s [t [E Hn]]]]. split.
    + apply calls_iff in Hc. destruct Hc as [Hc Hv]. apply calls_iff.
      split; [exact Hc|]. rewrite CalledValue_subst, Hv.
      apply subst_value_other. discriminate.
    + exists s, t. split; auto. rewrite Operand_subst, E.
      apply subst_value_other. discriminate.
  - intros i v Hb Hsite H Hu. exfalso.
    apply uses_SetLastArg in Hu.
    destruct Hu as [E | Hu]; [symmetry in E; revert E; apply benign_not_Fn; auto|].
    destruct (H Hu) as [Hc _]. apply calls_iff in Hc. destruct Hc as [_ Hv].
    unfold is_async_call in Hsite. rewrite !andb_true_iff in Hsite.
    destruct Hsite as [[_ Ha] _]. rewrite Hv in Ha.
    apply is_async_In in Ha. contradiction.
  - intros i v Hb Hr H Hu. exfalso.
    apply uses_SetOperand in Hu.
    destruct Hu as [E | Hu]; [symmetry in E; revert E; apply benign_not_Fn; auto|].
    destruct (H Hu) as [Hc _]. apply calls_iff in Hc. destruct Hc as [Hc _].
    apply (call_not_return i); auto.
  - intros n i p Hb Hr H Hu. exfalso.
    unfold uses, CreateStore in Hu. simpl in Hu.
    rewrite !orb_true_iff, !value_eqb_eq in Hu.
    destruct Hu as [E | [E | E]]; [| |discriminate].
    + symmetry in E. apply uses_Operand in E.
      destruct (H E) as [Hc _]. apply calls_iff in Hc. destruct Hc as [Hc _].
      apply (call_not_return i); auto.
    + symmetry in E. revert E. apply benign_not_Fn; auto.
  - intros i Hf Hu. rewrite (fresh_like_no_use allowed _ i) in Hu; auto.
    discriminate.
Qed.

(** The loops over the module. *)

Lemma lookup_func_None m name :
  lookup_func m name = None -> forall f, In f (mfuncs m) -> fname f <> name.
Proof.
  unfold lookup_func. intros H f Hf E.
  apply (find_none _ _ H) in Hf. apply String.eqb_neq in Hf. contradiction.
Qed.

Lemma replace_func_Forall (Q : func -> Prop) m f' :
  Q f' -> Forall Q (mfuncs m) -> Forall Q (mfuncs (replace_func m f')).
Proof.
  intros Hq H. unfold replace_func. apply Forall_update_func; auto.
Qed.

Lemma mark_nonReturning_Forall (Q : func -> Prop) yield gc L m :
  (forall f, Q f -> Q (inject_noret yield f)) ->
  Forall Q (mfuncs m) ->
  Forall Q (mfuncs (fst (mark_nonReturning yield gc L m))).
Proof.
  intros Hq. unfold mark_nonReturning.
  assert (G : forall L0 (st : module * list string),
             Forall Q (mfuncs (fst st)) ->
             Forall Q (mfuncs (fst (fold_left
               (fun (st : module * list string) f =>
                  let (m, nonReturning) := st in
                  if value_eqb (Fn f) yield then st
                  else match lookup_func m f with
                       | Some fn =>
                           if is_nonReturning yield gc L fn
                           then (replace_func m (inject_noret yield fn),
                                 f :: nonReturning)
                           else st
                       | None => st
                       end) L0 st)))).
  { induction L0 as [|a L0 IH]; intros [m0 nr] H; simpl; auto.
    apply IH. destruct (value_eqb (Fn a) yield); auto.
    destruct (lookup_func m0 a) as [fn|] eqn:E; auto.
    destruct (is_nonReturning yield gc L fn); auto. simpl.
    apply replace_func_Forall; auto. apply Hq.
    simpl in H. rewrite Forall_forall in H. apply H.
    apply lookup_func_In in E. tauto. }
  intros H. apply (G L (m, [])). exact H.
Qed.

(** After a loop over the async functions every one of them, other than
    [yield], has what the step establishes. *)
Lemma for_async_all (Q : func -> Prop) yield L step m :
  (forall m f, fname (step m f) = fname f) ->
  (forall m f, Q (step m f)) ->
  Forall (fun f => In (fname f) L -> Fn (fname f) <> yield -> Q f)
         (mfuncs (for_async yield L step m)).
Proof.
  intros Hn Hq. unfold for_async.
  assert (G : forall L0 D m,
    Forall (fun f => In (fname f) D -> Fn (fname f) <> yield -> Q f) (mfuncs m) ->
    Forall (fun f => In (fname f) (D ++ L0) -> Fn (fname f) <> yield -> Q f)
      (mfuncs (fold_left
         (fun m f => if value_eqb (Fn f) yield then m
                     else match lookup_func m f with
                          | Some fn => replace_func m (step m fn)
                          | None => m
                          end) L0 m))).
  { induction L0 as [|a L0 IH]; intros D m0 H; simpl.
    - rewrite app_nil_r. exact H.
    - replace (D ++ a :: L0) with ((D ++ [a]) ++ L0)
        by (rewrite <- app_assoc; reflexivity).
      apply IH. rewrite Forall_forall in *.
      destruct (value_eqb (Fn a) yield) eqn:Ey.
      + apply value_eqb_eq in Ey. intros x Hx Hin Hne.
        apply in_app_iff in Hin. destruct Hin as [Hin | [E0 | []]]; auto.
        subst a. contradiction.
      + destruct (lookup_func m0 a) as [fn|] eqn:E.
        * pose proof (lookup_func_In _ _ _ E) as [_ En].
          intros x Hx Hin Hne. unfold replace_func, update_func in Hx.
          simpl in Hx. apply in_map_iff in Hx. destruct Hx as [y [Ey' Hy]].
          rewrite Hn, En in Ey'.
          destruct (String.eqb (fname y) a) eqn:Ea.
          -- subst x. apply Hq.
          -- subst x. apply String.eqb_neq in Ea.
             apply in_app_iff in Hin. destruct Hin as [Hin | [E0 | []]]; auto.
             congruence.
        * intros x Hx Hin Hne.
          apply in_app_iff in Hin. destruct Hin as [Hin | [E0 | []]]; auto.
          exfalso. apply (lookup_func_None _ _ E x Hx). auto. }
  specialize (G L [] m). simpl in G. apply G.
  rewrite Forall_forall. intros x _ [].
Qed.

Lemma mapM_Forall2 {A B} (g : A -> result B) l : forall l',
  mapM g l = Ok l' -> Forall2 (fun a b => g a = Ok b) l l'.
Proof.
  induction l as [|a l IH]; intros l' H; simpl in H.
  - inversion H; subst. constructor.
  - destruct (g a) as [b|e|e] eqn:E; simpl in H; try discriminate.
    destruct (mapM g l) as [r|e|e]; simpl in H; try discriminate.
    inversion H; subst. constructor; auto.
Qed.

Lemma Forall2_Forall {A B} (R : A -> B -> Prop) (Q : A -> Prop) (Q' : B -> Prop) l l' :
  (forall a b, R a b -> Q a -> Q' b) ->
  Forall2 R l l' -> Forall Q l -> Forall Q' l'.
Proof.
  intros HR H. induction H; intros HQ; constructor; inversion HQ; subst; eauto.
Qed.

Lemma users_of_Nil f : users_of Nil f = [].
Proof. reflexivity. Qed.

Lemma rewrite_parent_handles_Forall2 gph m m6 :
  rewrite_parent_handles gph m = Ok m6 ->
  Forall2 (fun f f' => rewrite_parent_handle gph f = Ok f') (mfuncs m) (mfuncs m6).
Proof.
  unfold rewrite_parent_handles. intros H.
  destruct (const_users m gph) as [|c cs].
  - destruct (mapM (rewrite_parent_handle gph) (mfuncs m)) as [fs|e|e] eqn:E;
      simpl in H; try discriminate.
    inversion H; subst. simpl. apply mapM_Forall2. exact E.
  - destruct gph; simpl in H; try discriminate.
    inversion H; subst. clear H.
    induction (mfuncs m6); constructor; auto.
Qed.

Lemma fold_RAUW_name (new : instr -> value) us : forall g,
  fname (fold_left (fun f inst => ReplaceAllUsesWith (Reg (iid inst)) (new inst) f)
                   us g) = fname g.
Proof. induction us as [|a l IH]; intros g; simpl; auto. rewrite IH. reflexivity. Qed.

Lemma rewrite_parent_handle_name gph f f' :
  rewrite_parent_handle gph f = Ok f' -> fname f' = fname f.
Proof.
  unfold rewrite_parent_handle. intros H.
  destruct (users_of gph f) as [|u us]; [inversion H; subst; auto|].
  destruct (LastParam f) as [[idx p]|]; [|discriminate].
  destruct (negb (String.eqb (pname p) "parentHandle")); [discriminate|].
  injection H as <-.
  exact (fold_RAUW_name (fun _ => Param idx) (u :: us)
                        (filter_insts (fun i => negb (uses gph i)) f)).
Qed.

Lemma ditch_attrs_Forall (Q : func -> Prop) L m :
  (forall f, Q f -> Q (strip_attrs f)) ->
  Forall Q (mfuncs m) -> Forall Q (mfuncs (ditch_attrs L m)).
Proof.
  intros Hq. unfold ditch_attrs. generalize ("runtime.setTaskStatePtr" :: L).
  intros l. revert m. induction l as [|a l IH]; intros m H; simpl; auto.
  apply IH. apply Forall_update_func; auto.
Qed.

Lemma eliminate_noret_Forall (Q : func -> Prop) noret m m8 :
  (forall keep f, Q f -> Q (filter_insts keep f)) ->
  eliminate_noret noret m = Ok m8 ->
  Forall Q (mfuncs m) -> Forall Q (mfuncs m8).
Proof.
  unfold eliminate_noret. intros Hq H HQ.
  destruct (IsNil noret); [inversion H; subst; auto|].
  destruct (const_users m noret); [|discriminate].
  inversion H; subst. simpl. rewrite Forall_forall in *.
  intros x Hx. apply in_map_iff in Hx. destruct Hx as [y [<- Hy]]. auto.
Qed.

Lemma lower_goroutines_Forall (Q : func -> Prop) pnr fake us : forall m m',
  (forall m f parent g f',
     In (parent, g) us -> Q f ->
     lower_goroutine m pnr fake f g = Ok f' -> Q f') ->
  lower_goroutines pnr fake m us = Ok m' ->
  Forall Q (mfuncs m) -> Forall Q (mfuncs m').
Proof.
  induction us as [|[parent g] us IH]; intros m m' Hq H HQ; simpl in H.
  - inversion H; subst. exact HQ.
  - destruct (lookup_func m parent) as [f|] eqn:E.
    + destruct (lower_goroutine m pnr fake f g) as [f'|e|e] eqn:El;
        simpl in H; try discriminate.
      apply IH in H; auto.
      * intros m0 f0 p0 g0 f0' Hin. apply (Hq m0 f0 p0). right. exact Hin.
      * apply replace_func_Forall; auto.
        apply (Hq m f parent g f'); simpl; auto.
        rewrite Forall_forall in HQ. apply HQ.
        apply lookup_func_In in E. tauto.
    + apply IH in H; auto.
      intros m0 f0 p0 g0 f0' Hin. apply (Hq m0 f0 p0). right. exact Hin.
Qed.

(** The instructions after the lowering of a goroutine start: those of
    the function, a [getFakeCoroutine] call and the call of the started
    function. *)

Lemma In_insert_before_inv inst new f x :
  In x (finsts (insert_before inst new f)) -> In x new \/ In x (finsts f).
Proof.
  unfold finsts, insert_before. simpl. rewrite flat_map_concat_map, map_map.
  rewrite <- flat_map_concat_map. rewrite !in_flat_map.
  intros [b [Hb Hx]]. simpl in Hx.
  assert (G : forall l, In x (insert_before_inst inst new l) -> In x new \/ In x l).
  { induction l as [|a l IH]; simpl; auto.
    destruct (instr_eqb a inst).
    - rewrite in_app_iff. simpl. tauto.
    - simpl. intros [E | H]; auto. apply IH in H. tauto. }
  apply G in Hx. destruct Hx; eauto.
Qed.

Lemma CalledValue_CreateCall n t fn args nm :
  CalledValue (CreateCall n t fn args nm) = fn.
Proof. unfold CalledValue, CreateCall. simpl. apply last_last. Qed.

Lemma lower_goroutine_insts m pnr fake f g f' :
  lower_goroutine m pnr fake f g = Ok f' ->
  fname f' = fname f /\
  forall i, In i (finsts f') ->
    In i (finsts f) \/
    calls (runtime_fn "getFakeCoroutine") i = true \/
    calls (value_operand0 f (Operand g 0)) i = true.
Proof.
  unfold lower_goroutine. intros H.
  destruct (getUses f (Reg (iid g))) as [|i2p [|? ?]]; try discriminate.
  destruct (negb (IsAIntToPtrInst i2p)); [discriminate|].
  destruct (getUses f (Reg (iid i2p))) as [|rc [|? ?]]; try discriminate.
  destruct (negb (IsACallInst rc)); [discriminate|].
  destruct (firstn (OperandsCount rc - 1) (iops rc)) as [|p0 ps]; [discriminate|].
  remember (p0 :: ps) as params.
  destruct (spawn_call m pnr fake (fnext f) (value_operand0 f (Operand g 0)) params)
    as [new n] eqn:Es.
  injection H as <-. split; [reflexivity|].
  intros i Hi.
  apply SpawnFacts.In_erase in Hi. destruct Hi as [Hi _].
  apply SpawnFacts.In_erase in Hi. destruct Hi as [Hi _].
  apply SpawnFacts.In_erase in Hi. destruct Hi as [Hi _].
  apply In_insert_before_inv in Hi. destruct Hi as [Hi | Hi]; [|left; exact Hi].
  right. unfold spawn_call in Es.
  destruct (parent_not_required_for pnr fake (value_operand0 f (Operand g 0)));
    injection Es as <- _.
  - destruct Hi as [<- | []]. right. apply calls_iff. split; [reflexivity|].
    apply CalledValue_CreateCall.
  - destruct Hi as [<- | [<- | []]].
    + left. reflexivity.
    + right. apply calls_iff. split; [reflexivity|].
      apply CalledValue_CreateCall.
Qed.

(** The lowering of the goroutine starts keeps a property of the functions
    that the lowering of one start keeps, for starts that use
    [runtime.makeGoroutine]. *)
Lemma lowerMakeGoroutineCalls_Forall (Q : func -> Prop) pnr m m' :
  (forall m0 f parent g f',
     In (parent, g) (inst_users m (Fn "runtime.makeGoroutine")) -> Q f ->
     lower_goroutine m0 pnr (NamedFunction m "runtime.fakeCoroutine") f g = Ok f' ->
     Q f') ->
  lowerMakeGoroutineCalls pnr m = Ok m' ->
  Forall Q (mfuncs m) -> Forall Q (mfuncs m').
Proof.
  unfold lowerMakeGoroutineCalls. intros Hq H HQ.
  destruct (SchedulerFacts.NamedFunction_cases m "runtime.makeGoroutine") as [E | E];
    rewrite E in H; simpl in H.
  - inversion H; subst. exact HQ.
  - destruct (const_users m (Fn "runtime.makeGoroutine")); [|discriminate].
    eapply lower_goroutines_Forall; [|exact H|exact HQ].
    exact Hq.
Qed.

(** The starts of a module satisfy [spawn_ok]: the lowering adds calls of
    functions outside [bad] only. *)
Lemma lowering_keeps_no_call bad x (S : string -> Prop) pnr m m' :
  In x bad -> x <> "runtime.getFakeCoroutine" ->
  Forall (fun f => Forall (spawn_ok bad) (finsts f)) (mfuncs m) ->
  lowerMakeGoroutineCalls pnr m = Ok m' ->
  Forall (fun f => S (fname f) -> Forall (no_call (Fn x)) (finsts f)) (mfuncs m) ->
  Forall (fun f => S (fname f) -> Forall (no_call (Fn x)) (finsts f)) (mfuncs m').
Proof.
  intros Hx Hne Hs. apply lowerMakeGoroutineCalls_Forall.
  intros m0 f parent g f' Hin Hq Hl HS.
  apply lower_goroutine_insts in Hl. destruct Hl as [Hn Hl].
  rewrite Hn in HS. specialize (Hq HS).
  apply WorklistFacts.In_inst_users in Hin.
  destruct Hin as [fn [Hfn [_ [Hg Hu]]]].
  rewrite Forall_forall in Hs. specialize (Hs fn Hfn).
  rewrite Forall_forall in Hs. destruct (Hs g Hg Hu) as [_ [s [t [E Hbad]]]].
  rewrite E in Hl. simpl in Hl.
  rewrite Forall_forall in *. intros i Hi.
  destruct (Hl i Hi) as [H | [H | H]]; auto; unfold no_call;
    apply not_true_iff_false; intros Hc;
    apply calls_iff in H; apply calls_iff in Hc;
    destruct H as [_ H]; destruct Hc as [_ Hc]; rewrite H in Hc.
  - unfold runtime_fn in Hc. simpl in Hc. congruence.
  - congruence.
Qed.

(** The stages of the pass keep a stable property of all instructions of
    the module. *)

Section StagesKeep.

Variables (allowed : list string) (site : instr -> bool) (P : instr -> Prop).
Variables (yield : value) (asyncList : list string).
Hypothesis HP : stable allowed site P.
Hypothesis pass_allowed : incl pass_calls allowed.
Hypothesis site_async : forall i, is_async_call yield asyncList i = true -> site i = true.

Local Abbreviation all_insts m := (Forall (fun f => Forall P (finsts f)) (mfuncs m)).

Lemma noret_in_allowed : In "runtime.noret" allowed.
Proof. apply pass_allowed. simpl. auto. Qed.

Lemma calls_rewritten_Forall m :
  all_insts m -> all_insts (calls_rewritten yield asyncList m).
Proof.
  intros H. unfold calls_rewritten.
  pose proof (mark_nonReturning_Forall (fun f => Forall P (finsts f)) yield
                (NamedFunction m "runtime.getCoroutine") asyncList m) as G.
  destruct (mark_nonReturning yield (NamedFunction m "runtime.getCoroutine")
              asyncList m) as [m1 nr]. simpl in G.
  apply for_async_Forall.
  - intros m0 f Hf.
    apply (rewrite_async_calls_Forall allowed site P HP pass_allowed yield asyncList
             site_async); auto.
  - apply G; auto. intros f Hf.
    apply (inject_noret_Forall allowed site P HP noret_in_allowed); auto.
Qed.

Lemma tail_yields_ditched_Forall m :
  all_insts m -> all_insts (tail_yields_ditched yield asyncList m).
Proof.
  intros H. unfold tail_yields_ditched. apply for_async_Forall.
  - intros m0 f Hf.
    apply (ditch_tail_yields_Forall allowed site P HP noret_in_allowed); auto.
  - apply calls_rewritten_Forall; auto.
Qed.

Lemma reactivations_generated_Forall m :
  all_insts m -> all_insts (reactivations_generated yield asyncList m).
Proof.
  intros H. unfold reactivations_generated. apply for_async_Forall.
  - intros m0 f Hf.
    apply (reactivate_returns_Forall allowed site P HP pass_allowed); auto.
  - apply tail_yields_ditched_Forall; auto.
Qed.

Hypothesis frame_allowed : incl frame_calls allowed.

Lemma frames_installed_Forall cfg m :
  all_insts m -> all_insts (frames_installed cfg yield asyncList m).
Proof.
  intros H. unfold frames_installed. apply for_async_Forall.
  - intros m0 f Hf.
    apply (install_frame_Forall allowed site P HP yield frame_allowed).
    rewrite Forall_forall in Hf. auto.
  - unfold add_coro_intrinsics. simpl. apply Forall_app. split.
    + apply reactivations_generated_Forall; auto.
    + repeat constructor.
Qed.

End StagesKeep.

(** The fix-ups keep a stable property, also one of the functions of
    certain names only. *)

Section FixupsKeep.

Variables (allowed : list string) (site : instr -> bool) (P : instr -> Prop).
Variable S : string -> Prop.
Hypothesis HP : stable allowed site P.

Local Abbreviation named_insts m :=
  (Forall (fun f => S (fname f) -> Forall P (finsts f)) (mfuncs m)).

Lemma rewrite_parent_handles_keeps gph m m6 :
  rewrite_parent_handles gph m = Ok m6 -> named_insts m -> named_insts m6.
Proof.
  intros H. apply rewrite_parent_handles_Forall2 in H.
  revert H. apply Forall2_Forall. intros f f' Hr Hq HS.
  rewrite (rewrite_parent_handle_name _ _ _ Hr) in HS.
  apply (rewrite_parent_handle_Forall allowed site P HP gph f f' Hr). auto.
Qed.

Lemma noret_eliminated_keeps noret L m m8 :
  eliminate_noret noret (ditch_attrs L m) = Ok m8 -> named_insts m -> named_insts m8.
Proof.
  intros H Hm.
  eapply eliminate_noret_Forall; [|exact H|].
  - intros keep f Hf HS. apply (filter_insts_Forall P). apply Hf. exact HS.
  - apply ditch_attrs_Forall; auto.
Qed.

End FixupsKeep.

(** What the stages establish. *)

Lemma install_frame_name cfg yield gc noret f :
  fname (install_frame cfg yield gc noret f) = fname f.
Proof.
  unfold install_frame.
  destruct (negb (existsb (calls yield) (finsts f))).
  - destruct (use_parent_handle gc (fnext f) (flatten (fblocks f))) as [[b s] n].
    reflexivity.
  - destruct (frame_prelude cfg (fnext f)) as [prelude frame].
    destruct (suspend_yields yield frame (15 + fnext f) (flatten (fblocks f)))
      as [body1 n1].
    destruct (ditch_norets gc noret frame n1 false
                (insert_entry_items prelude body1 ++ frame_blocks f (fnext f) frame))
      as [[body3 subs] n2].
    reflexivity.
Qed.

Lemma not_in_frame_calls_yield : ~ In yieldName frame_calls.
Proof.
  unfold frame_calls, yieldName. simpl. intros H.
  repeat (destruct H as [H | H]; [discriminate|]). exact H.
Qed.

(** After the frame installation no async function but [yield] has a call
    of [yield]. *)
Lemma frames_installed_no_yield cfg asyncList m :
  Forall (fun f => In (fname f) asyncList -> fname f <> yieldName ->
                   Forall (no_call (Fn yieldName)) (finsts f))
         (mfuncs (frames_installed cfg (Fn yieldName) asyncList m)).
Proof.
  unfold frames_installed.
  pose proof (for_async_all (fun f => Forall (no_call (Fn yieldName)) (finsts f))
                (Fn yieldName) asyncList
                (fun _ => install_frame cfg (Fn yieldName)
                            (NamedFunction m "runtime.getCoroutine")
                            (NamedFunction m "runtime.noret"))
                (add_coro_intrinsics
                   (reactivations_generated (Fn yieldName) asyncList m))) as G.
  eapply Forall_impl; [|apply G].
  - intros f Hf Hin Hne. apply Hf; auto. congruence.
  - intros. apply install_frame_name.
  - intros m0 f.
    apply (install_frame_Forall frame_calls (fun _ => false)
             (no_call (Fn yieldName))).
    + apply stable_no_call. apply not_in_frame_calls_yield.
    + apply incl_refl.
    + intros i _ Hi. exact Hi.
Qed.

(** Without uses in the module, no instruction uses the function. *)
Lemma getUsesM_nil m s :
  getUsesM m (Fn s) = [] ->
  Forall (fun f => Forall (no_use (Fn s)) (finsts f)) (mfuncs m).
Proof.
  intros H. rewrite Forall_forall. intros f Hf.
  rewrite Forall_forall. intros i Hi. unfold no_use.
  apply not_true_iff_false. intros Hu.
  assert (Hin : In (UInst (fname f) i) (getUsesM m (Fn s))).
  { apply WorklistFacts.In_UInst_getUsesM. apply WorklistFacts.In_inst_users.
    exists f. auto. }
  rewrite H in Hin. exact Hin.
Qed.

Lemma rewrite_parent_handle_no_use s f f' :
  rewrite_parent_handle (Fn s) f = Ok f' -> Forall (no_use (Fn s)) (finsts f').
Proof.
  unfold rewrite_parent_handle, users_of. simpl. intros H.
  destruct (filter (uses (Fn s)) (finsts f)) as [|u us] eqn:Eu.
  - inversion H; subst. rewrite Forall_forall. intros i Hi. unfold no_use.
    apply not_true_iff_false. intros Hu.
    assert (Hin : In i (filter (uses (Fn s)) (finsts f'))) by (apply filter_In; auto).
    rewrite Eu in Hin. exact Hin.
  - destruct (LastParam f) as [[idx p]|]; [|discriminate].
    destruct (negb (String.eqb (pname p) "parentHandle")); [discriminate|].
    injection H as <-.
    change (Forall (no_use (Fn s))
              (finsts (fold_left
                 (fun f inst => ReplaceAllUsesWith (Reg (iid inst))
                                  ((fun _ => Param idx) inst) f)
                 (u :: us) (filter_insts (fun i => negb (uses (Fn s) i)) f)))).
    rewrite finsts_fold_RAUW, finsts_filter_insts. apply Forall_map.
    rewrite Forall_forall. intros i Hi. apply filter_In in Hi.
    destruct Hi as [_ Hi]. apply negb_true_iff in Hi.
    unfold no_use. apply not_true_iff_false. intros Hu.
    apply uses_fold_subst in Hu; [congruence|]. intros; discriminate.
Qed.

Lemma rewrite_parent_handles_no_use s m m6 :
  rewrite_parent_handles (Fn s) m = Ok m6 ->
  Forall (fun f => Forall (no_use (Fn s)) (finsts f)) (mfuncs m6).
Proof.
  intros H. apply rewrite_parent_handles_Forall2 in H.
  induction H; constructor; auto.
  eapply rewrite_parent_handle_no_use; eauto.
Qed.

Lemma eliminate_noret_no_use s m m8 :
  eliminate_noret (Fn s) m = Ok m8 ->
  Forall (fun f => Forall (no_use (Fn s)) (finsts f)) (mfuncs m8).
Proof.
  unfold eliminate_noret. simpl. intros H.
  destruct (const_users m (Fn s)); [|discriminate].
  inversion H; subst. simpl. rewrite Forall_forall. intros x Hx.
  apply in_map_iff in Hx. destruct Hx as [y [<- Hy]].
  rewrite finsts_filter_insts, Forall_forall. intros i Hi.
  apply filter_In in Hi. destruct Hi as [_ Hi]. apply negb_true_iff in Hi. exact Hi.
Qed.

(** The steps of [transform_async] when it succeeds. *)
Lemma transform_async_Ok cfg yield asyncList m m' :
  transform_async cfg yield asyncList m = Ok m' ->
  getUsesM (frames_installed cfg yield asyncList m)
           (NamedFunction m "runtime.getCoroutine") = [] /\
  exists m6 pnr m8,
    rewrite_parent_handles (NamedFunction m "runtime.getParentHandle")
                           (frames_installed cfg yield asyncList m) = Ok m6 /\
    parent_not_required m6 yield (NamedFunction m "runtime.activateTask") asyncList
      = Ok pnr /\
    eliminate_noret (NamedFunction m "runtime.noret") (ditch_attrs asyncList m6)
      = Ok m8 /\
    lowerMakeGoroutineCalls pnr m8 = Ok m'.
Proof.
  unfold transform_async. intros H.
  destruct (getUsesM (frames_installed cfg yield asyncList m)
                     (NamedFunction m "runtime.getCoroutine")); [|discriminate].
  split; auto.
  destruct (rewrite_parent_handles _ (frames_installed cfg yield asyncList m))
    as [m6|e|e]; simpl in H; try discriminate.
  destruct (parent_not_required m6 yield _ asyncList) as [pnr|e|e] eqn:E7;
    simpl in H; try discriminate.
  destruct (eliminate_noret _ (ditch_attrs asyncList m6)) as [m8|e|e] eqn:E8;
    simpl in H; try discriminate.
  exists m6, pnr, m8. auto.
Qed.

End StageFacts.

(** ** The pseudo-functions after the pass *)

Module PseudoFacts.
Import Lowering StageFacts.

Lemma find_async_Ok m L :
  NamedFunction m yieldName <> Nil -> find_async m = Some (Ok L) ->
  NoDup L /\ forall f, In f L <-> Async m f.
Proof.
  intros Hy H. unfold find_async in H.
  destruct (WorklistFacts.worklist_loop_correct m (worklist_fuel m) [yieldName] [])
    as [r [E Hr]].
  - constructor; simpl.
    + constructor.
    + tauto.
    + intros p [<- | []] _. constructor.
    + tauto.
    + auto.
    + intros p [<- | []]. apply WorklistFacts.NamedFunction_In; auto.
  - unfold worklist_fuel. simpl.
    pose proof (WorklistFacts.pending_le_all m [] (mfuncs m)). lia.
  - rewrite H in E. inversion E; subst. exact Hr.
Qed.

(** A declaration is no async function. *)
Lemma declaration_not_async m name :
  name <> yieldName ->
  (forall f, In f (mfuncs m) -> fname f = name -> finsts f = []) ->
  ~ Async m name.
Proof.
  intros Hn Hd Ha. inversion Ha as [E | f g Hg Hc Hr E]; [congruence|]. subst.
  destruct Hc as [fn [i [Hfn [En [Hi _]]]]].
  rewrite (Hd fn Hfn En) in Hi. exact Hi.
Qed.

Lemma check_scheduler_true cfg yield asyncList m m0 :
  check_scheduler cfg yield asyncList m = Ok (true, m0) -> m0 = m.
Proof.
  unfold check_scheduler.
  destruct (is_js_wasm cfg); [intros H; inversion H; auto|].
  destruct (is_avr cfg).
  - destruct (avr_short_circuit yield m); simpl; intros H; discriminate.
  - destruct (starts_async asyncList _); simpl; intros H; inversion H; auto.
Qed.

(** The pass that finds a scheduler needed has run [transform_async]. *)
Lemma markAsyncFunctions_true cfg m m' :
  markAsyncFunctions cfg m = Some (Ok (true, m')) ->
  NamedFunction m yieldName = Fn yieldName /\
  exists asyncList,
    find_async m = Some (Ok asyncList) /\
    transform_async cfg (Fn yieldName) asyncList m = Ok m'.
Proof.
  unfold markAsyncFunctions. intros H.
  destruct (SchedulerFacts.NamedFunction_cases m yieldName) as [E | E];
    rewrite E in H; simpl in H.
  - destruct (lowerMakeGoroutineCalls [] m); simpl in H; discriminate.
  - split; auto.
    destruct (find_async m) as [[A|e|e]|]; simpl in H; try discriminate.
    exists A. split; auto. inversion H as [H1]. clear H.
    unfold lower_async in H1.
    destruct (check_scheduler cfg (Fn yieldName) A m) as [[ns m0]|e|e] eqn:Ec;
      simpl in H1; try discriminate.
    destruct ns; simpl in H1.
    + apply check_scheduler_true in Ec. subst m0.
      destruct (transform_async cfg (Fn yieldName) A m); simpl in H1;
        try discriminate.
      inversion H1; subst. reflexivity.
    + destruct (lowerMakeGoroutineCalls [] m0); simpl in H1; discriminate.
Qed.

Lemma no_use_no_call s i : no_use (Fn s) i -> no_call (Fn s) i.
Proof.
  unfold no_use, no_call. intros H. apply not_true_iff_false. intros Hc.
  apply WorklistFacts.calls_uses in Hc; [congruence | reflexivity].
Qed.

Lemma Forall_no_use_no_call (S : string -> Prop) s fs :
  Forall (fun f => Forall (no_use (Fn s)) (finsts f)) fs ->
  Forall (fun f => S (fname f) -> Forall (no_call (Fn s)) (finsts f)) fs.
Proof.
  intros H. eapply Forall_impl; [|exact H]. intros f Hf _.
  eapply Forall_impl; [|exact Hf]. intros i. apply no_use_no_call.
Qed.

(** Operands after the replacement of the parent handles. *)

Lemma with_parent_param_ops idx us : forall i,
  iops (with_parent_param idx us i) =
  map (fun v => fold_left (fun v u => subst_value (Reg (iid u)) (Param idx) v) us v)
      (iops i).
Proof.
  unfold with_parent_param. induction us as [|a us IH]; intros i; simpl.
  - rewrite map_id. reflexivity.
  - rewrite IH. simpl. rewrite map_map. reflexivity.
Qed.

Lemma subst_value_cases old new v :
  (v = old /\ subst_value old new v = new) \/ (v <> old /\ subst_value old new v = v).
Proof.
  unfold subst_value. destruct (value_eqb v old) eqn:E.
  - apply value_eqb_eq in E. auto.
  - apply value_eqb_neq in E. auto.
Qed.

Lemma fold_subst_value_cases idx us : forall v,
  fold_left (fun v u => subst_value (Reg (iid u)) (Param idx) v) us v = v \/
  fold_left (fun v u => subst_value (Reg (iid u)) (Param idx) v) us v = Param idx.
Proof.
  induction us as [|a us IH]; intros v; simpl; auto.
  destruct (subst_value_cases (Reg (iid a)) (Param idx) v) as [[_ E] | [_ E]];
    rewrite E.
  - destruct (IH (Param idx)); auto.
  - apply IH.
Qed.

Lemma fold_subst_value_gone idx us : forall v u,
  In u us ->
  fold_left (fun v u => subst_value (Reg (iid u)) (Param idx) v) us v <> Reg (iid u).
Proof.
  induction us as [|a us IH]; intros v u Hu; simpl; [destruct Hu|].
  destruct (instr_eq_dec a u) as [-> | Hne].
  - destruct (subst_value_cases (Reg (iid u)) (Param idx) v) as [[_ E] | [Hv E]];
      rewrite E.
    + destruct (fold_subst_value_cases idx us (Param idx)) as [H | H];
        rewrite H; discriminate.
    + destruct (fold_subst_value_cases idx us v) as [H | H];
        rewrite H; auto. discriminate.
  - destruct Hu as [E | Hu]; [contradiction|]. apply IH. exact Hu.
Qed.

Lemma with_parent_param_gone idx us u i :
  In u us -> uses (Reg (iid u)) (with_parent_param idx us i) = false.
Proof.
  intros Hu. apply not_true_iff_false. intros H. unfold uses in H.
  rewrite with_parent_param_ops in H. apply existsb_exists in H.
  destruct H as [x [Hx E]]. apply value_eqb_eq in E. subst x.
  apply in_map_iff in Hx. destruct Hx as [v [E _]].
  revert E. apply fold_subst_value_gone. exact Hu.
Qed.

(** A loop over the functions fails fatally when one step does. *)
Lemma mapM_panics {A B} (g : A -> result B) l a e :
  (forall x e', g x <> Err e') -> In a l -> g a = Panic e ->
  exists e', mapM g l = Panic e'.
Proof.
  intros Hg. induction l as [|x l IH]; intros Hin Ha; [destruct Hin|].
  simpl. destruct Hin as [-> | Hin].
  - rewrite Ha. simpl. eauto.
  - destruct (g x) as [b|e0|e0] eqn:E; simpl; eauto.
    + destruct (IH Hin Ha) as [e' ->]. simpl. eauto.
    + exfalso. apply (Hg x e0). exact E.
Qed.

Lemma markAsyncFunctions_needed cfg m asyncList :
  NamedFunction m yieldName <> Nil ->
  find_async m = Some (Ok asyncList) ->
  check_scheduler cfg (Fn yieldName) asyncList m = Ok (true, m) ->
  markAsyncFunctions cfg m =
  Some (m' <- transform_async cfg (Fn yieldName) asyncList m ;; Ok (true, m')).
Proof.
  intros Hy Hf Hc. unfold markAsyncFunctions.
  destruct (SchedulerFacts.NamedFunction_cases m yieldName) as [E | E];
    [contradiction|].
  rewrite E, Hf. simpl. unfold lower_async. rewrite Hc. reflexivity.
Qed.

Lemma declared m name : NamedFunction m name <> Nil -> NamedFunction m name = Fn name.
Proof.
  intros H. destruct (SchedulerFacts.NamedFunction_cases m name); congruence.
Qed.

Lemma all_named (P : instr -> Prop) (S : string -> Prop) fs :
  Forall (fun f => Forall P (finsts f)) fs ->
  Forall (fun f => S (fname f) -> Forall P (finsts f)) fs.
Proof. intros H. eapply Forall_impl; [|exact H]. auto. Qed.

Lemma named_all (P : instr -> Prop) fs :
  Forall (fun f => True -> Forall P (finsts f)) fs ->
  Forall (fun f => Forall P (finsts f)) fs.
Proof. intros H. eapply Forall_impl; [|exact H]. auto. Qed.

(** The fix-ups keep a stable property of all instructions. *)
Lemma fixups_keep allowed site P (S : string -> Prop) gph noret L m5 m6 m8 :
  stable allowed site P ->
  rewrite_parent_handles gph m5 = Ok m6 ->
  eliminate_noret noret (ditch_attrs L m6) = Ok m8 ->
  Forall (fun f => S (fname f) -> Forall P (finsts f)) (mfuncs m5) ->
  Forall (fun f => S (fname f) -> Forall P (finsts f)) (mfuncs m8).
Proof.
  intros HP H6 H8 H.
  eapply noret_eliminated_keeps; [exact H8|].
  eapply rewrite_parent_handles_keeps; [exact HP | exact H6 | exact H].
Qed.

Lemma not_in_allowed_makeGoroutine :
  ~ In "runtime.makeGoroutine" (pass_calls ++ frame_calls).
Proof.
  unfold pass_calls, frame_calls. simpl. intros H.
  repeat (destruct H as [H | H]; [discriminate|]). exact H.
Qed.

(** The goroutine starts keep their shape up to their lowering. *)
Lemma spawns_kept bad cfg asyncList m m6 m8 gph noret :
  ~ In "runtime.makeGoroutine" asyncList ->
  rewrite_parent_handles gph (frames_installed cfg (Fn yieldName) asyncList m) = Ok m6 ->
  eliminate_noret noret (ditch_attrs asyncList m6) = Ok m8 ->
  Forall (fun f => Forall (spawn_ok bad) (finsts f)) (mfuncs m) ->
  Forall (fun f => Forall (spawn_ok bad) (finsts f)) (mfuncs m8).
Proof.
  intros HA H6 H8 H.
  pose proof (stable_spawn_ok bad (pass_calls ++ frame_calls) (Fn yieldName)
                asyncList not_in_allowed_makeGoroutine HA) as HS.
  apply named_all.
  apply (fixups_keep _ _ _ (fun _ => True) gph noret asyncList _ m6 m8 HS H6 H8).
  apply (all_named (spawn_ok bad) (fun _ => True)).
  apply (frames_installed_Forall (pass_calls ++ frame_calls)
           (is_async_call (Fn yieldName) asyncList) (spawn_ok bad)
           (Fn yieldName) asyncList HS); auto.
  - apply incl_appl, incl_refl.
  - apply incl_appr, incl_refl.
Qed.

(** Before the goroutine starts are lowered, no async function but
    [yield] has a call of a pseudo-function. *)
Lemma pseudo_calls_gone_before_lowering cfg asyncList m m6 m8 x :
  getUsesM (frames_installed cfg (Fn yieldName) asyncList m)
           (Fn "runtime.getCoroutine") = [] ->
  rewrite_parent_handles (Fn "runtime.getParentHandle")
    (frames_installed cfg (Fn yieldName) asyncList m) = Ok m6 ->
  eliminate_noret (Fn "runtime.noret") (ditch_attrs asyncList m6) = Ok m8 ->
  In x pseudo_functions ->
  Forall (fun f => In (fname f) asyncList /\ fname f <> yieldName ->
                   Forall (no_call (Fn x)) (finsts f)) (mfuncs m8).
Proof.
  intros Hgc H6 H8 Hx.
  set (S := fun n => In n asyncList /\ n <> yieldName).
  destruct Hx as [<- | [<- | [<- | [<- | []]]]].
  - (* yield *)
    apply (fixups_keep [] (fun _ => false) _ S _ _ _ _ _ _
             (stable_no_call yieldName [] _ (fun H => H)) H6 H8).
    eapply Forall_impl; [|apply frames_installed_no_yield].
    intros f Hf [Ha Hn]. auto.
  - (* getCoroutine *)
    apply (Forall_no_use_no_call S).
    apply named_all.
    apply (fixups_keep [] (fun _ => false) _ (fun _ => True) _ _ _ _ _ _
             (stable_no_use "runtime.getCoroutine" [] _ (fun H => H)) H6 H8).
    apply (all_named _ (fun _ => True)).
    apply getUsesM_nil. exact Hgc.
  - (* getParentHandle *)
    apply (Forall_no_use_no_call S).
    apply named_all.
    eapply (noret_eliminated_keeps _ (fun _ => True)); [exact H8|].
    apply (all_named _ (fun _ => True)).
    eapply rewrite_parent_handles_no_use. exact H6.
  - (* noret *)
    apply (Forall_no_use_no_call S).
    eapply eliminate_noret_no_use. exact H8.
Qed.

(** C4 (amended). In a module that fits the input of the pass, when the
    pass finds a scheduler needed and succeeds, no async function other than
    [yield] itself contains a call of [yield], [getCoroutine],
    [getParentHandle] or [noret].  When a use of [getCoroutine] is left after the frames are
    installed, the pass fails with the diagnostic that lists the function of
    every use, and every function containing such a use is listed.
    Otherwise, in a function with [getParentHandle] calls whose last
    parameter is named [parentHandle], the calls are removed and every use
    of their results is that parameter; when the last parameter is absent or
    named otherwise, the rewriting of the function fails fatally and so does
    the pass. *)
Theorem pseudo_calls_consumed (cfg : config) (m : module) :
  pass_input pseudo_functions m ->
  (forall m' name f',
     markAsyncFunctions cfg m = Some (Ok (true, m')) ->
     Async m name -> name <> yieldName ->
     lookup_func m' name = Some f' ->
     forall i x, In i (finsts f') -> In x pseudo_functions ->
                 calls (Fn x) i = false) /\
  (forall asyncList,
     NamedFunction m yieldName <> Nil ->
     find_async m = Some (Ok asyncList) ->
     check_scheduler cfg (Fn yieldName) asyncList m = Ok (true, m) ->
     let m5 := frames_installed cfg (Fn yieldName) asyncList m in
     let getCoroutine := Fn "runtime.getCoroutine" in
     let gph := Fn "runtime.getParentHandle" in
     (forall u us,
        getUsesM m5 getCoroutine = u :: us ->
        markAsyncFunctions cfg m =
          Some (Panic ("bad use of getCoroutine: " ++
                       String.concat "," (map user_name (u :: us)))) /\
        forall f i, In f (mfuncs m5) -> In i (finsts f) ->
                    uses getCoroutine i = true ->
                    In (fname f) (map user_name (u :: us))) /\
     (getUsesM m5 getCoroutine = [] ->
      forall f, In f (mfuncs m5) -> users_of gph f <> [] ->
        match LastParam f with
        | Some (idx, p) =>
            if String.eqb (pname p) "parentHandle"
            then exists f6,
                rewrite_parent_handle gph f = Ok f6 /\
                finsts f6 = map (with_parent_param idx (users_of gph f))
                                (filter (fun i => negb (uses gph i)) (finsts f)) /\
                forall i, In i (finsts f6) ->
                          uses gph i = false /\
                          forall u, In u (users_of gph f) ->
                                    uses (Reg (iid u)) i = false
            else rewrite_parent_handle gph f = exported_panic f /\
                 exists msg, markAsyncFunctions cfg m = Some (Panic msg)
        | None => rewrite_parent_handle gph f = exported_panic f /\
                  exists msg, markAsyncFunctions cfg m = Some (Panic msg)
        end)).
Proof.
  intros [Hgc0 Hgph0 Hnr0 Hmg Hsp].
  apply declared in Hgc0. apply declared in Hgph0. apply declared in Hnr0.
  split.
  - intros m' name f' Hm Ha Hne Hl i x Hi Hx.
    destruct (markAsyncFunctions_true _ _ _ Hm) as [Hy [A [Hf Ht]]].
    assert (HyN : NamedFunction m yieldName <> Nil) by (rewrite Hy; discriminate).
    destruct (find_async_Ok m A HyN Hf) as [_ HA].
    destruct (transform_async_Ok _ _ _ _ _ Ht)
      as [Hgc [m6 [pnr [m8 [H6 [_ [H8 Hlow]]]]]]].
    rewrite Hgc0 in Hgc. rewrite Hgph0 in H6. rewrite Hnr0 in H8.
    assert (HmgA : ~ In "runtime.makeGoroutine" A).
    { rewrite HA. apply declaration_not_async; [discriminate | exact Hmg]. }
    pose proof (spawns_kept pseudo_functions cfg A m m6 m8 _ _ HmgA H6 H8 Hsp) as Hs8.
    pose proof (pseudo_calls_gone_before_lowering cfg A m m6 m8 x Hgc H6 H8 Hx) as H8x.
    assert (Hfk : x <> "runtime.getFakeCoroutine").
    { destruct Hx as [<- | [<- | [<- | [<- | []]]]]; discriminate. }
    pose proof (lowering_keeps_no_call pseudo_functions x
                  (fun n => In n A /\ n <> yieldName) pnr m8 m' Hx Hfk Hs8 Hlow H8x)
      as Hfin.
    apply lookup_func_In in Hl. destruct Hl as [Hin En].
    rewrite Forall_forall in Hfin. specialize (Hfin f' Hin).
    rewrite En in Hfin. apply HA in Ha.
    specialize (Hfin (conj Ha Hne)). rewrite Forall_forall in Hfin.
    apply Hfin. exact Hi.
  - intros A HyN Hf Hc m5 getCoroutine gph.
    pose proof (markAsyncFunctions_needed cfg m A HyN Hf Hc) as Hm.
    split.
    + intros u us Hu. split.
      * rewrite Hm. unfold transform_async. rewrite Hgc0.
        fold m5. fold getCoroutine. rewrite Hu. reflexivity.
      * intros f i Hin Hi Hus.
        assert (H : In (UInst (fname f) i) (getUsesM m5 getCoroutine)).
        { apply WorklistFacts.In_UInst_getUsesM. apply WorklistFacts.In_inst_users.
          exists f. auto. }
        rewrite Hu in H. apply (in_map user_name) in H. exact H.
    + intros Hu f Hin Hus.
      assert (Hpanic : rewrite_parent_handle gph f = exported_panic f ->
                       exists msg, markAsyncFunctions cfg m = Some (Panic msg)).
      { intros Hp. rewrite Hm. unfold transform_async. rewrite Hgc0, Hgph0.
        fold m5. fold getCoroutine. fold gph. rewrite Hu.
        unfold rewrite_parent_handles.
        destruct (const_users m5 gph).
        - assert (Hno : forall y e', rewrite_parent_handle gph y <> Err e').
          { intros y e' Hy. unfold rewrite_parent_handle in Hy.
            destruct (users_of gph y); [discriminate|].
            destruct (LastParam y) as [[? ?]|]; [|discriminate].
            destruct (negb _); discriminate. }
          unfold exported_panic in Hp.
          destruct (mapM_panics (rewrite_parent_handle gph) (mfuncs m5) f _
                                Hno Hin Hp) as [e He].
          rewrite He. simpl. eauto.
        - simpl. eauto. }
      unfold rewrite_parent_handle in *.
      destruct (users_of gph f) as [|u0 us0] eqn:Eus; [congruence|].
      destruct (LastParam f) as [[idx p]|]; [|split; auto].
      destruct (String.eqb (pname p) "parentHandle"); cbn [negb]; [|split; auto].
      set (f6 := fold_left
                  (fun f inst => ReplaceAllUsesWith (Reg (iid inst)) (Param idx) f)
                  (u0 :: us0) (filter_insts (fun i => negb (uses gph i)) f)).
      exists f6. split; [reflexivity|].
      assert (Ei : finsts f6 =
                map (with_parent_param idx (u0 :: us0))
                    (filter (fun i => negb (uses gph i)) (finsts f))).
      { unfold f6.
        rewrite (finsts_fold_RAUW (fun _ => Param idx)), finsts_filter_insts.
        reflexivity. }
      split; [exact Ei|].
      intros i Hi. rewrite Ei in Hi. apply in_map_iff in Hi.
      destruct Hi as [i0 [<- Hi0]]. apply filter_In in Hi0.
      destruct Hi0 as [_ Hi0]. apply negb_true_iff in Hi0. split.
      * apply not_true_iff_false. intros H.
        apply (uses_fold_subst gph (fun _ => Param idx)) in H; [congruence|].
        intros; discriminate.
      * intros u Hin'. apply with_parent_param_gone. exact Hin'.
Qed.

(** The claim as it is stated, for every run that completes: a program
    that blocks and starts no goroutine needs no scheduler on a target that
    is neither js/wasm nor AVR; the pass returns [false] without rewriting
    the async functions, and [time.Sleep] keeps its calls of [yield] and of
    [getCoroutine]. *)
Lemma async_function_keeps_yield_without_scheduler :
  exists m' f',
    markAsyncFunctions Examples.arm_cfg Examples.blocking_module
      = Some (Ok (false, m')) /\
    Async Examples.blocking_module "time.Sleep" /\
    lookup_func m' "time.Sleep" = Some f' /\
    (exists i, In i (finsts f') /\ calls (Fn yieldName) i = true) /\
    (exists i, In i (finsts f') /\ calls (Fn "runtime.getCoroutine") i = true).
Proof.
  exists Examples.blocking_module, Examples.sleepFn.
  split; [vm_compute; reflexivity|]. split.
  - apply Async_caller with (g := yieldName); [constructor | | discriminate].
    exists Examples.sleepFn, (Examples.call 3 TVoid "runtime.yield" []).
    split; [simpl; auto 12|]. split; [reflexivity|].
    split; [simpl; auto|]. reflexivity.
  - split; [reflexivity|]. split.
    + exists (Examples.call 3 TVoid "runtime.yield" []).
      split; [simpl; auto|]. reflexivity.
    + exists (Examples.call 1 i8ptrType "runtime.getCoroutine" []).
      split; [simpl; auto|]. reflexivity.
Qed.

End PseudoFacts.

(** ** The coroutine frames *)

Module FrameFacts.
Import Lowering StageFacts.

(** Instructions directly after a [noret] call. *)

Section Guarded.

Variables (bad : instr -> bool) (noret : value).

Lemma guarded_app p l1 l2 :
  guarded bad noret p (l1 ++ l2) =
  guarded bad noret p l1 && guarded bad noret (end_state noret p l1) l2.
Proof.
  revert p. induction l1 as [|[id nm|i] l1 IH]; intros p; simpl; auto.
  rewrite IH. rewrite andb_assoc. reflexivity.
Qed.

Lemma end_state_app p l1 l2 :
  end_state noret p (l1 ++ l2) = end_state noret (end_state noret p l1) l2.
Proof. revert p. induction l1 as [|[id nm|i] l1 IH]; intros p; simpl; auto. Qed.

Lemma guarded_weaken p l :
  guarded bad noret true l = true -> guarded bad noret p l = true.
Proof.
  destruct l as [|[id nm|i] l]; simpl; auto.
  destruct p; auto. rewrite !andb_true_iff. simpl. tauto.
Qed.

Lemma guarded_false p l :
  guarded bad noret p l = true -> guarded bad noret false l = true.
Proof.
  destruct l as [|[id nm|i] l]; simpl; auto.
  rewrite !andb_true_iff. simpl. tauto.
Qed.

Lemma guarded_no_bad l : forall p,
  Forall (fun i => bad i = false) (items_insts l) -> guarded bad noret p l = true.
Proof.
  induction l as [|[id nm|i] l IH]; intros p H; simpl; auto.
  simpl in H. inversion H; subst. rewrite H2, andb_false_r. simpl. auto.
Qed.

Lemma guarded_drop_insts l : forall p,
  guarded bad noret p l = true -> guarded bad noret false (drop_insts l) = true.
Proof.
  induction l as [|[id nm|i] l IH]; intros p H; simpl in *; auto.
  apply andb_true_iff in H. destruct H as [_ H]. eapply IH; eauto.
Qed.

Lemma guarded_headed p q l :
  headed l -> guarded bad noret p l = guarded bad noret q l.
Proof. destruct l as [|[id nm|i] l]; simpl; auto. contradiction. Qed.

Lemma guarded_imap g l : forall p,
  (forall i, bad (g i) = bad i) -> (forall i, calls noret (g i) = calls noret i) ->
  guarded bad noret p (imap g l) = guarded bad noret p l.
Proof.
  intros p Hb Hn. revert p.
  induction l as [|[id nm|i] l IH]; intros p; simpl; auto.
  rewrite Hb, Hn, IH. reflexivity.
Qed.

Lemma end_state_imap g l : forall p,
  (forall i, calls noret (g i) = calls noret i) ->
  end_state noret p (imap g l) = end_state noret p l.
Proof.
  intros p Hn. revert p.
  induction l as [|[id nm|i] l IH]; intros p; simpl; auto.
  rewrite Hn, IH. reflexivity.
Qed.

Lemma guarded_insert_entry new l p :
  guarded bad noret false (map Ins new) = true ->
  end_state noret false (map Ins new) = false ->
  guarded bad noret p l = true ->
  guarded bad noret p (insert_entry_items new l) = true.
Proof.
  intros Hn He H. destruct l as [|[id nm|i] l]; simpl in *; auto.
  rewrite guarded_app, Hn, He. simpl. exact H.
Qed.

Lemma end_state_insert_entry new l p :
  end_state noret false (map Ins new) = false -> l <> [] ->
  end_state noret p (insert_entry_items new l) = end_state noret p l.
Proof.
  intros He. destruct l as [|[id nm|i] l]; simpl; auto.
  rewrite end_state_app, He. reflexivity.
Qed.

End Guarded.

Lemma take_drop_items l : map Ins (take_insts l) ++ drop_insts l = l.
Proof. induction l as [|[id nm|i] l IH]; simpl; auto. rewrite IH. reflexivity. Qed.

Lemma flatten_unflatten l : flatten (unflatten l) = drop_insts l.
Proof.
  induction l as [|[id nm|i] l IH]; simpl; auto.
  rewrite IH, take_drop_items. reflexivity.
Qed.

Lemma flatten_insert_entry e bs :
  flatten (insert_entry e bs) = insert_entry_items e (flatten bs).
Proof.
  destruct bs as [|b r]; simpl; auto.
  rewrite map_app, <- app_assoc. reflexivity.
Qed.

Local Abbreviation Y := (Fn yieldName).
Local Abbreviation NR := (Fn "runtime.noret").
Local Abbreviation GC := (Fn "runtime.getCoroutine").
Local Abbreviation G := (guarded (calls Y) NR).

Lemma guarded_flatten bs :
  G false (flatten bs) = forallb (fun b => G false (map Ins (binsts b))) bs.
Proof.
  induction bs as [|b r IH]; simpl; auto.
  rewrite guarded_app, <- IH. f_equal.
  apply guarded_headed. apply flatten_headed.
Qed.

Lemma guarded_func_no_yield f :
  Forall (no_call Y) (finsts f) -> guarded_func f = true.
Proof.
  intros H. unfold guarded_func. apply guarded_no_bad.
  rewrite items_insts_flatten. exact H.
Qed.

Lemma guarded_func_unflatten f l n :
  G false l = true -> guarded_func (set_next (set_blocks f (unflatten l)) n) = true.
Proof.
  intros H. unfold guarded_func. simpl. rewrite flatten_unflatten.
  eapply guarded_drop_insts; eauto.
Qed.

(** Stage 1: the blocks are cut at their first [yield]. *)

Lemma break_block_no_yield_left t l : forall n,
  Forall (no_call Y) (fst (fst (break_block Y t n l))).
Proof.
  induction l as [|a l IH]; intros n; simpl; [constructor|].
  destruct (calls Y a) eqn:E.
  - simpl. repeat constructor.
    unfold no_call, CreateRetUndef, CreateRetVoid, CreateRet.
    destruct (IsVoid t); reflexivity.
  - specialize (IH n). destruct (break_block Y t n l) as [[k d] n'].
    simpl in *. constructor; auto.
Qed.

Lemma break_blocks_no_yield_left t bs : forall n,
  Forall (no_call Y) (flat_map binsts (fst (fst (break_blocks Y t n bs)))).
Proof.
  induction bs as [|b r IH]; intros n; simpl; [constructor|].
  pose proof (break_block_no_yield_left t (binsts b) n) as Hb.
  destruct (break_block Y t n (binsts b)) as [[k d] n1].
  specialize (IH n1). destruct (break_blocks Y t n1 r) as [[r' d'] n2].
  simpl in *. apply Forall_app. auto.
Qed.

Lemma inject_noret_no_yield f : Forall (no_call Y) (finsts (inject_noret Y f)).
Proof.
  unfold inject_noret.
  pose proof (break_blocks_no_yield_left (fret f) (fblocks f) (fnext f)) as H.
  destruct (break_blocks Y (fret f) (fnext f) (fblocks f)) as [[bs del] n].
  simpl in H. rewrite NonReturningFacts.undef_deleted_map, finsts_map_insts.
  apply Forall_map. eapply Forall_impl; [|exact H].
  intros a Ha.
  apply (undef_uses_P [] (fun _ => false) (no_call Y)); auto.
  apply stable_no_call. intros [].
Qed.

Lemma inject_noret_guarded f : guarded_func (inject_noret Y f) = true.
Proof. apply guarded_func_no_yield, inject_noret_no_yield. Qed.

(** Stage 3: the yields are all dropped, or the function stays. *)

Lemma ditch_tail_yields_guarded f :
  guarded_func f = true -> guarded_func (ditch_tail_yields Y NR f) = true.
Proof.
  intros H. unfold ditch_tail_yields.
  destruct (scan_yields Y NR (fret f) (fblocks f) false); auto.
  pose proof (TailYieldFacts.ditch_blocks_ditched Y (fblocks f) (fnext f)) as Hd.
  destruct (ditch_blocks Y (fnext f) (fblocks f)) as [bs n]. simpl in Hd.
  apply guarded_func_no_yield. unfold finsts. simpl.
  apply Forall_flat_map. clear H.
  induction Hd as [|b b' l l' [_ [_ Hb]] _ IH]; constructor; auto.
  rewrite Forall_forall. intros i Hi.
  eapply TailYieldFacts.ditched_no_yield; eauto. discriminate.
Qed.

(** Stage 4: the returns get the reactivation in front. *)

Lemma G_cons p i r :
  G p (Ins i :: r) = negb (p && calls Y i) && G (calls NR i) r.
Proof. reflexivity. Qed.

Lemma calls_SetOperand_ret g i n v :
  IsAReturnInst i = true -> calls g (SetOperand i n v) = false.
Proof.
  unfold IsAReturnInst, calls, IsACallInst, SetOperand. simpl. intros H.
  apply opcode_eqb_eq in H. rewrite H. reflexivity.
Qed.

Lemma calls_ret g i : IsAReturnInst i = true -> calls g i = false.
Proof.
  unfold IsAReturnInst, calls, IsACallInst. intros H.
  apply opcode_eqb_eq in H. rewrite H. reflexivity.
Qed.

Lemma reactivate_block_guarded f l : forall st p,
  G p (map Ins l) = true ->
  G p (map Ins (fst (reactivate_block NR f st l))) = true.
Proof.
  induction l as [|a l IH]; intros st p H; [exact H|].
  cbn [map] in H. rewrite G_cons in H. apply andb_true_iff in H.
  destruct H as [Ha H]. cbn [reactivate_block].
  destruct (calls NR a) eqn:En.
  - cbn [fst map]. rewrite G_cons, Ha, En. exact H.
  - destruct (IsAReturnInst a) eqn:Er.
    + unfold reactivate_return.
      destruct (negb (IsVoid (fret f))); cbn [fst map app].
      * rewrite !G_cons.
        rewrite (calls_SetOperand_ret Y a 0 _ Er), (calls_SetOperand_ret NR a 0 _ Er).
        cbn. rewrite H. destruct p; reflexivity.
      * rewrite !G_cons. rewrite (calls_ret Y a Er), En.
        cbn. rewrite H. destruct p; reflexivity.
    + specialize (IH st (calls NR a)). rewrite En in IH. specialize (IH H).
      destruct (reactivate_block NR f st l) as [r' st']. cbn [fst map] in *.
      rewrite G_cons, Ha, En. exact IH.
Qed.

Lemma reactivate_blocks_guarded f bs : forall st,
  forallb (fun b => G false (map Ins (binsts b))) bs = true ->
  forallb (fun b => G false (map Ins (binsts b)))
          (fst (reactivate_blocks NR f st bs)) = true.
Proof.
  induction bs as [|b r IH]; intros st H; simpl; auto.
  simpl in H. apply andb_true_iff in H. destruct H as [Hb Hr].
  pose proof (reactivate_block_guarded f (binsts b) st false Hb) as H1.
  destruct (reactivate_block NR f st (binsts b)) as [l st1].
  specialize (IH st1 Hr). destruct (reactivate_blocks NR f st1 r) as [r' st2].
  simpl in *. rewrite H1, IH. reflexivity.
Qed.

Lemma reactivate_returns_guarded f :
  guarded_func f = true -> guarded_func (reactivate_returns NR f) = true.
Proof.
  unfold guarded_func, reactivate_returns. intros H.
  rewrite guarded_flatten in H.
  pose proof (reactivate_blocks_guarded f (fblocks f) (mkReact Nil [] (fnext f)) H)
    as H1.
  destruct (ReactivationFacts.reactivate_blocks_ok NR f (fblocks f)
              (mkReact Nil [] (fnext f))) as [Hok _]; [left; auto|].
  destruct (reactivate_blocks NR f (mkReact Nil [] (fnext f)) (fblocks f))
    as [bs st]. simpl in *.
  rewrite flatten_insert_entry. apply guarded_insert_entry.
  - destruct Hok as [[_ ->] | [n0 [-> _]]]; reflexivity.
  - destruct Hok as [[_ ->] | [n0 [-> _]]]; reflexivity.
  - rewrite guarded_flatten. exact H1.
Qed.

(** Stage 2: the call sites. *)

Lemma G_app_new done new :
  G false done = true -> G true new = true -> G false (done ++ new) = true.
Proof.
  intros Hd Hn. rewrite guarded_app, Hd. simpl. apply guarded_weaken. exact Hn.
Qed.

Lemma async_call_not_pseudo asyncList inst :
  ~ In "runtime.noret" asyncList ->
  is_async_call Y asyncList inst = true ->
  calls Y inst = false /\ calls NR inst = false.
Proof.
  intros Hn H. unfold is_async_call in H. rewrite !andb_true_iff in H.
  destruct H as [[Hc Ha] Hy]. unfold calls. rewrite Hc. simpl.
  apply negb_true_iff in Hy. split; auto.
  apply value_eqb_neq. intros E. rewrite E in Ha.
  apply is_async_In in Ha. contradiction.
Qed.

Lemma rewrite_site_guarded asyncList m nr f st inst rest :
  ~ In "runtime.noret" asyncList ->
  is_async_call Y asyncList inst = true ->
  G false (s_done st ++ Ins inst :: rest) = true ->
  G false (s_done (fst (rewrite_site m nr f st inst rest)) ++
           snd (rewrite_site m nr f st inst rest)) = true.
Proof.
  intros Hn Hs H.
  destruct (async_call_not_pseudo asyncList inst Hn Hs) as [Hy Hr].
  rewrite guarded_app in H. apply andb_true_iff in H. destruct H as [Hd H].
  apply guarded_false in H. rewrite G_cons, Hr in H. simpl in H.
  unfold rewrite_site.
  destruct (classify_site m nr f inst (next_inst rest)) eqn:Hc.
  - (* blocking *)
    unfold rewrite_blocking. cbn [fst snd s_done]. rewrite <- imap_app.
    rewrite guarded_imap.
    + rewrite <- app_assoc. apply G_app_new; auto.
      unfold ins. cbn [map app]. rewrite !G_cons, !calls_SetLastArg, Hy, Hr.
      replace (calls Y (CreateRetUndef (S (s_next st)) (fret f))) with false
        by (unfold CreateRetUndef; destruct (IsVoid (fret f)); reflexivity).
      replace (calls NR (CreateRetUndef (S (s_next st)) (fret f))) with false
        by (unfold CreateRetUndef; destruct (IsVoid (fret f)); reflexivity).
      cbn. eapply guarded_drop_insts. exact H.
    + intros i. apply calls_fold_subst_eq with (new := fun _ => Undef _).
      intros; discriminate.
    + intros i. apply calls_fold_subst_eq with (new := fun _ => Undef _).
      intros; discriminate.
  - (* tail call *)
    destruct (next_inst rest) as [nx|] eqn:Hx.
    + apply classify_tail_ret in Hc.
      destruct rest as [|[|x] rest]; simpl in Hx; try discriminate.
      inversion Hx; subst x. rewrite G_cons, (calls_ret NR nx Hc) in H.
      simpl in H.
      unfold rewrite_tail. cbn [fst snd s_done tl]. rewrite <- app_assoc.
      apply G_app_new; auto.
      unfold ins. cbn [map app]. rewrite !G_cons, !calls_SetLastArg, Hy, Hr.
      assert (E1 : calls Y (if IsVoid (ity inst) then nx
                            else SetOperand nx 0 (Undef (ity inst))) = false).
      { destruct (IsVoid (ity inst));
          [apply calls_ret | apply calls_SetOperand_ret]; auto. }
      assert (E2 : calls NR (if IsVoid (ity inst) then nx
                             else SetOperand nx 0 (Undef (ity inst))) = false).
      { destruct (IsVoid (ity inst));
          [apply calls_ret | apply calls_SetOperand_ret]; auto. }
      rewrite E1, E2. cbn. exact H.
    + unfold classify_site in Hc.
      destruct (is_async nr (CalledValue inst)); discriminate.
  - (* regular *)
    assert (Hreg : G false (s_done (fst (rewrite_regular st inst rest)) ++
                            snd (rewrite_regular st inst rest)) = true).
    { clear Hc. unfold rewrite_regular.
      destruct (IsVoid (ity inst)).
      { cbn [fst snd s_done]. rewrite <- app_assoc. apply G_app_new; auto.
        unfold ins. cbn [map app]. rewrite !G_cons, !calls_SetLastArg, Hy, Hr.
        cbn. exact H. }
      set (done := if IsNil (s_retAlloc st)
                   then insert_entry_items
                          [CreateAlloca (S (s_next st)) (ity inst) "coro.retvalAlloca"]
                          (s_done st)
                   else s_done st).
      assert (Hd' : G false done = true).
      { unfold done. destruct (IsNil (s_retAlloc st)); auto.
        apply guarded_insert_entry; auto. }
      destruct (existsb (uses (Reg (iid inst))) (items_insts (done ++ rest))).
      - cbn [fst snd s_done]. rewrite <- imap_app. rewrite guarded_imap.
        + rewrite <- app_assoc. apply G_app_new; auto.
          unfold ins. cbn [map app]. rewrite !G_cons, !calls_SetLastArg, Hy, Hr.
          cbn. exact H.
        + intros i. apply calls_subst_eq. discriminate.
        + intros i. apply calls_subst_eq. discriminate.
      - cbn [fst snd s_done]. rewrite <- app_assoc. apply G_app_new; auto.
        unfold ins. cbn [map app]. rewrite !G_cons, !calls_SetLastArg, Hy, Hr.
        cbn. exact H. }
    destruct (next_inst rest); exact Hreg.
Qed.

Lemma rewrite_calls_guarded asyncList m nr f : forall fuel st rest,
  ~ In "runtime.noret" asyncList ->
  G false (s_done st ++ rest) = true ->
  G false (s_done (rewrite_calls fuel m Y asyncList nr f st rest)) = true.
Proof.
  induction fuel as [|k IH]; intros st rest Hn H; [exact H|].
  destruct rest as [|it r]; [exact H|]. cbn [rewrite_calls].
  destruct it as [id nm | inst].
  - apply IH; auto. unfold push. cbn [s_done]. rewrite <- app_assoc. exact H.
  - destruct (is_async_call Y asyncList inst) eqn:Hs.
    + pose proof (rewrite_site_guarded asyncList m nr f st inst r Hn Hs H) as H1.
      destruct (rewrite_site m nr f st inst r) as [st' rest']. apply IH; auto.
    + apply IH; auto. unfold push. cbn [s_done]. rewrite <- app_assoc. exact H.
Qed.

Lemma rewrite_async_calls_guarded asyncList nr m f :
  ~ In "runtime.noret" asyncList ->
  guarded_func f = true ->
  guarded_func (rewrite_async_calls Y asyncList nr m f) = true.
Proof.
  intros Hn H. unfold rewrite_async_calls. apply guarded_func_unflatten.
  apply rewrite_calls_guarded; auto.
Qed.

(** The stages up to the reactivation of the returns keep the functions
    guarded. *)
Lemma reactivations_generated_guarded asyncList m :
  NamedFunction m "runtime.noret" = NR ->
  ~ In "runtime.noret" asyncList ->
  Forall (fun f => guarded_func f = true) (mfuncs m) ->
  Forall (fun f => guarded_func f = true)
         (mfuncs (reactivations_generated Y asyncList m)).
Proof.
  intros En Hn H.
  unfold reactivations_generated, tail_yields_ditched, calls_rewritten.
  rewrite En.
  pose proof (mark_nonReturning_Forall (fun f => guarded_func f = true) Y
                (NamedFunction m "runtime.getCoroutine") asyncList m) as G1.
  destruct (mark_nonReturning Y (NamedFunction m "runtime.getCoroutine")
              asyncList m) as [m1 nr]. simpl in G1.
  apply for_async_Forall; [intros; apply reactivate_returns_guarded; auto|].
  apply for_async_Forall; [intros; apply ditch_tail_yields_guarded; auto|].
  apply for_async_Forall; [intros; apply rewrite_async_calls_guarded; auto|].
  apply G1; auto. intros; apply inject_noret_guarded.
Qed.

(** The supply of fresh ids grows; the ids of the inttoptr instructions,
    which the pass does not create, stay below it. *)

Lemma stable_inttoptr_below n allowed site :
  stable allowed site (inttoptr_below n).
Proof.
  unfold inttoptr_below. constructor; auto.
  - intros i v _ _ H. unfold SetLastArg.
    destruct (2 <=? OperandsCount i); exact H.
  - intros n0 i p _ _ _ H. discriminate H.
  - intros i [H _] E. contradiction.
Qed.

Lemma break_block_next y t l : forall n, n <= snd (break_block y t n l).
Proof.
  induction l as [|a l IH]; intros n; simpl; auto.
  destruct (calls y a); simpl; [lia|].
  specialize (IH n). destruct (break_block y t n l) as [[k d] n']. exact IH.
Qed.

Lemma break_blocks_next y t bs : forall n, n <= snd (break_blocks y t n bs).
Proof.
  induction bs as [|b r IH]; intros n; simpl; auto.
  pose proof (break_block_next y t (binsts b) n) as Hb.
  destruct (break_block y t n (binsts b)) as [[k d] n1].
  specialize (IH n1). destruct (break_blocks y t n1 r) as [[r' d'] n2].
  simpl in *. lia.
Qed.

Lemma undef_deleted_next del : forall f, fnext (undef_deleted del f) = fnext f.
Proof.
  unfold undef_deleted. induction del as [|d del IH]; intros f; simpl; auto.
  rewrite IH. destruct (IsVoid (ity d)); reflexivity.
Qed.

Lemma inject_noret_next y f : fnext f <= fnext (inject_noret y f).
Proof.
  unfold inject_noret.
  pose proof (break_blocks_next y (fret f) (fblocks f) (fnext f)) as H.
  destruct (break_blocks y (fret f) (fnext f) (fblocks f)) as [[bs del] n].
  rewrite undef_deleted_next. exact H.
Qed.

Lemma rewrite_site_next m nr f st inst rest :
  s_next st <= s_next (fst (rewrite_site m nr f st inst rest)).
Proof.
  unfold rewrite_site.
  assert (Hreg : s_next st <= s_next (fst (rewrite_regular st inst rest))).
  { unfold rewrite_regular. destruct (IsVoid (ity inst)); simpl; [lia|].
    destruct (existsb _ _); destruct (IsNil (s_retAlloc st)); simpl; lia. }
  destruct (classify_site m nr f inst (next_inst rest)); auto.
  - simpl. lia.
  - destruct (next_inst rest); auto. simpl. lia.
Qed.

Lemma rewrite_calls_next m y asyncList nr f : forall fuel st rest,
  s_next st <= s_next (rewrite_calls fuel m y asyncList nr f st rest).
Proof.
  induction fuel as [|k IH]; intros st rest; simpl; auto.
  destruct rest as [|[id nm|inst] r]; simpl; auto.
  - apply (IH (push st (Hdr id nm))).
  - destruct (is_async_call y asyncList inst).
    + pose proof (rewrite_site_next m nr f st inst r) as H.
      destruct (rewrite_site m nr f st inst r) as [st' rest']. simpl in H.
      specialize (IH st' rest'). lia.
    + apply (IH (push st (Ins inst))).
Qed.

Lemma rewrite_async_calls_next y asyncList nr m f :
  fnext f <= fnext (rewrite_async_calls y asyncList nr m f).
Proof.
  unfold rewrite_async_calls. simpl.
  apply (rewrite_calls_next m y asyncList nr f _ (mkSite [] Nil TVoid (fnext f))).
Qed.

Lemma ditch_block_next y l : forall n, n <= snd (ditch_block y n l).
Proof.
  induction l as [|a l IH]; intros n; [simpl; auto|].
  rewrite TailYieldFacts.ditch_block_cons.
  destruct (calls y a).
  - destruct (hd_error l) as [nx|].
    + destruct (IsAReturnInst nx); auto.
      specialize (IH (S n)). destruct (ditch_block y (S n) l). simpl in *. lia.
    + auto.
  - specialize (IH n). destruct (ditch_block y n l). exact IH.
Qed.

Lemma ditch_blocks_next y bs : forall n, n <= snd (ditch_blocks y n bs).
Proof.
  induction bs as [|b r IH]; intros n; simpl; auto.
  pose proof (ditch_block_next y (binsts b) n) as Hb.
  destruct (ditch_block y n (binsts b)) as [l n1].
  specialize (IH n1). destruct (ditch_blocks y n1 r) as [r' n2].
  simpl in *. lia.
Qed.

Lemma ditch_tail_yields_next y nr f : fnext f <= fnext (ditch_tail_yields y nr f).
Proof.
  unfold ditch_tail_yields.
  destruct (scan_yields y nr (fret f) (fblocks f) false); auto.
  pose proof (ditch_blocks_next y (fblocks f) (fnext f)) as H.
  destruct (ditch_blocks y (fnext f) (fblocks f)). exact H.
Qed.

Lemma reactivate_block_next nr f l : forall st,
  r_next st <= r_next (snd (reactivate_block nr f st l)).
Proof.
  induction l as [|a l IH]; intros st; simpl; auto.
  destruct (calls nr a); simpl; auto.
  destruct (IsAReturnInst a).
  - unfold reactivate_return. destruct (negb (IsVoid (fret f))); simpl; [|lia].
    destruct (IsNil (r_retPtr st)); simpl; lia.
  - specialize (IH st). destruct (reactivate_block nr f st l). exact IH.
Qed.

Lemma reactivate_blocks_next nr f bs : forall st,
  r_next st <= r_next (snd (reactivate_blocks nr f st bs)).
Proof.
  induction bs as [|b r IH]; intros st; simpl; auto.
  pose proof (reactivate_block_next nr f (binsts b) st) as Hb.
  destruct (reactivate_block nr f st (binsts b)) as [l st1].
  specialize (IH st1). destruct (reactivate_blocks nr f st1 r) as [r' st2].
  simpl in *. lia.
Qed.

Lemma reactivate_returns_next nr f : fnext f <= fnext (reactivate_returns nr f).
Proof.
  unfold reactivate_returns.
  pose proof (reactivate_blocks_next nr f (fblocks f) (mkReact Nil [] (fnext f))) as H.
  destruct (reactivate_blocks nr f (mkReact Nil [] (fnext f)) (fblocks f)).
  exact H.
Qed.

Lemma inttoptr_below_le n n' l :
  n <= n' -> Forall (inttoptr_below n) l -> Forall (inttoptr_below n') l.
Proof.
  intros Hle H. eapply Forall_impl; [|exact H].
  unfold inttoptr_below. intros a Ha E. specialize (Ha E). lia.
Qed.

Lemma pass_calls_noret : In "runtime.noret" pass_calls.
Proof. simpl. auto. Qed.

Lemma reactivations_generated_ids asyncList m :
  Forall (fun f => Forall (inttoptr_below (fnext f)) (finsts f)) (mfuncs m) ->
  Forall (fun f => Forall (inttoptr_below (fnext f)) (finsts f))
         (mfuncs (reactivations_generated Y asyncList m)).
Proof.
  intros H.
  unfold reactivations_generated, tail_yields_ditched, calls_rewritten.
  pose proof (mark_nonReturning_Forall
                (fun f => Forall (inttoptr_below (fnext f)) (finsts f)) Y
                (NamedFunction m "runtime.getCoroutine") asyncList m) as G1.
  destruct (mark_nonReturning Y (NamedFunction m "runtime.getCoroutine")
              asyncList m) as [m1 nr]. simpl in G1.
  apply for_async_Forall.
  { intros m0 f Hf.
    apply (inttoptr_below_le (fnext f)); [apply reactivate_returns_next|].
    apply (reactivate_returns_Forall pass_calls (fun _ => false) _
             (stable_inttoptr_below _ _ _) (incl_refl _)); auto. }
  apply for_async_Forall.
  { intros m0 f Hf.
    apply (inttoptr_below_le (fnext f)); [apply ditch_tail_yields_next|].
    apply (ditch_tail_yields_Forall pass_calls (fun _ => false) _
             (stable_inttoptr_below _ _ _) pass_calls_noret); auto. }
  apply for_async_Forall.
  { intros m0 f Hf.
    apply (inttoptr_below_le (fnext f)); [apply rewrite_async_calls_next|].
    apply (rewrite_async_calls_Forall pass_calls (fun _ => true) _
             (stable_inttoptr_below _ _ _) (incl_refl _)); auto. }
  apply G1; auto. intros f Hf.
  apply (inttoptr_below_le (fnext f)); [apply inject_noret_next|].
  apply (inject_noret_Forall pass_calls (fun _ => false) _
           (stable_inttoptr_below _ _ _) pass_calls_noret); auto.
Qed.

(** The reactivation of the returns keeps the [yield] calls. *)

Lemma reactivate_block_yields f l : forall st,
  filter (calls Y) (fst (reactivate_block NR f st l)) = filter (calls Y) l.
Proof.
  induction l as [|a l IH]; intros st; simpl; auto.
  destruct (calls NR a) eqn:En; [reflexivity|].
  destruct (IsAReturnInst a) eqn:Er.
  - unfold reactivate_return. rewrite (calls_ret Y a Er).
    destruct (negb (IsVoid (fret f))); cbn [fst app].
    + cbn [filter]. rewrite (calls_SetOperand_ret Y a 0 _ Er). reflexivity.
    + cbn [filter]. rewrite (calls_ret Y a Er). reflexivity.
  - specialize (IH st). destruct (reactivate_block NR f st l). simpl in *.
    rewrite IH. reflexivity.
Qed.

Lemma reactivate_blocks_yields f bs : forall st,
  filter (calls Y) (flat_map binsts (fst (reactivate_blocks NR f st bs))) =
  filter (calls Y) (flat_map binsts bs).
Proof.
  induction bs as [|b r IH]; intros st; simpl; auto.
  pose proof (reactivate_block_yields f (binsts b) st) as Hb.
  destruct (reactivate_block NR f st (binsts b)) as [l st1].
  specialize (IH st1). destruct (reactivate_blocks NR f st1 r) as [r' st2].
  simpl in *. rewrite !filter_app, Hb, IH. reflexivity.
Qed.

Lemma reactivate_returns_yields f :
  count_calls Y (reactivate_returns NR f) = count_calls Y f.
Proof.
  unfold count_calls, reactivate_returns, finsts.
  pose proof (reactivate_blocks_yields f (fblocks f) (mkReact Nil [] (fnext f))) as H.
  destruct (ReactivationFacts.reactivate_blocks_ok NR f (fblocks f)
              (mkReact Nil [] (fnext f))) as [Hok _]; [left; auto|].
  destruct (reactivate_blocks NR f (mkReact Nil [] (fnext f)) (fblocks f))
    as [bs st]. simpl in *. rewrite <- H.
  destruct bs as [|b r]; simpl; auto.
  rewrite !filter_app.
  destruct Hok as [[_ ->] | [n0 [-> _]]]; reflexivity.
Qed.

(** Counting calls in flat bodies. *)

Lemma filter_calls_imap X g l :
  (forall i, calls X (g i) = calls X i) ->
  length (filter (calls X) (items_insts (imap g l))) =
  length (filter (calls X) (items_insts l)).
Proof.
  intros H. rewrite items_insts_imap.
  induction (items_insts l) as [|a r IH]; simpl; auto.
  rewrite H. destruct (calls X a); simpl; auto.
Qed.

Lemma calls_CreateCall X n t fn args nm :
  calls X (CreateCall n t fn args nm) = value_eqb fn X.
Proof. unfold calls. rewrite CalledValue_CreateCall. reflexivity. Qed.

Lemma calls_both X X' i : calls X i = true -> calls X' i = true -> X = X'.
Proof.
  intros H H'. apply calls_iff in H. apply calls_iff in H'.
  destruct H as [_ <-]. destruct H' as [_ <-]. reflexivity.
Qed.

(** The suspension points take the place of the [yield] calls. *)
Lemma suspend_yields_count X frame l : forall n,
  X <> Y ->
  length (filter (calls X) (items_insts (fst (suspend_yields Y frame n l)))) =
  (if value_eqb coroSuspendFunc X
   then length (filter (calls Y) (items_insts l)) else 0) +
  length (filter (calls X) (items_insts l)).
Proof.
  intros n HX. revert n.
  induction l as [|[id nm|inst] l IH]; intros n; simpl.
  - destruct (value_eqb coroSuspendFunc X); reflexivity.
  - specialize (IH n). destruct (suspend_yields Y frame n l). exact IH.
  - destruct (calls Y inst) eqn:Ey.
    + specialize (IH (S (S (S n)))).
      destruct (suspend_yields Y frame (S (S (S n))) l) as [r' n']. simpl in *.
      rewrite calls_CreateCall.
      assert (Ex : calls X inst = false).
      { destruct (calls X inst) eqn:E; auto. exfalso. apply HX.
        eapply calls_both; eauto. }
      rewrite Ex. change (calls X _) with false. 
      destruct (value_eqb coroSuspendFunc X); simpl; rewrite IH; simpl; lia.
    + specialize (IH n). destruct (suspend_yields Y frame n l) as [r' n'].
      simpl in *. destruct (calls X inst); simpl; rewrite IH;
        destruct (value_eqb coroSuspendFunc X); lia.
Qed.

Lemma suspend_yields_guarded X frame l : forall n p,
  G p l = true -> Forall (no_call X) (items_insts l) ->
  guarded (calls X) NR p (fst (suspend_yields Y frame n l)) = true.
Proof.
  induction l as [|[id nm|inst] l IH]; intros n p H HX; simpl; auto.
  - specialize (IH n false H HX). destruct (suspend_yields Y frame n l). exact IH.
  - simpl in H, HX. inversion HX; subst.
    apply andb_true_iff in H. destruct H as [Hp H].
    destruct (calls Y inst) eqn:Ey.
    + rewrite andb_true_r in Hp. apply negb_true_iff in Hp. subst p.
      specialize (IH (S (S (S n))) false (guarded_false _ _ _ _ H) H3).
      destruct (suspend_yields Y frame (S (S (S n))) l) as [r' n']. simpl in *.
      exact IH.
    + specialize (IH n (calls NR inst) H H3).
      destruct (suspend_yields Y frame n l) as [r' n']. simpl in *.
      rewrite H2, andb_false_r. simpl. exact IH.
Qed.

(** The last loop of the frame installation deletes no call that does not
    stand directly after a [noret] call. *)
Lemma ditch_norets_count X frame l : forall n q,
  X <> GC -> X <> NR ->
  guarded (calls X) NR q l = true ->
  length (filter (calls X)
            (items_insts (fst (fst (ditch_norets GC NR frame n q l))))) =
  length (filter (calls X) (items_insts l)).
Proof.
  intros n q Hg Hn. revert n q.
  induction l as [|[id nm|inst] l IH]; intros n q H; simpl; auto.
  - specialize (IH n false H).
    destruct (ditch_norets GC NR frame n false l) as [[r' subs] n']. exact IH.
  - simpl in H. apply andb_true_iff in H. destruct H as [Hq H].
    specialize (IH (if calls NR inst then S n else n) (calls NR inst) H).
    destruct (ditch_norets GC NR frame (if calls NR inst then S n else n)
                (calls NR inst) l) as [[r' subs] n'].
    simpl in *. rewrite !items_insts_app, !filter_app, !length_app, IH.
    destruct (calls X inst) eqn:Ex.
    + rewrite andb_true_r in Hq. apply negb_true_iff in Hq. subst q.
      assert (E1 : calls GC inst = false).
      { destruct (calls GC inst) eqn:E; auto. exfalso. apply Hg.
        eapply calls_both; eauto. }
      assert (E2 : calls NR inst = false).
      { destruct (calls NR inst) eqn:E; auto. exfalso. apply Hn.
        eapply calls_both; eauto. }
      rewrite E1, E2. simpl. rewrite Ex. reflexivity.
    + destruct (calls NR inst); destruct (q || calls GC inst); simpl;
        try rewrite Ex; reflexivity.
Qed.

Lemma replace_all_count X new subs : forall l,
  X <> new -> Forall (handle_sub new) subs ->
  (exists s, X = Fn s) ->
  length (filter (calls X) (items_insts (replace_all subs l))) =
  length (filter (calls X) (items_insts l)).
Proof.
  unfold replace_all. intros l Hn Hs [s ->]. revert l.
  induction Hs as [|[a b] subs [[k Ha] Hb] _ IH]; intros l; simpl; auto.
  rewrite IH. simpl in Ha, Hb. subst a b. apply filter_calls_imap.
  intros i. apply calls_subst_eq. congruence.
Qed.

Lemma guarded_no_noret bad l :
  Forall (no_call NR) (items_insts l) ->
  guarded bad NR false l = true /\ end_state NR false l = false.
Proof.
  induction l as [|[id nm|i] l IH]; intros H; simpl; auto.
  simpl in H. inversion H; subst. unfold no_call in H2. rewrite H2. auto.
Qed.

Lemma not_in_frame_calls_noret : ~ In "runtime.noret" frame_calls.
Proof.
  unfold frame_calls. simpl. intros H.
  repeat (destruct H as [H | H]; [discriminate|]). exact H.
Qed.

Lemma stable_True allowed site : stable allowed site (fun _ => True).
Proof. constructor; auto. Qed.

(** Bodies that start with a header. *)

Lemma suspend_yields_started y frame n l :
  headed l -> l <> [] ->
  headed (fst (suspend_yields y frame n l)) /\ fst (suspend_yields y frame n l) <> [].
Proof.
  destruct l as [|[id nm|i] l]; simpl; try tauto. intros _ _.
  destruct (suspend_yields y frame n l). simpl. split; auto. discriminate.
Qed.

Lemma ditch_norets_started gc nr frame n q l :
  headed l -> l <> [] ->
  headed (fst (fst (ditch_norets gc nr frame n q l))) /\
  fst (fst (ditch_norets gc nr frame n q l)) <> [].
Proof.
  destruct l as [|[id nm|i] l]; simpl; try tauto. intros _ _.
  destruct (ditch_norets gc nr frame n false l) as [[r s] n']. simpl.
  split; auto. discriminate.
Qed.

Lemma replace_all_started subs : forall l,
  headed l -> headed (replace_all subs l).
Proof.
  unfold replace_all. induction subs as [|s subs IH]; intros l H; simpl; auto.
  apply IH. apply headed_imap. exact H.
Qed.

Lemma insert_entry_started new l :
  headed l -> l <> [] ->
  headed (insert_entry_items new l) /\ insert_entry_items new l <> [].
Proof.
  destruct l as [|[id nm|i] l]; simpl; try tauto. intros _ _.
  split; auto. discriminate.
Qed.

Lemma existsb_finsts_blocks g f :
  existsb g (finsts f) = true -> flatten (fblocks f) <> [].
Proof.
  unfold finsts. destruct (fblocks f); simpl; discriminate.
Qed.

Lemma no_call_count X l :
  Forall (no_call X) l -> length (filter (calls X) l) = 0.
Proof.
  induction 1 as [|a l Ha _ IH]; simpl; auto.
  unfold no_call in Ha. rewrite Ha. exact IH.
Qed.

Lemma coro_not_pseudo s :
  In s coro_intrinsics -> Fn s <> Y /\ Fn s <> GC /\ Fn s <> NR.
Proof.
  intros H. simpl in H.
  repeat (destruct H as [<- | H]; [repeat split; discriminate|]). destruct H.
Qed.

(** The calls of an intrinsic in a function that has got a frame: those of
    the prelude, a suspension for every [yield], those of the cleanup and
    suspend blocks. *)
Lemma install_frame_count cfg f s :
  guarded_func f = true ->
  Forall (no_call (Fn s)) (finsts f) ->
  In s coro_intrinsics ->
  existsb (calls Y) (finsts f) = true ->
  count_calls (Fn s) (install_frame cfg Y GC NR f) =
  length (filter (calls (Fn s)) (fst (frame_prelude cfg (fnext f)))) +
  (if value_eqb coroSuspendFunc (Fn s) then count_calls Y f else 0) +
  length (filter (calls (Fn s))
            (items_insts (frame_blocks f (fnext f)
                                       (snd (frame_prelude cfg (fnext f)))))).
Proof.
  intros Hg Hno Hs Hex.
  destruct (coro_not_pseudo s Hs) as [HY [HG HN]].
  unfold install_frame. rewrite Hex. cbn [negb].
  destruct (frame_prelude_Forall frame_calls (fun _ => false) (no_call NR)
              (stable_no_call _ _ _ not_in_frame_calls_noret) (incl_refl _)
              cfg (fnext f)) as [Hpre Hth].
  destruct (frame_prelude cfg (fnext f)) as [prelude frame]. cbn [fst snd] in *.
  assert (Hb : benign (taskHandle frame)) by (rewrite Hth; exact I).
  pose proof (frame_blocks_Forall frame_calls (fun _ => false) (no_call NR)
                (stable_no_call _ _ _ not_in_frame_calls_noret) (incl_refl _)
                f (fnext f) frame Hb) as Hfb.
  assert (Hno' : Forall (no_call (Fn s)) (items_insts (flatten (fblocks f))))
    by (rewrite items_insts_flatten; exact Hno).
  pose proof (suspend_yields_count (Fn s) frame (flatten (fblocks f))
                (15 + fnext f) HY) as Hc1.
  pose proof (suspend_yields_guarded (Fn s) frame (flatten (fblocks f))
                (15 + fnext f) false Hg Hno') as Hg1.
  pose proof (suspend_yields_started Y frame (15 + fnext f) (flatten (fblocks f))
                (flatten_headed _) (existsb_finsts_blocks _ _ Hex)) as [Hh1 Hn1].
  destruct (suspend_yields Y frame (15 + fnext f) (flatten (fblocks f)))
    as [body1 n1]. cbn [fst] in *.
  set (body2 := insert_entry_items prelude body1 ++ frame_blocks f (fnext f) frame).
  destruct (insert_entry_started prelude body1 Hh1 Hn1) as [Hh2 Hn2].
  assert (Hg2 : guarded (calls (Fn s)) NR false body2 = true).
  { unfold body2. rewrite guarded_app. apply andb_true_iff. split.
    - destruct (guarded_no_noret (calls (Fn s)) (map Ins prelude)) as [A B].
      { rewrite items_insts_ins. exact Hpre. }
      apply guarded_insert_entry; auto.
    - rewrite (guarded_headed _ _ _ false); [|exact I].
      apply guarded_no_noret. exact Hfb. }
  pose proof (ditch_norets_count (Fn s) frame body2 n1 false HG HN Hg2) as Hc3.
  destruct (ditch_norets_Forall [] (fun _ => false) (fun _ => True)
              (stable_True _ _) GC NR frame body2 n1 false) as [_ Hsubs].
  { rewrite Forall_forall. auto. }
  destruct (ditch_norets_started GC NR frame n1 false body2) as [Hh3 _].
  { unfold body2. apply headed_app; auto. }
  { unfold body2. intros E. apply app_eq_nil in E. tauto. }
  destruct (ditch_norets GC NR frame n1 false body2) as [[body3 subs] n2].
  cbn [fst snd] in *.
  unfold count_calls.
  rewrite finsts_unflatten by (apply replace_all_started; exact Hh3).
  rewrite (replace_all_count (Fn s) (taskHandle frame)); eauto;
    [|rewrite Hth; discriminate].
  rewrite Hc3. unfold body2.
  rewrite items_insts_app, filter_app, length_app.
  rewrite items_insts_insert_entry by auto.
  rewrite filter_app, length_app, Hc1.
  rewrite (no_call_count _ _ Hno'), items_insts_flatten.
  unfold finsts. destruct (value_eqb coroSuspendFunc (Fn s)); lia.
Qed.

Lemma prelude_counts cfg n :
  let prelude := fst (frame_prelude cfg n) in
  length (filter (calls coroIdFunc) prelude) = 1 /\
  length (filter (calls coroBeginFunc) prelude) = 1 /\
  length (filter (calls coroEndFunc) prelude) = 0 /\
  length (filter (calls coroFreeFunc) prelude) = 0 /\
  length (filter (calls coroSuspendFunc) prelude) = 0.
Proof.
  unfold frame_prelude. cbn [fst].
  destruct (uintptrSize cfg <? 4); [|destruct (4 <? uintptrSize cfg)];
    destruct (needsStackObjects cfg); repeat split; reflexivity.
Qed.

Lemma frame_blocks_counts f n frame :
  let l := items_insts (frame_blocks f n frame) in
  length (filter (calls coroIdFunc) l) = 0 /\
  length (filter (calls coroBeginFunc) l) = 0 /\
  length (filter (calls coroEndFunc) l) = 1 /\
  length (filter (calls coroFreeFunc) l) = 1 /\
  length (filter (calls coroSuspendFunc) l) = 0.
Proof.
  unfold frame_blocks, CreateRetUndef. cbn [items_insts].
  destruct (IsVoid (fret f)); repeat split; reflexivity.
Qed.

(** A function with a [yield] call gets one frame: one call of each of
    [llvm.coro.id], [llvm.coro.begin], [llvm.coro.end] and [llvm.coro.free],
    and a call of [llvm.coro.suspend] for every [yield] call. *)
Lemma install_frame_counts cfg f :
  guarded_func f = true ->
  (forall s, In s coro_intrinsics -> Forall (no_call (Fn s)) (finsts f)) ->
  existsb (calls Y) (finsts f) = true ->
  count_calls coroIdFunc (install_frame cfg Y GC NR f) = 1 /\
  count_calls coroBeginFunc (install_frame cfg Y GC NR f) = 1 /\
  count_calls coroEndFunc (install_frame cfg Y GC NR f) = 1 /\
  count_calls coroFreeFunc (install_frame cfg Y GC NR f) = 1 /\
  count_calls coroSuspendFunc (install_frame cfg Y GC NR f) = count_calls Y f.
Proof.
  intros Hg Hno Hex.
  destruct (prelude_counts cfg (fnext f)) as [P1 [P2 [P3 [P4 P5]]]].
  destruct (frame_blocks_counts f (fnext f) (snd (frame_prelude cfg (fnext f))))
    as [B1 [B2 [B3 [B4 B5]]]].
  cbv zeta in *.
  assert (Hin : forall s, In s coro_intrinsics ->
            count_calls (Fn s) (install_frame cfg Y GC NR f) =
            length (filter (calls (Fn s)) (fst (frame_prelude cfg (fnext f)))) +
            (if value_eqb coroSuspendFunc (Fn s) then count_calls Y f else 0) +
            length (filter (calls (Fn s))
                      (items_insts (frame_blocks f (fnext f)
                                      (snd (frame_prelude cfg (fnext f))))))).
  { intros s Hs. apply install_frame_count; auto. }
  unfold coroIdFunc, coroBeginFunc, coroEndFunc, coroFreeFunc in *.
  repeat split.
  - rewrite Hin by (simpl; auto 10). rewrite P1, B1. reflexivity.
  - rewrite Hin by (simpl; auto 10). rewrite P2, B2. reflexivity.
  - rewrite Hin by (simpl; auto 10). rewrite P3, B3. reflexivity.
  - rewrite Hin by (simpl; auto 10). rewrite P4, B4. reflexivity.
  - unfold coroSuspendFunc in *.
    rewrite Hin by (simpl; auto 10). rewrite P5, B5.
    change (value_eqb (Fn "llvm.coro.suspend") (Fn "llvm.coro.suspend")) with true.
    cbv iota. lia.
Qed.

(** A function without [yield] gets no frame. *)

Lemma subst_instr_no_reg k new i :
  ~ In (Reg k) (iops i) -> subst_instr (Reg k) new i = i.
Proof.
  destruct i as [id nm op t ops]. unfold subst_instr. simpl. intros H. f_equal.
  induction ops as [|a ops IH]; simpl; auto.
  rewrite IH by (intros Hk; apply H; simpl; auto). f_equal.
  apply subst_value_other. intros E. apply H. simpl. auto.
Qed.

Lemma replace_regs_no_reg subs i :
  (forall k, ~ In (Reg k) (iops i)) ->
  Forall (fun s => exists k, fst s = Reg k) subs ->
  replace_regs subs i = i.
Proof.
  intros Hi Hs. unfold replace_regs.
  induction Hs as [|s subs [k Hk] _ IH]; simpl; auto.
  rewrite Hk, subst_instr_no_reg by apply Hi. exact IH.
Qed.

Lemma imap_imap g h l : imap g (imap h l) = imap (fun i => g (h i)) l.
Proof.
  unfold imap. rewrite map_map. apply map_ext. intros [id nm|i]; reflexivity.
Qed.

Lemma replace_all_imap subs : forall l,
  replace_all subs l = imap (replace_regs subs) l.
Proof.
  unfold replace_all, replace_regs.
  induction subs as [|s subs IH]; intros l; simpl.
  - unfold imap. rewrite <- (map_id l) at 1. apply map_ext.
    intros [id nm|i]; reflexivity.
  - rewrite IH, imap_imap. reflexivity.
Qed.

Lemma item_headers_imap g l : item_headers (imap g l) = item_headers l.
Proof. induction l as [|[id nm|i] l IH]; simpl; auto. rewrite IH. reflexivity. Qed.

Lemma item_headers_app l r : item_headers (l ++ r) = item_headers l ++ item_headers r.
Proof. induction l as [|[id nm|i] l IH]; simpl; auto. rewrite IH. reflexivity. Qed.

Lemma item_headers_ins l : item_headers (map Ins l) = [].
Proof. induction l; simpl; auto. Qed.

Lemma item_headers_flatten bs :
  item_headers (flatten bs) = map (fun b => (bid b, bname b)) bs.
Proof.
  induction bs as [|b r IH]; simpl; auto.
  rewrite item_headers_app, item_headers_ins, IH. reflexivity.
Qed.

Lemma headers_unflatten f l n :
  headers (set_next (set_blocks f (unflatten l)) n) = item_headers l.
Proof.
  unfold headers. simpl.
  induction l as [|[id nm|i] l IH]; simpl; auto. rewrite IH. reflexivity.
Qed.

Lemma Forall2_mono {A B} (R R' : A -> B -> Prop) l l' :
  (forall a b, R a b -> R' a b) -> Forall2 R l l' -> Forall2 R' l l'.
Proof. intros H. induction 1; constructor; auto. Qed.

Lemma use_parent_handle_spec gc l : forall n,
  item_headers (fst (fst (use_parent_handle gc n l))) = item_headers l /\
  (headed l -> headed (fst (fst (use_parent_handle gc n l)))) /\
  Forall (fun s => (exists k, fst s = Reg k) /\ exists k, snd s = Reg k)
         (snd (fst (use_parent_handle gc n l))) /\
  Forall2 (fun i i' =>
             if calls gc i
             then exists k, i' = createRuntimeCall k "getParentHandle" [] "" /\
                            In (Reg (iid i), Reg k)
                               (snd (fst (use_parent_handle gc n l)))
             else i' = i)
          (items_insts l) (items_insts (fst (fst (use_parent_handle gc n l)))).
Proof.
  induction l as [|[id nm|inst] l IH]; intros n.
  - simpl. repeat split; auto; constructor.
  - simpl. destruct (IH n) as [H1 [H2 [H3 H4]]].
    destruct (use_parent_handle gc n l) as [[r' subs] n']. simpl in *.
    rewrite H1. repeat split; auto.
  - simpl. destruct (calls gc inst) eqn:E.
    + destruct (IH (S n)) as [H1 [H2 [H3 H4]]].
      destruct (use_parent_handle gc (S n) l) as [[r' subs] n']. simpl in *.
      repeat split; auto; try contradiction.
      * constructor; auto. simpl. eauto.
      * constructor.
        -- rewrite E. exists n. auto.
        -- eapply Forall2_mono; [|exact H4]. intros a b. simpl.
           destruct (calls gc a); auto. intros [k [? ?]]. eauto.
    + destruct (IH n) as [H1 [H2 [H3 H4]]].
      destruct (use_parent_handle gc n l) as [[r' subs] n']. simpl in *.
      repeat split; auto; try contradiction.
      constructor; auto. rewrite E. reflexivity.
Qed.

Lemma install_frame_without_yield cfg f :
  existsb (calls Y) (finsts f) = false ->
  headers (install_frame cfg Y GC NR f) = headers f /\
  exists subs,
    Forall (fun s => (exists k, fst s = Reg k) /\ exists k, snd s = Reg k) subs /\
    Forall2 (handle_replaced GC subs)
            (finsts f) (finsts (install_frame cfg Y GC NR f)).
Proof.
  intros Hex. unfold install_frame. rewrite Hex. cbn [negb].
  destruct (use_parent_handle_spec GC (flatten (fblocks f)) (fnext f))
    as [H1 [H2 [H3 H4]]].
  destruct (use_parent_handle GC (fnext f) (flatten (fblocks f)))
    as [[body subs] n]. cbn [fst snd] in *.
  rewrite headers_unflatten, replace_all_imap, item_headers_imap, H1,
    item_headers_flatten.
  split; [reflexivity|]. exists subs. split; [exact H3|].
  rewrite finsts_unflatten by (apply headed_imap, H2, flatten_headed).
  rewrite items_insts_imap. rewrite items_insts_flatten in H4.
  fold (finsts f) in H4.
  assert (Hs : Forall (fun s : value * value => exists k, fst s = Reg k) subs).
  { eapply Forall_impl; [|exact H3]. intros a [Ha _]. exact Ha. }
  clear - H4 Hs. induction H4 as [|i i' l l' Hi _ IH]; simpl; constructor; auto.
  unfold handle_replaced. destruct (calls GC i); [|congruence].
  destruct Hi as [k [-> Hin]]. exists k. split; auto.
  apply replace_regs_no_reg; auto.
  intros k' [E | []]. discriminate E.
Qed.

Lemma calls_replace_regs s subs i :
  Forall (fun p : value * value => (exists k, fst p = Reg k) /\ exists k, snd p = Reg k)
         subs ->
  calls (Fn s) (replace_regs subs i) = calls (Fn s) i.
Proof.
  intros H. unfold replace_regs. revert i.
  induction H as [|p subs [[k Hk] [k' Hk']] _ IH]; intros i; simpl; auto.
  rewrite IH, Hk, Hk'. apply calls_subst_eq. discriminate.
Qed.

Lemma install_frame_without_yield_calls cfg f s :
  existsb (calls Y) (finsts f) = false ->
  s <> "runtime.getParentHandle" ->
  Forall (no_call (Fn s)) (finsts f) ->
  Forall (no_call (Fn s)) (finsts (install_frame cfg Y GC NR f)).
Proof.
  intros Hex Hs Hno.
  destruct (install_frame_without_yield cfg f Hex) as [_ [subs [Hsubs H2]]].
  clear Hex. revert Hno.
  induction H2 as [|i i' l l' Hi _ IH]; intros Hno; constructor.
  - unfold handle_replaced in Hi. inversion Hno; subst.
    destruct (calls GC i).
    + destruct Hi as [k [-> _]]. unfold no_call.
      change (createRuntimeCall k "getParentHandle" [] "") with
        (CreateCall k (runtime_ret "getParentHandle")
                    (Fn "runtime.getParentHandle") [] "").
      rewrite calls_CreateCall. apply value_eqb_neq. congruence.
    + subst i'. unfold no_call. rewrite calls_replace_regs; auto.
  - apply IH. inversion Hno; auto.
Qed.

(** The operands of the calls of the intrinsics. *)

Lemma is_coro_call_spec i :
  is_coro_call i = true <-> exists s, In s coro_intrinsics /\ calls (Fn s) i = true.
Proof. unfold is_coro_call. apply existsb_exists. Qed.

Lemma no_coro_fresh n i :
  (forall s, In s coro_intrinsics -> no_call (Fn s) i) -> coro_fresh n i.
Proof.
  intros H Hc. apply is_coro_call_spec in Hc. destruct Hc as [s [Hs Hc]].
  rewrite (H s Hs) in Hc. discriminate.
Qed.

Lemma is_coro_subst k new i :
  (forall s, new <> Fn s) ->
  is_coro_call (subst_instr (Reg k) new i) = is_coro_call i.
Proof.
  intros H. unfold is_coro_call.
  induction coro_intrinsics as [|s l IH]; simpl; auto.
  rewrite IH, calls_subst_eq; auto.
Qed.

Lemma coro_fresh_subst n k new i :
  frame_value n new -> (forall s, new <> Fn s) ->
  coro_fresh n i -> coro_fresh n (subst_instr (Reg k) new i).
Proof.
  intros Hk Hn H Hc. rewrite is_coro_subst in Hc by exact Hn.
  specialize (H Hc). simpl. apply Forall_map.
  eapply Forall_impl; [|exact H]. intros v Hv. unfold subst_value.
  destruct (value_eqb v (Reg k)); auto.
Qed.

Ltac fresh_created :=
  unfold coro_fresh; intros Hc; try discriminate Hc;
  repeat (apply Forall_cons || apply Forall_nil); simpl; try lia; auto 10.

Lemma suspend_yields_fresh N frame l : forall n,
  Forall (coro_fresh N) (items_insts l) ->
  Forall (coro_fresh N) (items_insts (fst (suspend_yields Y frame n l))).
Proof.
  induction l as [|[id nm|inst] l IH]; intros n H; simpl.
  - constructor.
  - specialize (IH n H). destruct (suspend_yields Y frame n l). exact IH.
  - simpl in H. inversion H; subst. destruct (calls Y inst).
    + specialize (IH (S (S (S n))) H3).
      destruct (suspend_yields Y frame (S (S (S n))) l). simpl in *.
      constructor; [fresh_created|]. constructor; [fresh_created|]. exact IH.
    + specialize (IH n H3). destruct (suspend_yields Y frame n l). simpl in *.
      constructor; auto.
Qed.

Lemma frame_prelude_fresh N cfg n :
  N <= n -> Forall (coro_fresh N) (fst (frame_prelude cfg n)).
Proof.
  intros Hn. unfold frame_prelude. cbn [fst].
  destruct (uintptrSize cfg <? 4); [|destruct (4 <? uintptrSize cfg)];
    destruct (needsStackObjects cfg);
    repeat (apply Forall_cons || apply Forall_nil); fresh_created.
Qed.

Lemma frame_blocks_fresh N f n frame :
  N <= n -> taskHandle frame = Reg (9 + n) ->
  Forall (coro_fresh N) (items_insts (frame_blocks f n frame)).
Proof.
  intros Hn Ht. unfold frame_blocks, CreateRetUndef. rewrite Ht. cbn [items_insts].
  destruct (IsVoid (fret f));
    repeat (apply Forall_cons || apply Forall_nil); fresh_created.
Qed.

Lemma ditch_norets_fresh N frame l : forall n q,
  Forall (coro_fresh N) (items_insts l) ->
  Forall (coro_fresh N) (items_insts (fst (fst (ditch_norets GC NR frame n q l)))).
Proof.
  induction l as [|[id nm|inst] l IH]; intros n q H; simpl.
  - constructor.
  - specialize (IH n false H).
    destruct (ditch_norets GC NR frame n false l) as [[r' subs] n']. exact IH.
  - simpl in H. inversion H; subst.
    specialize (IH (if calls NR inst then S n else n) (calls NR inst) H3).
    destruct (ditch_norets GC NR frame (if calls NR inst then S n else n)
                (calls NR inst) l) as [[r' subs] n'].
    simpl in *. rewrite !items_insts_app. apply Forall_app. split.
    { destruct (calls NR inst); simpl; constructor; [fresh_created | constructor]. }
    apply Forall_app. split; auto.
    destruct (q || calls GC inst || calls NR inst); simpl; constructor; auto.
Qed.

Lemma replace_all_fresh N k' subs : forall l,
  N <= k' -> Forall (handle_sub (Reg k')) subs ->
  Forall (coro_fresh N) (items_insts l) ->
  Forall (coro_fresh N) (items_insts (replace_all subs l)).
Proof.
  unfold replace_all. intros l Hk Hs. revert l.
  induction Hs as [|[a b] subs [[k Ha] Hb] _ IH]; intros l H; simpl; auto.
  apply IH. rewrite items_insts_imap. apply Forall_map.
  eapply Forall_impl; [|exact H]. intros i Hi. simpl in Ha, Hb. subst a b.
  apply coro_fresh_subst; auto. intros; discriminate.
Qed.

(** After the frame installation the operands of the intrinsics are the
    values the installation has defined. *)
Lemma install_frame_fresh cfg f :
  (forall s, In s coro_intrinsics -> Forall (no_call (Fn s)) (finsts f)) ->
  Forall (coro_fresh (fnext f)) (finsts (install_frame cfg Y GC NR f)).
Proof.
  intros Hno.
  assert (Hf : Forall (coro_fresh (fnext f)) (finsts f)).
  { rewrite Forall_forall. intros i Hi. apply no_coro_fresh. intros s Hs.
    specialize (Hno s Hs). rewrite Forall_forall in Hno. auto. }
  destruct (existsb (calls Y) (finsts f)) eqn:Hex.
  - unfold install_frame. rewrite Hex. cbn [negb].
    pose proof (frame_prelude_fresh (fnext f) cfg (fnext f) (le_n _)) as Hpre.
    destruct (frame_prelude_Forall frame_calls (fun _ => false) (fun _ => True)
                (stable_True _ _) (incl_refl _) cfg (fnext f)) as [_ Hth].
    destruct (frame_prelude cfg (fnext f)) as [prelude frame]. cbn [fst snd] in *.
    pose proof (suspend_yields_fresh (fnext f) frame (flatten (fblocks f))
                  (15 + fnext f)) as H1.
    pose proof (suspend_yields_started Y frame (15 + fnext f) (flatten (fblocks f))
                  (flatten_headed _) (existsb_finsts_blocks _ _ Hex)) as [Hh1 Hn1].
    destruct (suspend_yields Y frame (15 + fnext f) (flatten (fblocks f)))
      as [body1 n1]. cbn [fst] in *.
    set (body2 := insert_entry_items prelude body1 ++ frame_blocks f (fnext f) frame).
    destruct (insert_entry_started prelude body1 Hh1 Hn1) as [Hh2 Hn2].
    assert (H2 : Forall (coro_fresh (fnext f)) (items_insts body2)).
    { unfold body2. rewrite items_insts_app, items_insts_insert_entry by auto.
      rewrite !Forall_app. repeat split; auto.
      - apply H1. rewrite items_insts_flatten. exact Hf.
      - apply frame_blocks_fresh; auto. }
    pose proof (ditch_norets_fresh (fnext f) frame body2 n1 false H2) as H3.
    destruct (ditch_norets_Forall [] (fun _ => false) (fun _ => True)
                (stable_True _ _) GC NR frame body2 n1 false) as [_ Hsubs].
    { rewrite Forall_forall. auto. }
    destruct (ditch_norets_started GC NR frame n1 false body2) as [Hh3 _].
    { unfold body2. apply headed_app; auto. }
    { unfold body2. intros E. apply app_eq_nil in E. tauto. }
    destruct (ditch_norets GC NR frame n1 false body2) as [[body3 subs] n2].
    cbn [fst snd] in *.
    rewrite finsts_unflatten by (apply replace_all_started; exact Hh3).
    rewrite Hth in Hsubs.
    apply (replace_all_fresh (fnext f) (9 + fnext f)); auto. lia.
  - rewrite Forall_forall. intros i Hi. apply no_coro_fresh. intros s Hs.
    assert (Hne : s <> "runtime.getParentHandle").
    { simpl in Hs. repeat (destruct Hs as [<- | Hs]; [discriminate|]). destruct Hs. }
    pose proof (install_frame_without_yield_calls cfg f s Hex Hne (Hno s Hs)) as H.
    rewrite Forall_forall in H. apply H; auto.
Qed.

(** The fix-ups and the lowering of the goroutine starts keep the frame. *)

Lemma same_frame_refl f : same_frame f f.
Proof. split; auto. Qed.

Lemma same_frame_trans a b c : same_frame a b -> same_frame b c -> same_frame a c.
Proof.
  intros [H1 H2] [H3 H4]. split; [congruence|].
  intros s Hs. rewrite H4, H2; auto.
Qed.

Lemma headers_filter_insts k f : headers (filter_insts k f) = headers f.
Proof. unfold headers, filter_insts. simpl. rewrite map_map. reflexivity. Qed.

Lemma headers_map_insts g f : headers (map_insts g f) = headers f.
Proof. unfold headers, map_insts. simpl. rewrite map_map. reflexivity. Qed.

Lemma headers_fold_RAUW (new : instr -> value) us : forall f,
  headers (fold_left (fun f u => ReplaceAllUsesWith (Reg (iid u)) (new u) f) us f)
  = headers f.
Proof.
  induction us as [|u us IH]; intros f; simpl; auto.
  rewrite IH. apply headers_map_insts.
Qed.

Lemma filter_filter_length {A} (p k : A -> bool) l :
  (forall a, In a l -> p a = true -> k a = true) ->
  length (filter p (filter k l)) = length (filter p l).
Proof.
  induction l as [|a l IH]; intros H; simpl; auto.
  destruct (k a) eqn:Ek; simpl.
  - destruct (p a); simpl; rewrite IH; auto; intros; apply H; simpl; auto.
  - destruct (p a) eqn:Ep.
    + rewrite H in Ek; simpl; auto. discriminate.
    + apply IH. intros; apply H; simpl; auto.
Qed.

Lemma filter_map_length {A} (p : A -> bool) g l :
  (forall a, p (g a) = p a) -> length (filter p (map g l)) = length (filter p l).
Proof.
  intros H. induction l as [|a l IH]; simpl; auto.
  rewrite H. destruct (p a); simpl; auto.
Qed.

Lemma coro_fresh_no_use n x c :
  coro_fresh n c -> is_coro_call c = true ->
  ~ In x ["runtime.alloc"; "runtime.free"; "runtime.trackPointer"] ->
  ~ In x coro_intrinsics ->
  uses (Fn x) c = false.
Proof.
  intros H Hc H1 H2. specialize (H Hc). apply not_true_iff_false. intros Hu.
  apply existsb_exists in Hu. destruct Hu as [v [Hv E]].
  apply value_eqb_eq in E. subst v. rewrite Forall_forall in H.
  specialize (H _ Hv). unfold frame_value in H. tauto.
Qed.

Lemma coro_fresh_no_reg n k c :
  coro_fresh n c -> is_coro_call c = true -> k < n -> uses (Reg k) c = false.
Proof.
  intros H Hc Hk. specialize (H Hc). apply not_true_iff_false. intros Hu.
  apply existsb_exists in Hu. destruct Hu as [v [Hv E]].
  apply value_eqb_eq in E. subst v. rewrite Forall_forall in H.
  specialize (H _ Hv). simpl in H. lia.
Qed.

(** Erasing instructions that are no calls of an intrinsic. *)
Lemma filter_insts_framed n keep f :
  (forall c, In c (finsts f) -> is_coro_call c = true -> keep c = true) ->
  framed n f ->
  framed n (filter_insts keep f) /\ same_frame f (filter_insts keep f).
Proof.
  intros Hk [H1 H2]. split; [split|split].
  - apply (filter_insts_Forall (inttoptr_below n)). exact H1.
  - apply (filter_insts_Forall (coro_fresh n)). exact H2.
  - apply headers_filter_insts.
  - intros s Hs. unfold count_calls. rewrite finsts_filter_insts.
    apply filter_filter_length. intros a Ha Hc. apply Hk; auto.
    apply is_coro_call_spec. eauto.
Qed.

Lemma erase_user_framed n x f :
  ~ In x ["runtime.alloc"; "runtime.free"; "runtime.trackPointer"] ->
  ~ In x coro_intrinsics ->
  framed n f ->
  framed n (filter_insts (fun i => negb (uses (Fn x) i)) f) /\
  same_frame f (filter_insts (fun i => negb (uses (Fn x) i)) f).
Proof.
  intros H1 H2 Hf. apply filter_insts_framed; auto.
  intros c Hc Hco. apply negb_true_iff.
  destruct Hf as [_ Hf]. rewrite Forall_forall in Hf.
  eapply coro_fresh_no_use; eauto.
Qed.

Lemma fold_RAUW_framed n idx us f :
  framed n f ->
  framed n (fold_left (fun f u => ReplaceAllUsesWith (Reg (iid u)) (Param idx) f)
                      us f) /\
  same_frame f (fold_left (fun f u => ReplaceAllUsesWith (Reg (iid u)) (Param idx) f)
                          us f).
Proof.
  intros [H1 H2]. split; [split|split].
  - apply (fold_RAUW_Forall [] (fun _ => false) (inttoptr_below n)
             (stable_inttoptr_below _ _ _) (fun _ => Param idx)); auto.
    intros; exact I.
  - rewrite (finsts_fold_RAUW (fun _ => Param idx)). apply Forall_map.
    eapply Forall_impl; [|exact H2]. intros a Ha.
    induction us as [|u us IH] in a, Ha |- *; simpl; auto.
    apply IH. apply coro_fresh_subst; auto. exact I. intros; discriminate.
  - apply (headers_fold_RAUW (fun _ => Param idx)).
  - intros s Hs. unfold count_calls.
    rewrite (finsts_fold_RAUW (fun _ => Param idx)).
    apply filter_map_length. intros a.
    apply (calls_fold_subst_eq s (fun _ => Param idx)). intros; discriminate.
Qed.

Lemma rewrite_parent_handle_framed n f f' :
  rewrite_parent_handle (Fn "runtime.getParentHandle") f = Ok f' ->
  framed n f -> framed n f' /\ same_frame f f'.
Proof.
  unfold rewrite_parent_handle. intros H Hf.
  destruct (users_of _ f) as [|u us]; [inversion H; subst; split; auto;
                                        apply same_frame_refl|].
  destruct (LastParam f) as [[idx p]|]; [|discriminate].
  destruct (negb (String.eqb (pname p) "parentHandle")); [discriminate|].
  injection H as <-.
  destruct (erase_user_framed n "runtime.getParentHandle" f) as [A B]; auto.
  { simpl. intros H. repeat (destruct H as [H | H]; [discriminate|]). exact H. }
  { simpl. intros H. repeat (destruct H as [H | H]; [discriminate|]). exact H. }
  destruct (fold_RAUW_framed n idx (u :: us) _ A) as [C D].
  split; [exact C|]. eapply same_frame_trans; eauto.
Qed.

Lemma headers_insert_before rc new f : headers (insert_before rc new f) = headers f.
Proof. unfold headers, insert_before. simpl. rewrite map_map. reflexivity. Qed.

Lemma insert_before_count X rc new f :
  Forall (no_call X) new ->
  count_calls X (insert_before rc new f) = count_calls X f.
Proof.
  intros Hn. unfold count_calls, finsts, insert_before. simpl.
  assert (E : filter (calls X) new = []).
  { induction Hn as [|a l Ha _ IH]; simpl; auto. unfold no_call in Ha.
    rewrite Ha. exact IH. }
  assert (G0 : forall l, filter (calls X) (insert_before_inst rc new l) =
                         filter (calls X) l).
  { induction l as [|a l IH]; simpl; auto.
    destruct (instr_eqb a rc); simpl.
    - rewrite filter_app, E. reflexivity.
    - rewrite IH. reflexivity. }
  f_equal. induction (fblocks f) as [|b r IH]; simpl; auto.
  rewrite !filter_app, G0, IH. reflexivity.
Qed.

Lemma is_coro_call_call c : is_coro_call c = true -> IsACallInst c = true.
Proof.
  intros H. apply is_coro_call_spec in H. destruct H as [s [_ H]].
  apply calls_iff in H. tauto.
Qed.

Lemma erase_framed n x f :
  is_coro_call x = false -> framed n f ->
  framed n (erase x f) /\ same_frame f (erase x f).
Proof.
  intros Hx Hf. unfold erase. apply filter_insts_framed; auto.
  intros c _ Hc. apply negb_true_iff. unfold instr_eqb.
  destruct (instr_eq_dec c x); auto. subst c. congruence.
Qed.

Lemma not_coro_call s i :
  calls (Fn s) i = true -> ~ In s coro_intrinsics -> is_coro_call i = false.
Proof.
  intros H Hs. apply not_true_iff_false. intros Hc.
  apply is_coro_call_spec in Hc. destruct Hc as [s' [Hs' Hc]].
  pose proof (calls_both _ _ _ H Hc) as E. inversion E; subst. contradiction.
Qed.

(** The lowering of a goroutine start keeps the frame of the function. *)
Lemma lower_goroutine_framed n m pnr fake f g f' :
  lower_goroutine m pnr fake f g = Ok f' ->
  spawn_ok (pseudo_functions ++ coro_intrinsics) g ->
  uses (Fn "runtime.makeGoroutine") g = true ->
  framed n f -> framed n f' /\ same_frame f f'.
Proof.
  unfold lower_goroutine. intros H Hsp Hu Hf.
  destruct (Hsp Hu) as [Hcg [s [t [Eop Hbad]]]].
  rewrite Eop in H. cbn [value_operand0] in H.
  destruct (getUses f (Reg (iid g))) as [|i2p [|? ?]] eqn:E1; try discriminate.
  destruct (IsAIntToPtrInst i2p) eqn:Ei; [|discriminate]. cbn [negb] in H.
  destruct (getUses f (Reg (iid i2p))) as [|rc [|? ?]] eqn:E2; try discriminate.
  destruct (negb (IsACallInst rc)); [discriminate|].
  destruct (firstn (OperandsCount rc - 1) (iops rc)) as [|p0 ps]; [discriminate|].
  remember (p0 :: ps) as params.
  destruct (spawn_call m pnr fake (fnext f) (Fn s) params) as [new n'] eqn:Es.
  injection H as <-.
  assert (Hi2p : In i2p (finsts f) /\ uses (Reg (iid g)) i2p = true).
  { apply In_getUses. rewrite E1. simpl. auto. }
  assert (Hrc : In rc (finsts f) /\ uses (Reg (iid i2p)) rc = true).
  { apply In_getUses. rewrite E2. simpl. auto. }
  assert (Hop : iop i2p = IntToPtr) by (apply opcode_eqb_eq; exact Ei).
  destruct Hf as [F1 F2].
  assert (Hrc_no : is_coro_call rc = false).
  { apply not_true_iff_false. intros Hc.
    rewrite Forall_forall in F1, F2.
    rewrite (coro_fresh_no_reg n (iid i2p) rc) in Hrc; auto.
    - destruct Hrc; discriminate.
    - apply F2. tauto.
    - apply F1; tauto. }
  assert (Hi2p_no : is_coro_call i2p = false).
  { apply not_true_iff_false. intros Hc. apply is_coro_call_call in Hc.
    unfold IsACallInst in Hc. rewrite Hop in Hc. discriminate. }
  assert (Hg_no : is_coro_call g = false).
  { eapply not_coro_call; eauto. simpl.
    intros H. repeat (destruct H as [H | H]; [discriminate|]). exact H. }
  assert (Hs_no : ~ In s coro_intrinsics).
  { intros Hs. apply Hbad. apply in_or_app. auto. }
  assert (Hnew : Forall (fun i => is_coro_call i = false /\ iop i = Call) new).
  { unfold spawn_call in Es.
    destruct (parent_not_required_for pnr fake (Fn s)); injection Es as <- _;
      repeat constructor.
    - apply (not_coro_call s); auto. rewrite calls_CreateCall.
      apply value_eqb_refl.
    - apply (not_coro_call s); auto. rewrite calls_CreateCall.
      apply value_eqb_refl. }
  set (f1 := insert_before rc new (set_next f n')).
  assert (A1 : framed n f1 /\ same_frame f f1).
  { split; [split|split].
    - rewrite Forall_forall in *. intros i Hi.
      apply In_insert_before_inv in Hi. destruct Hi as [Hi | Hi]; auto.
      destruct (Hnew i Hi) as [_ Hc]. intros E. congruence.
    - rewrite Forall_forall in *. intros i Hi.
      apply In_insert_before_inv in Hi. destruct Hi as [Hi | Hi]; auto.
      destruct (Hnew i Hi) as [Hc _]. intros E. congruence.
    - exact (headers_insert_before rc new (set_next f n')).
    - intros x Hx. unfold f1. rewrite insert_before_count; [reflexivity|].
      eapply Forall_impl; [|exact Hnew]. intros a [Ha _].
      unfold no_call. apply not_true_iff_false. intros Hc.
      assert (is_coro_call a = true) by (apply is_coro_call_spec; eauto).
      congruence. }
  destruct A1 as [A1 B1].
  destruct (erase_framed n rc f1 Hrc_no A1) as [A2 B2].
  destruct (erase_framed n i2p _ Hi2p_no A2) as [A3 B3].
  destruct (erase_framed n g _ Hg_no A3) as [A4 B4].
  split; [exact A4|].
  eapply same_frame_trans; [exact B1|].
  eapply same_frame_trans; [exact B2|].
  eapply same_frame_trans; [exact B3|exact B4].
Qed.

(** A function through the loops over the module. *)

Lemma lookup_replace_same m f f' :
  lookup_func m (fname f') = Some f ->
  lookup_func (replace_func m f') (fname f') = Some f'.
Proof.
  intros H. unfold replace_func.
  rewrite (lookup_update_same m (fname f') (fun _ => f') f); auto.
Qed.

Lemma lookup_replace_other m f' name :
  name <> fname f' ->
  lookup_func (replace_func m f') name = lookup_func m name.
Proof.
  intros H. unfold replace_func. apply lookup_update_other; auto.
Qed.

Lemma lookup_for_async_other y L step name : forall m,
  (forall m f, fname (step m f) = fname f) -> ~ In name L ->
  lookup_func (for_async y L step m) name = lookup_func m name.
Proof.
  unfold for_async. induction L as [|a L IH]; intros m Hn Hin; simpl; auto.
  rewrite IH; auto; [|intros H; apply Hin; simpl; auto].
  destruct (value_eqb (Fn a) y); auto.
  destruct (lookup_func m a) as [fn|] eqn:E; auto.
  apply lookup_replace_other. rewrite Hn.
  apply lookup_func_In in E. destruct E as [_ ->].
  intros ->. apply Hin. simpl. auto.
Qed.

Lemma lookup_for_async y L g name : forall m f,
  (forall x, fname (g x) = fname x) -> NoDup L -> In name L -> Fn name <> y ->
  lookup_func m name = Some f ->
  lookup_func (for_async y L (fun _ => g) m) name = Some (g f).
Proof.
  induction L as [|a L IH]; intros m f Hn Hd Hin Hy Hl; [destruct Hin|].
  inversion Hd; subst.
  change (for_async y (a :: L) (fun _ => g) m) with
    (for_async y L (fun _ => g)
       (if value_eqb (Fn a) y then m
        else match lookup_func m a with
             | Some fn => replace_func m (g fn)
             | None => m
             end)).
  destruct (string_dec a name) as [-> | Hne].
  - rewrite lookup_for_async_other; auto.
    destruct (value_eqb (Fn name) y) eqn:E;
      [apply value_eqb_eq in E; contradiction|].
    rewrite Hl.
    pose proof (lookup_func_In _ _ _ Hl) as [_ En].
    assert (Eg : fname (g f) = name) by (rewrite Hn; exact En).
    rewrite <- Eg. apply (lookup_replace_same m f). rewrite Eg. exact Hl.
  - destruct Hin as [E | Hin]; [contradiction|].
    apply IH; auto.
    destruct (value_eqb (Fn a) y); auto.
    destruct (lookup_func m a) as [fn|] eqn:E; auto.
    rewrite lookup_replace_other; auto. rewrite Hn.
    apply lookup_func_In in E. destruct E as [_ ->]. auto.
Qed.

Lemma lookup_add_coro m name f :
  lookup_func m name = Some f ->
  lookup_func (add_coro_intrinsics m) name = Some f.
Proof.
  unfold lookup_func, add_coro_intrinsics. simpl.
  induction (mfuncs m) as [|a l IH]; simpl; [discriminate|].
  destruct (String.eqb (fname a) name); auto.
Qed.

Lemma lookup_Forall2 (R : func -> func -> Prop) l l' cs cs' name f :
  (forall a b, R a b -> fname b = fname a) -> Forall2 R l l' ->
  lookup_func (mkModule l cs) name = Some f ->
  exists f', lookup_func (mkModule l' cs') name = Some f' /\ R f f'.
Proof.
  unfold lookup_func. simpl. intros Hn H. induction H as [|a b l l' Hab _ IH];
    simpl; [discriminate|].
  rewrite (Hn _ _ Hab). destruct (String.eqb (fname a) name).
  - intros E. inversion E; subst. eauto.
  - exact IH.
Qed.

Lemma lookup_rewrite_parent_handles gph m m6 name f :
  rewrite_parent_handles gph m = Ok m6 ->
  lookup_func m name = Some f ->
  exists f6, lookup_func m6 name = Some f6 /\ rewrite_parent_handle gph f = Ok f6.
Proof.
  intros H Hl. apply rewrite_parent_handles_Forall2 in H.
  destruct m as [fs cs], m6 as [fs6 cs6]. simpl in H.
  apply (lookup_Forall2 (fun f f' => rewrite_parent_handle gph f = Ok f')
           fs fs6 cs cs6 name f); auto.
  intros a b. apply rewrite_parent_handle_name.
Qed.

Lemma lookup_ditch_attrs L : forall m name f,
  lookup_func m name = Some f ->
  exists f', lookup_func (ditch_attrs L m) name = Some f' /\
             fblocks f' = fblocks f.
Proof.
  unfold ditch_attrs. generalize ("runtime.setTaskStatePtr" :: L). intros l.
  induction l as [|a l IH]; intros m name f H; simpl; eauto.
  destruct (string_dec name a) as [-> | Hne].
  - destruct (IH (update_func m a strip_attrs) a (strip_attrs f)) as [f' [H1 H2]].
    + apply lookup_update_same; auto.
    + exists f'. auto.
  - apply IH. rewrite lookup_update_other; auto.
Qed.

Lemma lookup_eliminate_noret s m m8 name f :
  eliminate_noret (Fn s) m = Ok m8 ->
  lookup_func m name = Some f ->
  lookup_func m8 name = Some (filter_insts (fun i => negb (uses (Fn s) i)) f).
Proof.
  unfold eliminate_noret. simpl. intros H Hl.
  destruct (const_users m (Fn s)); [|discriminate].
  inversion H; subst. unfold lookup_func in *. simpl.
  induction (mfuncs m) as [|a l IH]; simpl in *; [discriminate|].
  destruct (String.eqb (fname a) name); auto. inversion Hl; subst. reflexivity.
Qed.

Lemma lower_goroutines_lookup (Q : func -> Prop) pnr fake us : forall m m',
  (forall m0 f parent g f',
     In (parent, g) us -> Q f ->
     lower_goroutine m0 pnr fake f g = Ok f' -> Q f') ->
  lower_goroutines pnr fake m us = Ok m' ->
  forall name f, lookup_func m name = Some f -> Q f ->
                 exists f', lookup_func m' name = Some f' /\ Q f'.
Proof.
  induction us as [|[parent g] us IH]; intros m m' Hq H name f Hl HQ; simpl in H.
  - inversion H; subst. eauto.
  - assert (Hq' : forall m0 f parent g f',
               In (parent, g) us -> Q f ->
               lower_goroutine m0 pnr fake f g = Ok f' -> Q f').
    { intros m0 f0 p0 g0 f0' Hin. apply (Hq m0 f0 p0). right. exact Hin. }
    destruct (lookup_func m parent) as [fp|] eqn:E.
    + destruct (lower_goroutine m pnr fake fp g) as [f''|e|e] eqn:El;
        simpl in H; try discriminate.
      pose proof (lower_goroutine_insts _ _ _ _ _ _ El) as [En _].
      pose proof (lookup_func_In _ _ _ E) as [_ Ep].
      destruct (string_dec name parent) as [-> | Hne].
      * rewrite Hl in E. inversion E; subst fp.
        apply (IH _ _ Hq' H parent f'').
        -- assert (Eg : fname f'' = parent) by congruence.
           rewrite <- Eg. apply (lookup_replace_same m f).
           rewrite Eg. exact Hl.
        -- apply (Hq m f parent g f''); simpl; auto.
      * apply (IH _ _ Hq' H name f); auto.
        rewrite lookup_replace_other; auto. congruence.
    + apply (IH _ _ Hq' H name f); auto.
Qed.

Lemma lowerMakeGoroutineCalls_lookup (Q : func -> Prop) pnr m m' :
  (forall m0 f parent g f',
     In (parent, g) (inst_users m (Fn "runtime.makeGoroutine")) -> Q f ->
     lower_goroutine m0 pnr (NamedFunction m "runtime.fakeCoroutine") f g = Ok f' ->
     Q f') ->
  lowerMakeGoroutineCalls pnr m = Ok m' ->
  forall name f, lookup_func m name = Some f -> Q f ->
                 exists f', lookup_func m' name = Some f' /\ Q f'.
Proof.
  unfold lowerMakeGoroutineCalls. intros Hq H.
  destruct (SchedulerFacts.NamedFunction_cases m "runtime.makeGoroutine") as [E | E];
    rewrite E in H; simpl in H.
  - inversion H; subst. eauto.
  - destruct (const_users m (Fn "runtime.makeGoroutine")); [|discriminate].
    eapply lower_goroutines_lookup; eauto.
Qed.

Lemma reactivate_returns_name nr f : fname (reactivate_returns nr f) = fname f.
Proof.
  unfold reactivate_returns.
  destruct (reactivate_blocks nr f (mkReact Nil [] (fnext f)) (fblocks f)).
  reflexivity.
Qed.

Lemma same_blocks_framed n f f' :
  fblocks f' = fblocks f -> framed n f -> framed n f' /\ same_frame f f'.
Proof.
  intros E [H1 H2]. unfold framed, same_frame, headers, count_calls, finsts.
  rewrite E. auto.
Qed.

Lemma count_calls_pos g f :
  0 < count_calls g f <-> existsb (calls g) (finsts f) = true.
Proof.
  unfold count_calls. induction (finsts f) as [|a l IH]; simpl.
  - split; [lia | discriminate].
  - destruct (calls g a); simpl; [split; auto; lia | exact IH].
Qed.

Lemma count_calls_zero g f :
  count_calls g f = 0 <-> existsb (calls g) (finsts f) = false.
Proof.
  pose proof (count_calls_pos g f) as H.
  destruct (existsb (calls g) (finsts f)); split; intros E; auto;
    try discriminate.
  - assert (0 < count_calls g f) by (apply H; auto). lia.
  - destruct (count_calls g f); auto.
    assert (true = false) by (symmetry; apply H; lia). discriminate.
Qed.

Lemma not_in_pass_calls_coro s : In s coro_intrinsics -> ~ In s pass_calls.
Proof.
  intros Hs H. simpl in Hs.
  repeat (destruct Hs as [<- | Hs];
          [simpl in H; repeat (destruct H as [H | H]; [discriminate|]); exact H|]).
  destruct Hs.
Qed.

Lemma no_use_calls s l : Forall (no_use (Fn s)) l -> Forall (no_call (Fn s)) l.
Proof.
  intros H. eapply Forall_impl; [|exact H]. intros a.
  apply PseudoFacts.no_use_no_call.
Qed.

(** The function [name] from the tail-yield elimination to the end of the
    pass. *)
Lemma frame_kept cfg asyncList m m' name f3 f' :
  frame_input m ->
  NamedFunction m yieldName = Y ->
  find_async m = Some (Ok asyncList) ->
  transform_async cfg Y asyncList m = Ok m' ->
  Async m name -> name <> yieldName ->
  lookup_func (tail_yields_ditched Y asyncList m) name = Some f3 ->
  lookup_func m' name = Some f' ->
  let f4 := reactivate_returns NR f3 in
  let f5 := install_frame cfg Y GC NR f4 in
  lookup_func (reactivations_generated Y asyncList m) name = Some f4 /\
  lookup_func (frames_installed cfg Y asyncList m) name = Some f5 /\
  guarded_func f4 = true /\
  (forall s, In s coro_intrinsics -> Forall (no_call (Fn s)) (finsts f4)) /\
  same_frame f5 f'.
Proof.
  intros [[Hgc0 Hgph0 Hnr0 Hmg Hsp] Hnrd Hnc Hgd Hids] Hy Hf Ht Ha Hne H3 Hl f4 f5.
  apply PseudoFacts.declared in Hgc0. apply PseudoFacts.declared in Hgph0.
  apply PseudoFacts.declared in Hnr0.
  assert (HyN : NamedFunction m yieldName <> Nil) by (rewrite Hy; discriminate).
  destruct (PseudoFacts.find_async_Ok m asyncList HyN Hf) as [Hnd HA].
  assert (Hin : In name asyncList) by (apply HA; exact Ha).
  assert (HyF : Fn name <> Y) by congruence.
  assert (HmgA : ~ In "runtime.makeGoroutine" asyncList).
  { rewrite HA. apply PseudoFacts.declaration_not_async; [discriminate | exact Hmg]. }
  assert (HnrA : ~ In "runtime.noret" asyncList).
  { rewrite HA. apply PseudoFacts.declaration_not_async; [discriminate | exact Hnrd]. }
  (* the function at the time of the frame installation *)
  assert (L4 : lookup_func (reactivations_generated Y asyncList m) name = Some f4).
  { unfold reactivations_generated. rewrite Hnr0.
    apply lookup_for_async; auto. intros; apply reactivate_returns_name. }
  assert (L5 : lookup_func (frames_installed cfg Y asyncList m) name = Some f5).
  { unfold frames_installed. rewrite Hnr0, Hgc0.
    apply lookup_for_async; auto; [intros; apply install_frame_name|].
    apply lookup_add_coro. exact L4. }
  pose proof (lookup_func_In _ _ _ L4) as [In4 _].
  assert (G4 : guarded_func f4 = true).
  { pose proof (reactivations_generated_guarded asyncList m Hnr0 HnrA Hgd) as H.
    rewrite Forall_forall in H. auto. }
  assert (I4 : Forall (inttoptr_below (fnext f4)) (finsts f4)).
  { pose proof (reactivations_generated_ids asyncList m Hids) as H.
    rewrite Forall_forall in H. auto. }
  assert (C4 : forall s, In s coro_intrinsics -> Forall (no_call (Fn s)) (finsts f4)).
  { intros s Hs. apply no_use_calls.
    pose proof (reactivations_generated_Forall pass_calls (fun _ => true)
                  (no_use (Fn s)) Y asyncList
                  (stable_no_use s pass_calls _ (not_in_pass_calls_coro s Hs))
                  (incl_refl _) (fun _ _ => eq_refl) m (Hnc s Hs)) as H.
    rewrite Forall_forall in H. auto. }
  assert (F5 : framed (fnext f4) f5).
  { split.
    - apply (install_frame_Forall frame_calls (fun _ => false) _
               (stable_inttoptr_below _ _ _) Y (incl_refl _)).
      rewrite Forall_forall in I4. auto.
    - apply install_frame_fresh. exact C4. }
  (* the fix-ups *)
  destruct (transform_async_Ok _ _ _ _ _ Ht)
    as [_ [m6 [pnr [m8 [H6 [_ [H8 Hlow]]]]]]].
  rewrite Hgph0 in H6. rewrite Hnr0 in H8.
  destruct (lookup_rewrite_parent_handles _ _ _ _ _ H6 L5) as [f6 [L6 R6]].
  destruct (rewrite_parent_handle_framed _ _ _ R6 F5) as [F6 S6].
  destruct (lookup_ditch_attrs asyncList m6 name f6 L6) as [f7 [L7 E7]].
  destruct (same_blocks_framed _ _ _ E7 F6) as [F7 S7].
  pose proof (lookup_eliminate_noret _ _ _ _ _ H8 L7) as L8.
  destruct (erase_user_framed (fnext f4) "runtime.noret" f7) as [F8 S8]; auto.
  { simpl. intros H. repeat (destruct H as [H | H]; [discriminate|]). exact H. }
  { simpl. intros H. repeat (destruct H as [H | H]; [discriminate|]). exact H. }
  (* the goroutine starts *)
  pose proof (PseudoFacts.spawns_kept (pseudo_functions ++ coro_intrinsics)
                cfg asyncList m m6 m8 _ _ HmgA H6 H8 Hsp) as Hs8.
  destruct (lowerMakeGoroutineCalls_lookup
              (fun x => framed (fnext f4) x /\
                        same_frame (filter_insts
                                      (fun i => negb (uses NR i)) f7) x)
              pnr m8 m') with (name := name)
      (f := filter_insts (fun i => negb (uses NR i)) f7)
    as [f'' [L' [_ S']]]; auto.
  { intros m0 f parent g f0 Hg [Q1 Q2] Hlg.
    apply WorklistFacts.In_inst_users in Hg.
    destruct Hg as [fn [Hfn [_ [Hg Hu]]]].
    rewrite Forall_forall in Hs8. specialize (Hs8 fn Hfn).
    rewrite Forall_forall in Hs8. specialize (Hs8 g Hg).
    destruct (lower_goroutine_framed _ _ _ _ _ _ _ Hlg Hs8 Hu Q1) as [Q3 Q4].
    split; auto. eapply same_frame_trans; eauto. }
  { split; auto. apply same_frame_refl. }
  rewrite Hl in L'. inversion L'; subst f''.
  repeat split; auto.
  - destruct S6 as [A _], S7 as [B _], S8 as [C _], S' as [D _]. congruence.
  - intros s Hs.
    destruct S6 as [_ A], S7 as [_ B], S8 as [_ C], S' as [_ D].
    rewrite D, C, B, A; auto.
Qed.

(** C3. In a module that fits the input of the frame installation, when
    the pass finds a scheduler needed and succeeds, let [f3] be an async
    function other than [yield] after the tail-yield elimination and [f4]
    the function after the reactivation of its returns, at the time the
    frames are installed.  If [f4] has a [yield] call, then after the pass the
    function has exactly one call of each of [llvm.coro.id],
    [llvm.coro.begin], [llvm.coro.end] and [llvm.coro.free], and as many
    calls of [llvm.coro.suspend] as [f3] has [yield] calls.  If [f4] has no
    [yield] call, the frame installation leaves its blocks as they are and
    turns each [getCoroutine] call into a [getParentHandle] call whose result
    replaces the former's; after the pass the function has the same blocks
    and no call of an intrinsic. *)
Theorem coroutine_frames (cfg : config) (m m' : module) (asyncList : list string)
        (name : string) (f3 f' : func) :
  frame_input m ->
  markAsyncFunctions cfg m = Some (Ok (true, m')) ->
  find_async m = Some (Ok asyncList) ->
  Async m name -> name <> yieldName ->
  lookup_func (tail_yields_ditched (Fn yieldName) asyncList m) name = Some f3 ->
  lookup_func m' name = Some f' ->
  let getCoroutine := Fn "runtime.getCoroutine" in
  let noret := Fn "runtime.noret" in
  let f4 := reactivate_returns noret f3 in
  let f5 := install_frame cfg (Fn yieldName) getCoroutine noret f4 in
  lookup_func (reactivations_generated (Fn yieldName) asyncList m) name = Some f4 /\
  lookup_func (frames_installed cfg (Fn yieldName) asyncList m) name = Some f5 /\
  (0 < count_calls (Fn yieldName) f4 ->
   count_calls coroIdFunc f' = 1 /\
   count_calls coroBeginFunc f' = 1 /\
   count_calls coroEndFunc f' = 1 /\
   count_calls coroFreeFunc f' = 1 /\
   count_calls coroSuspendFunc f' = count_calls (Fn yieldName) f3) /\
  (count_calls (Fn yieldName) f4 = 0 ->
   headers f5 = headers f4 /\
   (exists subs,
      Forall (fun s => (exists k, fst s = Reg k) /\ exists k, snd s = Reg k) subs /\
      Forall2 (handle_replaced getCoroutine subs) (finsts f4) (finsts f5)) /\
   headers f' = headers f4 /\
   forall s, In s coro_intrinsics -> count_calls (Fn s) f' = 0).
Proof.
  intros Hin Hm Hf Ha Hne H3 Hl getCoroutine noret f4 f5.
  destruct (PseudoFacts.markAsyncFunctions_true _ _ _ Hm) as [Hy [A [Hf' Ht]]].
  rewrite Hf in Hf'. inversion Hf'; subst A. clear Hf'.
  destruct (frame_kept cfg asyncList m m' name f3 f' Hin Hy Hf Ht Ha Hne H3 Hl)
    as [L4 [L5 [G4 [C4 [Sh Sc]]]]].
  subst f5 f4 getCoroutine noret.
  split; [exact L4|]. split; [exact L5|]. split.
  - intros Hpos. apply count_calls_pos in Hpos.
    destruct (install_frame_counts cfg _ G4 C4 Hpos) as [K1 [K2 [K3 [K4 K5]]]].
    unfold coroIdFunc, coroBeginFunc, coroEndFunc, coroFreeFunc, coroSuspendFunc
      in *.
    rewrite !Sc by (simpl; auto 10).
    rewrite K1, K2, K3, K4, K5.
    repeat split; auto. apply reactivate_returns_yields.
  - intros Hz. apply count_calls_zero in Hz.
    destruct (install_frame_without_yield cfg _ Hz) as [Hh Hsubs].
    split; [exact Hh|]. split; [exact Hsubs|]. split; [congruence|].
    intros s Hs. rewrite Sc by exact Hs.
    apply no_call_count. apply install_frame_without_yield_calls; auto.
    simpl in Hs. repeat (destruct Hs as [<- | Hs]; [discriminate|]). destruct Hs.
Qed.

End FrameFacts.

(** ** The stages of the pass and their steps *)

Module PassFacts.
Import Lowering.

Local Abbreviation Y := (Fn yieldName).

Lemma ditch_tail_yields_name yield noret f :
  fname (ditch_tail_yields yield noret f) = fname f.
Proof.
  unfold ditch_tail_yields. destruct (scan_yields _ _ _ _ _); auto.
  destruct (ditch_blocks _ _ _). reflexivity.
Qed.

(** The async functions of the module, as the worklist returns them. *)
Lemma async_listed m asyncList name :
  NamedFunction m yieldName <> Nil ->
  find_async m = Some (Ok asyncList) ->
  Async m name -> name <> yieldName ->
  NoDup asyncList /\ In name asyncList /\ Fn name <> Y.
Proof.
  intros Hy Hf Ha Hne.
  destruct (PseudoFacts.find_async_Ok m asyncList Hy Hf) as [Hnd HA].
  split; [exact Hnd|]. split; [apply HA; exact Ha|]. congruence.
Qed.

(** C8. Tail-yield elimination is all or nothing for each async function
    of the module.  The stage "ditch unnecessary tail yields" puts, for
    every async function other than [yield], the result of the elimination
    in the place of the function as the call rewriting left it, and leaves
    the other functions as they are.  The test of the code is the rule of
    the specification: a yield is ditchable exactly when a [noret] call or a
    return of a void function follows it.  If every yield of the function is
    ditchable, the blocks of the result are the blocks of the function with
    every yield removed, a [noret] call in place of each yield that preceded
    a return, and no call of [yield] is left; if some yield is not
    ditchable, the function is unchanged. *)
Theorem tail_yields_all_or_nothing (m : module) (asyncList : list string)
        (name : string) (f2 : func) :
  NamedFunction m yieldName <> Nil ->
  find_async m = Some (Ok asyncList) ->
  Async m name -> name <> yieldName ->
  lookup_func (calls_rewritten Y asyncList m) name = Some f2 ->
  let noret := NamedFunction m "runtime.noret" in
  let f3 := ditch_tail_yields Y noret f2 in
  lookup_func (tail_yields_ditched Y asyncList m) name = Some f3 /\
  (forall other, ~ Async m other ->
     lookup_func (tail_yields_ditched Y asyncList m) other =
     lookup_func (calls_rewritten Y asyncList m) other) /\
  (forall next, ditchable noret (fret f2) next = true <->
                spec_ditchable noret f2 next) /\
  ((forall y next, yield_at Y f2 y next -> spec_ditchable noret f2 next) ->
   Forall2 (fun b b' => bid b' = bid b /\ bname b' = bname b /\
                        ditched Y (binsts b) (binsts b'))
           (fblocks f2) (fblocks f3) /\
   forall i, In i (finsts f3) -> calls Y i = false) /\
  ((exists y next, yield_at Y f2 y next /\ ~ spec_ditchable noret f2 next) ->
   f3 = f2).
Proof.
  intros Hy Hf Ha Hne H2 noret f3.
  destruct (async_listed m asyncList name Hy Hf Ha Hne) as [Hnd [Hin HneY]].
  split.
  - unfold tail_yields_ditched.
    apply (FrameFacts.lookup_for_async Y asyncList (ditch_tail_yields Y noret));
      auto.
    intros x. apply ditch_tail_yields_name.
  - split.
    + intros other Hno. unfold tail_yields_ditched.
      apply FrameFacts.lookup_for_async_other.
      * intros m0 f0. apply ditch_tail_yields_name.
      * intros Hi. apply Hno.
        destruct (PseudoFacts.find_async_Ok m asyncList Hy Hf) as [_ HA].
        apply HA. exact Hi.
    + assert (Hnr : Y <> runtime_fn "noret") by discriminate.
      exact (TailYieldFacts.ditch_tail_yields_all_or_nothing Y noret f2 Hnr).
Qed.

(** *** Indefinitely blocking functions *)

Lemma inject_noret_name yield f : fname (inject_noret yield f) = fname f.
Proof.
  unfold inject_noret.
  destruct (break_blocks yield (fret f) (fnext f) (fblocks f)) as [[bs del] n].
  rewrite NonReturningFacts.undef_deleted_map. reflexivity.
Qed.

(** Whether the loop marks the function [f], of the name [name]. *)
Local Abbreviation marks yield gc A L name f :=
  (existsb (String.eqb name) L && negb (value_eqb (Fn name) yield)
   && is_nonReturning yield gc A f).

(** The loop "replace indefinitely blocking yields" over the names [L],
    from the module [m0] and the set [nr0]. *)
Lemma mark_loop yield gc A L : forall m0 nr0,
  NoDup L ->
  let r := fold_left
             (fun (st : module * list string) f =>
                let (m, nonReturning) := st in
                if value_eqb (Fn f) yield then st
                else match lookup_func m f with
                     | Some fn =>
                         if is_nonReturning yield gc A fn
                         then (replace_func m (inject_noret yield fn),
                               f :: nonReturning)
                         else st
                     | None => st
                     end)
             L (m0, nr0) in
  (forall name, In name (snd r) <->
     In name nr0 \/
     exists f, lookup_func m0 name = Some f /\ marks yield gc A L name f = true) /\
  (forall name f, lookup_func m0 name = Some f ->
     lookup_func (fst r) name =
     Some (if marks yield gc A L name f then inject_noret yield f else f)) /\
  (forall name, lookup_func m0 name = None -> lookup_func (fst r) name = None).
Proof.
  induction L as [|a L IH]; intros m0 nr0 Hnd; simpl.
  - split; [|split; auto].
    intros name. split; [auto|]. intros [H | [f [_ H]]]; [exact H | discriminate].
  - inversion Hnd as [|? ? Ha Hnd']; subst.
    assert (Hskip : forall r0,
      r0 = fold_left
             (fun (st : module * list string) f =>
                let (m, nonReturning) := st in
                if value_eqb (Fn f) yield then st
                else match lookup_func m f with
                     | Some fn =>
                         if is_nonReturning yield gc A fn
                         then (replace_func m (inject_noret yield fn),
                               f :: nonReturning)
                         else st
                     | None => st
                     end)
             L (m0, nr0) ->
      (forall f, lookup_func m0 a = Some f ->
                 negb (value_eqb (Fn a) yield) && is_nonReturning yield gc A f
                 = false) ->
      (forall name, In name (snd r0) <->
         In name nr0 \/
         exists f, lookup_func m0 name = Some f /\
                   ((String.eqb name a || existsb (String.eqb name) L)
                    && negb (value_eqb (Fn name) yield)
                    && is_nonReturning yield gc A f) = true) /\
      (forall name f, lookup_func m0 name = Some f ->
         lookup_func (fst r0) name =
         Some (if (String.eqb name a || existsb (String.eqb name) L)
                  && negb (value_eqb (Fn name) yield)
                  && is_nonReturning yield gc A f
               then inject_noret yield f else f)) /\
      (forall name, lookup_func m0 name = None -> lookup_func (fst r0) name = None)).
    { intros r0 -> Hno. destruct (IH m0 nr0 Hnd') as [I1 [I2 I3]].
      assert (Hsame : forall name f, lookup_func m0 name = Some f ->
                ((String.eqb name a || existsb (String.eqb name) L)
                 && negb (value_eqb (Fn name) yield)
                 && is_nonReturning yield gc A f)
                = (existsb (String.eqb name) L
                   && negb (value_eqb (Fn name) yield)
                   && is_nonReturning yield gc A f)).
      { intros name f Hl. destruct (String.eqb name a) eqn:E; simpl; auto.
        apply String.eqb_eq in E. subst name.
        specialize (Hno f Hl).
        assert (Hn : existsb (String.eqb a) L = false)
          by (apply WorklistFacts.existsb_eqb_not_In; exact Ha).
        rewrite Hn. simpl. exact Hno. }
      split; [|split; auto].
      - intros name. rewrite I1. split; intros [H | [f [Hl H]]]; auto;
          right; exists f; split; auto; rewrite Hsame in *; auto.
      - intros name f Hl. rewrite (I2 name f Hl), (Hsame name f Hl). reflexivity. }
    destruct (value_eqb (Fn a) yield) eqn:Ey.
    { apply Hskip; [reflexivity|]. intros f _. try rewrite Ey. reflexivity. }
    destruct (lookup_func m0 a) as [fa|] eqn:Ela.
    2:{ apply Hskip; [reflexivity|]. intros f Hf. discriminate. }
    destruct (is_nonReturning yield gc A fa) eqn:Enr.
    2:{ apply Hskip; [reflexivity|]. intros f Hf. inversion Hf; subst.
        try rewrite Enr. apply andb_false_r. }
    pose proof (StageFacts.lookup_func_In _ _ _ Ela) as [_ Hna].
    assert (Hni : fname (inject_noret yield fa) = a)
      by (rewrite inject_noret_name; exact Hna).
    destruct (IH (replace_func m0 (inject_noret yield fa)) (a :: nr0) Hnd')
      as [I1 [I2 I3]].
    assert (Hother : forall name, name <> a ->
              lookup_func (replace_func m0 (inject_noret yield fa)) name =
              lookup_func m0 name).
    { intros name Hne. apply FrameFacts.lookup_replace_other. congruence. }
    assert (Hself : lookup_func (replace_func m0 (inject_noret yield fa)) a =
                    Some (inject_noret yield fa)).
    { pose proof (FrameFacts.lookup_replace_same m0 fa (inject_noret yield fa))
        as Hs.
      rewrite Hni in Hs. apply Hs. exact Ela. }
    assert (HaL : existsb (String.eqb a) L = false)
      by (apply WorklistFacts.existsb_eqb_not_In; exact Ha).
    split; [|split].
    + intros name. rewrite I1. simpl. split.
      * intros [[<- | H] | [f [Hl H]]]; auto.
        -- right. exists fa. split; auto. rewrite String.eqb_refl.
           try rewrite Ey. try rewrite Enr. reflexivity.
        -- destruct (string_dec name a) as [-> | Hne].
           ++ rewrite HaL in H. discriminate.
           ++ right. exists f. rewrite Hother in Hl by auto. split; auto.
              apply String.eqb_neq in Hne. rewrite Hne. exact H.
      * intros [H | [f [Hl H]]]; auto.
        destruct (string_dec name a) as [-> | Hne]; auto.
        right. exists f. rewrite Hother by auto. split; auto.
        apply String.eqb_neq in Hne. rewrite Hne in H. exact H.
    + intros name f Hl. destruct (string_dec name a) as [-> | Hne].
      * rewrite Ela in Hl. inversion Hl; subst f.
        rewrite (I2 a _ Hself), HaL, String.eqb_refl.
        try rewrite Ey. try rewrite Enr. reflexivity.
      * rewrite <- Hother in Hl by auto. rewrite (I2 name f Hl).
        apply String.eqb_neq in Hne. rewrite Hne. reflexivity.
    + intros name Hl. apply I3. destruct (string_dec name a) as [-> | Hne].
      * congruence.
      * rewrite Hother; auto.
Qed.

(** C5. The loop "replace indefinitely blocking yields" classifies an
    async function other than [yield] as non-returning exactly when it
    calls [yield], does not call [getCoroutine] and calls no other member
    of [A], and it marks no other function.  The module it leaves holds,
    in the place of a function so classified, the function cut by
    [inject_noret], and every other function as it was.  In the function
    cut, a block with a [yield] call is the instructions before its first
    [yield] (their uses of deleted values made undef), a [noret] call and a
    return, of void or of undef of the return type; what followed in the
    block is deleted. *)
Theorem nonReturning_classified_and_cut (m : module) (asyncList : list string)
        (name : string) (f : func) :
  NamedFunction m yieldName <> Nil ->
  find_async m = Some (Ok asyncList) ->
  Async m name -> name <> yieldName ->
  lookup_func m name = Some f ->
  let getCoroutine := NamedFunction m "runtime.getCoroutine" in
  let m1 := fst (mark_nonReturning Y getCoroutine asyncList m) in
  let nonReturning := snd (mark_nonReturning Y getCoroutine asyncList m) in
  (In name nonReturning <-> spec_nonReturning Y getCoroutine asyncList f) /\
  (spec_nonReturning Y getCoroutine asyncList f ->
   lookup_func m1 name = Some (inject_noret Y f)) /\
  (~ spec_nonReturning Y getCoroutine asyncList f ->
   lookup_func m1 name = Some f) /\
  (forall other, ~ Async m other ->
     ~ In other nonReturning /\ lookup_func m1 other = lookup_func m other) /\
  (forall b pre y post,
     In b (fblocks f) -> binsts b = pre ++ y :: post ->
     calls Y y = true -> (forall i, In i pre -> calls Y i = false) ->
     exists b' sigma n,
       In b' (fblocks (inject_noret Y f)) /\ bid b' = bid b /\
       (forall i, iid (sigma i) = iid i /\ iop (sigma i) = iop i /\
                  ity (sigma i) = ity i) /\
       binsts b' = map sigma pre ++
                   [createRuntimeCall n "noret" [] "";
                    if IsVoid (fret f) then CreateRetVoid (S n)
                    else CreateRet (S n) (Undef (fret f))]).
Proof.
  intros Hy Hf Ha Hne Hl getCoroutine m1 nonReturning.
  destruct (async_listed m asyncList name Hy Hf Ha Hne) as [Hnd [Hin HneY]].
  destruct (PseudoFacts.find_async_Ok m asyncList Hy Hf) as [_ HA].
  assert (Hgc : getCoroutine <> Y).
  { subst getCoroutine.
    destruct (SchedulerFacts.NamedFunction_cases m "runtime.getCoroutine")
      as [E | E]; rewrite E; discriminate. }
  destruct (mark_loop Y getCoroutine asyncList asyncList m [] Hnd)
    as [I1 [I2 I3]].
  fold (mark_nonReturning Y getCoroutine asyncList m) in I1, I2, I3.
  fold m1 in I2, I3. fold nonReturning in I1.
  pose proof (NonReturningFacts.is_nonReturning_spec Y getCoroutine asyncList f Hgc)
    as Hspec.
  assert (Hmark : marks Y getCoroutine asyncList asyncList name f =
                  is_nonReturning Y getCoroutine asyncList f).
  { apply WorklistFacts.existsb_eqb_In in Hin. rewrite Hin.
    apply value_eqb_neq in HneY. rewrite HneY. reflexivity. }
  split; [|split; [|split; [|split]]].
  - rewrite I1, <- Hspec. split.
    + intros [[] | [f0 [Hl0 H]]]. rewrite Hl in Hl0. inversion Hl0; subst f0.
      rewrite Hmark in H. exact H.
    + intros H. right. exists f. rewrite Hmark. auto.
  - intros Hs. apply Hspec in Hs. rewrite (I2 name f Hl), Hmark, Hs. reflexivity.
  - intros Hs. rewrite (I2 name f Hl), Hmark.
    destruct (is_nonReturning Y getCoroutine asyncList f) eqn:E; auto.
    exfalso. apply Hs. apply Hspec. reflexivity.
  - intros other Hno.
    assert (Hni : existsb (String.eqb other) asyncList = false).
    { apply WorklistFacts.existsb_eqb_not_In. intros Hi. apply Hno.
      apply HA. exact Hi. }
    split.
    + rewrite I1. intros [[] | [f0 [_ H]]]. rewrite Hni in H. discriminate.
    + destruct (lookup_func m other) as [f0|] eqn:E0.
      * rewrite (I2 other f0 E0), Hni. reflexivity.
      * apply I3. exact E0.
  - exact (proj2 (NonReturningFacts.nonReturning_function
                    Y getCoroutine asyncList f Hgc)).
Qed.

(** *** The walk over the call sites *)

Section Walk.

Variables (m : module) (yield : value) (asyncList nonReturning : list string)
          (f : func).

Local Abbreviation B := (fnext f).
Local Abbreviation step_site := (rewrite_site m nonReturning f).
Local Abbreviation walker := (rewrite_calls).

Lemma imap_id l : imap (fun i => i) l = l.
Proof.
  unfold imap. induction l as [|[id nm|i] l IH]; simpl; rewrite ?IH; auto.
Qed.

Lemma imap_comp g h l : imap g (imap h l) = imap (fun i => g (h i)) l.
Proof.
  unfold imap. rewrite map_map. apply map_ext. intros [id nm|i]; reflexivity.
Qed.

Lemma insert_entry_items_nil l : insert_entry_items [] l = l.
Proof. destruct l as [|[id nm|i] l]; reflexivity. Qed.

Lemma insert_entry_items_twice e1 e2 l :
  insert_entry_items e1 (insert_entry_items e2 l) = insert_entry_items (e1 ++ e2) l.
Proof.
  destruct l as [|[id nm|i] l]; simpl; auto.
  rewrite map_app, app_assoc. reflexivity.
Qed.

Lemma imap_insert_entry g e l :
  imap g (insert_entry_items e l) = insert_entry_items (map g e) (imap g l).
Proof.
  destruct l as [|[id nm|i] l]; simpl; auto.
  unfold imap. rewrite map_app, !map_map. reflexivity.
Qed.

(** What follows the first items stays behind them. *)
Lemma insert_entry_items_app e l r :
  exists x, insert_entry_items e (l ++ r) = insert_entry_items e l ++ x.
Proof.
  destruct l as [|[id nm|i] l]; simpl.
  - exists (insert_entry_items e r). reflexivity.
  - exists r. rewrite app_assoc. reflexivity.
  - exists r. reflexivity.
Qed.

Lemma insert_entry_items_keeps e l r :
  (l = [] -> insert_entry_items e r = r) ->
  exists l', insert_entry_items e (l ++ r) = l' ++ r.
Proof.
  destruct l as [|[id nm|i] l]; simpl; intros H.
  - exists []. apply H. reflexivity.
  - exists (Hdr id nm :: map Ins e ++ l). simpl. rewrite app_assoc. reflexivity.
  - exists (Ins i :: l). reflexivity.
Qed.

(** **** Rewritings that replace old registers *)

Lemma keeps_above_id bound : keeps_above bound (fun i => i).
Proof.
  intros i. repeat split; auto.
  induction (iops i); constructor; auto.
Qed.

Lemma keeps_above_comp bound g h :
  keeps_above bound g -> keeps_above bound h ->
  keeps_above bound (fun i => g (h i)).
Proof.
  intros Hg Hh i.
  destruct (Hh i) as [H1 [H2 [H3 [H4 H5]]]].
  destruct (Hg (h i)) as [G1 [G2 [G3 [G4 G5]]]].
  repeat split; try congruence.
  revert G5. generalize (iops (g (h i))). revert H5. generalize (iops (h i)).
  induction (iops i) as [|v l IH]; intros l1 H5 l2 G5.
  - inversion H5; subst. inversion G5; subst. constructor.
  - inversion H5 as [|? v1 ? l1' Hv Hl]; subst.
    inversion G5 as [|? v2 ? l2' Gv Gl]; subst.
    constructor; [|eapply IH; eauto].
    destruct Hv as [-> | Hv]; auto.
Qed.

Lemma keeps_above_subst bound k new :
  k < bound -> keeps_above bound (subst_instr (Reg k) new).
Proof.
  intros Hk i. unfold subst_instr. simpl. repeat split; auto.
  induction (iops i) as [|v l IH]; simpl; constructor; auto.
  unfold subst_value. destruct (value_eqb v (Reg k)) eqn:E; auto.
  apply value_eqb_eq in E. right. exists k. auto.
Qed.

Lemma keeps_above_fold bound (new : value) l :
  Forall (fun x => iid x < bound) l ->
  keeps_above bound
    (fun i => fold_left (fun i next => subst_instr (Reg (iid next)) new i) l i).
Proof.
  induction 1 as [|x l Hx _ IH]; simpl.
  - apply keeps_above_id.
  - apply (keeps_above_comp bound
             (fun i => fold_left (fun i next => subst_instr (Reg (iid next)) new i)
                                 l i)
             (subst_instr (Reg (iid x)) new)); auto.
    apply keeps_above_subst. exact Hx.
Qed.

(** An instruction whose operands are no registers below [bound] is kept
    as it is. *)
Lemma keeps_above_fixed bound g i :
  keeps_above bound g ->
  (forall k, In (Reg k) (iops i) -> bound <= k) ->
  g i = i.
Proof.
  intros Hg Hi. destruct (Hg i) as [H1 [H2 [H3 [H4 H5]]]].
  assert (E : iops (g i) = iops i).
  { revert Hi H5. generalize (iops (g i)).
    induction (iops i) as [|v l IH]; intros l' Hi H5.
    - inversion H5. reflexivity.
    - inversion H5 as [|? v' ? l'' Hv Hl]; subst. f_equal.
      + destruct Hv as [-> | [k [-> Hk]]]; auto.
        specialize (Hi k (or_introl eq_refl)). lia.
      + apply IH; auto. intros k Hk. apply Hi. simpl. auto. }
  destruct (g i) as [a b c d e], i as [a' b' c' d' e']. simpl in *. congruence.
Qed.

Lemma keeps_above_operand bound g i n :
  keeps_above bound g ->
  (forall k, Operand i n = Reg k -> bound <= k) ->
  n < OperandsCount i ->
  Operand (g i) n = Operand i n.
Proof.
  intros Hg Hi Hn. destruct (Hg i) as [_ [_ [_ [_ H5]]]].
  unfold Operand, OperandsCount in *. revert n Hi Hn H5.
  generalize (iops (g i)).
  induction (iops i) as [|v l IH]; intros l' n Hi Hn H5; simpl in Hn; [lia|].
  inversion H5 as [|? v' ? l'' Hv Hl]; subst.
  destruct n as [|n]; simpl in *.
  - destruct Hv as [-> | [k [-> Hk]]]; auto.
    specialize (Hi k eq_refl). lia.
  - apply IH; auto. lia.
Qed.

Lemma keeps_above_count bound g i :
  keeps_above bound g -> OperandsCount (g i) = OperandsCount i.
Proof.
  intros Hg. destruct (Hg i) as [_ [_ [_ [_ H5]]]].
  unfold OperandsCount. symmetry. eapply Forall2_length. exact H5.
Qed.

Lemma keeps_above_called bound g i s :
  keeps_above bound g -> CalledValue i = Fn s -> CalledValue (g i) = Fn s.
Proof.
  intros Hg Hc. destruct (Hg i) as [_ [_ [_ [_ H5]]]].
  unfold CalledValue in *. revert Hc H5. generalize (iops (g i)).
  induction (iops i) as [|v l IH]; intros l' Hc H5.
  - simpl in Hc. discriminate.
  - inversion H5 as [|? v' ? l'' Hv Hl]; subst.
    destruct l as [|w l].
    + inversion Hl; subst. simpl in *. subst v.
      destruct Hv as [-> | [k [E _]]]; [reflexivity | discriminate].
    + inversion Hl as [|? w' ? l3 Hw Hl3]; subst.
      change (last (v' :: w' :: l3) Nil) with (last (w' :: l3) Nil).
      change (last (v :: w :: l) Nil) with (last (w :: l) Nil) in Hc.
      apply IH; auto.
Qed.

(** **** The instructions still to visit *)

Local Abbreviation old_ids rest :=
  (Forall (fun i => iid i < B) (items_insts rest)).

Lemma length_imap g l : length (imap g l) = length l.
Proof. unfold imap. apply length_map. Qed.

Lemma length_drop_insts l : length (drop_insts l) <= length l.
Proof. induction l as [|[id nm|i] l IH]; simpl; auto. Qed.

Lemma old_ids_imap bound g l :
  keeps_above bound g -> old_ids l -> old_ids (imap g l).
Proof.
  intros Hg H. rewrite items_insts_imap. rewrite Forall_forall in *.
  intros x Hx. apply in_map_iff in Hx. destruct Hx as [y [<- Hy]].
  destruct (Hg y) as [-> _]. auto.
Qed.

Lemma take_insts_old rest : old_ids rest -> Forall (fun i => iid i < B) (take_insts rest).
Proof.
  rewrite (items_take_drop rest), Forall_app. tauto.
Qed.

Lemma rewrite_site_length st inst rest :
  length (snd (step_site st inst rest)) <= length rest.
Proof.
  unfold rewrite_site.
  assert (Hreg : length (snd (rewrite_regular st inst rest)) <= length rest).
  { unfold rewrite_regular. destruct (IsVoid (ity inst)); simpl; auto.
    destruct (existsb _ _); simpl; auto. rewrite length_imap. auto. }
  destruct (classify_site m nonReturning f inst (next_inst rest)); auto.
  - unfold rewrite_blocking. simpl. rewrite length_imap. apply length_drop_insts.
  - destruct (next_inst rest) as [nx|] eqn:E; auto.
    destruct rest as [|[id nm|i] r]; try discriminate. simpl. auto.
Qed.

Lemma rewrite_site_rest st inst rest :
  old_ids (Ins inst :: rest) -> old_ids (snd (step_site st inst rest)).
Proof.
  simpl. intros H. inversion H as [|? ? Hi Hr]; subst.
  unfold rewrite_site.
  assert (Hreg : old_ids (snd (rewrite_regular st inst rest))).
  { unfold rewrite_regular. destruct (IsVoid (ity inst)); simpl; auto.
    destruct (existsb _ _); simpl; auto.
    apply (old_ids_imap B); auto. apply keeps_above_subst. exact Hi. }
  destruct (classify_site m nonReturning f inst (next_inst rest)); auto.
  - unfold rewrite_blocking. simpl.
    apply (old_ids_imap B); [|apply Forall_drop_insts; exact Hr].
    apply keeps_above_fold. apply take_insts_old. exact Hr.
  - destruct (next_inst rest) as [nx|] eqn:E; auto.
    destruct rest as [|[id nm|i] r]; try discriminate.
    simpl in E. injection E as ->. simpl in *.
    inversion Hr; subst. constructor; auto.
    destruct (IsVoid (ity inst)); auto.
Qed.

(** The items passed after the rewriting of a site: those passed before
    it, with old registers replaced and an entry instruction added, and
    then the items of the site. *)
Lemma rewrite_site_done st inst rest :
  old_ids (Ins inst :: rest) ->
  exists g e x, keeps_above B g /\
    s_done (fst (step_site st inst rest)) =
    insert_entry_items e (imap g (s_done st)) ++ x.
Proof.
  simpl. intros H. inversion H as [|? ? Hi Hr]; subst.
  assert (Hplain : forall x,
            exists g e x0, keeps_above B g /\
              s_done st ++ x = insert_entry_items e (imap g (s_done st)) ++ x0).
  { intros x. exists (fun i => i), [], x. split; [apply keeps_above_id|].
    rewrite imap_id, insert_entry_items_nil. reflexivity. }
  unfold rewrite_site.
  assert (Hreg : exists g e x, keeps_above B g /\
            s_done (fst (rewrite_regular st inst rest)) =
            insert_entry_items e (imap g (s_done st)) ++ x).
  { unfold rewrite_regular. destruct (IsVoid (ity inst)); simpl; [apply Hplain|].
    destruct (IsNil (s_retAlloc st)); destruct (existsb _ _); simpl.
    - eexists (subst_instr (Reg (iid inst)) _), _, _.
      split; [apply keeps_above_subst; exact Hi|].
      rewrite imap_app, imap_insert_entry. reflexivity.
    - eexists (fun i => i), _, _. split; [apply keeps_above_id|].
      rewrite imap_id. reflexivity.
    - eexists (subst_instr (Reg (iid inst)) _), [], _.
      split; [apply keeps_above_subst; exact Hi|].
      rewrite imap_app, insert_entry_items_nil. reflexivity.
    - apply Hplain. }
  destruct (classify_site m nonReturning f inst (next_inst rest)); auto.
  - unfold rewrite_blocking. simpl.
    eexists _, [], _. split; [apply keeps_above_fold, take_insts_old; exact Hr|].
    rewrite imap_app, insert_entry_items_nil. reflexivity.
  - destruct (next_inst rest) as [nx|]; auto. simpl. apply Hplain.
Qed.

(** The items passed at the end of the walk, in terms of those passed at
    any state of it. *)
Lemma walk_done : forall fuel st rest,
  old_ids rest ->
  exists g e x, keeps_above B g /\
    s_done (walker fuel m yield asyncList nonReturning f st rest) =
    insert_entry_items e (imap g (s_done st)) ++ x.
Proof.
  induction fuel as [|k IH]; intros st rest Hr.
  - simpl. exists (fun i => i), [], rest. split; [apply keeps_above_id|].
    rewrite imap_id, insert_entry_items_nil. reflexivity.
  - assert (Hpush : forall it r, old_ids r ->
              exists g e x, keeps_above B g /\
                s_done (walker k m yield asyncList nonReturning f (push st it) r) =
                insert_entry_items e (imap g (s_done st)) ++ x).
    { intros it r Hr'. destruct (IH (push st it) r Hr') as [g [e [x [Hg E]]]].
      simpl in E. rewrite imap_app in E.
      destruct (insert_entry_items_app e (imap g (s_done st)) (imap g [it]))
        as [y Ey].
      rewrite Ey, <- app_assoc in E. exists g, e, (y ++ x). auto. }
    destruct rest as [|[id nm|inst] r]; simpl.
    + exists (fun i => i), [], []. split; [apply keeps_above_id|].
      rewrite imap_id, insert_entry_items_nil. reflexivity.
    + apply Hpush. exact Hr.
    + destruct (is_async_call yield asyncList inst) eqn:Ea.
      * destruct (rewrite_site_done st inst r Hr) as [g1 [e1 [x1 [Hg1 E1]]]].
        pose proof (rewrite_site_rest st inst r Hr) as Hr'.
        destruct (step_site st inst r) as [st' rest']. simpl in *.
        destruct (IH st' rest' Hr') as [g [e [x [Hg E]]]].
        rewrite E1, imap_app, imap_insert_entry, imap_comp in E.
        destruct (insert_entry_items_app e
                    (insert_entry_items (map g e1)
                       (imap (fun i => g (g1 i)) (s_done st)))
                    (imap g x1)) as [y Ey].
        rewrite Ey, insert_entry_items_twice, <- app_assoc in E.
        exists (fun i => g (g1 i)), (e ++ map g e1), (y ++ x).
        split; [apply keeps_above_comp; auto | exact E].
      * apply Hpush. simpl in Hr. inversion Hr; auto.
Qed.

(** **** Fuel *)

Lemma walker_fuel : forall fuel1 fuel2 st rest,
  length rest <= fuel1 -> length rest <= fuel2 ->
  walker fuel1 m yield asyncList nonReturning f st rest =
  walker fuel2 m yield asyncList nonReturning f st rest.
Proof.
  induction fuel1 as [|k IH]; intros fuel2 st rest H1 H2.
  - destruct rest; [|simpl in H1; lia]. destruct fuel2; reflexivity.
  - destruct rest as [|it r]; [destruct fuel2; reflexivity|].
    destruct fuel2 as [|k2]; [simpl in H2; lia|]. simpl in *.
    destruct it as [id nm|inst].
    + apply IH; lia.
    + destruct (is_async_call yield asyncList inst).
      * pose proof (rewrite_site_length st inst r) as Hl.
        destruct (step_site st inst r) as [st' rest']. simpl in Hl.
        apply IH; lia.
      * apply IH; lia.
Qed.

(** The walk ends in the same state from each of its states. *)
Lemma walk_final st rest :
  walk m yield asyncList nonReturning f st rest ->
  walker (length (flatten (fblocks f))) m yield asyncList nonReturning f
         (mkSite [] Nil TVoid B) (flatten (fblocks f)) =
  walker (length rest) m yield asyncList nonReturning f st rest.
Proof.
  induction 1 as [|st id nm r _ IH|st inst r _ IH Ha|st inst r _ IH Ha].
  - reflexivity.
  - rewrite IH. reflexivity.
  - rewrite IH. simpl. rewrite Ha. reflexivity.
  - rewrite IH. simpl. rewrite Ha.
    pose proof (rewrite_site_length st inst r) as Hl.
    destruct (step_site st inst r) as [st' rest']. simpl in *.
    apply walker_fuel; lia.
Qed.

(** **** The invariant of the walk *)

Lemma headed_cons_app (d : list item) inst r :
  headed (d ++ Ins inst :: r) -> headed d /\ d <> [].
Proof.
  destruct d as [|[id nm|i] d]; simpl; intros H; try tauto.
  split; [exact I | discriminate].
Qed.

Lemma headed_insert_imap e g d :
  headed d -> d <> [] ->
  headed (insert_entry_items e (imap g d)) /\ insert_entry_items e (imap g d) <> [].
Proof.
  destruct d as [|[id nm|i] d]; simpl; intros H Hn; try tauto.
  split; [exact I | discriminate].
Qed.

Lemma walk_inv st rest :
  ids_below f ->
  walk m yield asyncList nonReturning f st rest ->
  old_ids rest /\ headed (s_done st ++ rest) /\ B <= s_next st.
Proof.
  intros Hids. induction 1 as [|st id nm r _ IH|st inst r _ IH Ha|st inst r _ IH Ha].
  - simpl. rewrite items_insts_flatten. split; [exact Hids|].
    split; [apply flatten_headed | lia].
  - destruct IH as [Hr [Hh Hn]]. simpl in *. rewrite <- app_assoc. auto.
  - destruct IH as [Hr [Hh Hn]]. simpl in *. rewrite <- app_assoc.
    inversion Hr; subst. auto.
  - destruct IH as [Hr [Hh Hn]].
    split; [apply rewrite_site_rest; exact Hr|]. split.
    + destruct (rewrite_site_done st inst r Hr) as [g [e [x [_ E]]]].
      rewrite E. destruct (headed_cons_app _ _ _ Hh) as [Hd Hne].
      destruct (headed_insert_imap e g _ Hd Hne) as [H1 H2].
      rewrite <- app_assoc. apply headed_app; auto.
    + pose proof (FrameFacts.rewrite_site_next m nonReturning f st inst r). lia.
Qed.

End Walk.

(** **** The stage *)

Lemma classify_site_ext ma mb nr f inst next :
  (forall c, return_type ma c = return_type mb c) ->
  classify_site ma nr f inst next = classify_site mb nr f inst next.
Proof. intros H. unfold classify_site. rewrite !H. reflexivity. Qed.

Lemma rewrite_calls_ext ma mb y L nr f :
  (forall c, return_type ma c = return_type mb c) ->
  forall fuel st rest,
    rewrite_calls fuel ma y L nr f st rest = rewrite_calls fuel mb y L nr f st rest.
Proof.
  intros H. induction fuel as [|k IH]; intros st rest; simpl; auto.
  destruct rest as [|[id nm|inst] r]; auto.
  destruct (is_async_call y L inst); auto.
  unfold rewrite_site. rewrite (classify_site_ext ma mb nr f inst _ H).
  destruct (match classify_site mb nr f inst (next_inst r) with
            | BlockingCall => rewrite_blocking f st inst r
            | TailCall => match next_inst r with
                          | Some next => rewrite_tail st inst next r
                          | None => rewrite_regular st inst r
                          end
            | RegularCall => rewrite_regular st inst r
            end) as [st' rest'].
  apply IH.
Qed.

Lemma rewrite_async_calls_ext ma mb y L nr f :
  (forall c, return_type ma c = return_type mb c) ->
  rewrite_async_calls y L nr ma f = rewrite_async_calls y L nr mb f.
Proof.
  intros H. unfold rewrite_async_calls.
  rewrite (rewrite_calls_ext ma mb y L nr f H). reflexivity.
Qed.

Lemma return_type_replace m0 fn g :
  lookup_func m0 (fname fn) = Some fn -> fname g = fname fn -> fret g = fret fn ->
  forall c, return_type (replace_func m0 g) c = return_type m0 c.
Proof.
  intros Hl Hn Hr c. unfold return_type.
  destruct (string_dec (Name c) (fname g)) as [E | E].
  - rewrite E. rewrite (FrameFacts.lookup_replace_same m0 fn g) by congruence.
    rewrite Hn, Hl. exact Hr.
  - rewrite FrameFacts.lookup_replace_other by exact E. reflexivity.
Qed.

(** A loop over the async functions whose step reads the return types of
    the module only. *)
Lemma lookup_for_async_step y L (step : module -> func -> func) name m0 :
  (forall m f, fname (step m f) = fname f) ->
  (forall m f, fret (step m f) = fret f) ->
  (forall ma mb f, (forall c, return_type ma c = return_type mb c) ->
                   step ma f = step mb f) ->
  forall m f,
    NoDup L -> In name L -> Fn name <> y ->
    (forall c, return_type m c = return_type m0 c) ->
    lookup_func m name = Some f ->
    lookup_func (for_async y L step m) name = Some (step m0 f).
Proof.
  intros Hn Hr Hext. induction L as [|a L IH]; intros m f Hd Hin Hy Hrt Hl;
    [destruct Hin|].
  inversion Hd; subst.
  change (for_async y (a :: L) step m) with
    (for_async y L step
       (if value_eqb (Fn a) y then m
        else match lookup_func m a with
             | Some fn => replace_func m (step m fn)
             | None => m
             end)).
  destruct (string_dec a name) as [-> | Hne].
  - rewrite FrameFacts.lookup_for_async_other; auto.
    destruct (value_eqb (Fn name) y) eqn:E;
      [apply value_eqb_eq in E; contradiction|].
    rewrite Hl.
    pose proof (StageFacts.lookup_func_In _ _ _ Hl) as [_ En].
    rewrite (Hext m m0 f Hrt).
    assert (Eg : fname (step m0 f) = name) by (rewrite Hn; exact En).
    pose proof (FrameFacts.lookup_replace_same m f (step m0 f)) as Hs.
    rewrite Eg in Hs. apply Hs. exact Hl.
  - destruct Hin as [E | Hin]; [contradiction|].
    destruct (value_eqb (Fn a) y); [apply IH; auto|].
    destruct (lookup_func m a) as [fn|] eqn:E; [|apply IH; auto].
    pose proof (StageFacts.lookup_func_In _ _ _ E) as [_ En].
    apply IH; auto.
    + intros c. rewrite <- Hrt. apply (return_type_replace m fn).
      * rewrite En. exact E.
      * apply Hn.
      * apply Hr.
    + rewrite FrameFacts.lookup_replace_other; auto. rewrite Hn, En. auto.
Qed.

Lemma SetLastArg_keeps i v :
  iid (SetLastArg i v) = iid i /\ IsACallInst (SetLastArg i v) = IsACallInst i /\
  OperandsCount (SetLastArg i v) = OperandsCount i /\
  CalledValue (SetLastArg i v) = CalledValue i.
Proof.
  unfold SetLastArg. destruct (2 <=? OperandsCount i) eqn:E; [|auto].
  apply Nat.leb_le in E.
  destruct (CallSiteFacts.SetLastArg_spec i v E) as [_ [H1 [H2 [H3 H4]]]].
  unfold SetLastArg in *. apply Nat.leb_le in E. rewrite E in *. auto.
Qed.

(** C6. The stage "convert direct calls into an async call followed by a
    yield operation" puts, for every async function other than [yield], the
    result of the walk over its call sites in the place of the function.  At
    every call site the walk comes to, of an async function that is not
    non-returning, the async tail call is chosen exactly when the next
    instruction is a return, the return is void or returns the value of the
    call, and the return types of the caller and of the callee are the same.
    The function the stage leaves then holds, one after the other in a
    block: a [getParentHandle] call, the call with the result of that call
    as its trailing argument, a [yield] call, a [noret] call, and the
    return, whose operand is undefined when the call has a value; the
    return-value buffer of the function is as it was before the site. *)
Theorem async_tail_call (m : module) (asyncList : list string) (name : string)
        (f1 : func) (st : site_state) (inst : instr) (rest : list item)
        (c : string) :
  NamedFunction m yieldName <> Nil ->
  find_async m = Some (Ok asyncList) ->
  Async m name -> name <> yieldName ->
  let getCoroutine := NamedFunction m "runtime.getCoroutine" in
  let m1 := fst (mark_nonReturning Y getCoroutine asyncList m) in
  let nonReturning := snd (mark_nonReturning Y getCoroutine asyncList m) in
  lookup_func m1 name = Some f1 ->
  ids_below f1 ->
  walk m1 Y asyncList nonReturning f1 st (Ins inst :: rest) ->
  IsACallInst inst = true -> CalledValue inst = Fn c ->
  Async m c -> c <> yieldName -> ~ In c nonReturning ->
  let f2 := rewrite_async_calls Y asyncList nonReturning m1 f1 in
  lookup_func (calls_rewritten Y asyncList m) name = Some f2 /\
  (classify_site m1 nonReturning f1 inst (next_inst rest) = TailCall <->
   spec_tail_call m1 f1 inst (next_inst rest)) /\
  (spec_tail_call m1 f1 inst (next_inst rest) ->
   exists nx,
     next_inst rest = Some nx /\
     let n := s_next st in
     let parentHandle := createRuntimeCall n "getParentHandle" [] "" in
     s_retAlloc (fst (rewrite_site m1 nonReturning f1 st inst rest)) =
       s_retAlloc st /\
     exists before after call ret,
       flatten (fblocks f2) =
         before ++
         [Ins parentHandle; Ins call;
          Ins (createRuntimeCall (S n) "yield" [] "");
          Ins (createRuntimeCall (S (S n)) "noret" [] "");
          Ins ret] ++ after /\
       iid call = iid inst /\ IsACallInst call = true /\
       CalledValue call = CalledValue inst /\
       OperandsCount call = OperandsCount inst /\
       (2 <= OperandsCount inst ->
        Operand call (OperandsCount inst - 2) = Reg (iid parentHandle)) /\
       iid ret = iid nx /\ IsAReturnInst ret = true /\
       (IsVoid (ity inst) = false -> 1 <= OperandsCount nx ->
        Operand ret 0 = Undef (ity inst))).
Proof.
  intros Hy Hf Ha Hne getCoroutine m1 nonReturning Hl Hids Hw Hcall Hcv
         Hca Hcy Hcn f2.
  destruct (async_listed m asyncList name Hy Hf Ha Hne) as [Hnd [Hin HneY]].
  destruct (async_listed m asyncList c Hy Hf Hca Hcy) as [_ [Hcin HcY]].
  assert (Hac : is_async_call Y asyncList inst = true).
  { unfold is_async_call. rewrite Hcall, Hcv. simpl.
    rewrite (proj2 (WorklistFacts.existsb_eqb_In c asyncList) Hcin). simpl.
    apply negb_true_iff, value_eqb_neq. exact HcY. }
  assert (Hnr : is_async nonReturning (CalledValue inst) = false).
  { rewrite Hcv. simpl.
    apply WorklistFacts.existsb_eqb_not_In. exact Hcn. }
  destruct (CallSiteFacts.tail_call_site m1 nonReturning f1 st inst rest Hnr)
    as [Hiff Hsite].
  split; [|split; [exact Hiff|]].
  - (* the stage *)
    unfold calls_rewritten. fold getCoroutine.
    subst f2 m1 nonReturning.
    destruct (mark_nonReturning Y getCoroutine asyncList m) as [m1 nr]. simpl in *.
    apply (lookup_for_async_step Y asyncList
             (rewrite_async_calls Y asyncList nr) name m1); auto.
    intros ma mb f Hrt. apply rewrite_async_calls_ext. exact Hrt.
  - (* the site *)
    intros Hspec. apply Hiff in Hspec.
    destruct (Hsite Hspec) as [nx [Hnx [Hrw [Harg Hret]]]].
    exists nx. split; [exact Hnx|]. cbv zeta in Hrw |- *.
    split; [rewrite Hrw; reflexivity|].
    set (n := s_next st) in *.
    set (ph := createRuntimeCall n "getParentHandle" [] "") in *.
    set (inst' := SetLastArg inst (Reg n)) in *.
    set (nx' := if IsVoid (ity inst) then nx
                else SetOperand nx 0 (Undef (ity inst))) in *.
    set (yc := createRuntimeCall (S n) "yield" [] "") in *.
    set (nc := createRuntimeCall (S (S n)) "noret" [] "") in *.
    assert (Hrn : IsAReturnInst nx = true).
    { unfold classify_site in Hspec. rewrite Hnr, Hnx in Hspec.
      destruct (IsAReturnInst nx); [reflexivity | discriminate]. }
    assert (Hrn' : IsAReturnInst nx' = true /\ iid nx' = iid nx).
    { subst nx'. destruct (IsVoid (ity inst)); auto. }
    (* the walk after the site and the return *)
    pose proof (walk_site Hw Hac) as Hw1.
    rewrite Hrw in Hw1. cbn [fst snd] in Hw1.
    assert (Hpass : is_async_call Y asyncList nx' = false).
    { unfold is_async_call.
      destruct (IsACallInst nx') eqn:Ec; auto.
      exfalso. exact (call_not_return nx' Ec (proj1 Hrn')). }
    pose proof (walk_pass Hw1 Hpass) as Hw2.
    destruct (walk_inv m1 Y asyncList nonReturning f1 _ _ Hids Hw)
      as [Hold [Hhd Hnext]].
    destruct (walk_inv m1 Y asyncList nonReturning f1 _ _ Hids Hw2)
      as [Hold2 _].
    pose proof (walk_final m1 Y asyncList nonReturning f1 _ _ Hw2) as Hfin.
    match type of Hw2 with
    | walk _ _ _ _ _ ?s _ =>
      destruct (walk_done m1 Y asyncList nonReturning f1
                  (length (tl rest)) s _ Hold2) as [g [e [x [Hg Hdone]]]]
    end.
    rewrite <- Hfin in Hdone. cbn [push s_done] in Hdone.
    destruct (headed_cons_app _ _ _ Hhd) as [Hd Hdn].
    (* the body of the result *)
    assert (Hbody : flatten (fblocks f2) =
                    insert_entry_items e
                      (imap g ((s_done st ++ [Ins ph; Ins inst'; Ins yc; Ins nc])
                               ++ [Ins nx'])) ++ x).
    { subst f2. unfold rewrite_async_calls. cbn [fblocks set_next set_blocks].
      rewrite FrameFacts.flatten_unflatten, Hdone.
      rewrite <- !app_assoc, imap_app.
      destruct (headed_insert_imap e g _ Hd Hdn) as [H1 H2].
      destruct (insert_entry_items_app e (imap g (s_done st))
                  (imap g ([Ins ph; Ins inst'; Ins yc; Ins nc] ++ [Ins nx'])))
        as [y Ey].
      rewrite Ey, <- app_assoc.
      remember (insert_entry_items e (imap g (s_done st))) as d0.
      destruct d0 as [|[id nm|i] d0]; simpl in *; try tauto. }
    rewrite Hbody. rewrite <- !app_assoc, imap_app.
    destruct (insert_entry_items_keeps e (imap g (s_done st))
                (imap g ([Ins ph; Ins inst'; Ins yc; Ins nc] ++ [Ins nx'])))
      as [before Hb].
    { intros _. reflexivity. }
    rewrite Hb. simpl.
    assert (Ephc : forall nm, g (createRuntimeCall n nm [] "")
                              = createRuntimeCall n nm [] "" /\
                              g (createRuntimeCall (S n) nm [] "")
                              = createRuntimeCall (S n) nm [] "" /\
                              g (createRuntimeCall (S (S n)) nm [] "")
                              = createRuntimeCall (S (S n)) nm [] "").
    { intros nm. repeat split; apply (keeps_above_fixed (fnext f1)); auto;
        simpl; intros k [E | []]; discriminate. }
    destruct (SetLastArg_keeps inst (Reg n)) as [K1 [K2 [K3 K4]]]. fold inst' in K1, K2, K3, K4.
    destruct (Hg inst') as [G1 [_ [G3 _]]].
    destruct (Hg nx') as [R1 [_ [R3 _]]].
    pose proof Hcv as Hc.
    exists before, x, (g inst'), (g nx').
    split.
    { subst ph yc nc. rewrite (proj1 (Ephc "getParentHandle")),
        (proj1 (proj2 (Ephc "yield"))), (proj2 (proj2 (Ephc "noret"))).
      rewrite <- app_assoc. reflexivity. }
    split; [congruence|].
    split.
    { unfold IsACallInst in *. rewrite G3. rewrite K2.
      unfold is_async_call in Hac. apply andb_true_iff in Hac.
      destruct Hac as [Hac _]. apply andb_true_iff in Hac. tauto. }
    split.
    { rewrite Hc. apply (keeps_above_called (fnext f1)); auto. congruence. }
    split.
    { rewrite (keeps_above_count (fnext f1)); auto. }
    split.
    { intros H2. destruct (Harg H2) as [A1 _].
      rewrite (keeps_above_operand (fnext f1)); auto.
      - intros k Ek. fold inst' in A1. rewrite A1 in Ek. simpl in Ek.
        injection Ek as <-. exact Hnext.
      - rewrite K3. lia. }
    split; [destruct Hrn'; congruence|].
    split.
    { unfold IsAReturnInst in *. rewrite R3. tauto. }
    intros Hv H1. specialize (Hret Hv H1). fold nx' in Hret.
    rewrite (keeps_above_operand (fnext f1)); auto.
    + intros k Ek. rewrite Hret in Ek. discriminate.
    + subst nx'. rewrite Hv. unfold SetOperand, OperandsCount in *. simpl.
      destruct (iops nx); simpl in *; lia.
Qed.

End PassFacts.

(** ** Heap-to-stack promotion *)

Module AllocsFacts.
Import Allocs.

Section WithTarget.

Variable hasFlag : instr -> value -> string -> bool.
Variable alignment : Z.

Local Abbreviation mayEscape := (mayEscape hasFlag).
Local Abbreviation escape_loop := (escape_loop hasFlag).
Local Abbreviation NoEscape := (NoEscape hasFlag).
Local Abbreviation use_ok := (use_ok hasFlag).

Lemma NoEscape_iff f v :
  NoEscape f v <-> forall u, In u (getUses f v) -> use_ok f v u.
Proof.
  split.
  - intros H u Hu. inversion H as [? H1 H2]; subst. split; [apply H1 | apply H2]; auto.
  - intros H. constructor; intros u Hu; destruct (H u Hu); auto.
Qed.

Lemma escape_loop_sound f (rec : value -> option bool) v us b :
  (forall w c, rec w = Some c -> (c = false <-> NoEscape f w)) ->
  escape_loop rec v us = Some b ->
  (b = false <-> forall u, In u us -> use_ok f v u).
Proof.
  intros Hrec. induction us as [|u r IH]; simpl; intros H.
  - inversion H; subst. split; [intros _ ? [] | reflexivity].
  - assert (Hcons : forall P : Prop, (P <-> use_ok f v u) ->
              ((b = false <-> forall x, In x r -> use_ok f v x) ->
               P -> (b = false <-> forall x, u = x \/ In x r -> use_ok f v x))).
    { intros P HP HI HPu. split.
      - intros Hb x [<- | Hx]; [apply HP, HPu | apply HI; auto].
      - intros Hall. apply HI. intros x Hx. apply Hall; auto. }
    assert (Hbad : ~ use_ok f v u -> b = true ->
              (b = false <-> forall x, u = x \/ In x r -> use_ok f v x)).
    { intros Hn ->. split; [discriminate|]. intros Hall. destruct Hn. apply Hall; auto. }
    unfold use_ok in *.
    destruct (iop u) eqn:Hop;
      try (apply Hbad; [intros [_ []] | congruence]).
    + (* Call *)
      destruct (hasFlag u v "nocapture") eqn:Hf; simpl in H.
      * apply (Hcons True); auto. split; auto. intros _. split; auto.
        intros [? | ?]; discriminate.
      * apply Hbad; [intros [_ ?]; congruence | congruence].
    + (* Load *)
      apply (Hcons True); auto. split; auto. intros _. split; auto.
      intros [? | ?]; discriminate.
    + (* Store *)
      destruct (value_eqb (Operand u 0) v) eqn:He.
      * apply value_eqb_eq in He. apply Hbad; [intros [_ ?]; congruence | congruence].
      * apply value_eqb_neq in He. apply (Hcons True); auto.
        split; auto. intros _. split; auto. intros [? | ?]; discriminate.
    + (* GetElementPtr *)
      destruct (rec (Reg (iid u))) as [[|]|] eqn:Hr; try discriminate.
      * apply Hbad; [|congruence]. intros [Hn _].
        apply (Hrec _ _ Hr) in Hn; auto; discriminate.
      * apply (Hcons True); auto. split; auto. intros _. split; auto.
        intros _. apply (Hrec _ _ Hr). reflexivity.
    + (* BitCast *)
      destruct (rec (Reg (iid u))) as [[|]|] eqn:Hr; try discriminate.
      * apply Hbad; [|congruence]. intros [Hn _].
        apply (Hrec _ _ Hr) in Hn; auto; discriminate.
      * apply (Hcons True); auto. split; auto. intros _. split; auto.
        intros _. apply (Hrec _ _ Hr). reflexivity.
    + (* ICmp *)
      apply (Hcons True); auto. split; auto. intros _. split; auto.
      intros [? | ?]; discriminate.
Qed.

Lemma mayEscape_sound fuel f : forall v b,
  mayEscape fuel f v = Some b -> (b = false <-> NoEscape f v).
Proof.
  induction fuel as [|n IH]; simpl; intros v b H; [discriminate|].
  rewrite NoEscape_iff. eapply escape_loop_sound; eauto.
Qed.

Lemma escape_loop_total (rec : value -> option bool) v us :
  (forall u, In u us -> iop u = GetElementPtr \/ iop u = BitCast ->
             rec (Reg (iid u)) <> None) ->
  escape_loop rec v us <> None.
Proof.
  induction us as [|u r IH]; simpl; intros H; [discriminate|].
  assert (Hr : escape_loop rec v r <> None) by (apply IH; intros; apply H; auto).
  pose proof (H u (or_introl eq_refl)) as Hu.
  destruct (iop u); try discriminate; auto.
  - destruct (negb _); [discriminate | auto].
  - destruct (value_eqb _ _); [discriminate | auto].
  - assert (Hn : rec (Reg (iid u)) <> None) by auto.
    destruct (rec (Reg (iid u))) as [[|]|]; auto; discriminate.
  - assert (Hn : rec (Reg (iid u)) <> None) by auto.
    destruct (rec (Reg (iid u))) as [[|]|]; auto; discriminate.
Qed.

Lemma iid_lt_bound f u : In u (finsts f) -> iid u < id_bound f.
Proof.
  intros H. unfold id_bound.
  assert (iid u <= list_max (map iid (finsts f))); [|lia].
  pose proof (proj1 (list_max_le (map iid (finsts f)) _) (le_n _)) as HF.
  rewrite Forall_forall in HF. apply HF. apply in_map; auto.
Qed.

Lemma filter_length_mono (p q : nat -> bool) l :
  (forall x, In x l -> p x = true -> q x = true) ->
  length (filter p l) <= length (filter q l).
Proof.
  induction l as [|a l IH]; intros H; simpl; auto.
  assert (Hl : length (filter p l) <= length (filter q l))
    by (apply IH; intros; apply H; simpl; auto).
  destruct (p a) eqn:Ep.
  - rewrite (H a (or_introl eq_refl) Ep). simpl. lia.
  - destruct (q a); simpl; lia.
Qed.

Lemma filter_length_lt (p q : nat -> bool) l x0 :
  (forall x, In x l -> p x = true -> q x = true) ->
  In x0 l -> q x0 = true -> p x0 = false ->
  length (filter p l) < length (filter q l).
Proof.
  induction l as [|a l IH]; intros H Hin Hq Hp; [destruct Hin|]. simpl.
  assert (Hl : length (filter p l) <= length (filter q l))
    by (apply filter_length_mono; intros; apply H; simpl; auto).
  destruct Hin as [-> | Hin].
  - rewrite Hp, Hq. simpl. lia.
  - assert (Hlt : length (filter p l) < length (filter q l))
      by (apply IH; auto; intros; apply H; simpl; auto).
    destruct (p a) eqn:Ep.
    + rewrite (H a (or_introl eq_refl) Ep). simpl. lia.
    + destruct (q a); simpl; lia.
Qed.

(** The recursion of [mayEscape] follows getelementptr and bitcast
    instructions only; every step leaves fewer ids of a greater rank. *)
Lemma mayEscape_total_rank f (rank : nat -> nat) :
  (forall u k, In u (finsts f) ->
     iop u = GetElementPtr \/ iop u = BitCast ->
     In (Reg k) (iops u) -> rank k < rank (iid u)) ->
  forall n k,
    length (filter (fun id => rank k <? rank id) (seq 0 (id_bound f))) < n ->
    mayEscape n f (Reg k) <> None.
Proof.
  intros Hr. induction n as [|n IH]; intros k Hk; [lia|]. simpl.
  apply escape_loop_total. intros u Hu Hop.
  apply In_users_in in Hu. destruct Hu as [Hin Hu].
  apply existsb_exists in Hu. destruct Hu as [x [Hx He]].
  apply value_eqb_eq in He. subst x.
  pose proof (Hr _ _ Hin Hop Hx) as Hlt.
  pose proof (iid_lt_bound _ _ Hin) as Hb.
  apply IH.
  assert (length (filter (fun id => rank (iid u) <? rank id) (seq 0 (id_bound f)))
          < length (filter (fun id => rank k <? rank id) (seq 0 (id_bound f)))).
  { apply filter_length_lt with (x0 := iid u).
    - intros x _ H. apply Nat.ltb_lt in H. apply Nat.ltb_lt. lia.
    - apply in_seq. lia.
    - apply Nat.ltb_lt. lia.
    - apply Nat.ltb_ge. lia. }
  lia.
Qed.

Lemma mayEscape_total f k :
  cast_acyclic f -> mayEscape (S (id_bound f)) f (Reg k) <> None.
Proof.
  intros [rank Hr]. apply (mayEscape_total_rank f rank Hr).
  pose proof (filter_length_mono (fun id => rank k <? rank id) (fun _ => true)
                (seq 0 (id_bound f)) (fun _ _ _ => eq_refl)) as H.
  assert (E : forall l : list nat, filter (fun _ => true) l = l)
    by (induction l as [|a l IH]; simpl; congruence).
  rewrite E, length_seq in H. lia.
Qed.

(** *** The value analysed *)

Lemma the_bitcast_cases f h :
  the_bitcast f h = h \/
  (In (the_bitcast f h) (getUses f (Reg (iid h))) /\
   iop (the_bitcast f h) = BitCast).
Proof.
  unfold the_bitcast.
  destruct (getUses f (Reg (iid h))) as [|u [|u' r]]; auto.
  destruct (IsABitCastInst u) eqn:Hb; auto.
  right. split; [simpl; auto|]. apply opcode_eqb_eq. exact Hb.
Qed.

Lemma the_bitcast_pointer f h : pointer_of f h (the_bitcast f h).
Proof.
  unfold pointer_of, the_bitcast.
  destruct (getUses f (Reg (iid h))) as [|u [|u' r]];
    try (right; split; [reflexivity | intros x E; discriminate]).
  destruct (IsABitCastInst u) eqn:Hb.
  - left. split; [reflexivity | apply opcode_eqb_eq; exact Hb].
  - right. split; [reflexivity|]. intros x E. inversion E; subst x.
    intros Hx. apply opcode_eqb_eq in Hx. unfold IsABitCastInst in Hb.
    congruence.
Qed.

Lemma the_bitcast_In f h : In h (finsts f) -> In (the_bitcast f h) (finsts f).
Proof.
  intros Hh. destruct (the_bitcast_cases f h) as [-> | [Hu _]]; auto.
  apply In_users_in in Hu. tauto.
Qed.

Lemma NoEscape_the_bitcast f h :
  NoEscape f (Reg (iid (the_bitcast f h))) <-> NoEscape f (Reg (iid h)).
Proof.
  unfold the_bitcast.
  destruct (getUses f (Reg (iid h))) as [|u [|u' r]] eqn:Hu; try tauto.
  destruct (IsABitCastInst u) eqn:Hb; try tauto.
  apply opcode_eqb_eq in Hb.
  rewrite (NoEscape_iff f (Reg (iid h))), Hu. split.
  - intros H x [<- | []]. unfold use_ok. rewrite Hb. auto.
  - intros H. apply (H u); simpl; auto.
Qed.

(** *** The function after the replacement *)

Section Replace.

Variables (f : func) (h : instr) (size : Z).

Let p := the_bitcast f h.
Let n := fnext f.
Let words := ((size + alignment - 1) / alignment)%Z.
Let array := TArray words (TInt (Z.to_nat (alignment * 8))).
Let alloca := mkInstr n "stackalloc.alloca" Alloca (TPtr array) [].
Let store := mkInstr (S n) "" Store TVoid [ConstNull array; Reg n].
Let cast := mkInstr (S (S n)) "stackalloc" BitCast (ity p) [Reg n].
Let s := subst_instr (Reg (iid p)) (Reg (S (S n))).
Let keep := fun i => negb (iid i =? iid h) && negb (iid i =? iid p).
Let others := fun l => map s (filter keep l).

Hypothesis Hids : ids_below f.
Hypothesis Hh : In h (finsts f).

Lemma old_ids : iid h < n /\ iid p < n.
Proof.
  unfold ids_below in Hids. rewrite Forall_forall in Hids.
  split; apply Hids; [exact Hh | apply the_bitcast_In; exact Hh].
Qed.

Lemma erase_others l :
  erase_id (iid h)
    (if iid h =? iid p then map s l else erase_id (iid p) (map s l)) =
  others l.
Proof.
  unfold others, keep, erase_id.
  destruct (iid h =? iid p) eqn:E.
  - apply Nat.eqb_eq in E. rewrite <- E.
    induction l as [|a l IH]; simpl; auto.
    destruct (iid a =? iid h); simpl; [exact IH | rewrite IH; reflexivity].
  - induction l as [|a l IH]; simpl; auto.
    destruct (iid a =? iid p) eqn:Ep; simpl.
    + rewrite andb_false_r. exact IH.
    + rewrite andb_true_r.
      destruct (iid a =? iid h); simpl; [exact IH | rewrite IH; reflexivity].
Qed.

Lemma others_app l1 l2 : others (l1 ++ l2) = others l1 ++ others l2.
Proof. unfold others. rewrite filter_app, map_app. reflexivity. Qed.

Lemma others_new : others [alloca; store; cast] = [alloca; store; cast].
Proof.
  destruct old_ids as [H1 H2].
  assert (E : forall k, n <= k -> keep (mkInstr k "" Call TVoid []) = true).
  { intros k Hk. unfold keep. simpl.
    destruct (k =? iid h) eqn:E1; [apply Nat.eqb_eq in E1; lia|].
    destruct (k =? iid p) eqn:E2; [apply Nat.eqb_eq in E2; lia|]. reflexivity. }
  assert (Ek : keep alloca = true /\ keep store = true /\ keep cast = true).
  { repeat split; [apply (E n) | apply (E (S n)) | apply (E (S (S n)))]; lia. }
  destruct Ek as [K1 [K2 K3]].
  unfold others. simpl. rewrite K1, K2, K3. simpl.
  assert (Es : subst_value (Reg (iid p)) (Reg (S (S n))) (Reg n) = Reg n).
  { unfold subst_value. destruct (value_eqb (Reg n) (Reg (iid p))) eqn:Ev; auto.
    apply value_eqb_eq in Ev. inversion Ev. lia. }
  unfold s, subst_instr, alloca, store, cast. simpl. rewrite Es.
  reflexivity.
Qed.

Lemma stack_replace_blocks b bs :
  fblocks f = b :: bs ->
  fblocks (stack_replace alignment f h size) =
    mkBlock (bid b) (bname b) (alloca :: store :: cast :: others (binsts b))
    :: map (fun b => mkBlock (bid b) (bname b) (others (binsts b))) bs.
Proof.
  intros Hb.
  assert (Hgen : forall bl,
    fblocks (erase_instr (iid h)
               (if iid h =? iid p
                then ReplaceAllUsesWith (Reg (iid p)) (Reg (S (S n)))
                       (set_next (set_blocks f bl) (3 + n))
                else erase_instr (iid p)
                       (ReplaceAllUsesWith (Reg (iid p)) (Reg (S (S n)))
                          (set_next (set_blocks f bl) (3 + n))))) =
    map (fun b => mkBlock (bid b) (bname b) (others (binsts b))) bl).
  { intros bl. pose proof erase_others as He.
    destruct (iid h =? iid p); simpl; rewrite !map_map; apply map_ext;
      intros a; unfold set_insts; simpl; rewrite <- He; reflexivity. }
  unfold stack_replace. fold p. fold n.
  rewrite Hgen, Hb. simpl. f_equal.
  - f_equal. unfold stack_alloca. fold n words array alloca store cast.
    change (alloca :: store :: cast :: binsts b)
      with ([alloca; store; cast] ++ binsts b).
    rewrite others_app, others_new. reflexivity.
Qed.

Lemma flat_map_others bs :
  flat_map binsts
    (map (fun b => mkBlock (bid b) (bname b) (others (binsts b))) bs) =
  others (flat_map binsts bs).
Proof.
  induction bs as [|b bs IH]; simpl; auto.
  rewrite others_app, IH. reflexivity.
Qed.

Lemma stack_replace_insts :
  finsts (stack_replace alignment f h size) =
  alloca :: store :: cast :: others (finsts f).
Proof.
  pose proof Hh as Hin. unfold finsts in Hin |- *.
  destruct (fblocks f) as [|b bs] eqn:Hb; [destruct Hin|].
  rewrite (stack_replace_blocks b bs Hb). simpl.
  rewrite flat_map_others, others_app. reflexivity.
Qed.

Lemma stack_replace_fields :
  fname (stack_replace alignment f h size) = fname f /\
  fret (stack_replace alignment f h size) = fret f /\
  fretattrs (stack_replace alignment f h size) = fretattrs f /\
  fparams (stack_replace alignment f h size) = fparams f /\
  fnext (stack_replace alignment f h size) = 3 + n.
Proof.
  unfold stack_replace. destruct (iid h =? iid (the_bitcast f h)); simpl; auto.
Qed.

Lemma In_others i :
  In i (others (finsts f)) ->
  exists i0, In i0 (finsts f) /\ i = s i0 /\ iid i0 <> iid h /\ iid i0 <> iid p.
Proof.
  unfold others. intros H. apply in_map_iff in H. destruct H as [i0 [E H]].
  apply filter_In in H. destruct H as [H K]. unfold keep in K.
  apply andb_true_iff in K. destruct K as [K1 K2].
  apply negb_true_iff, Nat.eqb_neq in K1.
  apply negb_true_iff, Nat.eqb_neq in K2.
  exists i0. auto.
Qed.

Lemma In_subst_ops i0 k :
  In (Reg k) (iops (s i0)) ->
  (k = S (S n) /\ In (Reg (iid p)) (iops i0)) \/
  (k <> iid p /\ In (Reg k) (iops i0)).
Proof.
  unfold s, subst_instr. simpl. intros H.
  apply in_map_iff in H. destruct H as [x [E H]].
  unfold subst_value in E.
  destruct (value_eqb x (Reg (iid p))) eqn:Ev.
  - apply value_eqb_eq in Ev. subst x. inversion E; subst. auto.
  - apply value_eqb_neq in Ev. subst x. right.
    split; [intros ->; apply Ev; reflexivity | exact H].
Qed.

Lemma stack_replace_moved :
  (0 < alignment)%Z ->
  moved_to_stack alignment f h size (stack_replace alignment f h size).
Proof.
  intros Ha. destruct old_ids as [H1 H2].
  destruct stack_replace_fields as [F1 [F2 [F3 [F4 F5]]]].
  unfold moved_to_stack. exists p. split; [apply the_bitcast_pointer|].
  fold n words array alloca store cast.
  split.
  { unfold words.
    pose proof (Z.div_mod (size + alignment - 1) alignment ltac:(lia)).
    pose proof (Z.mod_pos_bound (size + alignment - 1) alignment Ha). nia. }
  do 5 (split; [assumption|]).
  split.
  { pose proof Hh as Hin. unfold finsts in Hin.
    destruct (fblocks f) as [|b bs] eqn:Hb; [destruct Hin|].
    exists b, bs. split; [reflexivity|].
    apply stack_replace_blocks. exact Hb. }
  rewrite stack_replace_insts. split.
  - intros i [<- | [<- | [<- | Hi]]]; simpl; try lia.
    apply In_others in Hi. destruct Hi as [i0 [_ [-> [Hn _]]]]. exact Hn.
  - intros i [<- | [<- | [<- | Hi]]]; simpl.
    + tauto.
    + intros [E | [E | []]]; [discriminate | inversion E; lia].
    + intros [E | []]. inversion E; lia.
    + apply In_others in Hi. destruct Hi as [i0 [_ [-> _]]].
      intros Hin. apply In_subst_ops in Hin. destruct Hin as [[E _] | [E _]]; lia.
Qed.

Lemma stack_replace_ids_below : ids_below (stack_replace alignment f h size).
Proof.
  destruct stack_replace_fields as [_ [_ [_ [_ F5]]]].
  unfold ids_below. rewrite F5, stack_replace_insts.
  repeat (constructor; [simpl; lia|]).
  apply Forall_forall. intros i Hi.
  apply In_others in Hi. destruct Hi as [i0 [Hi0 [-> _]]]. simpl.
  unfold ids_below in Hids. rewrite Forall_forall in Hids.
  specialize (Hids i0 Hi0). fold n in Hids. lia.
Qed.

Lemma stack_replace_cast_acyclic :
  cast_acyclic f -> cast_acyclic (stack_replace alignment f h size).
Proof.
  intros [rank Hr]. destruct old_ids as [H1 H2].
  exists (fun id => if id =? n then 0
                    else if id =? S (S n)
                         then S (Nat.min (rank (iid p)) (rank (S (S n))))
                         else S (rank id)).
  intros u k Hu Hop Hk. rewrite stack_replace_insts in Hu.
  destruct Hu as [<- | [<- | [<- | Hi]]];
    [unfold alloca in * | unfold store in * | unfold cast in * |];
    cbn [iid iop iops In] in *.
  - destruct Hop; discriminate.
  - destruct Hop; discriminate.
  - destruct Hk as [E | []]. inversion E; subst k.
    rewrite Nat.eqb_refl.
    destruct (S (S n) =? n) eqn:E1; [apply Nat.eqb_eq in E1; lia|].
    rewrite Nat.eqb_refl. lia.
  - apply In_others in Hi. destruct Hi as [i0 [Hi0 [-> _]]].
    unfold ids_below in Hids. rewrite Forall_forall in Hids.
    pose proof (Hids i0 Hi0) as Hlt. fold n in Hlt.
    change (iid (s i0)) with (iid i0).
    change (iop (s i0)) with (iop i0) in Hop.
    destruct (iid i0 =? n) eqn:E1; [apply Nat.eqb_eq in E1; lia|].
    destruct (iid i0 =? S (S n)) eqn:E2; [apply Nat.eqb_eq in E2; lia|].
    apply In_subst_ops in Hk. destruct Hk as [[-> Hk] | [_ Hk]].
    + pose proof (Hr _ _ Hi0 Hop Hk).
      destruct (S (S n) =? n) eqn:E3; [lia|].
      rewrite Nat.eqb_refl. lia.
    + pose proof (Hr _ _ Hi0 Hop Hk).
      destruct (k =? n); [lia|].
      destruct (k =? S (S n)) eqn:E4; [|lia].
      apply Nat.eqb_eq in E4. subst k. lia.
Qed.

End Replace.

(** *** One use of the allocator *)

Lemma optimize_alloc_step f h :
  (0 < alignment)%Z -> numbered f -> In h (finsts f) ->
  exists r, optimize_alloc hasFlag alignment (S (id_bound f)) f h = Some r /\
    match r with
    | Ok (Some f') =>
        IsConstant (Operand h 0) = true /\
        exists size, ZExtValue (Operand h 0) = Some size /\
                     (size <= 256)%Z /\
                     NoEscape f (Reg (iid h)) /\
                     moved_to_stack alignment f h size f' /\
                     numbered f'
    | Ok None =>
        IsConstant (Operand h 0) = false \/
        (exists size, ZExtValue (Operand h 0) = Some size /\ (256 < size)%Z) \/
        ~ NoEscape f (Reg (iid h))
    | Panic _ => IsConstant (Operand h 0) = true /\ ZExtValue (Operand h 0) = None
    | Err _ => False
    end.
Proof.
  intros Ha [Hc Hids] Hh.
  pose proof (mayEscape_total f (iid (the_bitcast f h)) Hc) as Htot.
  remember (S (id_bound f)) as fuel eqn:Hfuel. clear Hfuel.
  unfold optimize_alloc.
  destruct (IsConstant (Operand h 0)) eqn:Hk; simpl.
  2:{ eexists; split; [reflexivity|]. simpl. auto. }
  destruct (ZExtValue (Operand h 0)) as [size|] eqn:Hz.
  2:{ eexists; split; [reflexivity|]. simpl. auto. }
  destruct (size >? maxStackAlloc)%Z eqn:Hs.
  { eexists; split; [reflexivity|]. simpl. right; left. exists size.
    split; auto. unfold maxStackAlloc in Hs. lia. }
  destruct (Allocs.mayEscape hasFlag fuel f
              (Reg (iid (the_bitcast f h)))) as [[|]|] eqn:He;
    [| |congruence].
  - eexists; split; [reflexivity|]. simpl. right; right.
    intros Hn. apply NoEscape_the_bitcast in Hn.
    apply (mayEscape_sound _ _ _ _ He) in Hn. discriminate.
  - eexists; split; [reflexivity|]. simpl. split; auto.
    exists size. split; [reflexivity|].
    split; [unfold maxStackAlloc in Hs; lia|].
    split.
    { apply NoEscape_the_bitcast. apply (mayEscape_sound _ _ _ _ He). reflexivity. }
    split; [apply stack_replace_moved; auto|].
    split; [apply stack_replace_cast_acyclic; auto
           | apply stack_replace_ids_below; auto].
Qed.

(** *** The loop over the uses *)

Lemma numbered_replace m f' :
  (forall f, In f (mfuncs m) -> numbered f) -> numbered f' ->
  forall f, In f (mfuncs (replace_func m f')) -> numbered f.
Proof.
  intros Hm Hf f Hin. unfold replace_func, update_func in Hin. simpl in Hin.
  apply in_map_iff in Hin. destruct Hin as [x [E Hx]].
  destruct (String.eqb (fname x) (fname f')); subst; auto.
Qed.

Lemma optimize_loop_run us :
  (0 < alignment)%Z ->
  forall m, (forall f, In f (mfuncs m) -> numbered f) ->
  exists r, optimize_loop hasFlag alignment m us = Some r /\
            alloc_run hasFlag alignment m us r.
Proof.
  intros Ha. induction us as [|[fn id] us IH]; intros m Hm; simpl.
  - exists (Ok m). split; [reflexivity | constructor].
  - destruct (lookup_func m fn) as [f|] eqn:Hl.
    2:{ destruct (IH m Hm) as [r [H1 H2]]. exists r. split; auto.
        apply run_gone; auto. intros f Hf. congruence. }
    destruct (find_instr f id) as [h|] eqn:Hfi.
    2:{ destruct (IH m Hm) as [r [H1 H2]]. exists r. split; auto.
        apply run_gone; auto. intros f0 Hf. congruence. }
    pose proof (StageFacts.lookup_func_In _ _ _ Hl) as [Hfm _].
    assert (Hh : In h (finsts f)).
    { unfold find_instr in Hfi. apply find_some in Hfi. tauto. }
    destruct (optimize_alloc_step f h Ha (Hm f Hfm) Hh) as [r [Hr Hc]].
    rewrite Hr. destruct r as [[f'|]|e|e].
    + destruct Hc as [Hk [size [Hz [Hs [Hn [Hmv Hnum]]]]]].
      destruct (IH (replace_func m f') (@numbered_replace m f' Hm Hnum))
        as [r [H1 H2]].
      exists r. split; auto.
      eapply run_stack; eauto.
    + destruct (IH m Hm) as [r [H1 H2]]. exists r. split; auto.
      eapply run_heap; eauto.
    + destruct Hc.
    + destruct Hc as [Hk Hz]. exists (Panic e). split; auto.
      eapply run_panic; eauto.
Qed.

Lemma alloc_run_no_error m us r :
  alloc_run hasFlag alignment m us r -> forall e, r <> Err e.
Proof. induction 1; auto; discriminate. Qed.

Lemma alloc_run_others m us r :
  alloc_run hasFlag alignment m us r ->
  forall m' fn, r = Ok m' -> (forall id, ~ In (fn, id) us) ->
                lookup_func m' fn = lookup_func m fn.
Proof.
  induction 1 as [m|m fn0 id us r Hg _ IH|m fn0 id us r f h Hl Hf Hc _ IH
                  |m fn0 id us r f h size f' Hl Hf Hk Hz Hs Hn Hmv _ IH
                  |m fn0 id us f h msg Hl Hf Hk Hz];
    intros m' fn E Hno.
  - inversion E; subst. reflexivity.
  - apply IH; auto. intros id0 Hin. apply (Hno id0). simpl. auto.
  - apply IH; auto. intros id0 Hin. apply (Hno id0). simpl. auto.
  - rewrite (IH m' fn E); [|intros id0 Hin; apply (Hno id0); simpl; auto].
    apply FrameFacts.lookup_replace_other.
    destruct Hmv as [p [_ [_ [Hname _]]]]. rewrite Hname.
    pose proof (StageFacts.lookup_func_In _ _ _ Hl) as [_ En]. rewrite En.
    intros ->. apply (Hno id). simpl. auto.
  - discriminate.
Qed.

Lemma module_users_spec m v fn id :
  In (fn, id) (module_users m v) <->
  exists f i, In f (mfuncs m) /\ fname f = fn /\ In i (finsts f) /\
              iid i = id /\ uses v i = true.
Proof.
  unfold module_users. rewrite in_flat_map. split.
  - intros [f [Hf H]]. apply in_map_iff in H. destruct H as [u [E Hu]].
    inversion E; subst. apply In_users_in in Hu. destruct Hu as [Hu Hv].
    exists f, u. auto.
  - intros [f [i [Hf [E1 [Hi [E2 Hv]]]]]]. exists f. split; [exact Hf|].
    apply in_map_iff. exists i. split; [subst; reflexivity|].
    apply In_users_in. auto.
Qed.

(** C10. On a module whose functions have no cycle of getelementptr and
    bitcast instructions, [OptimizeAllocs] returns; it returns no error.
    Without [runtime.alloc] the module is as it was.  With it, the pass is a
    run over the uses of [runtime.alloc] in which an allocation is moved to
    the stack only when its size operand is a constant integer of at most
    [256] bytes and the allocated pointer does not escape (every use is a
    getelementptr or a bitcast whose result does not escape, a load, a
    store of another value, a call with the pointer at [nocapture]
    positions, or a comparison); the function then has, at the start of its
    entry block, an alloca [stackalloc.alloca] of an array that covers the
    size, a store of the zero value to it and the cast that takes the place
    of the pointer, and the heap call is gone.  An allocation of variable
    size, of a larger size, or with an escaping use leaves the module as it
    is.  The uses the run goes over are the instructions of the module
    that have [runtime.alloc] as an operand; a function without such a use
    is the same in the result. *)
Theorem OptimizeAllocs_stack_only_small_nonescaping (m : module) :
  (0 < alignment)%Z ->
  (forall f, In f (mfuncs m) -> numbered f) ->
  exists r,
    OptimizeAllocs hasFlag alignment m = Some r /\
    (forall e, r <> Err e) /\
    (NamedFunction m "runtime.alloc" = Nil -> r = Ok m) /\
    (NamedFunction m "runtime.alloc" <> Nil ->
     alloc_run hasFlag alignment m (module_users m (Fn "runtime.alloc")) r) /\
    (forall fn id,
       In (fn, id) (module_users m (Fn "runtime.alloc")) <->
       exists f i, In f (mfuncs m) /\ fname f = fn /\ In i (finsts f) /\
                   iid i = id /\ uses (Fn "runtime.alloc") i = true) /\
    (forall m' fn,
       r = Ok m' ->
       (forall id, ~ In (fn, id) (module_users m (Fn "runtime.alloc"))) ->
       lookup_func m' fn = lookup_func m fn).
Proof.
  intros Ha Hm. unfold OptimizeAllocs, NamedFunction.
  destruct (existsb (fun f => String.eqb (fname f) "runtime.alloc") (mfuncs m));
    simpl.
  - destruct (optimize_loop_run (module_users m (Fn "runtime.alloc")) Ha m Hm)
      as [r [H1 H2]].
    exists r. split; [exact H1|].
    split; [exact (@alloc_run_no_error _ _ _ H2)|].
    split; [discriminate|].
    split; [intros _; exact H2|].
    split; [intros fn id; apply module_users_spec|].
    exact (@alloc_run_others _ _ _ H2).
  - exists (Ok m). split; [reflexivity|].
    split; [discriminate|]. split; [reflexivity|].
    split; [intros H; contradiction|].
    split; [intros fn id; apply module_users_spec|].
    intros m' fn E _. inversion E; subst. reflexivity.
Qed.

End WithTarget.
End AllocsFacts.

(** ** The uses of the async functions *)

Module UseFacts.
Import Lowering.

Lemma existsb_value_In v l : existsb (value_eqb v) l = true <-> In v l.
Proof.
  rewrite existsb_exists. split.
  - intros [x [Hx E]]. apply value_eqb_eq in E. subst. exact Hx.
  - intros H. exists v. split; auto. apply value_eqb_refl.
Qed.

(** The loop over the uses of one async function passes exactly the
    accepted uses; it never panics. *)
Lemma push_parents_accepts m f us : forall wl,
  match push_parents m f us wl with
  | Ok _ => forall u, In u us -> accepted_use m f u
  | Err _ => exists u, In u us /\ ~ accepted_use m f u
  | Panic _ => False
  end.
Proof.
  induction us as [|u r IH]; intros wl; simpl.
  - intros u [].
  - assert (Hnext : forall wl0, accepted_use m f u ->
              match push_parents m f r wl0 with
              | Ok _ => forall u0, u = u0 \/ In u0 r -> accepted_use m f u0
              | Err _ => exists u0, (u = u0 \/ In u0 r) /\ ~ accepted_use m f u0
              | Panic _ => False
              end).
    { intros wl0 Hu. specialize (IH wl0).
      destruct (push_parents m f r wl0).
      - intros u0 [<- | H0]; auto.
      - destruct IH as [u0 [H0 H1]]. exists u0. auto.
      - exact IH. }
    assert (Hbad : ~ accepted_use m f u ->
                   exists u0, (u = u0 \/ In u0 r) /\ ~ accepted_use m f u0)
      by (intros Hu; exists u; auto).
    destruct u as [parent i | c].
    + destruct (IsACallInst i) eqn:Hc; simpl.
      2:{ apply Hbad. simpl. intros [E _]. congruence. }
      destruct (existsb _ _) eqn:Ha.
      * apply Hbad. simpl. intros [_ Hn]. apply Hn.
        apply existsb_value_In. exact Ha.
      * apply Hnext. simpl. split; auto. intros Hin.
        apply existsb_value_In in Hin. congruence.
    + destruct c as [| | | | | | | |op a t];
        try (apply Hbad; simpl; tauto).
      destruct op; try (apply Hbad; simpl; tauto).
      * destruct (getUsesM m (ConstExpr BitCast a t)) eqn:Hg.
        -- apply Hnext. simpl. exact Hg.
        -- apply Hbad. simpl. rewrite Hg. discriminate.
      * destruct (forallb _ _) eqn:Hf.
        -- apply Hnext. simpl. intros u' Hu'.
           rewrite forallb_forall in Hf. auto.
        -- apply Hbad. simpl. intros Hall.
           assert (Ht : forallb is_makeGoroutine_call
                                (getUsesM m (ConstExpr PtrToInt a t)) = true)
             by (apply forallb_forall; exact Hall).
           congruence.
Qed.

(** The callers pushed on the worklist are async. *)
Lemma pushed_async m f us wl wl' :
  Async m f ->
  (forall u, In u us -> In u (getUsesM m (Fn f))) ->
  (forall p, In p wl -> p <> "resume" -> Async m p) ->
  push_parents m f us wl = Ok wl' ->
  forall p, In p wl' -> p <> "resume" -> Async m p.
Proof.
  intros Hf Hus Hwl Hp p Hin Hr.
  destruct (WorklistFacts.push_parents_ok _ _ _ _ _ Hp) as [Hmem [Hcall _]].
  apply Hmem in Hin. destruct Hin as [Hin | [i Hi]]; [auto|].
  destruct (Hcall _ _ Hi) as [Hc Ha].
  apply Hus in Hi.
  apply WorklistFacts.In_UInst_getUsesM, WorklistFacts.In_inst_users in Hi.
  destruct Hi as [fn [Hfn [E [Hi Hu]]]].
  apply Async_caller with (g := f); auto.
  exists fn, i. repeat split; auto.
  unfold calls. rewrite Hc. simpl. apply value_eqb_eq.
  apply WorklistFacts.callee_of_user; auto.
Qed.

Lemma worklist_loop_uses m : forall fuel wl A r,
  (forall p, In p wl -> p <> "resume" -> Async m p) ->
  (forall f u, In f A -> In u (getUsesM m (Fn f)) -> accepted_use m f u) ->
  worklist_loop fuel m wl A = Some r ->
  match r with
  | Ok L => forall f u, In f L -> In u (getUsesM m (Fn f)) -> accepted_use m f u
  | Err _ => exists f u, Async m f /\ In u (getUsesM m (Fn f)) /\
                         ~ accepted_use m f u
  | Panic _ => False
  end.
Proof.
  induction fuel as [|n IH]; intros wl A r Hwl HA H; simpl in H; [discriminate|].
  destruct wl as [|f wl].
  - inversion H; subst. exact HA.
  - destruct (existsb (String.eqb f) A) eqn:Hmem.
    { apply (IH wl A); auto. intros; apply Hwl; simpl; auto. }
    destruct (String.eqb f "resume") eqn:Hr.
    { apply (IH wl A); auto. intros; apply Hwl; simpl; auto. }
    apply String.eqb_neq in Hr.
    assert (Hf : Async m f) by (apply Hwl; simpl; auto).
    pose proof (push_parents_accepts m f (getUsesM m (Fn f)) wl) as Hacc.
    destruct (push_parents m f (getUsesM m (Fn f)) wl) as [wl'|e|e] eqn:Hp.
    + apply (IH wl' (A ++ [f])); auto.
      * apply (pushed_async m f (getUsesM m (Fn f)) wl wl'); auto.
        intros; apply Hwl; simpl; auto.
      * intros g u Hg Hu. apply in_app_iff in Hg.
        destruct Hg as [Hg | [<- | []]]; auto.
    + inversion H; subst. destruct Hacc as [u [Hu Hn]]. exists f, u. auto.
    + destruct Hacc.
Qed.

(** X1. When the module has [runtime.yield], the search for the async
    functions returns a list exactly when every use of every async function
    is accepted: a call that has the function at the called position only,
    a constant [ptrtoint] used by calls of [runtime.makeGoroutine] only, or
    a constant [bitcast] without users.  Otherwise it returns an error; it
    never panics. *)
Theorem async_functions_found_iff_uses_accepted m :
  NamedFunction m yieldName <> Nil ->
  exists r, find_async m = Some r /\
    (forall e, r <> Panic e) /\
    ((exists asyncList, r = Ok asyncList) <->
     (forall f u, Async m f -> In u (getUsesM m (Fn f)) -> accepted_use m f u)).
Proof.
  intros Hy.
  assert (Hinv : WorklistFacts.inv m [yieldName] []).
  { constructor; simpl.
    - constructor.
    - tauto.
    - intros p [<- | []] _. constructor.
    - tauto.
    - auto.
    - intros p [<- | []]. apply WorklistFacts.NamedFunction_In; auto. }
  assert (Hfuel : length [yieldName] + WorklistFacts.pending m [] (mfuncs m)
                  < worklist_fuel m).
  { unfold worklist_fuel. simpl.
    pose proof (WorklistFacts.pending_le_all m [] (mfuncs m)). lia. }
  destruct (WorklistFacts.worklist_loop_correct m _ _ _ Hinv Hfuel)
    as [r [Hr Hset]].
  exists r. split; [exact Hr|].
  assert (Hwl : forall p, In p [yieldName] -> p <> "resume" -> Async m p)
    by (intros p [<- | []] _; constructor).
  assert (HA : forall f u, In f [] -> In u (getUsesM m (Fn f)) ->
                           accepted_use m f u) by (intros f u []).
  pose proof (worklist_loop_uses m _ _ _ r Hwl HA Hr) as Huse.
  destruct r as [L | e | e].
  - split; [discriminate|]. split.
    + intros _ f u Hf. apply Huse. apply Hset. exact Hf.
    + intros _. exists L. reflexivity.
  - split; [discriminate|]. split.
    + intros [L E]. discriminate.
    + intros Hall. destruct Huse as [f [u [Hf [Hu Hn]]]].
      exfalso. apply Hn. apply Hall; auto.
  - destruct Hset.
Qed.

End UseFacts.

(** ** Functions that do not need their parent *)

Module ParentFacts.
Import Lowering.

Lemma existsb_negb_false {A} (g : A -> bool) l :
  existsb (fun v => negb (g v)) l = false <-> forall v, In v l -> g v = true.
Proof.
  induction l as [|a l IH]; simpl.
  - split; [intros _ v [] | auto].
  - rewrite orb_false_iff, negb_false_iff, IH. split.
    + intros [Ha Hl] v [<- | Hv]; auto.
    + intros H. split; auto.
Qed.

(** X2. The loop "mark functions that do not require a parent handle"
    panics exactly when some async function other than [yield] does not
    end in a parameter named [parentHandle], with the name of the first
    such function; otherwise it returns the async functions other than
    [yield] all of whose uses of that parameter are calls of
    [runtime.activateTask]. *)
Theorem parent_not_required_spec (m : module) (yield activate : value)
        (asyncList : list string) :
  match parent_not_required m yield activate asyncList with
  | Ok R =>
      (forall f fn, In f asyncList -> Fn f <> yield -> lookup_func m f = Some fn ->
         exists idx p, LastParam fn = Some (idx, p) /\ pname p = "parentHandle") /\
      (forall f, In f R <->
         In f asyncList /\ Fn f <> yield /\
         exists fn, lookup_func m f = Some fn /\ activates_only activate fn)
  | Panic msg =>
      exists f fn, In f asyncList /\ Fn f <> yield /\ lookup_func m f = Some fn /\
        msg = String.append "trying to make exported function async: " (fname fn) /\
        (forall idx p, LastParam fn = Some (idx, p) -> pname p <> "parentHandle")
  | Err _ => False
  end.
Proof.
  induction asyncList as [|f r IH]; simpl.
  - split; [intros f fn [] | intros f; split; [intros [] | intros [[] _]]].
  - destruct (value_eqb (Fn f) yield) eqn:Hy.
    { apply value_eqb_eq in Hy.
      destruct (parent_not_required m yield activate r) as [R | e | e].
      - destruct IH as [IH1 IH2]. split.
        + intros g fn [<- | Hg] Hn; [congruence | eauto].
        + intros g. rewrite IH2. split.
          * intros [Hg H]; auto.
          * intros [[<- | Hg] [Hn H]]; [congruence | auto].
      - exact IH.
      - destruct IH as [g [fn [Hg H]]]. exists g, fn. auto. }
    apply value_eqb_neq in Hy.
    destruct (lookup_func m f) as [fn|] eqn:Hl.
    2:{ destruct (parent_not_required m yield activate r) as [R | e | e].
        - destruct IH as [IH1 IH2]. split.
          + intros g fn [<- | Hg] Hn Hg'; [congruence | eauto].
          + intros g. rewrite IH2. split.
            * intros [Hg H]; auto.
            * intros [[<- | Hg] [Hn [fn [Hf Ha]]]]; [congruence|].
              split; auto. split; auto. exists fn. auto.
        - exact IH.
        - destruct IH as [g [fn [Hg H]]]. exists g, fn. auto. }
    destruct (LastParam fn) as [[idx p]|] eqn:Hlp.
    2:{ unfold exported_panic. exists f, fn.
        split; [simpl; auto|]. split; [exact Hy|]. split; [exact Hl|].
        split; [reflexivity|]. intros idx p E. congruence. }
    destruct (String.eqb (pname p) "parentHandle") eqn:Hp; simpl.
    2:{ apply String.eqb_neq in Hp. unfold exported_panic. exists f, fn.
        split; [simpl; auto|]. split; [exact Hy|]. split; [exact Hl|].
        split; [reflexivity|].
        intros idx' p' E. rewrite Hlp in E. inversion E; subst. exact Hp. }
    apply String.eqb_eq in Hp.
    destruct (parent_not_required m yield activate r) as [R | e | e]; simpl.
    + destruct IH as [IH1 IH2]. split.
      * intros g fn' [<- | Hg] Hn Hg'; [|eauto].
        rewrite Hl in Hg'. inversion Hg'; subst. eauto.
      * intros g.
        destruct (existsb _ _) eqn:Hu.
        -- rewrite IH2. split.
           ++ intros [Hg H]; auto.
           ++ intros [[<- | Hg] [Hn [fn' [Hf Ha]]]]; [|eauto].
              exfalso. rewrite Hl in Hf. inversion Hf; subst fn'.
              destruct Ha as [idx' [p' [E Ha]]]. rewrite Hlp in E.
              inversion E; subst idx' p'.
              apply (proj2 (existsb_negb_false (calls activate) _)) in Ha.
              congruence.
        -- pose proof (proj1 (existsb_negb_false (calls activate) _) Hu) as Hu'.
           simpl. rewrite IH2. split.
           ++ intros [<- | [Hg H]]; auto.
              split; auto. split; auto. exists fn. split; auto.
              exists idx, p. auto.
           ++ intros [[<- | Hg] [Hn H]]; auto.
    + exact IH.
    + destruct IH as [g [fn' [Hg H]]]. exists g, fn'. auto.
Qed.

End ParentFacts.

(** ** Function attributes *)

Module AttrFacts.
Import Lowering.

Lemma filter_attrs_kept l :
  attrs_kept l
    (filter (fun a => negb (String.eqb a "nocapture" || String.eqb a "readnone")) l).
Proof.
  intros a. rewrite filter_In, negb_true_iff, orb_false_iff, !String.eqb_neq.
  unfold invalid_attr. tauto.
Qed.

Lemma strip_attrs_ditched f : attrs_ditched f (strip_attrs f).
Proof.
  unfold attrs_ditched, strip_attrs. simpl.
  do 4 (split; [reflexivity|]). split; [apply filter_attrs_kept|].
  induction (fparams f) as [|p l IH]; simpl; constructor; auto.
  simpl. split; [reflexivity|]. split; [reflexivity|]. apply filter_attrs_kept.
Qed.

Lemma strip_attrs_idem f : strip_attrs (strip_attrs f) = strip_attrs f.
Proof.
  assert (Hf : forall l,
    filter (fun a => negb (String.eqb a "nocapture" || String.eqb a "readnone"))
      (filter (fun a => negb (String.eqb a "nocapture" || String.eqb a "readnone")) l)
    = filter (fun a => negb (String.eqb a "nocapture" || String.eqb a "readnone")) l).
  { induction l as [|a l IH]; simpl; auto.
    destruct (negb _) eqn:E; simpl; [rewrite E, IH|]; auto. }
  unfold strip_attrs. simpl. rewrite Hf, map_map. f_equal.
  apply map_ext. intros p. simpl. rewrite Hf. reflexivity.
Qed.

(** The functions of the module after the loop over [names]. *)
Lemma strip_all_funcs names : forall m,
  mfuncs (fold_left (fun m f => update_func m f strip_attrs) names m) =
  map (fun f => if existsb (String.eqb (fname f)) names then strip_attrs f else f)
      (mfuncs m).
Proof.
  induction names as [|a l IH]; intros m; simpl.
  - rewrite map_id. reflexivity.
  - rewrite IH. unfold update_func. simpl. rewrite map_map.
    apply map_ext. intros f.
    destruct (String.eqb (fname f) a) eqn:E; simpl.
    + destruct (existsb _ l); [apply strip_attrs_idem | reflexivity].
    + reflexivity.
Qed.

(** X3. The loop "ditch invalid function attributes" takes [nocapture] and
    [readnone] from the return value and from every parameter of
    [runtime.setTaskStatePtr] and of each async function, keeps their other
    attributes and their bodies, and leaves every other function of the
    module as it is. *)
Theorem invalid_attributes_ditched (asyncList : list string) (m : module) :
  mconsts (ditch_attrs asyncList m) = mconsts m /\
  Forall2 (fun f f' =>
             (In (fname f) ("runtime.setTaskStatePtr" :: asyncList) ->
              attrs_ditched f f') /\
             (~ In (fname f) ("runtime.setTaskStatePtr" :: asyncList) -> f' = f))
          (mfuncs m) (mfuncs (ditch_attrs asyncList m)).
Proof.
  split.
  - unfold ditch_attrs.
    generalize ("runtime.setTaskStatePtr" :: asyncList). intros names.
    revert m. induction names as [|a l IH]; intros m; simpl; auto.
    rewrite IH. reflexivity.
  - unfold ditch_attrs. rewrite strip_all_funcs.
    generalize ("runtime.setTaskStatePtr" :: asyncList). intros names.
    induction (mfuncs m) as [|f fs IH]; simpl; constructor; auto.
    destruct (existsb (String.eqb (fname f)) names) eqn:E.
    + apply WorklistFacts.existsb_eqb_In in E. split.
      * intros _. apply strip_attrs_ditched.
      * intros Hn. contradiction.
    + apply WorklistFacts.existsb_eqb_not_In in E. split.
      * intros Hi. contradiction.
      * reflexivity.
Qed.

End AttrFacts.

(** ** The module after the lowering of the goroutine starts *)

Module StartFacts.
Import Lowering.

Local Abbreviation MG := (Fn "runtime.makeGoroutine").

Lemma In_replace_nth n v l x : In x (replace_nth n v l) -> x = v \/ In x l.
Proof.
  revert n. induction l as [|a l IH]; intros n; destruct n; simpl; try tauto.
  - intros [<- | H]; auto.
  - intros [<- | H]; auto. apply IH in H. tauto.
Qed.

Lemma uses_In g i : uses g i = true <-> In g (iops i).
Proof. apply UseFacts.existsb_value_In. Qed.

Lemma not_uses_In g i : uses g i = false <-> ~ In g (iops i).
Proof. rewrite <- uses_In. destruct (uses g i); split; congruence. Qed.

(** An instruction that does not use [runtime.makeGoroutine] is no start. *)
Lemma no_use_start_ok i : uses MG i = false -> start_ok i.
Proof.
  intros H. split.
  - intros Hu. congruence.
  - intros Hin. apply not_uses_In in H. apply H.
    revert Hin. generalize (OperandsCount i - 1). intros n Hin.
    rewrite <- (firstn_skipn n (iops i)). apply in_app_iff. auto.
Qed.

(** The instructions of a function after the lowering of the start [g]:
    those of the function other than [g], and new ones that do not use
    [runtime.makeGoroutine]. *)
Lemma lower_goroutine_no_new_use m pnr fake f g f' :
  Forall start_ok (finsts f) -> start_ok g -> uses MG g = true ->
  lower_goroutine m pnr fake f g = Ok f' ->
  fname f' = fname f /\
  forall i, In i (finsts f') ->
    (In i (finsts f) /\ i <> g) \/ uses MG i = false.
Proof.
  unfold lower_goroutine. intros Hf [Hg _] Hu H.
  destruct (Hg Hu) as [_ [s [t [Eop Hs]]]].
  rewrite Eop in H. simpl in H.
  destruct (getUses f (Reg (iid g))) as [|i2p [|? ?]]; try discriminate.
  destruct (negb (IsAIntToPtrInst i2p)); [discriminate|].
  destruct (getUses f (Reg (iid i2p))) as [|rc [|? ?]] eqn:Hrc; try discriminate.
  destruct (negb (IsACallInst rc)); [discriminate|].
  destruct (firstn (OperandsCount rc - 1) (iops rc)) as [|p0 ps] eqn:Hps;
    [discriminate|].
  assert (Hin : In rc (finsts f)).
  { apply (In_getUses f (Reg (iid i2p)) rc). rewrite Hrc. simpl. auto. }
  assert (Hargs : ~ In MG (p0 :: ps)).
  { rewrite Forall_forall in Hf. destruct (Hf rc Hin) as [_ Hn].
    rewrite Hps in Hn. exact Hn. }
  remember (p0 :: ps) as params.
  destruct (spawn_call m pnr fake (fnext f) (Fn s) params) as [new n] eqn:Es.
  injection H as <-. split; [reflexivity|].
  intros i Hi.
  apply SpawnFacts.In_erase in Hi. destruct Hi as [Hi Hne].
  apply SpawnFacts.In_erase in Hi. destruct Hi as [Hi _].
  apply SpawnFacts.In_erase in Hi. destruct Hi as [Hi _].
  apply StageFacts.In_insert_before_inv in Hi.
  destruct Hi as [Hi | Hi]; [|left; split; assumption].
  right. apply not_uses_In.
  assert (Hcall : forall k ty last, last <> MG ->
            ~ In MG (iops (CreateCall k ty (Fn s)
                             (replace_nth (length params - 1) last params) ""))).
  { intros k ty last Hl. simpl. rewrite in_app_iff. intros [Hx | [Hx | []]].
    - apply In_replace_nth in Hx. destruct Hx as [Hx | Hx]; [congruence | auto].
    - injection Hx as Hx. apply Hs. simpl. auto. }
  unfold spawn_call in Es.
  destruct (parent_not_required_for pnr fake (Fn s)); injection Es as <- _.
  - destruct Hi as [<- | []]. apply Hcall. discriminate.
  - destruct Hi as [<- | [<- | []]].
    + simpl. unfold runtime_fn. simpl. intros [Hx | []]. discriminate.
    + apply Hcall. discriminate.
Qed.

(** The loop over the starts: every user of [runtime.makeGoroutine] is
    among the starts that remain. *)
Lemma lower_goroutines_no_use pnr fake us : forall m m',
  Forall (fun pg => start_ok (snd pg) /\ uses MG (snd pg) = true) us ->
  Forall (fun f => Forall start_ok (finsts f)) (mfuncs m) ->
  (forall f i, In f (mfuncs m) -> In i (finsts f) -> uses MG i = true ->
               In (fname f, i) us) ->
  lower_goroutines pnr fake m us = Ok m' ->
  map fname (mfuncs m') = map fname (mfuncs m) /\
  Forall (fun f => Forall (no_use MG) (finsts f)) (mfuncs m').
Proof.
  induction us as [|[parent g] us IH]; intros m m' Hus Hm Hall H; simpl in H.
  - inversion H; subst. split; [reflexivity|].
    rewrite Forall_forall. intros f Hf. rewrite Forall_forall. intros i Hi.
    unfold no_use. destruct (uses MG i) eqn:E; auto.
    destruct (Hall f i Hf Hi E).
  - inversion Hus as [|? ? [Hg Hu] Hus']; subst. simpl in Hg, Hu.
    destruct (lookup_func m parent) as [f|] eqn:El.
    + destruct (lower_goroutine m pnr fake f g) as [f'|e|e] eqn:Eg;
        simpl in H; try discriminate.
      apply StageFacts.lookup_func_In in El. destruct El as [Hfin Hname].
      assert (Hf : Forall start_ok (finsts f)).
      { rewrite Forall_forall in Hm. apply Hm. exact Hfin. }
      destruct (lower_goroutine_no_new_use _ _ _ _ _ _ Hf Hg Hu Eg) as [Hn Hi].
      apply IH in H; auto.
      * destruct H as [Hnames Hno]. split; [|exact Hno].
        rewrite Hnames. unfold replace_func, update_func. simpl.
        rewrite map_map. apply map_ext. intros x.
        destruct (String.eqb (fname x) (fname f')) eqn:E; auto.
        apply String.eqb_eq in E. auto.
      * apply StageFacts.replace_func_Forall; auto.
        rewrite Forall_forall. intros i Hin.
        destruct (Hi i Hin) as [[Hold _] | Hnew].
        -- rewrite Forall_forall in Hf. auto.
        -- apply no_use_start_ok. exact Hnew.
      * intros x i Hx Hin Hux. unfold replace_func, update_func in Hx.
        simpl in Hx. apply in_map_iff in Hx. destruct Hx as [y [Ey Hy]].
        destruct (String.eqb (fname y) (fname f')) eqn:E.
        -- subst x. destruct (Hi i Hin) as [[Hold Hne] | Hnew]; [|congruence].
           specialize (Hall f i Hfin Hold Hux).
           destruct Hall as [Heq | Hall]; [|rewrite Hn; exact Hall].
           injection Heq as E1 E2. congruence.
        -- subst x. specialize (Hall y i Hy Hin Hux).
           destruct Hall as [Heq | Hall]; [|exact Hall].
           injection Heq as E1 E2. apply String.eqb_neq in E.
           rewrite Hn, Hname in E. congruence.
    + apply IH in H; auto.
      intros x i Hx Hin Hux. specialize (Hall x i Hx Hin Hux).
      destruct Hall as [Heq | Hall]; [|exact Hall].
      injection Heq as E1 E2.
      exfalso. exact (StageFacts.lookup_func_None _ _ El x Hx (eq_sym E1)).
Qed.

(** X4. In a module that declares [runtime.makeGoroutine] and whose users
    of it are calls of it that start other functions, a successful lowering of the goroutine starts
    leaves no instruction that uses [runtime.makeGoroutine], and keeps the
    functions of the module, by name and in order. *)
Theorem goroutine_starts_lowered (parentNotRequired : list string)
        (m m' : module) :
  NamedFunction m "runtime.makeGoroutine" <> Nil ->
  Forall (fun f => Forall start_ok (finsts f)) (mfuncs m) ->
  lowerMakeGoroutineCalls parentNotRequired m = Ok m' ->
  map fname (mfuncs m') = map fname (mfuncs m) /\
  Forall (fun f => Forall (no_use (Fn "runtime.makeGoroutine")) (finsts f))
         (mfuncs m').
Proof.
  intros Hd Hm H. unfold lowerMakeGoroutineCalls in H.
  destruct (SchedulerFacts.NamedFunction_cases m "runtime.makeGoroutine")
    as [E | E]; rewrite E in H; simpl in H.
  - congruence.
  - destruct (const_users m MG); [|discriminate].
    apply lower_goroutines_no_use in H; auto.
    + rewrite Forall_forall. intros [p g] Hin. simpl.
      apply WorklistFacts.In_inst_users in Hin.
      destruct Hin as [fn [Hfn [_ [Hg Hu]]]]. split; [|exact Hu].
      rewrite Forall_forall in Hm. specialize (Hm fn Hfn).
      rewrite Forall_forall in Hm. auto.
    + intros f i Hf Hi Hu. apply WorklistFacts.In_inst_users.
      exists f. auto.
Qed.

(** *** Lowering twice *)

(** No constant expression over [runtime.makeGoroutine] below an operand. *)
Local Abbreviation clean_ops i :=
  (forall v c, In v (iops i) -> In c (subconsts v) ->
               forall op a t, c = ConstExpr op a t -> a <> MG).

Lemma In_module_consts m c :
  In c (module_consts m) <->
  (exists f i v, In f (mfuncs m) /\ In i (finsts f) /\ In v (iops i) /\
                 In c (subconsts v)) \/
  (exists v, In v (mconsts m) /\ In c (subconsts v)).
Proof.
  unfold module_consts. rewrite nodup_In, in_app_iff, !in_flat_map. split.
  - intros [[f [Hf H]] | H]; [left | right; exact H].
    apply in_flat_map in H. destruct H as [i [Hi H]].
    apply in_flat_map in H. destruct H as [v [Hv H]].
    exists f, i, v. auto.
  - intros [[f [i [v [Hf [Hi [Hv H]]]]]] | H]; [left | right; exact H].
    exists f. split; auto. apply in_flat_map. exists i. split; auto.
    apply in_flat_map. exists v. auto.
Qed.

Lemma const_users_nil m g :
  const_users m g = [] <->
  forall c, In c (module_consts m) -> forall op a t, c = ConstExpr op a t -> a <> g.
Proof.
  unfold const_users. split.
  - intros H c Hc op a t -> ->.
    assert (Hin : In (ConstExpr op g t)
                     (filter (fun c => match c with
                                       | ConstExpr _ a _ => value_eqb a g
                                       | _ => false
                                       end) (module_consts m))).
    { apply filter_In. split; auto. apply value_eqb_refl. }
    rewrite H in Hin. destruct Hin.
  - intros H. destruct (filter _ _) as [|c l] eqn:E; auto.
    assert (Hin : In c (c :: l)) by (simpl; auto).
    rewrite <- E in Hin. apply filter_In in Hin. destruct Hin as [Hc Hm].
    destruct c; try discriminate. apply value_eqb_eq in Hm.
    exfalso. exact (H _ Hc _ _ _ eq_refl Hm).
Qed.

Lemma lower_goroutine_clean m pnr fake f g f' :
  start_ok g -> uses MG g = true ->
  (forall i, In i (finsts f) -> clean_ops i) ->
  lower_goroutine m pnr fake f g = Ok f' ->
  forall i, In i (finsts f') -> clean_ops i.
Proof.
  unfold lower_goroutine. intros [Hg _] Hu Hf H.
  destruct (Hg Hu) as [_ [s [t [Eop Hs]]]].
  rewrite Eop in H. simpl in H.
  destruct (getUses f (Reg (iid g))) as [|i2p [|? ?]]; try discriminate.
  destruct (negb (IsAIntToPtrInst i2p)); [discriminate|].
  destruct (getUses f (Reg (iid i2p))) as [|rc [|? ?]] eqn:Hrc; try discriminate.
  destruct (negb (IsACallInst rc)); [discriminate|].
  destruct (firstn (OperandsCount rc - 1) (iops rc)) as [|p0 ps] eqn:Hps;
    [discriminate|].
  assert (Hin : In rc (finsts f)).
  { apply (In_getUses f (Reg (iid i2p)) rc). rewrite Hrc. simpl. auto. }
  assert (Hargs : forall v, In v (p0 :: ps) -> In v (iops rc)).
  { intros v Hv. rewrite <- Hps in Hv.
    rewrite <- (firstn_skipn (OperandsCount rc - 1) (iops rc)).
    apply in_app_iff. auto. }
  remember (p0 :: ps) as params.
  destruct (spawn_call m pnr fake (fnext f) (Fn s) params) as [new n] eqn:Es.
  injection H as <-.
  intros i Hi.
  apply SpawnFacts.In_erase in Hi. destruct Hi as [Hi _].
  apply SpawnFacts.In_erase in Hi. destruct Hi as [Hi _].
  apply SpawnFacts.In_erase in Hi. destruct Hi as [Hi _].
  apply StageFacts.In_insert_before_inv in Hi.
  destruct Hi as [Hi | Hi]; [|apply Hf; exact Hi].
  assert (Hcall : forall k ty last, subconsts last = [] ->
            clean_ops (CreateCall k ty (Fn s)
                         (replace_nth (length params - 1) last params) "")).
  { intros k ty last Hl v c Hv Hc. simpl in Hv. apply in_app_iff in Hv.
    destruct Hv as [Hv | [<- | []]]; [|destruct Hc].
    apply In_replace_nth in Hv. destruct Hv as [-> | Hv].
    - rewrite Hl in Hc. destruct Hc.
    - exact (Hf rc Hin v c (Hargs v Hv) Hc). }
  unfold spawn_call in Es.
  destruct (parent_not_required_for pnr fake (Fn s)); injection Es as <- _.
  - destruct Hi as [<- | []]. apply Hcall. reflexivity.
  - destruct Hi as [<- | [<- | []]].
    + intros v c Hv Hc. simpl in Hv. destruct Hv as [<- | []]. destruct Hc.
    + apply Hcall. reflexivity.
Qed.

Lemma lower_goroutines_clean pnr fake us : forall m m',
  Forall (fun pg => start_ok (snd pg) /\ uses MG (snd pg) = true) us ->
  (forall f i, In f (mfuncs m) -> In i (finsts f) -> clean_ops i) ->
  lower_goroutines pnr fake m us = Ok m' ->
  mconsts m' = mconsts m /\
  (forall f i, In f (mfuncs m') -> In i (finsts f) -> clean_ops i).
Proof.
  induction us as [|[parent g] us IH]; intros m m' Hus Hm H; simpl in H.
  - inversion H; subst. auto.
  - inversion Hus as [|? ? [Hg Hu] Hus']; subst. simpl in Hg, Hu.
    destruct (lookup_func m parent) as [f|] eqn:El; [|apply IH in H; auto].
    destruct (lower_goroutine m pnr fake f g) as [f'|e|e] eqn:Eg;
      simpl in H; try discriminate.
    apply StageFacts.lookup_func_In in El. destruct El as [Hfin Hname].
    apply IH in H; auto.
    intros x i Hx. unfold replace_func, update_func in Hx. simpl in Hx.
    apply in_map_iff in Hx. destruct Hx as [y [Ey Hy]].
    destruct (String.eqb (fname y) (fname f')); subst x.
    + apply (lower_goroutine_clean _ _ _ _ _ _ Hg Hu (fun j => Hm f j Hfin) Eg).
    + apply Hm. exact Hy.
Qed.

Lemma users_in_nil v l :
  Forall (no_use v) l -> users_in v l = [].
Proof.
  induction 1 as [|i l Hi _ IH]; simpl; auto.
  rewrite IH, app_nil_r. unfold count_occ_value.
  unfold no_use, uses in Hi.
  replace (filter (value_eqb v) (iops i)) with (@nil value); [reflexivity|].
  symmetry. induction (iops i) as [|a ops IHo]; simpl in *; auto.
  apply orb_false_iff in Hi. destruct Hi as [Ha Ho]. rewrite Ha. auto.
Qed.

(** X5. The lowering of the goroutine starts is done once: on the module
    it returns, a second lowering, with any set of functions that do not
    need their parent, succeeds and changes nothing. *)
Theorem goroutine_starts_lowered_once (parentNotRequired again : list string)
        (m m' : module) :
  NamedFunction m "runtime.makeGoroutine" <> Nil ->
  Forall (fun f => Forall start_ok (finsts f)) (mfuncs m) ->
  lowerMakeGoroutineCalls parentNotRequired m = Ok m' ->
  lowerMakeGoroutineCalls again m' = Ok m'.
Proof.
  intros Hd Hm H.
  destruct (goroutine_starts_lowered _ _ _ Hd Hm H) as [Hnames Hno].
  unfold lowerMakeGoroutineCalls in *.
  destruct (SchedulerFacts.NamedFunction_cases m "runtime.makeGoroutine")
    as [E | E]; [congruence|].
  rewrite E in H. simpl in H.
  destruct (SchedulerFacts.NamedFunction_cases m' "runtime.makeGoroutine")
    as [E' | E']; rewrite E'; simpl; [reflexivity|].
  destruct (const_users m MG) eqn:Ec; [|discriminate].
  assert (Hstarts : Forall (fun pg => start_ok (snd pg) /\ uses MG (snd pg) = true)
                           (inst_users m MG)).
  { rewrite Forall_forall. intros [p g] Hin. simpl.
    apply WorklistFacts.In_inst_users in Hin.
    destruct Hin as [fn [Hfn [_ [Hg Hu]]]]. split; [|exact Hu].
    rewrite Forall_forall in Hm. specialize (Hm fn Hfn).
    rewrite Forall_forall in Hm. auto. }
  pose proof (proj1 (const_users_nil m MG) Ec) as Hc.
  assert (Hclean0 : forall f i, In f (mfuncs m) -> In i (finsts f) -> clean_ops i).
  { intros f i Hf Hi v c Hv Hin. apply Hc.
    apply In_module_consts. left. exists f, i, v. auto. }
  destruct (lower_goroutines_clean _ _ _ _ _ Hstarts Hclean0 H) as [Hmc Hclean].
  assert (Ec' : const_users m' MG = []).
  { apply const_users_nil. intros c Hin.
    apply In_module_consts in Hin.
    destruct Hin as [[f [i [v [Hf [Hi [Hv Hin]]]]]] | [v [Hv Hin]]].
    - exact (Hclean f i Hf Hi v c Hv Hin).
    - apply Hc. apply In_module_consts. right. exists v.
      rewrite <- Hmc. auto. }
  rewrite Ec'.
  assert (Eu : inst_users m' MG = []).
  { unfold inst_users. clear - Hno.
    induction Hno as [|f fs Hf _ IH]; simpl; auto.
    rewrite IH, app_nil_r.
    unfold getUses. rewrite (users_in_nil _ _ Hf). reflexivity. }
  rewrite Eu. reflexivity.
Qed.

End StartFacts.

(** ** The entry points *)

Module EntryFacts.
Import Lowering.

Local Abbreviation CM := (Fn "runtime.callMain").

Lemma main_not_callMain p : String.append p ".main" <> "runtime.callMain".
Proof.
  intros H.
  do 16 (destruct p as [|? p]; simpl in H; [discriminate H|];
         injection H as _ H).
  destruct p; discriminate H.
Qed.

Lemma realMain_not_callMain m p : NamedFunction m (String.append p ".main") <> CM.
Proof.
  destruct (SchedulerFacts.NamedFunction_cases m (String.append p ".main"))
    as [E | E]; rewrite E; [discriminate|].
  intros H. injection H as H. exact (main_not_callMain p H).
Qed.

(** *** One instruction in place of another *)

Lemma in_place_absent inst new l : ~ In inst l -> in_place_of inst new l = l.
Proof.
  unfold in_place_of. induction l as [|a l IH]; simpl; intros H; auto.
  destruct (instr_eqb a inst) eqn:E.
  - apply instr_eqb_eq in E. tauto.
  - simpl. rewrite IH; tauto.
Qed.

Lemma count_occ_zero inst (l : list instr) :
  count_occ instr_eq_dec l inst = 0 -> ~ In inst l.
Proof. intros H. apply (count_occ_not_In instr_eq_dec). exact H. Qed.

Lemma replace_in_block inst new l :
  count_occ instr_eq_dec l inst <= 1 -> ~ In inst new ->
  filter (fun i => negb (instr_eqb i inst)) (insert_before_inst inst new l) =
  in_place_of inst new l.
Proof.
  intros Hc Hn.
  assert (Hnew : filter (fun i => negb (instr_eqb i inst)) new = new).
  { clear Hc. induction new as [|a new IH]; simpl; auto.
    destruct (instr_eqb a inst) eqn:E; simpl.
    - apply instr_eqb_eq in E. simpl in Hn. tauto.
    - rewrite IH; auto. simpl in Hn. tauto. }
  assert (Hrest : forall r, ~ In inst r ->
            filter (fun i => negb (instr_eqb i inst)) r = r).
  { induction r as [|a r IH]; simpl; auto. intros H.
    destruct (instr_eqb a inst) eqn:E; simpl.
    - apply instr_eqb_eq in E. tauto.
    - rewrite IH; tauto. }
  induction l as [|a l IH]; simpl in *; auto.
  destruct (instr_eq_dec a inst) as [-> | Hne].
  - rewrite instr_eqb_refl. assert (Hl : ~ In inst l).
    { apply count_occ_zero. lia. }
    rewrite filter_app, Hnew. simpl. rewrite instr_eqb_refl. simpl.
    rewrite in_place_absent, Hrest; auto.
  - destruct (instr_eqb a inst) eqn:E; [apply instr_eqb_eq in E; tauto|].
    simpl. rewrite E. simpl. rewrite IH; auto.
Qed.

Lemma count_occ_flat_map inst bs b :
  In b bs ->
  count_occ instr_eq_dec (binsts b) inst <=
  count_occ instr_eq_dec (flat_map binsts bs) inst.
Proof.
  induction bs as [|a bs IH]; simpl; intros H; [tauto|].
  rewrite count_occ_app. destruct H as [<- | H]; [lia|].
  specialize (IH H). lia.
Qed.

Lemma in_place_app inst new l r :
  in_place_of inst new (l ++ r) = in_place_of inst new l ++ in_place_of inst new r.
Proof. unfold in_place_of. apply flat_map_app. Qed.

Lemma finsts_replace inst new f n :
  count_occ instr_eq_dec (finsts f) inst <= 1 -> ~ In inst new ->
  finsts (erase inst (insert_before inst new (set_next f n))) =
  in_place_of inst new (finsts f).
Proof.
  intros Hc Hn. unfold erase. rewrite finsts_filter_insts.
  unfold finsts, insert_before in *. simpl.
  induction (fblocks f) as [|b bs IH]; simpl; auto.
  simpl in Hc. rewrite count_occ_app in Hc.
  rewrite filter_app, in_place_app, IH by lia.
  rewrite replace_in_block by (auto; lia). reflexivity.
Qed.

(** *** The one user of a function *)

Lemma getUsesM_single m g parent inst :
  getUsesM m (Fn g) = [UInst parent inst] ->
  inst_users m (Fn g) = [(parent, inst)] /\ const_users m (Fn g) = [].
Proof.
  unfold getUsesM. simpl. intros H.
  destruct (inst_users m (Fn g)) as [|[p i] [|? ?]]; simpl in H.
  - destruct (const_users m (Fn g)); simpl in H; discriminate.
  - injection H as -> -> H. apply map_eq_nil in H. auto.
  - injection H as _ _ H. discriminate.
Qed.

Lemma users_in_count g inst l :
  uses g inst = true ->
  count_occ instr_eq_dec l inst <= length (users_in g l).
Proof.
  intros Hu. induction l as [|a l IH]; simpl; auto.
  rewrite length_app, repeat_length.
  destruct (instr_eq_dec a inst) as [-> | Hne]; [|lia].
  assert (1 <= count_occ_value g (iops inst)); [|lia].
  apply count_occ_value_pos. exact Hu.
Qed.

Lemma inst_users_length m g f :
  In f (mfuncs m) -> length (getUses f g) <= length (inst_users m g).
Proof.
  unfold inst_users. induction (mfuncs m) as [|a l IH]; simpl; [tauto|].
  rewrite length_app, length_map. intros [<- | H]; [lia|].
  specialize (IH H). lia.
Qed.

Lemma single_user m g parent inst :
  inst_users m (Fn g) = [(parent, inst)] ->
  forall f, In f (mfuncs m) ->
    count_occ instr_eq_dec (finsts f) inst <= 1 /\
    forall i, In i (finsts f) -> uses (Fn g) i = true ->
              i = inst /\ fname f = parent.
Proof.
  intros H f Hf.
  assert (Hu : uses (Fn g) inst = true).
  { assert (Hin : In (parent, inst) (inst_users m (Fn g)))
      by (rewrite H; simpl; auto).
    apply WorklistFacts.In_inst_users in Hin.
    destruct Hin as [fn [_ [_ [_ Hu]]]]. exact Hu. }
  split.
  - pose proof (users_in_count (Fn g) inst (finsts f) Hu) as H1.
    pose proof (inst_users_length m (Fn g) f Hf) as H2.
    rewrite H in H2. simpl in H2. unfold getUses in H2. lia.
  - intros i Hi Hui.
    assert (Hin : In (fname f, i) (inst_users m (Fn g))).
    { apply WorklistFacts.In_inst_users. exists f. auto. }
    rewrite H in Hin. destruct Hin as [E | []]. injection E as -> ->. auto.
Qed.

Lemma lookup_func_found m f :
  In f (mfuncs m) -> exists f0, lookup_func m (fname f) = Some f0.
Proof.
  intros H. unfold lookup_func.
  destruct (find _ _) as [f0|] eqn:E; [eauto|].
  pose proof (find_none _ _ E f H) as Hn. simpl in Hn.
  rewrite String.eqb_refl in Hn. discriminate.
Qed.

Lemma NamedFunction_replace m f' name :
  NamedFunction (replace_func m f') name = NamedFunction m name.
Proof.
  unfold NamedFunction, replace_func, update_func. simpl.
  replace (existsb (fun f => String.eqb (fname f) name)
             (map (fun f => if String.eqb (fname f) (fname f') then f' else f)
                  (mfuncs m)))
    with (existsb (fun f => String.eqb (fname f) name) (mfuncs m));
    [reflexivity|].
  induction (mfuncs m) as [|a l IH]; simpl; auto.
  rewrite IH. f_equal.
  destruct (String.eqb (fname a) (fname f')) eqn:E; auto.
  apply String.eqb_eq in E. rewrite E. reflexivity.
Qed.

Lemma inst_users_nil m g :
  Forall (fun f => Forall (no_use g) (finsts f)) (mfuncs m) ->
  inst_users m g = [].
Proof.
  unfold inst_users. induction 1 as [|f fs Hf _ IH]; simpl; auto.
  rewrite IH, app_nil_r.
  unfold getUses. rewrite (StartFacts.users_in_nil _ _ Hf). reflexivity.
Qed.

Lemma In_in_place inst new l i :
  In i (in_place_of inst new l) -> In i new \/ (In i l /\ i <> inst).
Proof.
  unfold in_place_of. rewrite in_flat_map. intros [j [Hj Hi]].
  destruct (instr_eqb j inst) eqn:E; [auto|].
  destruct Hi as [<- | []]. right. split; auto.
  intros ->. rewrite instr_eqb_refl in E. discriminate.
Qed.

(** The instructions [new] do not use [g] and hold no constant
    expression. *)
Local Abbreviation plain g new :=
  (forall (n : nat) i, In i (new n) ->
     uses (Fn g) i = false /\ forall v, In v (iops i) -> subconsts v = []).

(** The replacement of the one call of [g]. *)
Lemma replace_mainCall_spec m g parent mainCall (new : nat -> list instr) :
  getUsesM m (Fn g) = [UInst parent mainCall] ->
  plain g new ->
  exists f f',
    lookup_func m parent = Some f /\
    replace_mainCall m parent mainCall new = Ok (replace_func m f') /\
    fname f' = parent /\
    finsts f' = in_place_of mainCall (new (fnext f)) (finsts f) /\
    getUsesM (replace_func m f') (Fn g) = [].
Proof.
  intros Hu Hnew. destruct (getUsesM_single _ _ _ _ Hu) as [Hi Hc].
  pose proof (single_user _ _ _ _ Hi) as Hone.
  assert (Hin : In (parent, mainCall) (inst_users m (Fn g)))
    by (rewrite Hi; simpl; auto).
  apply WorklistFacts.In_inst_users in Hin.
  destruct Hin as [fn [Hfn [Hname [Hmc Hug]]]].
  destruct (lookup_func_found m fn Hfn) as [f Hl]. rewrite Hname in Hl.
  apply StageFacts.lookup_func_In in Hl as Hf. destruct Hf as [Hf Hfname].
  unfold replace_mainCall. rewrite Hl.
  set (l := new (fnext f)).
  set (f' := erase mainCall (insert_before mainCall l
                               (set_next f (length l + fnext f)))).
  assert (Hnot : ~ In mainCall l).
  { intros Hx. destruct (Hnew _ _ Hx) as [Hx' _]. congruence. }
  assert (Hinsts : finsts f' = in_place_of mainCall l (finsts f)).
  { apply finsts_replace; auto. apply (Hone f Hf). }
  exists f, f'. split; [reflexivity|]. split; [reflexivity|].
  split; [exact Hfname|]. split; [exact Hinsts|].
  assert (Hno : Forall (fun x => Forall (no_use (Fn g)) (finsts x))
                       (mfuncs (replace_func m f'))).
  { rewrite Forall_forall. intros x Hx.
    unfold replace_func, update_func in Hx. cbn [mfuncs] in Hx.
    apply in_map_iff in Hx. destruct Hx as [y [Ey Hy]].
    rewrite Forall_forall. intros i Hix. unfold no_use.
    destruct (uses (Fn g) i) eqn:Eu; auto. exfalso.
    destruct (String.eqb (fname y) (fname f')) eqn:E; subst x.
    - rewrite Hinsts in Hix. apply In_in_place in Hix.
      destruct Hix as [Hix | [Hix Hne]].
      + destruct (Hnew _ _ Hix) as [Hx' _]. congruence.
      + destruct (proj2 (Hone f Hf) i Hix Eu) as [-> _]. auto.
    - destruct (proj2 (Hone y Hy) i Hix Eu) as [_ Hp].
      apply String.eqb_neq in E. apply E. simpl. congruence. }
  unfold getUsesM. simpl. rewrite (inst_users_nil _ _ Hno). simpl.
  replace (const_users (replace_func m f') (Fn g)) with (@nil value);
    [reflexivity|].
  symmetry. apply StartFacts.const_users_nil. intros c Hcin.
  apply (proj1 (StartFacts.const_users_nil m (Fn g)) Hc).
  apply StartFacts.In_module_consts. apply StartFacts.In_module_consts in Hcin.
  destruct Hcin as [[x [i [v [Hx [Hix [Hv Hcv]]]]]] | Hcin]; [|right; exact Hcin].
  left. unfold replace_func, update_func in Hx. cbn [mfuncs] in Hx.
  apply in_map_iff in Hx. destruct Hx as [y [Ey Hy]].
  destruct (String.eqb (fname y) (fname f')); subst x.
  - rewrite Hinsts in Hix. apply In_in_place in Hix.
    destruct Hix as [Hix | [Hix _]].
    + destruct (Hnew _ _ Hix) as [_ Hx']. rewrite (Hx' v Hv) in Hcv.
      destruct Hcv.
    + exists f, i, v. auto.
  - exists y, i, v. auto.
Qed.

Lemma coroutines_main_plain m p b :
  plain "runtime.callMain"
        (coroutines_main m (NamedFunction m (String.append p ".main")) b).
Proof.
  intros n i Hi. unfold coroutines_main in Hi.
  pose proof (realMain_not_callMain m p) as Hr.
  assert (Hs : subconsts (NamedFunction m (String.append p ".main")) = []).
  { destruct (SchedulerFacts.NamedFunction_cases m (String.append p ".main"))
      as [E | E]; rewrite E; reflexivity. }
  simpl in Hi. destruct Hi as [<- | [<- | Hi]].
  - split; [reflexivity|]. intros v [<- | []]. reflexivity.
  - split.
    + apply StartFacts.not_uses_In. simpl.
      intros [E | [E | [E | []]]]; try discriminate. congruence.
    + intros v [<- | [<- | [<- | []]]]; auto.
  - destruct b; [|destruct Hi]. destruct Hi as [<- | []].
    split; [reflexivity|]. intros v [<- | []]. reflexivity.
Qed.

(** X6. [lowerCoroutines], once [markAsyncFunctions] has returned: it
    panics unless [runtime.callMain] has exactly one user, a call
    instruction.  Otherwise the instructions of the calling function stay
    as they are but for that call, in whose place stand a call of
    [getFakeCoroutine], the call of the main function of the program with
    an undefined context and that coroutine, and, exactly when a scheduler
    is needed, a call of [runtime.scheduler]; [runtime.callMain] has no
    user left; the main function gets internal linkage, and so does
    [go_scheduler] when it exists and no scheduler is needed. *)
Theorem coroutines_main_called (cfg : config) (m : module)
        (needsScheduler : bool) (m1 : module) :
  markAsyncFunctions cfg m = Some (Ok (needsScheduler, m1)) ->
  let realMain := NamedFunction m1 (String.append (mainPath cfg) ".main") in
  match getUsesM m1 (NamedFunction m1 "runtime.callMain") with
  | [UInst parent mainCall] =>
      if IsACallInst mainCall then
        exists f f',
          lookup_func m1 parent = Some f /\
          fname f' = parent /\
          finsts f' =
            in_place_of mainCall
              (coroutines_main m1 realMain needsScheduler (fnext f)) (finsts f) /\
          getUsesM (replace_func m1 f') (Fn "runtime.callMain") = [] /\
          lowerCoroutines cfg m =
            Some (Ok (replace_func m1 f',
                      (if negb needsScheduler &&
                          negb (IsNil (NamedFunction m1 "go_scheduler"))
                       then [NamedFunction m1 "go_scheduler"] else [])
                      ++ [realMain]))
      else lowerCoroutines cfg m = Some callMain_panic
  | _ => lowerCoroutines cfg m = Some callMain_panic
  end.
Proof.
  intros Hm realMain. unfold lowerCoroutines, find_mainCall. rewrite Hm. simpl.
  destruct (getUsesM m1 (NamedFunction m1 "runtime.callMain"))
    as [|[parent mainCall | c] [|? ?]] eqn:Hu; try reflexivity.
  destruct (IsACallInst mainCall) eqn:Hc; simpl; [|reflexivity].
  assert (Hd : NamedFunction m1 "runtime.callMain" = CM).
  { destruct (SchedulerFacts.NamedFunction_cases m1 "runtime.callMain")
      as [E | E]; [|exact E].
    rewrite E in Hu. discriminate. }
  rewrite Hd in Hu.
  destruct (replace_mainCall_spec m1 _ parent mainCall
              (coroutines_main m1 realMain needsScheduler) Hu
              (coroutines_main_plain m1 (mainPath cfg) needsScheduler))
    as [f [f' [Hl [Hr [Hn [Hi Hg]]]]]].
  exists f, f'. repeat (split; [assumption|]).
  fold realMain. rewrite Hr. simpl. rewrite NamedFunction_replace. reflexivity.
Qed.

Section Tasks.

Variable createGoroutineStartWrapper : module -> value -> module * value.

Lemma tasks_direct_plain m p :
  plain "runtime.callMain"
        (tasks_direct m (NamedFunction m (String.append p ".main"))).
Proof.
  intros n i Hi. unfold tasks_direct in Hi.
  pose proof (realMain_not_callMain m p) as Hr.
  assert (Hs : subconsts (NamedFunction m (String.append p ".main")) = []).
  { destruct (SchedulerFacts.NamedFunction_cases m (String.append p ".main"))
      as [E | E]; rewrite E; reflexivity. }
  destruct Hi as [<- | []]. split.
  - apply StartFacts.not_uses_In. simpl.
    intros [E | [E | [E | []]]]; try discriminate. congruence.
  - intros v [<- | [<- | [<- | []]]]; auto.
Qed.

(** X7. [lowerTasks] panics unless [runtime.callMain] has exactly one
    user, a call instruction.  When [runtime.startGoroutine] has no user,
    the main function of the program is called directly, with an undefined
    context and an undefined parent, in place of that call: no wrapper is
    made and no scheduler is called, every other instruction stays, and
    [runtime.callMain] has no user left.  When it has users, the calls of
    [runtime.startGoroutine], with the wrapper of the main function and
    the stack size [0], and of [runtime.scheduler] are put in place of the
    call.  The main function gets internal linkage. *)
Theorem tasks_main_called (cfg : config) (m : module) :
  let realMain := NamedFunction m (String.append (mainPath cfg) ".main") in
  match getUsesM m (NamedFunction m "runtime.callMain") with
  | [UInst parent mainCall] =>
      if IsACallInst mainCall then
        match getUsesM m (NamedFunction m "runtime.startGoroutine") with
        | [] =>
            exists f f',
              lookup_func m parent = Some f /\
              fname f' = parent /\
              finsts f' = in_place_of mainCall
                            (tasks_direct m realMain (fnext f)) (finsts f) /\
              getUsesM (replace_func m f') (Fn "runtime.callMain") = [] /\
              lowerTasks createGoroutineStartWrapper cfg m =
                Ok (replace_func m f', [realMain])
        | _ :: _ =>
            let mw := fst (createGoroutineStartWrapper m realMain) in
            let wrapper := snd (createGoroutineStartWrapper m realMain) in
            match lookup_func mw parent with
            | Some f =>
                exists f',
                  fname f' = fname f /\
                  (count_occ instr_eq_dec (finsts f) mainCall <= 1 ->
                   wrapper <> Fn "runtime.callMain" ->
                   finsts f' = in_place_of mainCall
                                 (tasks_scheduled cfg wrapper (fnext f))
                                 (finsts f)) /\
                  lowerTasks createGoroutineStartWrapper cfg m =
                    Ok (replace_func mw f', [realMain])
            | None =>
                lowerTasks createGoroutineStartWrapper cfg m = callMain_panic
            end
        end
      else lowerTasks createGoroutineStartWrapper cfg m = callMain_panic
  | _ => lowerTasks createGoroutineStartWrapper cfg m = callMain_panic
  end.
Proof.
  intros realMain. unfold lowerTasks, find_mainCall.
  destruct (getUsesM m (NamedFunction m "runtime.callMain"))
    as [|[parent mainCall | c] [|? ?]] eqn:Hu; try reflexivity.
  destruct (IsACallInst mainCall) eqn:Hc; simpl; [|reflexivity].
  assert (Hd : NamedFunction m "runtime.callMain" = CM).
  { destruct (SchedulerFacts.NamedFunction_cases m "runtime.callMain")
      as [E | E]; [|exact E].
    rewrite E in Hu. discriminate. }
  rewrite Hd in Hu.
  destruct (getUsesM m (NamedFunction m "runtime.startGoroutine")) eqn:Hs.
  - destruct (replace_mainCall_spec m _ parent mainCall
                (tasks_direct m realMain) Hu
                (tasks_direct_plain m (mainPath cfg)))
      as [f [f' [Hl [Hr [Hn [Hi Hg]]]]]].
    exists f, f'. repeat (split; [assumption|]).
    fold realMain. rewrite Hr. reflexivity.
  - fold realMain.
    destruct (createGoroutineStartWrapper m realMain) as [mw wrapper]. simpl.
    unfold replace_mainCall.
    destruct (lookup_func mw parent) as [f|] eqn:Hl; [|reflexivity].
    eexists. split; [|split; [|reflexivity]].
    + reflexivity.
    + intros Hcount Hw. apply finsts_replace; auto.
      intros Hin. simpl in Hin.
      assert (Hmu : uses CM mainCall = true).
      { destruct (getUsesM_single _ _ _ _ Hu) as [Hi _].
        assert (Hx : In (parent, mainCall) (inst_users m CM))
          by (rewrite Hi; simpl; auto).
        apply WorklistFacts.In_inst_users in Hx.
        destruct Hx as [fn [_ [_ [_ Hx]]]]. exact Hx. }
      apply StartFacts.uses_In in Hmu.
      destruct Hin as [<- | [<- | []]]; simpl in Hmu.
      * destruct Hmu as [E | [E | [E | []]]]; try discriminate. congruence.
      * destruct Hmu as [E | []]. discriminate.
Qed.

End Tasks.

End EntryFacts.

(** ** The theorems at the example programs *)

Import Lowering.



Lemma nonReturning_classified_and_cut_witness :
  NamedFunction Examples.deadlock_module yieldName <> Nil /\
  Async Examples.deadlock_module "runtime.deadlock" /\
  lookup_func Examples.deadlock_module "runtime.deadlock"
    = Some Examples.deadlockFn /\
  exists asyncList,
    find_async Examples.deadlock_module = Some (Ok asyncList) /\
    In "runtime.deadlock"
       (snd (mark_nonReturning (Fn yieldName)
               (NamedFunction Examples.deadlock_module "runtime.getCoroutine")
               asyncList Examples.deadlock_module)) /\
    spec_nonReturning (Fn yieldName)
      (NamedFunction Examples.deadlock_module "runtime.getCoroutine")
      asyncList Examples.deadlockFn /\
    lookup_func
      (fst (mark_nonReturning (Fn yieldName)
              (NamedFunction Examples.deadlock_module "runtime.getCoroutine")
              asyncList Examples.deadlock_module)) "runtime.deadlock"
      = Some (inject_noret (Fn yieldName) Examples.deadlockFn) /\
    finsts (inject_noret (Fn yieldName) Examples.deadlockFn)
      = [createRuntimeCall 3 "noret" [] ""; CreateRetVoid 4].
Proof.
  assert (Hy : NamedFunction Examples.deadlock_module yieldName <> Nil)
    by (vm_compute; discriminate).
  assert (Hf : find_async Examples.deadlock_module =
               Some (Ok ["runtime.yield"; "runtime.deadlock"; "main.main"]))
    by (vm_compute; reflexivity).
  assert (Ha : Async Examples.deadlock_module "runtime.deadlock").
  { apply (proj2 (PseudoFacts.find_async_Ok _ _ Hy Hf)). simpl. auto. }
  assert (Hl : lookup_func Examples.deadlock_module "runtime.deadlock"
               = Some Examples.deadlockFn) by reflexivity.
  split; [exact Hy|]. split; [exact Ha|]. split; [exact Hl|].
  eexists. split; [exact Hf|].
  destruct (PassFacts.nonReturning_classified_and_cut
              Examples.deadlock_module _ "runtime.deadlock" Examples.deadlockFn
              Hy Hf Ha ltac:(discriminate) Hl) as [H1 [H2 _]].
  assert (Hin : In "runtime.deadlock"
                   (snd (mark_nonReturning (Fn yieldName)
                           (NamedFunction Examples.deadlock_module
                                          "runtime.getCoroutine")
                           ["runtime.yield"; "runtime.deadlock"; "main.main"]
                           Examples.deadlock_module)))
    by (vm_compute; auto).
  split; [exact Hin|].
  split; [exact (proj1 H1 Hin)|].
  split; [exact (H2 (proj1 H1 Hin))|].
  vm_compute. reflexivity.
Defined.

Lemma tail_yields_all_or_nothing_witness :
  NamedFunction Examples.async_module yieldName <> Nil /\
  Async Examples.async_module "time.Sleep" /\
  exists asyncList f2,
    find_async Examples.async_module = Some (Ok asyncList) /\
    lookup_func (calls_rewritten (Fn yieldName) asyncList Examples.async_module)
                "time.Sleep" = Some f2 /\
    lookup_func (tail_yields_ditched (Fn yieldName) asyncList Examples.async_module)
                "time.Sleep" =
      Some (ditch_tail_yields (Fn yieldName)
              (NamedFunction Examples.async_module "runtime.noret") f2).
Proof.
  assert (Hy : NamedFunction Examples.async_module yieldName <> Nil)
    by (vm_compute; discriminate).
  assert (Hf : find_async Examples.async_module =
               Some (Ok ["runtime.yield"; "time.Sleep"; "main.main"; "main.foo";
                         "main.bar"; "main.baz"]))
    by (vm_compute; reflexivity).
  assert (Ha : Async Examples.async_module "time.Sleep").
  { apply (proj2 (PseudoFacts.find_async_Ok _ _ Hy Hf)). simpl. auto. }
  split; [exact Hy|]. split; [exact Ha|].
  destruct (lookup_func
              (calls_rewritten (Fn yieldName)
                 ["runtime.yield"; "time.Sleep"; "main.main"; "main.foo";
                  "main.bar"; "main.baz"] Examples.async_module) "time.Sleep")
    as [f2|] eqn:E2; [|vm_compute in E2; discriminate E2].
  eexists. exists f2. split; [exact Hf|]. split; [exact E2|].
  exact (proj1 (PassFacts.tail_yields_all_or_nothing
                  Examples.async_module _ "time.Sleep" f2
                  Hy Hf Ha ltac:(discriminate) E2)).
Defined.


Lemma pseudo_calls_consumed_witness :
  pass_input pseudo_functions Examples.async_module /\
  forall name f',
    Async Examples.async_module name -> name <> yieldName ->
    lookup_func (Examples.lowered Examples.arm_cfg Examples.async_module) name
      = Some f' ->
    forall i x, In i (finsts f') -> In x pseudo_functions -> calls (Fn x) i = false.
Proof.
  assert (H : pass_input pseudo_functions Examples.async_module).
  { constructor; try (vm_compute; discriminate).
    - intros f Hin E. simpl in Hin.
      repeat (destruct Hin as [<- | Hin]; [try reflexivity; discriminate E|]).
      destruct Hin.
    - cbv [Examples.async_module mfuncs finsts flat_map app fblocks binsts
             Examples.decl Examples.sleepFn Examples.barFn Examples.fooFn
             Examples.bazFn Examples.asyncMainFn Examples.startFn].
      repeat (apply Forall_cons || apply Forall_nil);
        intros Hu; try discriminate Hu.
      split; [reflexivity|]. exists "main.foo", (TInt 32).
      split; [reflexivity|]. simpl.
      intros [E | [E | [E | [E | []]]]]; discriminate E. }
  split; [exact H|].
  intros name f'.
  apply (proj1 (PseudoFacts.pseudo_calls_consumed
                  Examples.arm_cfg Examples.async_module H)).
  vm_compute. reflexivity.
Defined.

Lemma coroutine_frames_witness :
  frame_input Examples.async_module /\
  exists f',
    lookup_func (Examples.lowered Examples.arm_cfg Examples.async_module) "main.foo"
      = Some f' /\
    count_calls coroIdFunc f' = 1 /\ count_calls coroSuspendFunc f' = 1.
Proof.
  assert (H : frame_input Examples.async_module).
  { constructor.
    - constructor; try (vm_compute; discriminate).
      + intros f Hin E. simpl in Hin.
        repeat (destruct Hin as [<- | Hin]; [try reflexivity; discriminate E|]).
        destruct Hin.
      + cbv [Examples.async_module mfuncs finsts flat_map app fblocks binsts
               Examples.decl Examples.sleepFn Examples.barFn Examples.fooFn
               Examples.bazFn Examples.asyncMainFn Examples.startFn].
        repeat (apply Forall_cons || apply Forall_nil);
          intros Hu; try discriminate Hu.
        split; [reflexivity|]. exists "main.foo", (TInt 32).
        split; [reflexivity|]. simpl.
        intros E. repeat (destruct E as [E | E]; [discriminate E|]). exact E.
    - intros f Hin E. simpl in Hin.
      repeat (destruct Hin as [<- | Hin]; [try reflexivity; discriminate E|]).
      destruct Hin.
    - intros s Hs. simpl in Hs.
      repeat (destruct Hs as [<- | Hs];
              [cbv [Examples.async_module mfuncs finsts flat_map app fblocks binsts
                      Examples.decl Examples.sleepFn Examples.barFn Examples.fooFn
                      Examples.bazFn Examples.asyncMainFn Examples.startFn];
               repeat (apply Forall_cons || apply Forall_nil); reflexivity|]).
      destruct Hs.
    - cbv [Examples.async_module mfuncs].
      repeat (apply Forall_cons || apply Forall_nil); reflexivity.
    - cbv [Examples.async_module mfuncs finsts flat_map app fblocks binsts
             Examples.decl Examples.sleepFn Examples.barFn Examples.fooFn
             Examples.bazFn Examples.asyncMainFn Examples.startFn].
      repeat (apply Forall_cons || apply Forall_nil);
        intros E; try discriminate E; simpl; lia. }
  split; [exact H|].
  assert (Hy : NamedFunction Examples.async_module yieldName <> Nil)
    by (vm_compute; discriminate).
  assert (Hm : markAsyncFunctions Examples.arm_cfg Examples.async_module =
               Some (Ok (true, Examples.lowered Examples.arm_cfg
                                                Examples.async_module)))
    by (vm_compute; reflexivity).
  assert (Hf : find_async Examples.async_module =
               Some (Ok ["runtime.yield"; "time.Sleep"; "main.main"; "main.foo";
                         "main.bar"; "main.baz"]))
    by (vm_compute; reflexivity).
  assert (Ha : Async Examples.async_module "main.foo").
  { apply (proj2 (PseudoFacts.find_async_Ok _ _ Hy Hf)). simpl. auto. }
  destruct (lookup_func
              (tail_yields_ditched (Fn yieldName)
                 ["runtime.yield"; "time.Sleep"; "main.main"; "main.foo";
                  "main.bar"; "main.baz"] Examples.async_module) "main.foo")
    as [f3|] eqn:E3; [|vm_compute in E3; discriminate E3].
  destruct (lookup_func (Examples.lowered Examples.arm_cfg Examples.async_module)
                        "main.foo") as [f'|] eqn:El;
    [|vm_compute in El; discriminate El].
  exists f'. split; [reflexivity|].
  destruct (FrameFacts.coroutine_frames
              Examples.arm_cfg Examples.async_module _ _ "main.foo" f3 f'
              H Hm Hf Ha ltac:(discriminate) E3 El) as [_ [_ [Hpos _]]].
  vm_compute in E3. injection E3 as <-.
  destruct Hpos as [K1 [_ [_ [_ K5]]]]; [vm_compute; lia|].
  split; [exact K1|]. rewrite K5. reflexivity.
Defined.

Lemma async_tail_call_witness :
  NamedFunction Examples.async_module yieldName <> Nil /\
  Async Examples.async_module "main.baz" /\
  Async Examples.async_module "main.bar" /\
  exists asyncList,
    find_async Examples.async_module = Some (Ok asyncList) /\
    lookup_func
      (fst (mark_nonReturning (Fn yieldName)
              (NamedFunction Examples.async_module "runtime.getCoroutine")
              asyncList Examples.async_module)) "main.baz" = Some Examples.bazFn /\
    ids_below Examples.bazFn /\
    ~ In "main.bar"
         (snd (mark_nonReturning (Fn yieldName)
                 (NamedFunction Examples.async_module "runtime.getCoroutine")
                 asyncList Examples.async_module)) /\
    lookup_func (calls_rewritten (Fn yieldName) asyncList Examples.async_module)
                "main.baz" =
      Some (rewrite_async_calls (Fn yieldName) asyncList
              (snd (mark_nonReturning (Fn yieldName)
                      (NamedFunction Examples.async_module "runtime.getCoroutine")
                      asyncList Examples.async_module))
              (fst (mark_nonReturning (Fn yieldName)
                      (NamedFunction Examples.async_module "runtime.getCoroutine")
                      asyncList Examples.async_module))
              Examples.bazFn) /\
    exists before after call ret,
      flatten (fblocks
        (rewrite_async_calls (Fn yieldName) asyncList
              (snd (mark_nonReturning (Fn yieldName)
                      (NamedFunction Examples.async_module "runtime.getCoroutine")
                      asyncList Examples.async_module))
              (fst (mark_nonReturning (Fn yieldName)
                      (NamedFunction Examples.async_module "runtime.getCoroutine")
                      asyncList Examples.async_module))
              Examples.bazFn)) =
      before ++
      [Ins (createRuntimeCall 3 "getParentHandle" [] ""); Ins call;
       Ins (createRuntimeCall 4 "yield" [] "");
       Ins (createRuntimeCall 5 "noret" [] "");
       Ins ret] ++ after /\
      Operand call 1 = Reg 3 /\
      Operand ret 0 = Undef (TPtr (TInt 32)).
Proof.
  assert (Hy : NamedFunction Examples.async_module yieldName <> Nil)
    by (vm_compute; discriminate).
  assert (Hf : find_async Examples.async_module =
               Some (Ok ["runtime.yield"; "time.Sleep"; "main.main"; "main.foo";
                         "main.bar"; "main.baz"]))
    by (vm_compute; reflexivity).
  assert (Ha : Async Examples.async_module "main.baz").
  { apply (proj2 (PseudoFacts.find_async_Ok _ _ Hy Hf)). simpl. tauto. }
  assert (Hbar : Async Examples.async_module "main.bar").
  { apply (proj2 (PseudoFacts.find_async_Ok _ _ Hy Hf)). simpl. tauto. }
  assert (Hnr : ~ In "main.bar"
                  (snd (mark_nonReturning (Fn yieldName)
                          (NamedFunction Examples.async_module
                                         "runtime.getCoroutine")
                          ["runtime.yield"; "time.Sleep"; "main.main"; "main.foo";
                           "main.bar"; "main.baz"] Examples.async_module))).
  { vm_compute. tauto. }
  assert (Hids : ids_below Examples.bazFn).
  { unfold ids_below. simpl. repeat constructor. }
  split; [exact Hy|]. split; [exact Ha|]. split; [exact Hbar|].
  eexists. split; [exact Hf|].
  split; [vm_compute; reflexivity|]. split; [exact Hids|].
  split; [exact Hnr|].
  assert (Hw : forall L,
             walk (fst (mark_nonReturning (Fn yieldName)
                          (NamedFunction Examples.async_module "runtime.getCoroutine")
                          L Examples.async_module))
                  (Fn yieldName) L
                  (snd (mark_nonReturning (Fn yieldName)
                          (NamedFunction Examples.async_module "runtime.getCoroutine")
                          L Examples.async_module))
                  Examples.bazFn
                  (push (mkSite [] Nil TVoid 3) (Hdr 0 "entry"))
                  [Ins (Examples.call 1 (TPtr (TInt 32)) "main.bar"
                                      [Undef i8ptrType; Undef i8ptrType]);
                   Ins (mkInstr 2 "" Ret TVoid [Reg 1])]).
  { intros L. apply walk_header. apply walk_start. }
  destruct (PassFacts.async_tail_call
              Examples.async_module _ "main.baz" Examples.bazFn
              (push (mkSite [] Nil TVoid 3) (Hdr 0 "entry"))
              (Examples.call 1 (TPtr (TInt 32)) "main.bar"
                             [Undef i8ptrType; Undef i8ptrType])
              [Ins (mkInstr 2 "" Ret TVoid [Reg 1])] "main.bar"
              Hy Hf Ha ltac:(discriminate)
              ltac:(vm_compute; reflexivity) Hids
              (Hw _)
              ltac:(reflexivity) ltac:(reflexivity)
              Hbar ltac:(discriminate) Hnr)
    as [H1 [_ H3]].
  split; [exact H1|].
  destruct H3 as [nx [Hnx [_ [before [after [call [ret [Hb [_ [_ [_ [_ [Hc [_ [_ Hr]]]]]]]]]]]]]]].
  { exists (mkInstr 2 "" Ret TVoid [Reg 1]).
    split; [reflexivity|]. split; [reflexivity|]. split; [right; reflexivity|].
    reflexivity. }
  exists before, after, call, ret.
  split; [exact Hb|]. split.
  - apply Hc. cbv. repeat constructor.
  - injection Hnx as <-. apply Hr; [reflexivity | cbv; repeat constructor].
Defined.

Lemma OptimizeAllocs_stack_only_small_nonescaping_witness :
  (0 < 4)%Z /\
  (forall f, In f (mfuncs Examples.alloc_module) -> Allocs.numbered f) /\
  exists r,
    Allocs.OptimizeAllocs Examples.no_flags 4 Examples.alloc_module = Some r /\
    (forall e, r <> Err e) /\
    Allocs.alloc_run Examples.no_flags 4 Examples.alloc_module
      (Allocs.module_users Examples.alloc_module (Fn "runtime.alloc")) r /\
    exists m',
      r = Ok m' /\
      option_map finsts (lookup_func m' "main.f") =
        Some [mkInstr 5 "stackalloc.alloca" Alloca (TPtr (TArray 2 (TInt 32))) [];
              mkInstr 6 "" Store TVoid [ConstNull (TArray 2 (TInt 32)); Reg 5];
              mkInstr 7 "stackalloc" BitCast (TPtr (TInt 32)) [Reg 5];
              mkInstr 3 "" Load (TInt 32) [Reg 7];
              mkInstr 4 "" Ret TVoid []].
Proof.
  assert (Ha : (0 < 4)%Z) by lia.
  assert (Hm : forall f, In f (mfuncs Examples.alloc_module) -> Allocs.numbered f).
  { intros f Hf. simpl in Hf.
    destruct Hf as [<- | [<- | [<- | []]]]; split;
      try (unfold ids_below; simpl; repeat (constructor; [simpl; lia|]);
           constructor);
      exists (fun id => id); intros u k Hu Hop Hk; simpl in Hu;
      repeat (destruct Hu as [<- | Hu];
              [simpl in Hop, Hk;
               try (destruct Hop; discriminate);
               repeat (destruct Hk as [Hk | Hk];
                       [inversion Hk; subst; simpl; lia |]);
               destruct Hk |]);
      destruct Hu. }
  split; [exact Ha|]. split; [exact Hm|].
  destruct (AllocsFacts.OptimizeAllocs_stack_only_small_nonescaping
              Examples.no_flags 4%Z Examples.alloc_module Ha Hm)
    as [r [Hr [He [_ [Hrun _]]]]].
  exists r. split; [exact Hr|]. split; [exact He|].
  split; [apply Hrun; vm_compute; discriminate|].
  vm_compute in Hr. injection Hr as <-.
  eexists. split; [reflexivity|]. vm_compute. reflexivity.
Defined.

Lemma async_functions_found_iff_uses_accepted_witness :
  NamedFunction Examples.async_module yieldName <> Nil /\
  exists r, find_async Examples.async_module = Some r /\
    (forall e, r <> Panic e) /\
    ((exists asyncList, r = Ok asyncList) <->
     (forall f u, Async Examples.async_module f ->
                  In u (getUsesM Examples.async_module (Fn f)) ->
                  accepted_use Examples.async_module f u)).
Proof.
  assert (H : NamedFunction Examples.async_module yieldName <> Nil)
    by (vm_compute; discriminate).
  split; [exact H|].
  exact (UseFacts.async_functions_found_iff_uses_accepted Examples.async_module H).
Defined.

Lemma spawn_module_starts :
  Forall (fun f => Forall start_ok (finsts f)) (mfuncs Examples.spawn_module).
Proof.
  cbv [Examples.spawn_module mfuncs finsts flat_map app fblocks binsts
         Examples.decl Examples.workFn Examples.spawnMainFn Examples.startFn].
  repeat (apply Forall_cons || apply Forall_nil);
    try (apply StartFacts.no_use_start_ok; reflexivity).
  split.
  - intros _. split; [reflexivity|]. exists "main.work", (TInt 32).
    split; [reflexivity|]. simpl. intros [E | []]. discriminate E.
  - simpl. intros [E | []]. discriminate E.
Defined.

Lemma goroutine_starts_lowered_witness :
  NamedFunction Examples.spawn_module "runtime.makeGoroutine" <> Nil /\
  Forall (fun f => Forall start_ok (finsts f)) (mfuncs Examples.spawn_module) /\
  exists m', lowerMakeGoroutineCalls [] Examples.spawn_module = Ok m' /\
    Forall (fun f => Forall (no_use (Fn "runtime.makeGoroutine")) (finsts f))
           (mfuncs m').
Proof.
  assert (Hd : NamedFunction Examples.spawn_module "runtime.makeGoroutine" <> Nil)
    by (vm_compute; discriminate).
  split; [exact Hd|]. split; [exact spawn_module_starts|].
  destruct (lowerMakeGoroutineCalls [] Examples.spawn_module) as [m'|e|e] eqn:El;
    [|vm_compute in El; discriminate El..].
  exists m'. split; [reflexivity|].
  exact (proj2 (StartFacts.goroutine_starts_lowered
                  [] _ _ Hd spawn_module_starts El)).
Defined.

Lemma goroutine_starts_lowered_once_witness :
  NamedFunction Examples.spawn_module "runtime.makeGoroutine" <> Nil /\
  Forall (fun f => Forall start_ok (finsts f)) (mfuncs Examples.spawn_module) /\
  exists m', lowerMakeGoroutineCalls [] Examples.spawn_module = Ok m' /\
             lowerMakeGoroutineCalls ["main.work"] m' = Ok m'.
Proof.
  assert (Hd : NamedFunction Examples.spawn_module "runtime.makeGoroutine" <> Nil)
    by (vm_compute; discriminate).
  split; [exact Hd|]. split; [exact spawn_module_starts|].
  destruct (lowerMakeGoroutineCalls [] Examples.spawn_module) as [m'|e|e] eqn:El;
    [|vm_compute in El; discriminate El..].
  exists m'. split; [reflexivity|].
  exact (StartFacts.goroutine_starts_lowered_once
           [] ["main.work"] _ _ Hd spawn_module_starts El).
Defined.

Lemma coroutines_main_called_witness :
  exists m1,
    markAsyncFunctions Examples.arm_cfg Examples.spawn_module = Some (Ok (false, m1)) /\
    exists m',
      lowerCoroutines Examples.arm_cfg Examples.spawn_module =
        Some (Ok (m', [Fn "main.main"])) /\
      getUsesM m' (Fn "runtime.callMain") = [].
Proof.
  destruct (markAsyncFunctions Examples.arm_cfg Examples.spawn_module)
    as [[[[|] m1]|e|e]|] eqn:Hm; try (vm_compute in Hm; discriminate Hm).
  exists m1. split; [reflexivity|].
  pose proof (EntryFacts.coroutines_main_called
                Examples.arm_cfg Examples.spawn_module false m1 Hm) as H.
  cbv zeta in H.
  assert (E : m1 = Examples.lowered Examples.arm_cfg Examples.spawn_module).
  { unfold Examples.lowered. rewrite Hm. reflexivity. }
  destruct (getUsesM m1 (NamedFunction m1 "runtime.callMain"))
    as [|[parent mainCall | c] [|? ?]] eqn:Hu;
    try (rewrite E in Hu; vm_compute in Hu; discriminate Hu).
  destruct (IsACallInst mainCall) eqn:Hc.
  2:{ rewrite E in Hu. vm_compute in Hu. injection Hu as _ Hu.
      rewrite <- Hu in Hc. vm_compute in Hc. discriminate Hc. }
  destruct H as [f [f' [_ [_ [_ [Hg Hl]]]]]].
  exists (replace_func m1 f'). split; [|exact Hg].
  rewrite Hl. rewrite E. reflexivity.
Defined.
